(** * Hill-climb racing: the simulation core of [script.js]

    A shallow embedding of the simulation core of
    [src/work_folder/script.js] (terrain generation, the sliding terrain
    window, terrain queries, the per-frame physics step, pickup
    resolution, level tracking, the game loop, the input listeners, the
    colour helpers) together with the properties of the specification
    that concern it and further properties of the code.

    Modelling conventions.
    - A JavaScript number is a real number ([R]): arithmetic is exact, and
      [NaN], infinities and signed zeros do not occur.  [Math.sin],
      [Math.cos], [Math.sqrt] and [Math.PI] are the real [sin], [cos],
      [sqrt] and [PI]; [Math.atan2] is built from [atan].
    - The script computes in binary64, where arithmetic rounds.  What
      the properties say of computed numbers is said, as far as the
      property allows, by inequalities with room to spare, by facts
      about what is kept, dropped or switched, and by equations that
      repeat an expression of the script.  Where rounding decides a
      property, as for [getTerrainHeightAt] at a sample of the buffer,
      the function is embedded a second time on binary64 numbers (module
      [Binary64]).
    - The global variables of the script are the fields of one record
      [Game], grouped by the part of the program that owns them.
      Properties of object literals that are never assigned ([car.width],
      [car.height], a wheel's [radius]) are constants.
    - [Math.random()] and [Date.now()] read the next element of a sequence
      held by the state ([random], [clock]); nothing is assumed about the
      sequences except where a statement says so.
    - Drawing routines and text updates of the page do not feed back into
      the simulation and are left out, except the text of the
      [gameOverReason] element, which records why a run ended.
    - An uncaught [TypeError] (reading [.x] of [undefined] in
      [updateTerrain]) is the result [None].
    - A string is a sequence of bytes; the key names and the colours of
      the script are ASCII. *)

From Stdlib Require Import Floats.
From Stdlib Require Import Reals Lra Lia List String ZArith Bool Sorted
  Ascii DecimalString.
From Equations Require Import Equations.
Import ListNotations.
Local Open Scope R_scope.
Set Warnings "-inexact-float".

(** ** JavaScript numbers *)

Module JS.

Definition ltb (a b : R) : bool := if Rlt_dec a b then true else false.
Definition leb (a b : R) : bool := if Rle_dec a b then true else false.
Definition gtb (a b : R) : bool := ltb b a.
Definition geb (a b : R) : bool := leb b a.
Definition eqb (a b : R) : bool := if Req_dec_T a b then true else false.

(** [Math.floor] and [Math.ceil]. *)
Definition floor (a : R) : R := IZR (Zfloor a).
Definition ceil (a : R) : R := IZR (Zceil a).

(** Rounding towards zero, and the remainder operator [a % b], whose
    result has the sign of the dividend. *)
Definition trunc (a : R) : R := if ltb a 0 then ceil a else floor a.
Definition rem (a b : R) : R := a - b * trunc (a / b).

(** [Math.atan2(y, x)]. *)
Definition atan2 (y x : R) : R :=
  if ltb 0 x then atan (y / x)
  else if ltb x 0 then (if leb 0 y then atan (y / x) + PI else atan (y / x) - PI)
  else if ltb 0 y then PI / 2
  else if ltb y 0 then - (PI / 2)
  else 0.

End JS.

Notation "a <? b" := (JS.ltb a b) : R_scope.
Notation "a <=? b" := (JS.leb a b) : R_scope.
Notation "a >? b" := (JS.gtb a b) : R_scope.
Notation "a >=? b" := (JS.geb a b) : R_scope.

(** ** Game constants *)

Definition GRAVITY : R := 0.4.
Definition GROUND_FRICTION : R := 0.97.
Definition AIR_RESISTANCE : R := 0.99.
Definition MAX_SPEED : R := 12.
Definition ACCELERATION : R := 0.35.
Definition BRAKE_FORCE : R := 0.4.
Definition REVERSE_SPEED : R := -6.
Definition INITIAL_FUEL : R := 100.
Definition FUEL_CONSUMPTION : R := 0.015.
Definition HILL_SEGMENT_WIDTH : R := 30.
Definition MAX_FUEL : R := INITIAL_FUEL.
Definition FUEL_PICKUP_AMOUNT : R := 30.
Definition COIN_PICKUP_CHANCE : R := 0.1.
Definition PICKUP_CLEAR_BEHIND : R := 200.

Definition TERRAIN_FREQUENCY : R := 0.012.
Definition TERRAIN_FREQUENCY_2 : R := 0.025.
Definition TERRAIN_FREQUENCY_3 : R := 0.006.
Definition TERRAIN_AMPLITUDE : R := 70.
Definition TERRAIN_AMPLITUDE_2 : R := 35.
Definition TERRAIN_AMPLITUDE_3 : R := 50.
Definition NOISE_AMPLITUDE : R := 15.
Definition NOISE_SMOOTH : R := 0.9.

Definition FUEL_SPAWN_MIN_M : R := 400.
Definition FUEL_SPAWN_MAX_M : R := 600.

Definition BRIDGE_MIN_DISTANCE : R := 250.
Definition BRIDGE_MAX_DISTANCE : R := 400.
Definition BRIDGE_LENGTH : R := 150.

Definition BOOST_SPAWN_MIN : R := 200.
Definition BOOST_SPAWN_MAX : R := 350.
Definition BOOST_DURATION : R := 3000.
Definition BOOST_SPEED_MULTIPLIER : R := 1.8.

Definition BACKGROUND_CHANGE_DISTANCE : R := 100.
(** [BACKGROUNDS.length]. *)
Definition BACKGROUNDS_length : R := 5.
Definition LEVEL_DISTANCE : R := 500.

(** [canvas.height] is set to 600 by every [resizeCanvas]. *)
Definition canvas_height : R := 600.

(** ** The data of the simulation *)

(** One element of [terrain]. *)
Module Segment.
Record t := mk { x : R; y : R; isOnBridge : bool }.
End Segment.

Module Bridge.
Record t := mk { startX : R; endX : R; y : R; type : string }.
End Bridge.

(** An element of [fuelPickups] or of [coins]. *)
Module Pickup.
Record t := mk { x : R; y : R; collected : bool }.
Definition collect (p : t) : t := {| x := x p; y := y p; collected := true |}.
End Pickup.

Module Boost.
Record t := mk { x : R; y : R; collected : bool; active : bool }.
Definition collect (b : t) : t :=
  {| x := x b; y := y b; collected := true; active := active b |}.
End Boost.

Module Particle.
Record t := mk
  { x : R; y : R; vx : R; vy : R; life : R; color : string; size : R }.
End Particle.

Module Wheel.
Record t := mk { x : R; y : R }.
(** [radius: 9] for both wheels, never assigned. *)
Definition radius (w : t) : R := 9.
End Wheel.

Module Car.
Record t := mk
  { x : R; y : R;
    velocityX : R; velocityY : R;
    rotation : R; angularVelocity : R;
    onGround : bool;
    front : Wheel.t; back : Wheel.t }.

(** Properties of [car] that are never assigned. *)
Definition width (c : t) : R := 55.
Definition height (c : t) : R := 28.
Definition rotationDamping (c : t) : R := 0.88.

Definition set_x (v : R) (c : t) : t :=
  {| x := v; y := y c; velocityX := velocityX c; velocityY := velocityY c;
     rotation := rotation c; angularVelocity := angularVelocity c;
     onGround := onGround c; front := front c; back := back c |}.
Definition set_y (v : R) (c : t) : t :=
  {| x := x c; y := v; velocityX := velocityX c; velocityY := velocityY c;
     rotation := rotation c; angularVelocity := angularVelocity c;
     onGround := onGround c; front := front c; back := back c |}.
Definition set_velocityX (v : R) (c : t) : t :=
  {| x := x c; y := y c; velocityX := v; velocityY := velocityY c;
     rotation := rotation c; angularVelocity := angularVelocity c;
     onGround := onGround c; front := front c; back := back c |}.
Definition set_velocityY (v : R) (c : t) : t :=
  {| x := x c; y := y c; velocityX := velocityX c; velocityY := v;
     rotation := rotation c; angularVelocity := angularVelocity c;
     onGround := onGround c; front := front c; back := back c |}.
Definition set_rotation (v : R) (c : t) : t :=
  {| x := x c; y := y c; velocityX := velocityX c; velocityY := velocityY c;
     rotation := v; angularVelocity := angularVelocity c;
     onGround := onGround c; front := front c; back := back c |}.
Definition set_angularVelocity (v : R) (c : t) : t :=
  {| x := x c; y := y c; velocityX := velocityX c; velocityY := velocityY c;
     rotation := rotation c; angularVelocity := v;
     onGround := onGround c; front := front c; back := back c |}.
Definition set_onGround (v : bool) (c : t) : t :=
  {| x := x c; y := y c; velocityX := velocityX c; velocityY := velocityY c;
     rotation := rotation c; angularVelocity := angularVelocity c;
     onGround := v; front := front c; back := back c |}.
Definition set_wheels (f b : Wheel.t) (c : t) : t :=
  {| x := x c; y := y c; velocityX := velocityX c; velocityY := velocityY c;
     rotation := rotation c; angularVelocity := angularVelocity c;
     onGround := onGround c; front := f; back := b |}.
End Car.

(** The input intents [keys]. *)
Module Keys.
Record t := mk { forward : bool; backward : bool; brake : bool }.
End Keys.

(** [gameState] is one of ['start'], ['playing'], ['gameOver']. *)
Inductive Status := start | playing | gameOver.

Definition is_playing (st : Status) : bool :=
  match st with playing => true | _ => false end.

(** Score, fuel and the other counters of a run, with the text of the
    [gameOverReason] element. *)
Module Run.
Record t := mk
  { gameState : Status;
    score : R;
    fuel : R;
    coinCount : R;
    currentLevel : R;
    boostActive : bool;
    boostEndTime : R;
    currentBackgroundIndex : R;
    nextBackgroundIndex : R;
    backgroundTransition : R;
    gameOverReason : string }.

Definition set_gameState (v : Status) (r : t) : t :=
  {| gameState := v; score := score r; fuel := fuel r;
     coinCount := coinCount r; currentLevel := currentLevel r;
     boostActive := boostActive r; boostEndTime := boostEndTime r;
     currentBackgroundIndex := currentBackgroundIndex r;
     nextBackgroundIndex := nextBackgroundIndex r;
     backgroundTransition := backgroundTransition r;
     gameOverReason := gameOverReason r |}.
Definition set_score (v : R) (r : t) : t :=
  {| gameState := gameState r; score := v; fuel := fuel r;
     coinCount := coinCount r; currentLevel := currentLevel r;
     boostActive := boostActive r; boostEndTime := boostEndTime r;
     currentBackgroundIndex := currentBackgroundIndex r;
     nextBackgroundIndex := nextBackgroundIndex r;
     backgroundTransition := backgroundTransition r;
     gameOverReason := gameOverReason r |}.
Definition set_fuel (v : R) (r : t) : t :=
  {| gameState := gameState r; score := score r; fuel := v;
     coinCount := coinCount r; currentLevel := currentLevel r;
     boostActive := boostActive r; boostEndTime := boostEndTime r;
     currentBackgroundIndex := currentBackgroundIndex r;
     nextBackgroundIndex := nextBackgroundIndex r;
     backgroundTransition := backgroundTransition r;
     gameOverReason := gameOverReason r |}.
Definition set_coinCount (v : R) (r : t) : t :=
  {| gameState := gameState r; score := score r; fuel := fuel r;
     coinCount := v; currentLevel := currentLevel r;
     boostActive := boostActive r; boostEndTime := boostEndTime r;
     currentBackgroundIndex := currentBackgroundIndex r;
     nextBackgroundIndex := nextBackgroundIndex r;
     backgroundTransition := backgroundTransition r;
     gameOverReason := gameOverReason r |}.
Definition set_currentLevel (v : R) (r : t) : t :=
  {| gameState := gameState r; score := score r; fuel := fuel r;
     coinCount := coinCount r; currentLevel := v;
     boostActive := boostActive r; boostEndTime := boostEndTime r;
     currentBackgroundIndex := currentBackgroundIndex r;
     nextBackgroundIndex := nextBackgroundIndex r;
     backgroundTransition := backgroundTransition r;
     gameOverReason := gameOverReason r |}.
Definition set_boost (a : bool) (e : R) (r : t) : t :=
  {| gameState := gameState r; score := score r; fuel := fuel r;
     coinCount := coinCount r; currentLevel := currentLevel r;
     boostActive := a; boostEndTime := e;
     currentBackgroundIndex := currentBackgroundIndex r;
     nextBackgroundIndex := nextBackgroundIndex r;
     backgroundTransition := backgroundTransition r;
     gameOverReason := gameOverReason r |}.
Definition set_background (c n p : R) (r : t) : t :=
  {| gameState := gameState r; score := score r; fuel := fuel r;
     coinCount := coinCount r; currentLevel := currentLevel r;
     boostActive := boostActive r; boostEndTime := boostEndTime r;
     currentBackgroundIndex := c;
     nextBackgroundIndex := n;
     backgroundTransition := p;
     gameOverReason := gameOverReason r |}.
Definition set_gameOverReason (v : string) (r : t) : t :=
  {| gameState := gameState r; score := score r; fuel := fuel r;
     coinCount := coinCount r; currentLevel := currentLevel r;
     boostActive := boostActive r; boostEndTime := boostEndTime r;
     currentBackgroundIndex := currentBackgroundIndex r;
     nextBackgroundIndex := nextBackgroundIndex r;
     backgroundTransition := backgroundTransition r;
     gameOverReason := v |}.
End Run.

(** The terrain buffer and the entity collections. *)
Module World.
Record t := mk
  { terrain : list Segment.t;
    terrainOffset : R;
    bridges : list Bridge.t;
    fuelPickups : list Pickup.t;
    coins : list Pickup.t;
    boosts : list Boost.t }.

Definition set_terrain (v : list Segment.t) (w : t) : t :=
  {| terrain := v; terrainOffset := terrainOffset w; bridges := bridges w;
     fuelPickups := fuelPickups w; coins := coins w; boosts := boosts w |}.
Definition set_terrainOffset (v : R) (w : t) : t :=
  {| terrain := terrain w; terrainOffset := v; bridges := bridges w;
     fuelPickups := fuelPickups w; coins := coins w; boosts := boosts w |}.
Definition set_bridges (v : list Bridge.t) (w : t) : t :=
  {| terrain := terrain w; terrainOffset := terrainOffset w; bridges := v;
     fuelPickups := fuelPickups w; coins := coins w; boosts := boosts w |}.
Definition set_fuelPickups (v : list Pickup.t) (w : t) : t :=
  {| terrain := terrain w; terrainOffset := terrainOffset w;
     bridges := bridges w;
     fuelPickups := v; coins := coins w; boosts := boosts w |}.
Definition set_coins (v : list Pickup.t) (w : t) : t :=
  {| terrain := terrain w; terrainOffset := terrainOffset w;
     bridges := bridges w;
     fuelPickups := fuelPickups w; coins := v; boosts := boosts w |}.
Definition set_boosts (v : list Boost.t) (w : t) : t :=
  {| terrain := terrain w; terrainOffset := terrainOffset w;
     bridges := bridges w;
     fuelPickups := fuelPickups w; coins := coins w; boosts := v |}.
End World.

(** The cursors of the terrain generator. *)
Module Spawn.
Record t := mk
  { lastFuelSpawnX : R; nextFuelSpawnPx : R;
    terrainNoisePrev : R;
    lastBridgeX : R; nextBridgeX : R;
    lastBoostSpawnX : R; nextBoostSpawnPx : R }.

Definition set_fuel (l n : R) (g : t) : t :=
  {| lastFuelSpawnX := l; nextFuelSpawnPx := n;
     terrainNoisePrev := terrainNoisePrev g;
     lastBridgeX := lastBridgeX g; nextBridgeX := nextBridgeX g;
     lastBoostSpawnX := lastBoostSpawnX g;
     nextBoostSpawnPx := nextBoostSpawnPx g |}.
Definition set_terrainNoisePrev (v : R) (g : t) : t :=
  {| lastFuelSpawnX := lastFuelSpawnX g;
     nextFuelSpawnPx := nextFuelSpawnPx g;
     terrainNoisePrev := v;
     lastBridgeX := lastBridgeX g; nextBridgeX := nextBridgeX g;
     lastBoostSpawnX := lastBoostSpawnX g;
     nextBoostSpawnPx := nextBoostSpawnPx g |}.
Definition set_bridge (l n : R) (g : t) : t :=
  {| lastFuelSpawnX := lastFuelSpawnX g;
     nextFuelSpawnPx := nextFuelSpawnPx g;
     terrainNoisePrev := terrainNoisePrev g;
     lastBridgeX := l; nextBridgeX := n;
     lastBoostSpawnX := lastBoostSpawnX g;
     nextBoostSpawnPx := nextBoostSpawnPx g |}.
Definition set_boost (l n : R) (g : t) : t :=
  {| lastFuelSpawnX := lastFuelSpawnX g;
     nextFuelSpawnPx := nextFuelSpawnPx g;
     terrainNoisePrev := terrainNoisePrev g;
     lastBridgeX := lastBridgeX g; nextBridgeX := nextBridgeX g;
     lastBoostSpawnX := l; nextBoostSpawnPx := n |}.
End Spawn.

(** The whole state of the script. *)
Record Game := mkGame
  { canvas_width : R;
    car : Car.t;
    keys : Keys.t;
    run : Run.t;
    world : World.t;
    spawn : Spawn.t;
    particles : list Particle.t;
    random : nat -> R;
    clock : nat -> R }.

Definition with_car (f : Car.t -> Car.t) (s : Game) : Game :=
  {| canvas_width := canvas_width s; car := f (car s); keys := keys s;
     run := run s; world := world s; spawn := spawn s;
     particles := particles s; random := random s; clock := clock s |}.
Definition with_keys (k : Keys.t) (s : Game) : Game :=
  {| canvas_width := canvas_width s; car := car s; keys := k;
     run := run s; world := world s; spawn := spawn s;
     particles := particles s; random := random s; clock := clock s |}.
Definition with_run (f : Run.t -> Run.t) (s : Game) : Game :=
  {| canvas_width := canvas_width s; car := car s; keys := keys s;
     run := f (run s); world := world s; spawn := spawn s;
     particles := particles s; random := random s; clock := clock s |}.
Definition with_world (f : World.t -> World.t) (s : Game) : Game :=
  {| canvas_width := canvas_width s; car := car s; keys := keys s;
     run := run s; world := f (world s); spawn := spawn s;
     particles := particles s; random := random s; clock := clock s |}.
Definition with_spawn (f : Spawn.t -> Spawn.t) (s : Game) : Game :=
  {| canvas_width := canvas_width s; car := car s; keys := keys s;
     run := run s; world := world s; spawn := f (spawn s);
     particles := particles s; random := random s; clock := clock s |}.
Definition with_particles (v : list Particle.t) (s : Game) : Game :=
  {| canvas_width := canvas_width s; car := car s; keys := keys s;
     run := run s; world := world s; spawn := spawn s;
     particles := v; random := random s; clock := clock s |}.

(** [Math.random()]: the next draw, and the state with the draw consumed. *)
Definition Math_random (s : Game) : R * Game :=
  (random s 0%nat,
   {| canvas_width := canvas_width s; car := car s; keys := keys s;
      run := run s; world := world s; spawn := spawn s;
      particles := particles s;
      random := fun n => random s (S n); clock := clock s |}).

(** [Date.now()]. *)
Definition Date_now (s : Game) : R * Game :=
  (clock s 0%nat,
   {| canvas_width := canvas_width s; car := car s; keys := keys s;
      run := run s; world := world s; spawn := spawn s;
      particles := particles s;
      random := random s; clock := fun n => clock s (S n) |}).

(** ** Terrain generation *)

(** The test [x >= bridge.startX && x <= bridge.endX]. *)
Definition spans (x : R) (b : Bridge.t) : bool :=
  (x >=? Bridge.startX b) && (x <=? Bridge.endX b).

(** The threshold [(lo + Math.random() * (hi - lo)) * 10]. *)
Definition drawThreshold (lo hi : R) (s : Game) : R * Game :=
  let (r, s) := Math_random s in ((lo + r * (hi - lo)) * 10, s).

(** The height of a new segment: the surface of the bridge that spans [x]
    ([bridges.find], which succeeds exactly when [bridges.some] does), or
    else the three waves and the smoothed noise. *)
Definition segmentHeight (x index : R) (s : Game) : R * Game :=
  let baseHeight := canvas_height * 0.6 in
  let phase := index + World.terrainOffset (world s) / HILL_SEGMENT_WIDTH in
  match find (spans x) (World.bridges (world s)) with
  | Some bridge => (Bridge.y bridge, s)
  | None =>
      let levelMultiplier := 1 + (Run.currentLevel (run s) - 1) * 0.15 in
      let wave1 :=
        sin (phase * TERRAIN_FREQUENCY) * TERRAIN_AMPLITUDE * levelMultiplier in
      let wave2 := sin (phase * TERRAIN_FREQUENCY_2) * TERRAIN_AMPLITUDE_2 in
      let wave3 := sin (phase * TERRAIN_FREQUENCY_3) * TERRAIN_AMPLITUDE_3 in
      let (r, s) := Math_random s in
      let rawNoise := (r - 0.5) * NOISE_AMPLITUDE in
      let noise :=
        Spawn.terrainNoisePrev (spawn s) * NOISE_SMOOTH
        + rawNoise * (1 - NOISE_SMOOTH) in
      let s := with_spawn (Spawn.set_terrainNoisePrev noise) s in
      (baseHeight + wave1 + wave2 + wave3 + noise, s)
  end.

Definition pushSegment (p : Segment.t) (s : Game) : Game :=
  with_world (fun w => World.set_terrain (World.terrain w ++ [p]) w) s.

Definition spawnBridge (x y : R) (isOnBridge : bool) (s : Game) : Game :=
  if (x >=? Spawn.lastBridgeX (spawn s) + Spawn.nextBridgeX (spawn s))
     && negb isOnBridge
  then
    let bridgeStartX := x in
    let bridgeEndX := x + BRIDGE_LENGTH in
    let bridgeY := y in
    let (r, s) := Math_random s in
    let bridge :=
      {| Bridge.startX := bridgeStartX; Bridge.endX := bridgeEndX;
         Bridge.y := bridgeY;
         Bridge.type := if r >? 0.5 then "wooden"%string else "metal"%string |}
    in
    let s :=
      with_world (fun w => World.set_bridges (World.bridges w ++ [bridge]) w) s
    in
    let (next, s) := drawThreshold BRIDGE_MIN_DISTANCE BRIDGE_MAX_DISTANCE s in
    with_spawn (Spawn.set_bridge x next) s
  else s.

Definition spawnFuel (x y : R) (s : Game) : Game :=
  if x >=? Spawn.lastFuelSpawnX (spawn s) + Spawn.nextFuelSpawnPx (spawn s)
  then
    let p :=
      {| Pickup.x := x + HILL_SEGMENT_WIDTH * 0.5; Pickup.y := y - 15;
         Pickup.collected := false |} in
    let s :=
      with_world
        (fun w => World.set_fuelPickups (World.fuelPickups w ++ [p]) w) s in
    let (next, s) := drawThreshold FUEL_SPAWN_MIN_M FUEL_SPAWN_MAX_M s in
    with_spawn (Spawn.set_fuel x next) s
  else s.

Definition spawnBoost (x y : R) (s : Game) : Game :=
  if x >=? Spawn.lastBoostSpawnX (spawn s) + Spawn.nextBoostSpawnPx (spawn s)
  then
    let b :=
      {| Boost.x := x + HILL_SEGMENT_WIDTH * 0.5; Boost.y := y - 5;
         Boost.collected := false; Boost.active := false |} in
    let s :=
      with_world (fun w => World.set_boosts (World.boosts w ++ [b]) w) s in
    let (next, s) := drawThreshold BOOST_SPAWN_MIN BOOST_SPAWN_MAX s in
    with_spawn (Spawn.set_boost x next) s
  else s.

(** The chance of a coin on a new segment. *)
Definition coinChance (s : Game) : R :=
  COIN_PICKUP_CHANCE * (1 - Run.currentLevel (run s) * 0.05).

Definition spawnCoin (x y : R) (s : Game) : Game :=
  let chance := coinChance s in
  let (r, s) := Math_random s in
  if r <? chance
  then
    let (h, s) := Math_random s in
    let c :=
      {| Pickup.x := x + HILL_SEGMENT_WIDTH * 0.6; Pickup.y := y - 35 - h * 20;
         Pickup.collected := false |} in
    with_world (fun w => World.set_coins (World.coins w ++ [c]) w) s
  else s.

Definition addTerrainSegment (x index : R) (s : Game) : Game :=
  let isOnBridge := existsb (spans x) (World.bridges (world s)) in
  let (y, s) := segmentHeight x index s in
  let s :=
    pushSegment
      {| Segment.x := x; Segment.y := y; Segment.isOnBridge := isOnBridge |} s
  in
  let s := spawnBridge x y isOnBridge s in
  let s := spawnFuel x y s in
  let s := spawnBoost x y s in
  spawnCoin x y s.

(** The loop [for (let i = 0; i < numSegments; i++)] of [generateTerrain],
    with [n] iterations left. *)
Fixpoint generateSegments (n : nat) (i : R) (s : Game) : Game :=
  match n with
  | O => s
  | S n' =>
      let x := i * HILL_SEGMENT_WIDTH in
      generateSegments n' (i + 1) (addTerrainSegment x i s)
  end.

(** The assignments of [generateTerrain] before its loop: the buffers are
    emptied and the three spawn cursors set from the scroll offset, each
    with a fresh threshold. *)
Definition prepareTerrain (s : Game) : Game :=
  let s :=
    with_world
      (fun w => World.set_bridges [] (World.set_terrain [] w)) s in
  let s :=
    with_world
      (fun w =>
         World.set_boosts [] (World.set_coins [] (World.set_fuelPickups [] w)))
      s in
  let offset := World.terrainOffset (world s) in
  let (nextFuel, s) := drawThreshold FUEL_SPAWN_MIN_M FUEL_SPAWN_MAX_M s in
  let s := with_spawn (Spawn.set_fuel offset nextFuel) s in
  let (nextBoost, s) := drawThreshold BOOST_SPAWN_MIN BOOST_SPAWN_MAX s in
  let s := with_spawn (Spawn.set_boost offset nextBoost) s in
  let (nextBridge, s) :=
    drawThreshold BRIDGE_MIN_DISTANCE BRIDGE_MAX_DISTANCE s in
  with_spawn (Spawn.set_bridge (offset - 500) nextBridge) s.

Definition generateTerrain (s : Game) : Game :=
  let numSegments :=
    (Zceil (canvas_width s / HILL_SEGMENT_WIDTH) + 10)%Z in
  generateSegments (Z.to_nat numSegments) 0 (prepareTerrain s).

(** ** The terrain window *)

(** The loop [while (terrain.length > 0 && terrain[0].x < limit)
    terrain.shift()]. *)
Fixpoint shiftBehind (limit : R) (l : list Segment.t) : list Segment.t :=
  match l with
  | [] => []
  | p :: l' => if Segment.x p <? limit then shiftBehind limit l' else l
  end.

(** [terrain[terrain.length - 1]], which is [undefined] for an empty
    buffer. *)
Definition lastSegment (s : Game) : option Segment.t :=
  nth_error (World.terrain (world s))
    (List.length (World.terrain (world s)) - 1).

(** The world x the buffer has to reach. *)
Definition leadingEdge (s : Game) : R :=
  World.terrainOffset (world s) + canvas_width s + 100.

(** The number of segments the window is short of, the measure of the
    loop that extends it. *)
Definition windowGap (s : Game) : nat :=
  match lastSegment s with
  | Some p =>
      Z.to_nat (Zceil ((leadingEdge s - Segment.x p) / HILL_SEGMENT_WIDTH))
  | None => O
  end.

(** What the loop reads of the state. *)
Definition window (s : Game) : list Segment.t * R * R :=
  (World.terrain (world s), World.terrainOffset (world s), canvas_width s).

(** Reduce field reads of updated records. *)
Ltac simpl_fields :=
  cbn [car keys run world spawn particles random clock canvas_width
       with_car with_run with_world with_spawn with_keys with_particles
       Car.x Car.y Car.velocityX Car.velocityY Car.rotation
       Car.angularVelocity Car.onGround Car.front Car.back
       Car.set_x Car.set_y Car.set_velocityX Car.set_velocityY
       Car.set_rotation Car.set_angularVelocity Car.set_onGround
       Car.set_wheels
       Run.gameState Run.score Run.fuel Run.coinCount Run.currentLevel
       Run.boostActive Run.boostEndTime Run.currentBackgroundIndex
       Run.nextBackgroundIndex Run.backgroundTransition Run.gameOverReason
       Run.set_gameState Run.set_score Run.set_fuel Run.set_coinCount
       Run.set_currentLevel Run.set_boost Run.set_background
       Run.set_gameOverReason
       World.terrain World.terrainOffset World.bridges World.fuelPickups
       World.coins World.boosts
       World.set_terrain World.set_terrainOffset World.set_bridges
       World.set_fuelPickups World.set_coins World.set_boosts
       Spawn.lastFuelSpawnX Spawn.nextFuelSpawnPx Spawn.terrainNoisePrev
       Spawn.lastBridgeX Spawn.nextBridgeX Spawn.lastBoostSpawnX
       Spawn.nextBoostSpawnPx
       Spawn.set_fuel Spawn.set_terrainNoisePrev Spawn.set_bridge
       Spawn.set_boost
       Keys.forward Keys.backward Keys.brake
       Wheel.x Wheel.y fst snd].

Ltac simpl_fields_in H :=
  cbn [car keys run world spawn particles random clock canvas_width
       with_car with_run with_world with_spawn with_keys with_particles
       Car.x Car.y Car.velocityX Car.velocityY Car.rotation
       Car.angularVelocity Car.onGround Car.front Car.back
       Car.set_x Car.set_y Car.set_velocityX Car.set_velocityY
       Car.set_rotation Car.set_angularVelocity Car.set_onGround
       Car.set_wheels
       Run.gameState Run.score Run.fuel Run.coinCount Run.currentLevel
       Run.boostActive Run.boostEndTime Run.currentBackgroundIndex
       Run.nextBackgroundIndex Run.backgroundTransition Run.gameOverReason
       Run.set_gameState Run.set_score Run.set_fuel Run.set_coinCount
       Run.set_currentLevel Run.set_boost Run.set_background
       Run.set_gameOverReason
       World.terrain World.terrainOffset World.bridges World.fuelPickups
       World.coins World.boosts
       World.set_terrain World.set_terrainOffset World.set_bridges
       World.set_fuelPickups World.set_coins World.set_boosts
       Spawn.lastFuelSpawnX Spawn.nextFuelSpawnPx Spawn.terrainNoisePrev
       Spawn.lastBridgeX Spawn.nextBridgeX Spawn.lastBoostSpawnX
       Spawn.nextBoostSpawnPx
       Spawn.set_fuel Spawn.set_terrainNoisePrev Spawn.set_bridge
       Spawn.set_boost
       Keys.forward Keys.backward Keys.brake
       Wheel.x Wheel.y fst snd] in H.

(** Split on every test of the goal, the innermost first. *)
Ltac split_tests :=
  simpl_fields;
  repeat (match goal with
          | |- context [match ?c with _ => _ end] =>
              lazymatch c with
              | context [match _ with _ => _ end] => fail
              | _ => destruct c eqn:?
              end
          end; simpl_fields).

Definition inspect {A : Type} (a : A) : {b : A | a = b} := exist _ a eq_refl.

(** The loop [while (terrain[terrain.length - 1].x < terrainOffset +
    canvas.width + 100) { ... addTerrainSegment(x, index) }], entered with
    a buffer that is not empty. *)
Equations? extendTerrain (s : Game) : Game by wf (windowGap s) lt :=
  extendTerrain s with inspect (lastSegment s) := {
    | exist _ None _ => s;
    | exist _ (Some last) Hlast
        with inspect (Segment.x last <? leadingEdge s) := {
        | exist _ true Hlt =>
            let x := Segment.x last + HILL_SEGMENT_WIDTH in
            let index := INR (List.length (World.terrain (world s))) in
            extendTerrain (addTerrainSegment x index s);
        | exist _ false _ => s } }.
Proof.
  clear extendTerrain.
  assert (Hcoin : forall x y s, window (spawnCoin x y s) = window s).
  { intros; unfold spawnCoin, Math_random; split_tests; reflexivity. }
  assert (Hboost : forall x y s, window (spawnBoost x y s) = window s).
  { intros; unfold spawnBoost, drawThreshold, Math_random; split_tests;
      reflexivity. }
  assert (Hfuel : forall x y s, window (spawnFuel x y s) = window s).
  { intros; unfold spawnFuel, drawThreshold, Math_random; split_tests;
      reflexivity. }
  assert (Hbridge : forall x y b s, window (spawnBridge x y b s) = window s).
  { intros; unfold spawnBridge, drawThreshold, Math_random; split_tests;
      reflexivity. }
  assert (Hheight : forall x i s, window (snd (segmentHeight x i s)) = window s).
  { intros; unfold segmentHeight, Math_random; split_tests; reflexivity. }
  assert (Hadd : exists y b,
             window (addTerrainSegment x index s)
             = (World.terrain (world s) ++ [Segment.mk x y b],
                World.terrainOffset (world s), canvas_width s)).
  { unfold addTerrainSegment.
    specialize (Hheight x index s).
    destruct (segmentHeight x index s) as [y s1]. cbn [snd] in Hheight.
    rewrite Hcoin, Hboost, Hfuel, Hbridge.
    exists y, (existsb (spans x) (World.bridges (world s))).
    unfold window in *. cbn. congruence. }
  destruct Hadd as (y & b & Hadd).
  assert (Ht : World.terrain (world (addTerrainSegment x index s))
               = World.terrain (world s) ++ [Segment.mk x y b])
    by (unfold window in Hadd; congruence).
  assert (Ho : World.terrainOffset (world (addTerrainSegment x index s))
               = World.terrainOffset (world s))
    by (unfold window in Hadd; congruence).
  assert (Hw : canvas_width (addTerrainSegment x index s) = canvas_width s)
    by (unfold window in Hadd; congruence).
  clear Hadd Hcoin Hboost Hfuel Hbridge Hheight.
  unfold windowGap, lastSegment, leadingEdge in *.
  rewrite Ht, Ho, Hw, Hlast.
  rewrite length_app, Nat.add_sub; cbn [List.length].
  rewrite nth_error_app2 by lia. rewrite Nat.sub_diag. cbn.
  unfold JS.ltb in Hlt.
  destruct (Rlt_dec _ _) as [Hlt'|]; [clear Hlt | discriminate].
  subst x; unfold HILL_SEGMENT_WIDTH.
  set (g := (World.terrainOffset (world s) + canvas_width s + 100
             - Segment.x last) / 30).
  replace ((World.terrainOffset (world s) + canvas_width s + 100
            - (Segment.x last + 30)) / 30) with (g + IZR (-1))
    by (unfold g; lra).
  assert (Hg : 0 < g) by (unfold g; lra).
  assert (Hc : (Zceil (g + IZR (-1)) = Zceil g - 1)%Z).
  { unfold Zceil. replace (- (g + IZR (-1))) with (- g + IZR 1) by lra.
    rewrite Zfloor_addz. lia. }
  rewrite Hc.
  assert (0 < Zceil g)%Z.
  { pose proof (Zfloor_ceil_bound g) as [_ Hu].
    apply lt_IZR. apply Rlt_le_trans with g; [lra | exact Hu]. }
  lia.
Qed.

(** [updateTerrain]; the [TypeError] of the second loop on an empty buffer
    is [None]. *)
Definition updateTerrain (s : Game) : option Game :=
  let limit := World.terrainOffset (world s) - 100 in
  let s :=
    with_world
      (fun w => World.set_terrain (shiftBehind limit (World.terrain w)) w) s in
  match lastSegment s with
  | None => None
  | Some _ =>
      let s := extendTerrain s in
      let offset := World.terrainOffset (world s) in
      Some
        (with_world
           (fun w =>
              World.set_bridges
                (filter (fun b => Bridge.endX b >? offset - 200)
                   (World.bridges w)) w) s)
  end.

(** ** Terrain queries *)

(** The scan [for (let i = 0; i < terrain.length - 1; i++)] over the pairs
    of neighbours [p1 = terrain[i]], [p2 = terrain[i + 1]]: [hit p1 p2] at
    the first pair with [p1.x <= worldX <= p2.x], [miss] when the scan
    ends. *)
Fixpoint scanTerrain {A : Type} (worldX : R) (hit : Segment.t -> Segment.t -> A)
  (miss : A) (l : list Segment.t) : A :=
  match l with
  | p1 :: ((p2 :: _) as l') =>
      if (worldX >=? Segment.x p1) && (worldX <=? Segment.x p2)
      then hit p1 p2
      else scanTerrain worldX hit miss l'
  | _ => miss
  end.

Definition interpolate (worldX : R) (p1 p2 : Segment.t) : R :=
  let ratio := (worldX - Segment.x p1) / (Segment.x p2 - Segment.x p1) in
  Segment.y p1 + (Segment.y p2 - Segment.y p1) * ratio.

Definition getTerrainHeightAt (worldX : R) (s : Game) : R :=
  scanTerrain worldX (interpolate worldX) (canvas_height * 0.6)
    (World.terrain (world s)).

Definition getTerrainAngleAt (worldX : R) (s : Game) : R :=
  scanTerrain worldX
    (fun p1 p2 =>
       let dx := Segment.x p2 - Segment.x p1 in
       let dy := Segment.y p2 - Segment.y p1 in
       JS.atan2 dy dx)
    0 (World.terrain (world s)).

Definition updateWheelPositions (s : Game) : Game :=
  let c := car s in
  let cos := cos (Car.rotation c) in
  let sin := sin (Car.rotation c) in
  let frontOffsetX := Car.width c * 0.35 in
  let front :=
    {| Wheel.x := Car.x c + frontOffsetX * cos;
       Wheel.y := Car.y c + frontOffsetX * sin + Car.height c / 2 |} in
  let backOffsetX := - Car.width c * 0.35 in
  let back :=
    {| Wheel.x := Car.x c + backOffsetX * cos;
       Wheel.y := Car.y c + backOffsetX * sin + Car.height c / 2 |} in
  with_car (Car.set_wheels front back) s.

(** The result of [checkWheelCollision]: [{ collision: true, terrainY,
    penetration }] or [{ collision: false }]. *)
Inductive Contact :=
| touching (terrainY penetration : R)
| clear.

Definition collision (c : Contact) : bool :=
  match c with touching _ _ => true | clear => false end.

Definition checkWheelCollision (wheel : Wheel.t) (s : Game) : Contact :=
  let worldX := Wheel.x wheel + World.terrainOffset (world s) in
  let terrainY := getTerrainHeightAt worldX s in
  if Wheel.y wheel + Wheel.radius wheel >=? terrainY
  then touching terrainY (Wheel.y wheel + Wheel.radius wheel - terrainY)
  else clear.

(** ** Terrain height in binary64 *)

(** [getTerrainHeightAt] once more, on the binary64 numbers of the
    script: Rocq's primitive floats, whose operations round to nearest,
    ties to even, as the arithmetic of JavaScript numbers does.  A decimal
    literal denotes the nearest binary64 value, as in the script.  The
    global [terrain] of the script is a parameter here, and
    [canvas.height] is the 600 that [resizeCanvas] sets. *)
Module Binary64.

Module Segment.
Record t := mk { x : float; y : float; isOnBridge : bool }.
End Segment.

Definition canvas_height : float := 600%float.

(** The test [worldX >= p1.x && worldX <= p2.x]. *)
Definition brackets (worldX : float) (p1 p2 : Segment.t) : bool :=
  PrimFloat.leb (Segment.x p1) worldX && PrimFloat.leb worldX (Segment.x p2).

Fixpoint scanTerrain {A : Type} (worldX : float)
  (hit : Segment.t -> Segment.t -> A) (miss : A) (l : list Segment.t) : A :=
  match l with
  | p1 :: ((p2 :: _) as l') =>
      if brackets worldX p1 p2 then hit p1 p2
      else scanTerrain worldX hit miss l'
  | _ => miss
  end.

Definition interpolate (worldX : float) (p1 p2 : Segment.t) : float :=
  let ratio :=
    ((worldX - Segment.x p1) / (Segment.x p2 - Segment.x p1))%float in
  (Segment.y p1 + (Segment.y p2 - Segment.y p1) * ratio)%float.

Definition getTerrainHeightAt (worldX : float) (terrain : list Segment.t)
  : float :=
  scanTerrain worldX (interpolate worldX) (canvas_height * 0.6)%float terrain.

End Binary64.

(** ** Particles *)

(** [createParticles(x, y, color, count)]. *)
Fixpoint createParticles (x y : R) (color : string) (count : nat) (s : Game)
  : Game :=
  match count with
  | O => s
  | S count' =>
      let (r1, s) := Math_random s in
      let (r2, s) := Math_random s in
      let (r3, s) := Math_random s in
      let p :=
        {| Particle.x := x; Particle.y := y;
           Particle.vx := (r1 - 0.5) * 4;
           Particle.vy := (r2 - 0.5) * 4 - 2;
           Particle.life := 1;
           Particle.color := color;
           Particle.size := r3 * 4 + 2 |} in
      createParticles x y color count' (with_particles (particles s ++ [p]) s)
  end.

(** [updateParticles]: every particle moves and ages, and the dead ones
    are spliced out. *)
Fixpoint stepParticles (l : list Particle.t) : list Particle.t :=
  match l with
  | [] => []
  | p :: l' =>
      let rest := stepParticles l' in
      let p' :=
        {| Particle.x := Particle.x p + Particle.vx p;
           Particle.y := Particle.y p + Particle.vy p;
           Particle.vx := Particle.vx p;
           Particle.vy := Particle.vy p + 0.2;
           Particle.life := Particle.life p - 0.02;
           Particle.color := Particle.color p;
           Particle.size := Particle.size p |} in
      if Particle.life p' <=? 0 then rest else p' :: rest
  end.

Definition updateParticles (s : Game) : Game :=
  with_particles (stepParticles (particles s)) s.

(** ** Boost *)

Definition activateBoost (s : Game) : Game :=
  let (now, s) := Date_now s in
  with_run (Run.set_boost true (now + BOOST_DURATION)) s.

Definition updateBoost (s : Game) : Game :=
  if Run.boostActive (run s)
  then
    let (now, s) := Date_now s in
    let remaining := Run.boostEndTime (run s) - now in
    if remaining <=? 0
    then with_run (Run.set_boost false (Run.boostEndTime (run s))) s
    else s
  else s.

(** ** Pickups *)

(** The test [Math.sqrt(dx * dx + dy * dy) < reach] of an entity at
    [(x, y)] against the car's centre. *)
Definition within (reach x y carWorldX carWorldY : R) : bool :=
  let dx := x - carWorldX in
  let dy := y - carWorldY in
  let dist := sqrt (dx * dx + dy * dy) in
  dist <? reach.

(** The loop over [fuelPickups]: the processed pickups and the state. *)
Fixpoint collectFuel (carWorldX carWorldY carRadius : R)
  (l : list Pickup.t) (s : Game) : list Pickup.t * Game :=
  match l with
  | [] => ([], s)
  | p :: l' =>
      if Pickup.collected p then
        let (rest, s) := collectFuel carWorldX carWorldY carRadius l' s in
        (p :: rest, s)
      else if within (carRadius + 10) (Pickup.x p) (Pickup.y p)
                carWorldX carWorldY
      then
        let s :=
          with_run
            (fun r =>
               Run.set_fuel (Rmin MAX_FUEL (Run.fuel r + FUEL_PICKUP_AMOUNT)) r)
            s in
        let s :=
          createParticles (Pickup.x p - World.terrainOffset (world s))
            (Pickup.y p) "#f4a261" 8 s in
        let (rest, s) := collectFuel carWorldX carWorldY carRadius l' s in
        (Pickup.collect p :: rest, s)
      else
        let (rest, s) := collectFuel carWorldX carWorldY carRadius l' s in
        (p :: rest, s)
  end.

(** The loop over [coins]. *)
Fixpoint collectCoins (carWorldX carWorldY carRadius : R)
  (l : list Pickup.t) (s : Game) : list Pickup.t * Game :=
  match l with
  | [] => ([], s)
  | c :: l' =>
      if Pickup.collected c then
        let (rest, s) := collectCoins carWorldX carWorldY carRadius l' s in
        (c :: rest, s)
      else if within (carRadius + 10) (Pickup.x c) (Pickup.y c)
                carWorldX carWorldY
      then
        let s :=
          with_run (fun r => Run.set_coinCount (Run.coinCount r + 1) r) s in
        let s :=
          createParticles (Pickup.x c - World.terrainOffset (world s))
            (Pickup.y c) "#FFD700" 10 s in
        let (rest, s) := collectCoins carWorldX carWorldY carRadius l' s in
        (Pickup.collect c :: rest, s)
      else
        let (rest, s) := collectCoins carWorldX carWorldY carRadius l' s in
        (c :: rest, s)
  end.

(** The loop over [boosts]. *)
Fixpoint collectBoosts (carWorldX carWorldY carRadius : R)
  (l : list Boost.t) (s : Game) : list Boost.t * Game :=
  match l with
  | [] => ([], s)
  | b :: l' =>
      if Boost.collected b then
        let (rest, s) := collectBoosts carWorldX carWorldY carRadius l' s in
        (b :: rest, s)
      else if within (carRadius + 15) (Boost.x b) (Boost.y b)
                carWorldX carWorldY
      then
        let s := activateBoost s in
        let s :=
          createParticles (Boost.x b - World.terrainOffset (world s))
            (Boost.y b) "#FFD93D" 15 s in
        let (rest, s) := collectBoosts carWorldX carWorldY carRadius l' s in
        (Boost.collect b :: rest, s)
      else
        let (rest, s) := collectBoosts carWorldX carWorldY carRadius l' s in
        (b :: rest, s)
  end.

Definition checkPickups (s : Game) : Game :=
  let carWorldX := Car.x (car s) + World.terrainOffset (world s) in
  let carWorldY := Car.y (car s) in
  let carRadius := Rmax (Car.width (car s)) (Car.height (car s)) * 0.6 in
  let (fuelPickups, s) :=
    collectFuel carWorldX carWorldY carRadius (World.fuelPickups (world s)) s in
  let s := with_world (World.set_fuelPickups fuelPickups) s in
  let (coins, s) :=
    collectCoins carWorldX carWorldY carRadius (World.coins (world s)) s in
  let s := with_world (World.set_coins coins) s in
  let (boosts, s) :=
    collectBoosts carWorldX carWorldY carRadius (World.boosts (world s)) s in
  let s := with_world (World.set_boosts boosts) s in
  let behind := World.terrainOffset (world s) - PICKUP_CLEAR_BEHIND in
  with_world
    (fun w =>
       World.set_boosts
         (filter (fun b => negb (Boost.collected b) && (Boost.x b >? behind))
            (World.boosts w))
         (World.set_coins
            (filter
               (fun c => negb (Pickup.collected c) && (Pickup.x c >? behind))
               (World.coins w))
            (World.set_fuelPickups
               (filter
                  (fun p => negb (Pickup.collected p) && (Pickup.x p >? behind))
                  (World.fuelPickups w))
               w)))
    s.

(** ** The end of a run *)

Definition endGame (reason : string) (s : Game) : Game :=
  if negb (is_playing (Run.gameState (run s))) then s
  else
    with_run
      (fun r => Run.set_gameOverReason reason (Run.set_gameState gameOver r)) s.

Definition reason_abyss : string := "You fell into the abyss!".
Definition reason_flipped : string := "Your car flipped!".
Definition reason_fuel : string := "Out of fuel!".

(** ** The physics step *)

Definition currentMaxSpeed (s : Game) : R :=
  if Run.boostActive (run s) then MAX_SPEED * BOOST_SPEED_MULTIPLIER
  else MAX_SPEED.

Definition currentAcceleration (s : Game) : R :=
  if Run.boostActive (run s) then ACCELERATION * 1.5 else ACCELERATION.

(** Apply controls. *)
Definition applyControls (s : Game) : Game :=
  let acceleration := currentAcceleration s in
  let s :=
    if Keys.forward (keys s) && (Run.fuel (run s) >? 0) then
      let s :=
        with_car
          (fun c => Car.set_velocityX (Car.velocityX c + acceleration) c) s in
      let s :=
        with_run (fun r => Run.set_fuel (Run.fuel r - FUEL_CONSUMPTION) r) s in
      if Run.fuel (run s) <? 0 then with_run (Run.set_fuel 0) s else s
    else s in
  let s :=
    if Keys.backward (keys s) then
      with_car
        (fun c => Car.set_velocityX (Car.velocityX c - ACCELERATION * 0.8) c) s
    else s in
  if Keys.brake (keys s) then
    with_car
      (fun c => Car.set_velocityX (Car.velocityX c * (1 - BRAKE_FORCE)) c) s
  else s.

(** Limit speeds. *)
Definition limitSpeeds (s : Game) : Game :=
  let maxSpeed := currentMaxSpeed s in
  let s :=
    if Car.velocityX (car s) >? maxSpeed
    then with_car (Car.set_velocityX maxSpeed) s else s in
  if Car.velocityX (car s) <? REVERSE_SPEED
  then with_car (Car.set_velocityX REVERSE_SPEED) s else s.

(** Apply gravity. *)
Definition applyGravity (s : Game) : Game :=
  with_car (fun c => Car.set_velocityY (Car.velocityY c + GRAVITY) c) s.

(** The two wheel tests and the branch [if (car.onGround) ... else ...]. *)
Definition resolveContact (s : Game) : Game :=
  let frontCollision := checkWheelCollision (Car.front (car s)) s in
  let backCollision := checkWheelCollision (Car.back (car s)) s in
  let s :=
    with_car
      (Car.set_onGround (collision frontCollision || collision backCollision))
      s in
  if Car.onGround (car s) then
    let worldX := Car.x (car s) + World.terrainOffset (world s) in
    let terrainAngle := getTerrainAngleAt worldX s in
    let targetRotation := terrainAngle in
    let rotationDiff := targetRotation - Car.rotation (car s) in
    let s :=
      with_car
        (fun c => Car.set_rotation (Car.rotation c + rotationDiff * 0.15) c) s
    in
    let s :=
      match frontCollision, backCollision with
      | touching frontY _, touching backY _ =>
          let avgTerrainY := (frontY + backY) / 2 in
          with_car
            (fun c =>
               Car.set_y
                 (avgTerrainY - Car.height c / 2 - Wheel.radius (Car.front c))
                 c) s
      | touching frontY _, clear =>
          with_car
            (fun c =>
               Car.set_y
                 (frontY - Car.height c / 2 - Wheel.radius (Car.front c)) c) s
      | clear, touching backY _ =>
          with_car
            (fun c =>
               Car.set_y
                 (backY - Car.height c / 2 - Wheel.radius (Car.back c)) c) s
      | clear, clear => s
      end in
    let s :=
      with_car
        (fun c =>
           Car.set_velocityY 0
             (Car.set_velocityX (Car.velocityX c * GROUND_FRICTION) c)) s in
    let slopeInfluence := sin terrainAngle * 0.25 in
    let s :=
      with_car
        (fun c => Car.set_velocityX (Car.velocityX c + slopeInfluence) c) s in
    with_car
      (fun c =>
         Car.set_angularVelocity
           (Car.angularVelocity c * Car.rotationDamping c) c) s
  else
    let s :=
      with_car
        (fun c => Car.set_velocityX (Car.velocityX c * AIR_RESISTANCE) c) s in
    let s :=
      with_car
        (fun c => Car.set_rotation (Car.rotation c + Car.angularVelocity c) c)
        s in
    let s :=
      with_car
        (fun c => Car.set_angularVelocity (Car.angularVelocity c * 0.96) c) s
    in
    with_car
      (fun c =>
         Car.set_angularVelocity
           (Car.angularVelocity c + Car.velocityX c * 0.0008) c) s.

(** [car.x += car.velocityX; car.y += car.velocityY]. *)
Definition moveCar (s : Game) : Game :=
  with_car
    (fun c =>
       Car.set_y (Car.y c + Car.velocityY c)
         (Car.set_x (Car.x c + Car.velocityX c) c)) s.

(** Scroll terrain, and keep the car off the left edge. *)
Definition scrollTerrain (s : Game) : Game :=
  let anchor := canvas_width s * 0.4 in
  let s :=
    if Car.x (car s) >? anchor then
      let scroll := Car.x (car s) - anchor in
      let s :=
        with_world
          (fun w => World.set_terrainOffset (World.terrainOffset w + scroll) w)
          s in
      let s := with_car (Car.set_x anchor) s in
      with_run (fun r => Run.set_score (Run.score r + scroll / 10) r) s
    else s in
  if Car.x (car s) <? 50 then
    with_car
      (fun c => Car.set_velocityX (Rmax 0 (Car.velocityX c)) (Car.set_x 50 c))
      s
  else s.

(** The three conditions under which the run ends. *)
Definition fellIntoAbyss (s : Game) : bool :=
  Car.y (car s) >? canvas_height + 100.

Definition normalizedRotation (s : Game) : R :=
  JS.rem (JS.rem (Car.rotation (car s)) (PI * 2) + PI * 2) (PI * 2).

Definition flipped (s : Game) : bool :=
  (normalizedRotation s >? PI * 0.7) && (normalizedRotation s <? PI * 1.3).

Definition outOfFuel (s : Game) : bool :=
  (Run.fuel (run s) <=? 0)
  && (Car.velocityX (car s) <? 0.1)
  && (Car.velocityX (car s) >? -0.1).

(** The three checks at the end of [updatePhysics], in the order of the
    source. *)
Definition checkGameOver (s : Game) : Game :=
  let s := if fellIntoAbyss s then endGame reason_abyss s else s in
  let s := if flipped s then endGame reason_flipped s else s in
  if outOfFuel s then endGame reason_fuel s else s.

(** The state of the car, the fuel and the scroll after the integration of
    one step, before the run is checked for its end. *)
Definition integrate (s : Game) : Game :=
  scrollTerrain
    (moveCar
       (resolveContact
          (updateWheelPositions
             (applyGravity (limitSpeeds (applyControls s)))))).

Definition updatePhysics (s : Game) : Game := checkGameOver (integrate s).

(** ** Level and background *)

Definition updateLevel (s : Game) : Game :=
  let newLevel := JS.floor (Run.score (run s) / LEVEL_DISTANCE) + 1 in
  if newLevel >? Run.currentLevel (run s)
  then with_run (Run.set_currentLevel newLevel) s
  else s.

Definition updateBackground (s : Game) : Game :=
  let targetIndex :=
    JS.rem (JS.floor (Run.score (run s) / BACKGROUND_CHANGE_DISTANCE))
      BACKGROUNDS_length in
  if negb (JS.eqb targetIndex (Run.currentBackgroundIndex (run s))) then
    let transition := Rmin 1 (Run.backgroundTransition (run s) + 0.01) in
    if transition >=? 1
    then with_run (Run.set_background targetIndex targetIndex 0) s
    else
      with_run
        (Run.set_background (Run.currentBackgroundIndex (run s)) targetIndex
           transition) s
  else s.

(** ** The game loop *)

(** One frame.  The drawing calls and [updateUI] are left out. *)
Definition gameLoop (s : Game) : option Game :=
  if negb (is_playing (Run.gameState (run s))) then Some s
  else
    let s := updatePhysics s in
    match updateTerrain s with
    | None => None
    | Some s =>
        let s := checkPickups s in
        let s := updateBoost s in
        let s := updateParticles s in
        let s := updateLevel s in
        Some (updateBackground s)
    end.

(** The assignments of [startGame] up to and including
    [generateTerrain()]. *)
Definition resetGame (s : Game) : Game :=
  let s :=
    with_run
      (fun _ =>
         {| Run.gameState := playing;
            Run.score := 0;
            Run.fuel := INITIAL_FUEL;
            Run.coinCount := Run.coinCount (run s);
            Run.currentLevel := 1;
            Run.boostActive := Run.boostActive (run s);
            Run.boostEndTime := Run.boostEndTime (run s);
            Run.currentBackgroundIndex := 0;
            Run.nextBackgroundIndex := 0;
            Run.backgroundTransition := 0;
            Run.gameOverReason := Run.gameOverReason (run s) |}) s in
  let s := with_world (World.set_terrainOffset 0) s in
  let s :=
    with_car
      (fun c =>
         {| Car.x := 200; Car.y := 300;
            Car.velocityX := 0; Car.velocityY := 0;
            Car.rotation := 0; Car.angularVelocity := 0;
            Car.onGround := false;
            Car.front := Car.front c; Car.back := Car.back c |}) s in
  let s :=
    with_keys
      {| Keys.forward := false; Keys.backward := false; Keys.brake := false |}
      s in
  let s :=
    with_world
      (fun w =>
         World.set_boosts [] (World.set_coins [] (World.set_fuelPickups [] w)))
      s in
  let s := with_run (Run.set_coinCount 0) s in
  let s := with_spawn (Spawn.set_terrainNoisePrev 0) s in
  let s := with_particles [] s in
  let s := with_run (Run.set_boost false (Run.boostEndTime (run s))) s in
  generateTerrain s.

(** [startGame]: the reset, then the first frame. *)
Definition startGame (s : Game) : option Game := gameLoop (resetGame s).

(** A frame with the input intents [k] held while it runs. *)
Definition tick (k : Keys.t) (s : Game) : option Game :=
  gameLoop (with_keys k s).

(** The frames of a sequence of inputs, one after the other; [None] once a
    frame has raised. *)
Fixpoint ticks (ks : list Keys.t) (s : Game) : option Game :=
  match ks with
  | [] => Some s
  | k :: ks' =>
      match tick k s with
      | Some s' => ticks ks' s'
      | None => None
      end
  end.

(** What a frame reports: whether the run goes on, and if not why. *)
Inductive TickResult :=
| continuing
| ended (reason : string).

Definition result (s : Game) : TickResult :=
  if is_playing (Run.gameState (run s)) then continuing
  else ended (Run.gameOverReason (run s)).

(** ** Input *)

(** [String.prototype.toLowerCase] on a string of bytes: the letters A
    to Z are lowered and every other byte is kept.  No character
    outside A to Z lowers to a letter of the key names tested below, so
    the tests agree with the script on every key name. *)
Definition lowerCase (c : ascii) : ascii :=
  let n := nat_of_ascii c in
  if (65 <=? n)%nat && (n <=? 90)%nat then ascii_of_nat (n + 32) else c.

Fixpoint toLowerCase (s : string) : string :=
  match s with
  | EmptyString => EmptyString
  | String c s' => String (lowerCase c) (toLowerCase s')
  end.

(** The assignments [keys.forward = v], [keys.backward = v] and
    [keys.brake = v]. *)
Definition set_forward (v : bool) (s : Game) : Game :=
  with_keys
    {| Keys.forward := v; Keys.backward := Keys.backward (keys s);
       Keys.brake := Keys.brake (keys s) |} s.

Definition set_backward (v : bool) (s : Game) : Game :=
  with_keys
    {| Keys.forward := Keys.forward (keys s); Keys.backward := v;
       Keys.brake := Keys.brake (keys s) |} s.

Definition set_brake (v : bool) (s : Game) : Game :=
  with_keys
    {| Keys.forward := Keys.forward (keys s);
       Keys.backward := Keys.backward (keys s); Keys.brake := v |} s.

(** The body shared by the two keyboard listeners: the three tests on the
    lowered name of the key, each assigning [v]. *)
Definition assignKey (v : bool) (key : string) (s : Game) : Game :=
  let key := toLowerCase key in
  let s :=
    if (key =? "d")%string || (key =? "arrowright")%string
    then set_forward v s else s in
  let s :=
    if (key =? "a")%string || (key =? "arrowleft")%string
    then set_backward v s else s in
  if (key =? "b")%string then set_brake v s else s.

(** The listener of [keydown], with [e.key] as its argument. *)
Definition keydown (key : string) (s : Game) : Game :=
  if negb (is_playing (Run.gameState (run s))) then s
  else assignKey true key s.

(** The listener of [keyup]. *)
Definition keyup (key : string) (s : Game) : Game := assignKey false key s.

(** The buttons of [setupMobileControls] and the listeners of
    [touchstart] and [touchend] it adds to each button of the page. *)
Inductive Button := btnForward | btnReverse | btnBrake.

Definition touch (v : bool) (b : Button) (s : Game) : Game :=
  match b with
  | btnForward => set_forward v s
  | btnReverse => set_backward v s
  | btnBrake => set_brake v s
  end.

Definition touchstart (b : Button) (s : Game) : Game := touch true b s.
Definition touchend (b : Button) (s : Game) : Game := touch false b s.

(** ** Colours *)

Module Rgb.
Record t := mk { r : Z; g : Z; b : Z }.
End Rgb.

(** The value of a character of the class [[a-f\d]] under the flag
    [i]. *)
Definition hexDigit (c : ascii) : option Z :=
  let n := Z.of_nat (nat_of_ascii c) in
  if (48 <=? n)%Z && (n <=? 57)%Z then Some (n - 48)%Z
  else if (97 <=? n)%Z && (n <=? 102)%Z then Some (n - 87)%Z
  else if (65 <=? n)%Z && (n <=? 70)%Z then Some (n - 55)%Z
  else None.

(** [parseInt(group, 16)] on a group [([a-f\d]{2})] of the pattern. *)
Definition parseHexPair (c1 c2 : ascii) : option Z :=
  match hexDigit c1, hexDigit c2 with
  | Some h, Some l => Some (16 * h + l)%Z
  | _, _ => None
  end.

Definition black : Rgb.t := {| Rgb.r := 0; Rgb.g := 0; Rgb.b := 0 |}.

(** [hexToRgb]: the pattern [/^#?([a-f\d]{2})([a-f\d]{2})([a-f\d]{2})$/i]
    matches an optional ["#"] and then exactly six hex digits; a ["#"] is
    no hex digit, so the pattern matches with the ["#"] taken or not at
    all. *)
Definition hexToRgb (hex : string) : Rgb.t :=
  let digits :=
    match hex with
    | String c rest => if (c =? "#")%char then rest else hex
    | EmptyString => hex
    end in
  match digits with
  | String c1 (String c2 (String c3 (String c4 (String c5
      (String c6 EmptyString))))) =>
      match parseHexPair c1 c2, parseHexPair c3 c4, parseHexPair c5 c6 with
      | Some r, Some g, Some b => {| Rgb.r := r; Rgb.g := g; Rgb.b := b |}
      | _, _, _ => black
      end
  | _ => black
  end.

(** [Math.round], which rounds a half up, on a whole number kept as
    one. *)
Definition Math_round (x : R) : Z := Zfloor (x + 0.5).

(** A whole number in a template literal: its decimal digits, with a
    minus sign when it is negative (the script prints a number of 22
    digits or more with an exponent; the channels of a colour are far
    below that). *)
Definition decimal (n : Z) : string := NilZero.string_of_int (Z.to_int n).

(** The template literal [`rgb(${r}, ${g}, ${b})`]. *)
Definition rgbText (r g b : Z) : string :=
  ("rgb(" ++ decimal r ++ ", " ++ decimal g ++ ", " ++ decimal b
   ++ ")")%string.

(** [lerpColor]. *)
Definition lerpColor (color1 color2 : string) (t : R) : string :=
  let c1 := hexToRgb color1 in
  let c2 := hexToRgb color2 in
  let r :=
    Math_round (IZR (Rgb.r c1) + (IZR (Rgb.r c2) - IZR (Rgb.r c1)) * t) in
  let g :=
    Math_round (IZR (Rgb.g c1) + (IZR (Rgb.g c2) - IZR (Rgb.g c1)) * t) in
  let b :=
    Math_round (IZR (Rgb.b c1) + (IZR (Rgb.b c2) - IZR (Rgb.b c1)) * t) in
  rgbText r g b.

(** ** The order of the buffers *)

(** The terrain buffer is ordered by strictly ascending [x]. *)
Definition ascending (l : list Segment.t) : Prop :=
  StronglySorted (fun a b => Segment.x a < Segment.x b) l.

(** ** States for the examples *)

(** [n] segments from [(x, y)] on, a segment width apart, the height
    changing by [dy] from one to the next. *)
Fixpoint ramp (n : nat) (x y dy : R) : list Segment.t :=
  match n with
  | O => []
  | S n' =>
      {| Segment.x := x; Segment.y := y; Segment.isOnBridge := false |}
      :: ramp n' (x + HILL_SEGMENT_WIDTH) (y + dy) dy
  end.

(** A car at screen x 200 and height [y], not moving along x. *)
Definition carAt (y velocityY rotation angularVelocity : R) : Car.t :=
  {| Car.x := 200; Car.y := y;
     Car.velocityX := 0; Car.velocityY := velocityY;
     Car.rotation := rotation; Car.angularVelocity := angularVelocity;
     Car.onGround := false;
     Car.front := {| Wheel.x := 0; Wheel.y := 0 |};
     Car.back := {| Wheel.x := 0; Wheel.y := 0 |} |}.

Definition noKeys : Keys.t :=
  {| Keys.forward := false; Keys.backward := false; Keys.brake := false |}.

Definition forwardKey : Keys.t :=
  {| Keys.forward := true; Keys.backward := false; Keys.brake := false |}.

(** A run in progress at level [level] with [fuel] left. *)
Definition runWith (fuel level : R) : Run.t :=
  {| Run.gameState := playing; Run.score := 0; Run.fuel := fuel;
     Run.coinCount := 0; Run.currentLevel := level;
     Run.boostActive := false; Run.boostEndTime := 0;
     Run.currentBackgroundIndex := 0; Run.nextBackgroundIndex := 0;
     Run.backgroundTransition := 0; Run.gameOverReason := EmptyString |}.

(** A state on a canvas 600 wide, not scrolled, all draws 0. *)
Definition scene (c : Car.t) (k : Keys.t) (r : Run.t)
  (terrain : list Segment.t) (fuelPickups : list Pickup.t) : Game :=
  {| canvas_width := 600;
     car := c;
     keys := k;
     run := r;
     world :=
       {| World.terrain := terrain; World.terrainOffset := 0;
          World.bridges := []; World.fuelPickups := fuelPickups;
          World.coins := []; World.boosts := [] |};
     spawn :=
       {| Spawn.lastFuelSpawnX := 0; Spawn.nextFuelSpawnPx := 4000;
          Spawn.terrainNoisePrev := 0;
          Spawn.lastBridgeX := -500; Spawn.nextBridgeX := 2500;
          Spawn.lastBoostSpawnX := 0; Spawn.nextBoostSpawnPx := 2000 |};
     particles := [];
     random := fun _ => 0;
     clock := fun _ => 0 |}.

(** Level ground at the base height under the car. *)
Definition levelGround : list Segment.t := ramp 4 150 360 0.

(** Level ground far below the base height, as deep valleys of late
    levels are. *)
Definition deepGround : list Segment.t := ramp 4 150 800 0.

(** Level ground from 0 to 750, wider than the window of a canvas 600
    wide. *)
Definition wideGround : list Segment.t := ramp 26 0 360 0.

(** A slope of 45 degrees under the car. *)
Definition steepGround : list Segment.t := ramp 4 150 300 30.

(** Out of fuel and at rest, the back wheel on the slope. *)
Definition strandedOnSlope : Game :=
  scene (carAt 320 0 0 0) noKeys (runWith 0 1) steepGround [].

(** Out of fuel and at rest in the air over level ground. *)
Definition strandedInAir : Game :=
  scene (carAt 300 0 0 0) noKeys (runWith 0 1) levelGround [].

(** Upside down in the air, spinning by 2 radians a frame. *)
Definition spinningInverted : Game :=
  scene (carAt 300 0 PI 2) noKeys (runWith 100 1) levelGround [].

(** Upside down in the air over a deep valley, at the abyss line and
    falling. *)
Definition fallingInverted : Game :=
  scene (carAt 700 5 PI 0) noKeys (runWith 100 1) deepGround [].


(** In the air at level 20 with the throttle held, the window filled. *)
Definition lateRun : Game :=
  scene (carAt 300 0 0 0) forwardKey (runWith 100 20) wideGround [].

(** In the air with the throttle held and half a tank, a fuel pickup at
    the position of the car. *)
Definition refuelling : Game :=
  scene (carAt 300 0 0 0) forwardKey (runWith 50 1) wideGround
    [{| Pickup.x := 200; Pickup.y := 300; Pickup.collected := false |}].

(** In the air with the throttle held. *)
Definition throttleInAir : Game :=
  scene (carAt 300 0 0 0) forwardKey (runWith 100 1) levelGround [].

(** A run that has ended out of fuel. *)
Definition stoppedRun : Game := endGame reason_fuel strandedOnSlope.

(** Past 100 m with the first theme still showing. *)
Definition secondTheme : Game := with_run (Run.set_score 150) strandedInAir.

(** Three samples 30 apart, the first at height 100.1, the others at
    360.3. *)
Definition roundedGround : list Binary64.Segment.t :=
  [Binary64.Segment.mk 0 100.1 false; Binary64.Segment.mk 30 360.3 false;
   Binary64.Segment.mk 60 360.3 false].

(** * The vocabulary of the properties *)

(** The parts of the state the physics step never writes: the page and
    input, the generator, the particles and the two sequences; the
    counters of the run other than score and fuel; the buffers of the
    world other than the scroll offset. *)
Definition surroundings (s : Game) :=
  (canvas_width s, keys s, spawn s, particles s, random s, clock s).

Definition standing (r : Run.t) :=
  (Run.gameState r, Run.coinCount r, Run.currentLevel r, Run.boostActive r,
   Run.boostEndTime r, Run.currentBackgroundIndex r,
   Run.nextBackgroundIndex r, Run.backgroundTransition r,
   Run.gameOverReason r).

Definition contents (w : World.t) :=
  (World.terrain w, World.bridges w, World.fuelPickups w, World.coins w,
   World.boosts w).

(** [s'] differs from [s] at most in the car, the score, the fuel and the
    scroll offset. *)
Definition physics_frame (s s' : Game) : Prop :=
  surroundings s' = surroundings s
  /\ standing (run s') = standing (run s)
  /\ contents (world s') = contents (world s).

(** The speed that leaves [applyControls]: forward adds the acceleration
    when there is fuel, backward subtracts its fixed amount, brake
    scales. *)
Definition controlledSpeed (s : Game) : R :=
  let v := Car.velocityX (car s) in
  let v :=
    if Keys.forward (keys s) && (Run.fuel (run s) >? 0)
    then v + currentAcceleration s else v in
  let v := if Keys.backward (keys s) then v - ACCELERATION * 0.8 else v in
  if Keys.brake (keys s) then v * (1 - BRAKE_FORCE) else v.

(** The fuel that leaves [applyControls]. *)
Definition controlledFuel (s : Game) : R :=
  if Keys.forward (keys s) && (Run.fuel (run s) >? 0)
  then
    if Run.fuel (run s) - FUEL_CONSUMPTION <? 0 then 0
    else Run.fuel (run s) - FUEL_CONSUMPTION
  else Run.fuel (run s).

(** The speed that leaves [limitSpeeds]. *)
Definition limitedSpeed (maxSpeed v : R) : R :=
  let v := if v >? maxSpeed then maxSpeed else v in
  if v <? REVERSE_SPEED then REVERSE_SPEED else v.

(** The car that enters the wheel tests. *)
Definition carAtContact (s : Game) : Game :=
  updateWheelPositions (applyGravity (limitSpeeds (applyControls s))).

(** Whether a wheel of the car touches the ground in this step. *)
Definition grounded (s : Game) : bool :=
  collision (checkWheelCollision (Car.front (car (carAtContact s))) s)
  || collision (checkWheelCollision (Car.back (car (carAtContact s))) s).

(** The slope angle under the car's centre in this step. *)
Definition slopeUnderCar (s : Game) : R :=
  getTerrainAngleAt (Car.x (car s) + World.terrainOffset (world s)) s.

(** The speed that leaves the ground or air branch. *)
Definition contactSpeed (s : Game) : R :=
  let v := limitedSpeed (currentMaxSpeed s) (controlledSpeed s) in
  if grounded s
  then v * GROUND_FRICTION + sin (slopeUnderCar s) * 0.25
  else v * AIR_RESISTANCE.

(** [s'] comes from [s] by generating terrain: the car, the run, the
    input, the particles, the clock and the scroll offset are as before,
    the buffers have grown at their ends, and some draws have been
    consumed. *)
Definition generated (s s' : Game) : Prop :=
  canvas_width s' = canvas_width s
  /\ car s' = car s
  /\ keys s' = keys s
  /\ run s' = run s
  /\ particles s' = particles s
  /\ clock s' = clock s
  /\ World.terrainOffset (world s') = World.terrainOffset (world s)
  /\ (exists l, World.terrain (world s') = World.terrain (world s) ++ l)
  /\ (exists l, World.bridges (world s') = World.bridges (world s) ++ l)
  /\ (exists l,
         World.fuelPickups (world s') = World.fuelPickups (world s) ++ l)
  /\ (exists l, World.coins (world s') = World.coins (world s) ++ l)
  /\ (exists l, World.boosts (world s') = World.boosts (world s) ++ l)
  /\ (exists k, forall n, random s' n = random s (n + k)%nat).

(** [s'] comes from [s] by collecting pickups: the car, the input, the
    generator, the world, the state, score and level of the run and the
    recorded reason are as before, and some draws have been consumed. *)
Definition collecting (s s' : Game) : Prop :=
  canvas_width s' = canvas_width s
  /\ car s' = car s
  /\ keys s' = keys s
  /\ spawn s' = spawn s
  /\ world s' = world s
  /\ Run.gameState (run s') = Run.gameState (run s)
  /\ Run.gameOverReason (run s') = Run.gameOverReason (run s)
  /\ Run.score (run s') = Run.score (run s)
  /\ Run.currentLevel (run s') = Run.currentLevel (run s)
  /\ (exists k, forall n, random s' n = random s (n + k)%nat).

(** Which pickups a loop marks depends on the position of the car alone:
    the loop maps [mark] over the buffer. *)
Definition markPickup (reach carWorldX carWorldY : R) (p : Pickup.t)
  : Pickup.t :=
  if Pickup.collected p then p
  else if within reach (Pickup.x p) (Pickup.y p) carWorldX carWorldY
       then Pickup.collect p else p.

Definition markBoost (reach carWorldX carWorldY : R) (b : Boost.t) : Boost.t :=
  if Boost.collected b then b
  else if within reach (Boost.x b) (Boost.y b) carWorldX carWorldY
       then Boost.collect b else b.

(** The pickups kept by the filters at the end of [checkPickups]. *)
Definition keptPickup (behind : R) (p : Pickup.t) : bool :=
  negb (Pickup.collected p) && (Pickup.x p >? behind).

Definition keptBoost (behind : R) (b : Boost.t) : bool :=
  negb (Boost.collected b) && (Boost.x b >? behind).

(** The position and reach of the car that [checkPickups] tests against. *)
Definition carWorldX (s : Game) : R :=
  Car.x (car s) + World.terrainOffset (world s).

Definition carRadius (s : Game) : R :=
  Rmax (Car.width (car s)) (Car.height (car s)) * 0.6.

(** The stages of a frame after the pickups. *)
Definition finishFrame (s : Game) : Game :=
  updateBackground (updateLevel (updateParticles (updateBoost s))).

(** Everything in the state but the input intents. *)
Definition simulationState (s : Game) :=
  (canvas_width s, car s, run s, world s, spawn s, particles s, random s,
   clock s).

(** The last element of a buffer, as [terrain[terrain.length - 1]]. *)
Definition lastOf (l : list Segment.t) : option Segment.t :=
  nth_error l (List.length l - 1).

(** The buffer is in ascending order and nothing in it lies before
    [limit]. *)
Definition covers (limit : R) (l : list Segment.t) : Prop :=
  ascending l /\ Forall (fun p => limit <= Segment.x p) l.

(** The two invariants of the window: the one that keeps the buffer from
    running empty, and the bounds of the specification. *)
Definition windowInv (s : Game) : Prop :=
  0 <= canvas_width s
  /\ ascending (World.terrain (world s))
  /\ exists last,
      lastSegment s = Some last
      /\ World.terrainOffset (world s)
         + Rmax 0 (Car.x (car s) - canvas_width s * 0.4) - 70
         <= Segment.x last.

Definition windowBounds (s : Game) : Prop :=
  (exists last,
      lastSegment s = Some last
      /\ World.terrainOffset (world s) + canvas_width s + 100
         - HILL_SEGMENT_WIDTH <= Segment.x last)
  /\ Forall (fun p => World.terrainOffset (world s) - 100 <= Segment.x p)
       (World.terrain (world s)).

(** Every draw still to come is at least 0, as [Math.random()] is. *)
Definition nonnegDraws (s : Game) : Prop := forall n, 0 <= random s n.

(** Whether a fuel pickup not yet collected is within reach of the car. *)
Definition reachable (cx cy cr : R) (p : Pickup.t) : bool :=
  negb (Pickup.collected p)
  && within (cr + 10) (Pickup.x p) (Pickup.y p) cx cy.

Definition fuelInReach (s : Game) : bool :=
  existsb (reachable (carWorldX s) (Car.y (car s)) (carRadius s))
    (World.fuelPickups (world s)).

(** What the bridge spawn reads and writes. *)
Definition bridgeView (s : Game) :=
  (World.bridges (world s), Spawn.lastBridgeX (spawn s),
   Spawn.nextBridgeX (spawn s)).

(** [b2] starts at least the minimum distance after the start of [b1]. *)
Definition spaced (b1 b2 : Bridge.t) : Prop :=
  Bridge.startX b1 + BRIDGE_MIN_DISTANCE * 10 <= Bridge.startX b2.

(** The invariant of the bridge spawn: the bridges are spaced start to
    start, each is [BRIDGE_LENGTH] long and starts at or before
    [lastBridgeX], and the threshold is at least the minimum distance. *)
Definition bridgeInv (s : Game) : Prop :=
  StronglySorted spaced (World.bridges (world s))
  /\ Forall
       (fun b =>
          Bridge.startX b <= Spawn.lastBridgeX (spawn s)
          /\ Bridge.endX b = Bridge.startX b + BRIDGE_LENGTH)
       (World.bridges (world s))
  /\ BRIDGE_MIN_DISTANCE * 10 <= Spawn.nextBridgeX (spawn s).

(** Every draw still to come is 0. *)
Definition zeroDraws (s : Game) : Prop := forall n, random s n = 0.

(** The bridge a segment at [x] and height [y] spawns when every draw is
    0. *)
Definition metalBridge (x y : R) : Bridge.t :=
  {| Bridge.startX := x; Bridge.endX := x + BRIDGE_LENGTH; Bridge.y := y;
     Bridge.type := "metal" |}.

(** The level that [updateLevel] computes from the score. *)
Definition levelOf (score : R) : R := JS.floor (score / LEVEL_DISTANCE) + 1.

(** An index into [BACKGROUNDS]. *)
Definition backgroundIndex (i : R) : Prop :=
  exists k : Z, (0 <= k < 5)%Z /\ i = IZR k.

(** The three background variables. *)
Definition scenery (r : Run.t) :=
  (Run.currentBackgroundIndex r, Run.nextBackgroundIndex r,
   Run.backgroundTransition r).

(** The invariant of the background through the frames of a run. *)
Definition sceneryInv (s : Game) : Prop :=
  backgroundIndex (Run.currentBackgroundIndex (run s))
  /\ backgroundIndex (Run.nextBackgroundIndex (run s))
  /\ 0 <= Run.backgroundTransition (run s) < 1.

(** Neighbours in the buffer are one segment width apart. *)
Fixpoint stepped (l : list Segment.t) : Prop :=
  match l with
  | p :: ((q :: _) as l') =>
      Segment.x q = Segment.x p + HILL_SEGMENT_WIDTH /\ stepped l'
  | _ => True
  end.

(** The buffer ends less than [slack] past the leading edge. *)
Definition endsWithin (slack : R) (s : Game) : Prop :=
  forall last,
    lastSegment s = Some last -> Segment.x last < leadingEdge s + slack.

(** The buffer is stepped and ends less than 200 past the leading
    edge. *)
Definition tidy (s : Game) : Prop :=
  stepped (World.terrain (world s))
  /\ endsWithin 200 s.

(** Whether a boost not yet collected is within reach of the car. *)
Definition boostReachable (cx cy cr : R) (b : Boost.t) : bool :=
  negb (Boost.collected b)
  && within (cr + 15) (Boost.x b) (Boost.y b) cx cy.

(** The pickups and boosts that a call of [checkPickups] collects. *)
Definition fuelCollected (s : Game) : list Pickup.t :=
  filter (reachable (carWorldX s) (Car.y (car s)) (carRadius s))
    (World.fuelPickups (world s)).

Definition coinsCollected (s : Game) : list Pickup.t :=
  filter (reachable (carWorldX s) (Car.y (car s)) (carRadius s))
    (World.coins (world s)).

Definition boostsCollected (s : Game) : list Boost.t :=
  filter (boostReachable (carWorldX s) (Car.y (car s)) (carRadius s))
    (World.boosts (world s)).

(** A particle after [n] updates that it survives. *)
Definition aged (n : nat) (p : Particle.t) : Particle.t :=
  {| Particle.x := Particle.x p + INR n * Particle.vx p;
     Particle.y :=
       Particle.y p + INR n * Particle.vy p + 0.1 * INR n * (INR n - 1);
     Particle.vx := Particle.vx p;
     Particle.vy := Particle.vy p + 0.2 * INR n;
     Particle.life := Particle.life p - 0.02 * INR n;
     Particle.color := Particle.color p;
     Particle.size := Particle.size p |}.

(** What is left of one particle after [n] updates. *)
Definition remains (n : nat) (p : Particle.t) : list Particle.t :=
  if Particle.life p - 0.02 * INR n >? 0 then [aged n p] else [].

(** The three channels of a colour lie between [lo] and [hi]. *)
Definition channelsIn (lo hi : Z) (c : Rgb.t) : Prop :=
  (lo <= Rgb.r c <= hi)%Z /\ (lo <= Rgb.g c <= hi)%Z
  /\ (lo <= Rgb.b c <= hi)%Z.

(** The six digits of [hexToRgb], after the ["#"]. *)
Definition sixDigits (digits : string) : Rgb.t :=
  match digits with
  | String c1 (String c2 (String c3 (String c4 (String c5
      (String c6 EmptyString))))) =>
      match parseHexPair c1 c2, parseHexPair c3 c4, parseHexPair c5 c6 with
      | Some r, Some g, Some b => {| Rgb.r := r; Rgb.g := g; Rgb.b := b |}
      | _, _, _ => black
      end
  | _ => black
  end.

(** The largest distance of a generated height from the base height at
    a level: the three amplitudes, the first scaled by the level, and
    half the amplitude of the noise. *)
Definition heightBound (level : R) : R :=
  TERRAIN_AMPLITUDE * (1 + (level - 1) * 0.15)
  + TERRAIN_AMPLITUDE_2 + TERRAIN_AMPLITUDE_3 + NOISE_AMPLITUDE / 2.

(** Every draw still to come is in [[0, 1)], as [Math.random()] is. *)
Definition unitDraws (s : Game) : Prop := forall n, 0 <= random s n < 1.

(** A height within [bound] of the base height. *)
Definition near (bound y : R) : Prop :=
  - bound <= y - canvas_height * 0.6 <= bound.

(** What the heights of new segments are computed from. *)
Definition heightView (s : Game) :=
  (World.terrain (world s), World.bridges (world s),
   Spawn.terrainNoisePrev (spawn s)).

(** The smoothed noise, the samples and the decks are within their
    bounds. *)
Definition heightInv (bound : R) (s : Game) : Prop :=
  - (NOISE_AMPLITUDE / 2) <= Spawn.terrainNoisePrev (spawn s)
    <= NOISE_AMPLITUDE / 2
  /\ Forall (fun p => near bound (Segment.y p)) (World.terrain (world s))
  /\ Forall (fun b => near bound (Bridge.y b)) (World.bridges (world s)).

(** The invariant of the heights through the frames of a run. *)
Definition reliefInv (s : Game) : Prop :=
  1 <= Run.currentLevel (run s)
  /\ unitDraws s
  /\ heightInv (heightBound (Run.currentLevel (run s))) s.



(** What the fuel spawn and the boost spawn read and write. *)
Definition fuelView (s : Game) :=
  (World.fuelPickups (world s), Spawn.lastFuelSpawnX (spawn s),
   Spawn.nextFuelSpawnPx (spawn s)).

Definition boostView (s : Game) :=
  (World.boosts (world s), Spawn.lastBoostSpawnX (spawn s),
   Spawn.nextBoostSpawnPx (spawn s)).

(** The invariant of the two spawns: the entities are at least the
    minimum distance apart, none lies more than half a segment past the
    cursor, and the threshold is at least the minimum distance. *)
Definition fuelInv (s : Game) : Prop :=
  StronglySorted
    (fun a b => Pickup.x a + FUEL_SPAWN_MIN_M * 10 <= Pickup.x b)
    (World.fuelPickups (world s))
  /\ Forall
       (fun p =>
          Pickup.x p
          <= Spawn.lastFuelSpawnX (spawn s) + HILL_SEGMENT_WIDTH * 0.5)
       (World.fuelPickups (world s))
  /\ FUEL_SPAWN_MIN_M * 10 <= Spawn.nextFuelSpawnPx (spawn s).

Definition boostInv (s : Game) : Prop :=
  StronglySorted
    (fun a b => Boost.x a + BOOST_SPAWN_MIN * 10 <= Boost.x b)
    (World.boosts (world s))
  /\ Forall
       (fun p =>
          Boost.x p
          <= Spawn.lastBoostSpawnX (spawn s) + HILL_SEGMENT_WIDTH * 0.5)
       (World.boosts (world s))
  /\ BOOST_SPAWN_MIN * 10 <= Spawn.nextBoostSpawnPx (spawn s).

Definition supplyInv (s : Game) : Prop := fuelInv s /\ boostInv s.

(** The state [s] with the parts that terrain generation reads or
    writes taken from [t]: the canvas, the world, the cursors of the
    spawns, the level and the draws. *)
Definition transplant (s t : Game) : Game :=
  {| canvas_width := canvas_width t;
     car := car s;
     keys := keys s;
     run := Run.set_currentLevel (Run.currentLevel (run t)) (run s);
     world := world t;
     spawn := spawn t;
     particles := particles s;
     random := random t;
     clock := clock s |}.

(** The buffer starts at or before the left edge of the screen, or at
    the start of the world. *)
Definition startsBehind (s : Game) : Prop :=
  forall first,
    hd_error (World.terrain (world s)) = Some first ->
    Segment.x first <= Rmax 0 (World.terrainOffset (world s) - 70).

(** The car is between the rear limit and the larger of its anchor and
    the place where a run starts. *)
Definition carInView (s : Game) : Prop :=
  50 <= Car.x (car s) <= Rmax 200 (canvas_width s * 0.4)
  /\ 0 <= World.terrainOffset (world s).

(** The invariant of the buffer under the screen through the frames of
    a run. *)
Definition coverInv (s : Game) : Prop :=
  (windowInv s /\ windowBounds s)
  /\ tidy s
  /\ startsBehind s
  /\ carInView s.

(** The theme the score asks for. *)
Definition targetIndex (s : Game) : R :=
  JS.rem (JS.floor (Run.score (run s) / BACKGROUND_CHANGE_DISTANCE))
    BACKGROUNDS_length.

(** The first pair of neighbours that brackets [worldX] is at [i]. *)
Definition firstBracket (worldX : float) (l : list Binary64.Segment.t)
  (i : nat) (p1 p2 : Binary64.Segment.t) : Prop :=
  nth_error l i = Some p1 /\ nth_error l (S i) = Some p2
  /\ Binary64.brackets worldX p1 p2 = true
  /\ forall j q1 q2,
      (j < i)%nat -> nth_error l j = Some q1 -> nth_error l (S j) = Some q2 ->
      Binary64.brackets worldX q1 q2 = false.

(** The refill of one fuel pickup, [Math.min(MAX_FUEL, fuel +
    FUEL_PICKUP_AMOUNT)]. *)
Definition refill (fuel : R) : R := Rmin MAX_FUEL (fuel + FUEL_PICKUP_AMOUNT).

(** What [updateParticles] keeps of a particle. *)
Definition keepsake (p : Particle.t) :=
  (Particle.vx p, Particle.color p, Particle.size p).

(** Every entity of [s'] was already in [s] or lies at least [gap] past
    the cursor of [s], and the cursor has not moved back. *)
Definition later {A : Type} (items : Game -> list A) (cursor : Game -> R)
  (pos : A -> R) (gap : R) (s s' : Game) : Prop :=
  cursor s <= cursor s'
  /\ Forall (fun a => In a (items s) \/ cursor s + gap <= pos a) (items s').

Definition bridgesLater : Game -> Game -> Prop :=
  later (fun s => World.bridges (world s))
    (fun s => Spawn.lastBridgeX (spawn s)) Bridge.startX
    (BRIDGE_MIN_DISTANCE * 10).

Definition fuelLater : Game -> Game -> Prop :=
  later (fun s => World.fuelPickups (world s))
    (fun s => Spawn.lastFuelSpawnX (spawn s)) Pickup.x
    (FUEL_SPAWN_MIN_M * 10 + HILL_SEGMENT_WIDTH * 0.5).

Definition boostsLater : Game -> Game -> Prop :=
  later (fun s => World.boosts (world s))
    (fun s => Spawn.lastBoostSpawnX (spawn s)) Boost.x
    (BOOST_SPAWN_MIN * 10 + HILL_SEGMENT_WIDTH * 0.5).

(** What the three spawns have placed in [s'] since [s]. *)
Definition spawnedLater (s s' : Game) : Prop :=
  bridgesLater s s' /\ fuelLater s s' /\ boostsLater s s'.

(** The invariants of the three spawns. *)
Definition spawnInv (s : Game) : Prop :=
  bridgeInv s /\ supplyInv s /\ nonnegDraws s.

(** Where the bridges start when every draw is 0: at the first segment
    at or past [-500 + 2500], which is at 2010, and then at every first
    segment at or past 2500 more, which is 2520 further on. *)
Definition zeroStart (k : nat) : R := 2010 + 2520 * INR k.

Definition onZeroGrid (b : Bridge.t) : Prop :=
  exists k, Bridge.startX b = zeroStart k
            /\ Bridge.endX b = Bridge.startX b + BRIDGE_LENGTH.

(** The state of the bridge spawn when every draw is 0 and the next
    segment is generated at [nextX]. *)
Definition zeroInv (nextX : R) (s : Game) : Prop :=
  zeroDraws s
  /\ Spawn.nextBridgeX (spawn s) = 2500
  /\ Forall
       (fun b => onZeroGrid b
                 /\ Bridge.startX b <= Spawn.lastBridgeX (spawn s))
       (World.bridges (world s))
  /\ ((Spawn.lastBridgeX (spawn s) = -500
       /\ World.bridges (world s) = []
       /\ exists f, (f <= 67)%nat /\ nextX = 30 * INR f)
      \/ (exists k j,
             Spawn.lastBridgeX (spawn s) = zeroStart k
             /\ (j <= 83)%nat
             /\ nextX = Spawn.lastBridgeX (spawn s) + 30 * (INR j + 1))).

(** The invariant of a run whose draws are all 0. *)
Definition zeroRun (s : Game) : Prop :=
  zeroDraws s
  /\ Forall onZeroGrid (World.bridges (world s))
  /\ forall last,
      lastSegment s = Some last ->
      zeroInv (Segment.x last + HILL_SEGMENT_WIDTH) s.

(** With every draw 0, the bridges that start before [nextX] and end
    past [cutoff] are in the list. *)
Definition zeroKept (cutoff nextX : R) (s : Game) : Prop :=
  forall k,
    zeroStart k < nextX -> cutoff < zeroStart k + BRIDGE_LENGTH ->
    exists y, In (metalBridge (zeroStart k) y) (World.bridges (world s)).

(** The bridges of a run whose draws are all 0: those of the grid between
    the cut of [updateTerrain], 200 behind the offset, and the end of the
    buffer. *)
Definition zeroLive (s : Game) : Prop :=
  zeroDraws s
  /\ forall last,
      lastSegment s = Some last ->
      zeroInv (Segment.x last + HILL_SEGMENT_WIDTH) s
      /\ zeroKept (World.terrainOffset (world s) - 200)
           (Segment.x last + HILL_SEGMENT_WIDTH) s.

(** On a canvas 600 wide the car stays at or before its anchor, 240. *)
Definition anchored (s : Game) : Prop :=
  canvas_width s = 600 /\ Car.x (car s) <= 240.

(** * Properties *)

(** ** Comparisons *)

Lemma ltb_true (a b : R) : (a <? b) = true <-> a < b.
Proof. unfold JS.ltb; destruct (Rlt_dec a b); split; intros; try lra; easy. Qed.

Lemma ltb_false (a b : R) : (a <? b) = false <-> b <= a.
Proof. unfold JS.ltb; destruct (Rlt_dec a b); split; intros; try lra; easy. Qed.

Lemma leb_true (a b : R) : (a <=? b) = true <-> a <= b.
Proof. unfold JS.leb; destruct (Rle_dec a b); split; intros; try lra; easy. Qed.

Lemma leb_false (a b : R) : (a <=? b) = false <-> b < a.
Proof. unfold JS.leb; destruct (Rle_dec a b); split; intros; try lra; easy. Qed.

Lemma gtb_true (a b : R) : (a >? b) = true <-> b < a.
Proof. apply ltb_true. Qed.

Lemma gtb_false (a b : R) : (a >? b) = false <-> a <= b.
Proof. apply ltb_false. Qed.

Lemma geb_true (a b : R) : (a >=? b) = true <-> b <= a.
Proof. apply leb_true. Qed.

Lemma geb_false (a b : R) : (a >=? b) = false <-> a < b.
Proof. apply leb_false. Qed.

(** Turn every comparison in sight into a fact about reals. *)
Ltac compare_reals :=
  unfold JS.gtb, JS.geb, JS.ltb, JS.leb in *;
  repeat match goal with
         | |- context [Rlt_dec ?a ?b] => destruct (Rlt_dec a b)
         | |- context [Rle_dec ?a ?b] => destruct (Rle_dec a b)
         | H : context [Rlt_dec ?a ?b] |- _ => destruct (Rlt_dec a b)
         | H : context [Rle_dec ?a ?b] |- _ => destruct (Rle_dec a b)
         end;
  cbn [andb orb negb] in *.

(** ** Rounding and the remainder *)

Lemma trunc_small (a : R) : 0 <= a < 1 -> JS.trunc a = 0.
Proof.
  intros H. unfold JS.trunc. rewrite (proj2 (ltb_false a 0)) by lra.
  unfold JS.floor. rewrite (Zfloor_eq 0); [reflexivity | cbn; lra].
Qed.

Lemma trunc_one (a : R) : 1 <= a < 2 -> JS.trunc a = 1.
Proof.
  intros H. unfold JS.trunc. rewrite (proj2 (ltb_false a 0)) by lra.
  unfold JS.floor. rewrite (Zfloor_eq 1); [reflexivity | cbn; lra].
Qed.

Lemma trunc_bounds (a : R) :
  (0 <= a -> 0 <= JS.trunc a <= a /\ a < JS.trunc a + 1)
  /\ (a < 0 -> a <= JS.trunc a <= 0 /\ JS.trunc a - 1 < a).
Proof.
  unfold JS.trunc, JS.ltb. destruct (Rlt_dec a 0) as [Hn|Hp]; split; intros H;
    try lra.
  - unfold JS.ceil, Zceil.
    pose proof (Zfloor_bound (- a)) as [Hl Hu].
    rewrite opp_IZR.
    assert (0 <= IZR (Zfloor (- a))).
    { apply IZR_le. apply Zfloor_lub. cbn. lra. }
    lra.
  - unfold JS.floor. pose proof (Zfloor_bound a) as [Hl Hu].
    assert (0 <= IZR (Zfloor a)).
    { apply IZR_le. apply Zfloor_lub. cbn. lra. }
    lra.
Qed.

(** [a % b] for a positive [b]: strictly between [-b] and [b], of the
    sign of [a], and congruent to [a]. *)
Lemma rem_bounds (a b : R) :
  0 < b ->
  (0 <= a -> 0 <= JS.rem a b < b) /\ (a < 0 -> - b < JS.rem a b <= 0).
Proof.
  intros Hb. unfold JS.rem.
  assert (Hab : a = b * (a / b)) by (field; lra).
  destruct (trunc_bounds (a / b)) as [Hp Hn].
  split; intros Ha.
  - assert (0 <= a / b) by (apply Rmult_le_pos; [lra | left; now apply Rinv_0_lt_compat]).
    destruct (Hp H) as [[? ?] ?]. nra.
  - assert (a / b < 0).
    { apply Ropp_lt_cancel. rewrite Ropp_0.
      replace (- (a / b)) with ((- a) / b) by (field; lra).
      apply Rmult_lt_0_compat; [lra | now apply Rinv_0_lt_compat]. }
    destruct (Hn H) as [[? ?] ?]. nra.
Qed.

Lemma rem_small (a b : R) : 0 <= a < b -> JS.rem a b = a.
Proof.
  intros H. unfold JS.rem. rewrite trunc_small; [lra|].
  split.
  - apply Rmult_le_pos; [lra | left; apply Rinv_0_lt_compat; lra].
  - apply Rmult_lt_reg_r with b; [lra|]. unfold Rdiv.
    rewrite Rmult_assoc, Rinv_l by lra. lra.
Qed.

Lemma rem_second (a b : R) : b <= a < 2 * b -> 0 < b -> JS.rem a b = a - b.
Proof.
  intros H Hb. unfold JS.rem. rewrite trunc_one; [lra|].
  split.
  - apply Rmult_le_reg_r with b; [lra|]. unfold Rdiv.
    rewrite Rmult_assoc, Rinv_l by lra. lra.
  - apply Rmult_lt_reg_r with b; [lra|]. unfold Rdiv.
    rewrite Rmult_assoc, Rinv_l by lra. lra.
Qed.


Lemma wrap_small (r m : R) :
  0 <= r < m -> JS.rem (JS.rem r m + m) m = r.
Proof.
  intros H. rewrite (rem_small r m) by lra. rewrite rem_second by lra. lra.
Qed.


Lemma PI_bounds : 3 < PI <= 4.
Proof. pose proof PI2_3_2. pose proof PI_4. lra. Qed.


(** ** What the physics step leaves alone *)

Lemma physics_frame_trans (s1 s2 s3 : Game) :
  physics_frame s1 s2 -> physics_frame s2 s3 -> physics_frame s1 s3.
Proof.
  intros (A1 & B1 & C1) (A2 & B2 & C2). repeat split; congruence.
Qed.

Ltac stage_frame :=
  intros; split_tests; repeat split.

Lemma applyControls_frame (s : Game) : physics_frame s (applyControls s).
Proof. unfold applyControls. stage_frame. Qed.

Lemma limitSpeeds_frame (s : Game) : physics_frame s (limitSpeeds s).
Proof. unfold limitSpeeds. stage_frame. Qed.

Lemma applyGravity_frame (s : Game) : physics_frame s (applyGravity s).
Proof. unfold applyGravity. stage_frame. Qed.

Lemma updateWheelPositions_frame (s : Game) :
  physics_frame s (updateWheelPositions s).
Proof. unfold updateWheelPositions. stage_frame. Qed.

Lemma resolveContact_frame (s : Game) : physics_frame s (resolveContact s).
Proof. unfold resolveContact. stage_frame. Qed.

Lemma moveCar_frame (s : Game) : physics_frame s (moveCar s).
Proof. unfold moveCar. stage_frame. Qed.

Lemma scrollTerrain_frame (s : Game) : physics_frame s (scrollTerrain s).
Proof. unfold scrollTerrain. stage_frame. Qed.

Lemma integrate_frame (s : Game) : physics_frame s (integrate s).
Proof.
  unfold integrate.
  eapply physics_frame_trans; [apply applyControls_frame|].
  eapply physics_frame_trans; [apply limitSpeeds_frame|].
  eapply physics_frame_trans; [apply applyGravity_frame|].
  eapply physics_frame_trans; [apply updateWheelPositions_frame|].
  eapply physics_frame_trans; [apply resolveContact_frame|].
  eapply physics_frame_trans; [apply moveCar_frame|].
  apply scrollTerrain_frame.
Qed.

Lemma frame_status (s s' : Game) :
  physics_frame s s' ->
  Run.gameState (run s') = Run.gameState (run s)
  /\ Run.gameOverReason (run s') = Run.gameOverReason (run s).
Proof. intros (_ & B & _). unfold standing in B. split; congruence. Qed.

(** ** The end of a run *)

Lemma endGame_playing (reason : string) (s : Game) :
  Run.gameState (run s) = playing ->
  endGame reason s
  = with_run
      (fun r => Run.set_gameOverReason reason (Run.set_gameState gameOver r)) s.
Proof. intros H. unfold endGame. rewrite H. reflexivity. Qed.

Lemma endGame_not_playing (reason : string) (s : Game) :
  Run.gameState (run s) <> playing -> endGame reason s = s.
Proof.
  intros H. unfold endGame. destruct (Run.gameState (run s)); cbn; congruence.
Qed.

(** [endGame] writes nothing but [gameState] and the reason. *)
Lemma endGame_tests (reason : string) (s : Game) :
  fellIntoAbyss (endGame reason s) = fellIntoAbyss s
  /\ flipped (endGame reason s) = flipped s
  /\ outOfFuel (endGame reason s) = outOfFuel s.
Proof. unfold endGame. split_tests; repeat split. Qed.

(** The outcome of the three checks on a run that is still going. *)
Lemma checkGameOver_result (s : Game) :
  Run.gameState (run s) = playing ->
  result (checkGameOver s)
  = if fellIntoAbyss s then ended reason_abyss
    else if flipped s then ended reason_flipped
    else if outOfFuel s then ended reason_fuel
    else continuing.
Proof.
  intros Hp. unfold checkGameOver.
  destruct (fellIntoAbyss s) eqn:Ha.
  - pose proof (endGame_tests reason_abyss s) as (_ & Hf & Ho).
    assert (Hn : Run.gameState (run (endGame reason_abyss s)) <> playing).
    { rewrite endGame_playing by assumption. cbn. discriminate. }
    assert (Hr : result (endGame reason_abyss s) = ended reason_abyss).
    { rewrite endGame_playing by assumption. reflexivity. }
    destruct (flipped (endGame reason_abyss s));
      [rewrite (endGame_not_playing reason_flipped) by assumption|];
      (destruct (outOfFuel (endGame reason_abyss s));
       [rewrite (endGame_not_playing reason_fuel) by assumption|]);
      exact Hr.
  - destruct (flipped s) eqn:Hf.
    + pose proof (endGame_tests reason_flipped s) as (_ & _ & Ho).
      assert (Hn : Run.gameState (run (endGame reason_flipped s)) <> playing).
      { rewrite endGame_playing by assumption. cbn. discriminate. }
      destruct (outOfFuel (endGame reason_flipped s));
        [rewrite (endGame_not_playing reason_fuel) by assumption|];
        rewrite endGame_playing by assumption; reflexivity.
    + destruct (outOfFuel s) eqn:Ho.
      * rewrite endGame_playing by assumption. reflexivity.
      * unfold result. rewrite Hp. reflexivity.
Qed.

(** The checks write nothing but [gameState] and the reason. *)
Lemma checkGameOver_frame (s : Game) :
  car (checkGameOver s) = car s
  /\ world (checkGameOver s) = world s
  /\ surroundings (checkGameOver s) = surroundings s
  /\ Run.fuel (run (checkGameOver s)) = Run.fuel (run s)
  /\ Run.score (run (checkGameOver s)) = Run.score (run s)
  /\ Run.currentLevel (run (checkGameOver s)) = Run.currentLevel (run s)
  /\ Run.coinCount (run (checkGameOver s)) = Run.coinCount (run s)
  /\ Run.boostActive (run (checkGameOver s)) = Run.boostActive (run s).
Proof.
  unfold checkGameOver, endGame. split_tests; repeat split.
Qed.

(** ** The stages of the physics step, field by field *)

Lemma applyControls_car (s : Game) :
  car (applyControls s) = Car.set_velocityX (controlledSpeed s) (car s).
Proof.
  unfold applyControls, controlledSpeed.
  destruct s as [w c k r wo sp pa ra cl]; destruct c; cbn.
  split_tests; reflexivity.
Qed.

Lemma applyControls_fuel (s : Game) :
  Run.fuel (run (applyControls s)) = controlledFuel s.
Proof.
  unfold applyControls, controlledFuel.
  destruct (Keys.forward (keys s) && (Run.fuel (run s) >? 0));
    cbn; split_tests; reflexivity.
Qed.

Lemma applyControls_world (s : Game) : world (applyControls s) = world s.
Proof. unfold applyControls. split_tests; reflexivity. Qed.

Lemma applyControls_score (s : Game) :
  Run.score (run (applyControls s)) = Run.score (run s).
Proof. unfold applyControls. split_tests; reflexivity. Qed.

Lemma applyControls_boost (s : Game) :
  Run.boostActive (run (applyControls s)) = Run.boostActive (run s).
Proof. unfold applyControls. split_tests; reflexivity. Qed.

Lemma limitSpeeds_eq (s : Game) :
  limitSpeeds s
  = with_car
      (Car.set_velocityX
         (limitedSpeed (currentMaxSpeed s) (Car.velocityX (car s)))) s.
Proof.
  unfold limitSpeeds, limitedSpeed.
  destruct s as [w c k r wo sp pa ra cl]; destruct c; cbn.
  split_tests; reflexivity.
Qed.

Lemma limitedSpeed_bounds (m v : R) :
  0 <= m -> REVERSE_SPEED <= limitedSpeed m v <= m.
Proof.
  intros Hm. unfold limitedSpeed, REVERSE_SPEED. compare_reals; lra.
Qed.

Lemma limitedSpeed_id (m v : R) :
  REVERSE_SPEED <= v <= m -> limitedSpeed m v = v.
Proof. intros H. unfold limitedSpeed, REVERSE_SPEED in *. compare_reals; lra. Qed.

Lemma currentMaxSpeed_bounds (s : Game) : 12 <= currentMaxSpeed s <= 21.6.
Proof.
  unfold currentMaxSpeed, MAX_SPEED, BOOST_SPEED_MULTIPLIER.
  destruct (Run.boostActive (run s)); lra.
Qed.

Lemma carAtContact_car (s : Game) :
  let c := car s in
  let frontOffsetX := Car.width c * 0.35 in
  let backOffsetX := - Car.width c * 0.35 in
  car (carAtContact s)
  = {| Car.x := Car.x c; Car.y := Car.y c;
       Car.velocityX :=
         limitedSpeed (currentMaxSpeed s) (controlledSpeed s);
       Car.velocityY := Car.velocityY c + GRAVITY;
       Car.rotation := Car.rotation c;
       Car.angularVelocity := Car.angularVelocity c;
       Car.onGround := Car.onGround c;
       Car.front :=
         {| Wheel.x := Car.x c + frontOffsetX * cos (Car.rotation c);
            Wheel.y :=
              Car.y c + frontOffsetX * sin (Car.rotation c)
              + Car.height c / 2 |};
       Car.back :=
         {| Wheel.x := Car.x c + backOffsetX * cos (Car.rotation c);
            Wheel.y :=
              Car.y c + backOffsetX * sin (Car.rotation c)
              + Car.height c / 2 |} |}.
Proof.
  unfold carAtContact, updateWheelPositions, applyGravity.
  rewrite limitSpeeds_eq. cbn.
  rewrite applyControls_car. unfold currentMaxSpeed.
  rewrite applyControls_boost. reflexivity.
Qed.

Lemma carAtContact_world (s : Game) : world (carAtContact s) = world s.
Proof.
  unfold carAtContact, updateWheelPositions, applyGravity.
  rewrite limitSpeeds_eq. cbn. apply applyControls_world.
Qed.

Lemma carAtContact_fuel (s : Game) :
  Run.fuel (run (carAtContact s)) = controlledFuel s.
Proof.
  unfold carAtContact, updateWheelPositions, applyGravity.
  rewrite limitSpeeds_eq. cbn. apply applyControls_fuel.
Qed.

Lemma carAtContact_width (s : Game) :
  canvas_width (carAtContact s) = canvas_width s.
Proof.
  unfold carAtContact, updateWheelPositions, applyGravity.
  rewrite limitSpeeds_eq. cbn. unfold applyControls. split_tests; reflexivity.
Qed.

Lemma checkWheelCollision_world (wheel : Wheel.t) (s s' : Game) :
  world s' = world s ->
  checkWheelCollision wheel s' = checkWheelCollision wheel s.
Proof.
  intros H. unfold checkWheelCollision, getTerrainHeightAt. now rewrite H.
Qed.

Lemma getTerrainAngleAt_world (worldX : R) (s s' : Game) :
  world s' = world s -> getTerrainAngleAt worldX s' = getTerrainAngleAt worldX s.
Proof. intros H. unfold getTerrainAngleAt. now rewrite H. Qed.

Lemma resolveContact_world (s : Game) : world (resolveContact s) = world s.
Proof. unfold resolveContact. split_tests; reflexivity. Qed.

Lemma resolveContact_run (s : Game) : run (resolveContact s) = run s.
Proof. unfold resolveContact. split_tests; reflexivity. Qed.

Lemma resolveContact_width (s : Game) :
  canvas_width (resolveContact s) = canvas_width s.
Proof. unfold resolveContact. split_tests; reflexivity. Qed.

Lemma resolveContact_onGround (s : Game) :
  Car.onGround (car (resolveContact s))
  = collision (checkWheelCollision (Car.front (car s)) s)
    || collision (checkWheelCollision (Car.back (car s)) s).
Proof.
  unfold resolveContact. cbn.
  destruct (collision (checkWheelCollision (Car.front (car s)) s)
            || collision (checkWheelCollision (Car.back (car s)) s));
    split_tests; reflexivity.
Qed.

Lemma resolveContact_x (s : Game) :
  Car.x (car (resolveContact s)) = Car.x (car s).
Proof. unfold resolveContact. split_tests; reflexivity. Qed.

Lemma resolveContact_velocityX (s : Game) :
  Car.velocityX (car (resolveContact s))
  = if Car.onGround (car (resolveContact s))
    then Car.velocityX (car s) * GROUND_FRICTION
         + sin (getTerrainAngleAt
                  (Car.x (car s) + World.terrainOffset (world s)) s) * 0.25
    else Car.velocityX (car s) * AIR_RESISTANCE.
Proof.
  rewrite resolveContact_onGround. unfold resolveContact. cbn.
  destruct (collision (checkWheelCollision (Car.front (car s)) s)
            || collision (checkWheelCollision (Car.back (car s)) s));
    split_tests; reflexivity.
Qed.

Lemma resolveContact_rotation (s : Game) :
  Car.rotation (car (resolveContact s))
  = if Car.onGround (car (resolveContact s))
    then Car.rotation (car s)
         + (getTerrainAngleAt
              (Car.x (car s) + World.terrainOffset (world s)) s
            - Car.rotation (car s)) * 0.15
    else Car.rotation (car s) + Car.angularVelocity (car s).
Proof.
  rewrite resolveContact_onGround. unfold resolveContact. cbn.
  destruct (collision (checkWheelCollision (Car.front (car s)) s)
            || collision (checkWheelCollision (Car.back (car s)) s));
    split_tests; reflexivity.
Qed.

(** Off the ground the height is untouched and the fall speed kept. *)
Lemma resolveContact_airborne (s : Game) :
  Car.onGround (car (resolveContact s)) = false ->
  Car.y (car (resolveContact s)) = Car.y (car s)
  /\ Car.velocityY (car (resolveContact s)) = Car.velocityY (car s).
Proof.
  rewrite resolveContact_onGround. unfold resolveContact. cbn.
  intros ->. split; reflexivity.
Qed.

(** On the ground the fall speed is zeroed. *)
Lemma resolveContact_grounded (s : Game) :
  Car.onGround (car (resolveContact s)) = true ->
  Car.velocityY (car (resolveContact s)) = 0.
Proof.
  rewrite resolveContact_onGround. unfold resolveContact. cbn.
  intros ->. split_tests; reflexivity.
Qed.

Lemma moveCar_car (s : Game) :
  car (moveCar s)
  = Car.set_y (Car.y (car s) + Car.velocityY (car s))
      (Car.set_x (Car.x (car s) + Car.velocityX (car s)) (car s)).
Proof. reflexivity. Qed.

(** The scroll moves the offset by the excess of the car over its anchor
    and brings the car back into the band between 50 and the anchor. *)
Lemma scrollTerrain_offset (s : Game) :
  World.terrainOffset (world (scrollTerrain s))
  = World.terrainOffset (world s)
    + Rmax 0 (Car.x (car s) - canvas_width s * 0.4).
Proof.
  unfold scrollTerrain. split_tests; unfold Rmax;
    destruct (Rle_dec _ _); compare_reals; try lra; try discriminate.
Qed.

Lemma scrollTerrain_x (s : Game) :
  Car.x (car (scrollTerrain s)) <= Rmax (canvas_width s * 0.4) 50.
Proof.
  unfold scrollTerrain. split_tests; unfold Rmax;
    destruct (Rle_dec _ _); compare_reals; try lra; try discriminate.
Qed.

Lemma scrollTerrain_velocityX (s : Game) :
  Car.velocityX (car (scrollTerrain s)) = Car.velocityX (car s)
  \/ Car.velocityX (car (scrollTerrain s)) = Rmax 0 (Car.velocityX (car s)).
Proof. unfold scrollTerrain. split_tests; auto. Qed.

Lemma scrollTerrain_pose (s : Game) :
  Car.y (car (scrollTerrain s)) = Car.y (car s)
  /\ Car.rotation (car (scrollTerrain s)) = Car.rotation (car s)
  /\ Car.onGround (car (scrollTerrain s)) = Car.onGround (car s)
  /\ Car.angularVelocity (car (scrollTerrain s)) = Car.angularVelocity (car s)
  /\ Car.velocityY (car (scrollTerrain s)) = Car.velocityY (car s).
Proof. unfold scrollTerrain. split_tests; repeat split. Qed.

Lemma scrollTerrain_fuel (s : Game) :
  Run.fuel (run (scrollTerrain s)) = Run.fuel (run s).
Proof. unfold scrollTerrain. split_tests; reflexivity. Qed.

(** ** The physics step as a whole *)

Lemma integrate_eq (s : Game) :
  integrate s = scrollTerrain (moveCar (resolveContact (carAtContact s))).
Proof. reflexivity. Qed.

Lemma integrate_onGround (s : Game) :
  Car.onGround (car (integrate s)) = grounded s.
Proof.
  rewrite integrate_eq.
  destruct (scrollTerrain_pose (moveCar (resolveContact (carAtContact s))))
    as (_ & _ & -> & _).
  rewrite moveCar_car. simpl_fields.
  rewrite resolveContact_onGround. unfold grounded.
  now rewrite !(checkWheelCollision_world _ s (carAtContact s))
    by apply carAtContact_world.
Qed.

Lemma contact_onGround (s : Game) :
  Car.onGround (car (resolveContact (carAtContact s))) = grounded s.
Proof.
  rewrite resolveContact_onGround. unfold grounded.
  now rewrite !(checkWheelCollision_world _ s (carAtContact s))
    by apply carAtContact_world.
Qed.

Lemma contact_velocityX (s : Game) :
  Car.velocityX (car (resolveContact (carAtContact s))) = contactSpeed s.
Proof.
  rewrite resolveContact_velocityX, contact_onGround.
  rewrite carAtContact_car, carAtContact_world. simpl_fields.
  unfold contactSpeed, slopeUnderCar.
  now rewrite (getTerrainAngleAt_world _ s (carAtContact s))
    by apply carAtContact_world.
Qed.

Lemma integrate_velocityX (s : Game) :
  Car.velocityX (car (integrate s)) = contactSpeed s
  \/ Car.velocityX (car (integrate s)) = Rmax 0 (contactSpeed s).
Proof.
  rewrite integrate_eq.
  destruct (scrollTerrain_velocityX (moveCar (resolveContact (carAtContact s))))
    as [H|H]; rewrite H, moveCar_car; simpl_fields;
    rewrite contact_velocityX; auto.
Qed.

(** The rotation that leaves the step: eased towards the slope on the
    ground, advanced by the angular velocity in the air. *)
Lemma integrate_rotation (s : Game) :
  Car.rotation (car (integrate s))
  = if grounded s
    then Car.rotation (car s)
         + (slopeUnderCar s - Car.rotation (car s)) * 0.15
    else Car.rotation (car s) + Car.angularVelocity (car s).
Proof.
  rewrite integrate_eq.
  destruct (scrollTerrain_pose (moveCar (resolveContact (carAtContact s))))
    as (_ & -> & _).
  rewrite moveCar_car. simpl_fields.
  rewrite resolveContact_rotation, contact_onGround.
  rewrite carAtContact_car, carAtContact_world. simpl_fields.
  unfold slopeUnderCar.
  now rewrite (getTerrainAngleAt_world _ s (carAtContact s))
    by apply carAtContact_world.
Qed.

Lemma integrate_fuel (s : Game) :
  Run.fuel (run (integrate s)) = controlledFuel s.
Proof.
  rewrite integrate_eq, scrollTerrain_fuel.
  unfold moveCar. simpl_fields.
  rewrite resolveContact_run. apply carAtContact_fuel.
Qed.

(** In the air the car falls by its fall speed and gravity. *)
Lemma integrate_y_airborne (s : Game) :
  grounded s = false ->
  Car.y (car (integrate s))
  = Car.y (car s) + (Car.velocityY (car s) + GRAVITY).
Proof.
  intros Hg. rewrite integrate_eq.
  destruct (scrollTerrain_pose (moveCar (resolveContact (carAtContact s))))
    as (-> & _).
  rewrite moveCar_car. simpl_fields.
  rewrite <- contact_onGround in Hg.
  destruct (resolveContact_airborne _ Hg) as [-> ->].
  rewrite carAtContact_car. reflexivity.
Qed.

Lemma updatePhysics_result (s : Game) :
  Run.gameState (run s) = playing ->
  result (updatePhysics s)
  = if fellIntoAbyss (integrate s) then ended reason_abyss
    else if flipped (integrate s) then ended reason_flipped
    else if outOfFuel (integrate s) then ended reason_fuel
    else continuing.
Proof.
  intros Hp. unfold updatePhysics. apply checkGameOver_result.
  destruct (frame_status _ _ (integrate_frame s)) as [-> _]. exact Hp.
Qed.

Lemma reasons_distinct :
  ended reason_abyss <> ended reason_flipped
  /\ ended reason_abyss <> ended reason_fuel
  /\ ended reason_flipped <> ended reason_fuel
  /\ (forall reason, ended reason <> continuing).
Proof. repeat split; try discriminate. Qed.

(** C9.  When several of the conditions that end a run hold in the same
    step, the reason recorded is the first in the order of the checks:
    the abyss, then the flip, then the fuel; a later call of [endGame]
    changes nothing, because the state has left ['playing']. *)
Theorem end_reason_follows_check_order (s : Game) :
  Run.gameState (run s) = playing ->
  result (updatePhysics s)
  = (if fellIntoAbyss (integrate s) then ended reason_abyss
     else if flipped (integrate s) then ended reason_flipped
     else if outOfFuel (integrate s) then ended reason_fuel
     else continuing)
  /\ (forall reason first,
         endGame reason (endGame first (integrate s)) = endGame first (integrate s)).
Proof.
  intros Hp. split; [now apply updatePhysics_result|].
  intros reason first. apply endGame_not_playing.
  rewrite endGame_playing.
  - cbn. discriminate.
  - destruct (frame_status _ _ (integrate_frame s)) as [-> _]. exact Hp.
Qed.

Lemma end_reason_follows_check_order_witness :
  result (updatePhysics strandedInAir)
  = (if fellIntoAbyss (integrate strandedInAir) then ended reason_abyss
     else if flipped (integrate strandedInAir) then ended reason_flipped
     else if outOfFuel (integrate strandedInAir) then ended reason_fuel
     else continuing)
  /\ (forall reason first,
         endGame reason (endGame first (integrate strandedInAir))
         = endGame first (integrate strandedInAir)).
Proof. apply (end_reason_follows_check_order strandedInAir). reflexivity. Defined.

(** ** Scanning the terrain *)

Section Scan.

Context {A : Type} (worldX : R) (hit : Segment.t -> Segment.t -> A)
  (miss : A).

Lemma scanTerrain_hit (p1 p2 : Segment.t) (l : list Segment.t) :
  Segment.x p1 <= worldX <= Segment.x p2 ->
  scanTerrain worldX hit miss (p1 :: p2 :: l) = hit p1 p2.
Proof.
  intros [H1 H2]. cbn.
  rewrite (proj2 (geb_true _ _) H1), (proj2 (leb_true _ _) H2).
  reflexivity.
Qed.

Lemma scanTerrain_skip (p1 p2 : Segment.t) (l : list Segment.t) :
  worldX < Segment.x p1 \/ Segment.x p2 < worldX ->
  scanTerrain worldX hit miss (p1 :: p2 :: l)
  = scanTerrain worldX hit miss (p2 :: l).
Proof.
  intros [H|H]; cbn.
  - rewrite (proj2 (geb_false _ _) H). reflexivity.
  - rewrite (proj2 (leb_false _ _) H), andb_false_r. reflexivity.
Qed.

Lemma scanTerrain_single (p : Segment.t) :
  scanTerrain worldX hit miss [p] = miss.
Proof. reflexivity. Qed.

End Scan.

(** Evaluate a scan over a buffer of known segments. *)
Ltac eval_scan :=
  repeat first
    [ rewrite scanTerrain_hit by (cbn [Segment.x]; lra)
    | rewrite scanTerrain_skip by (cbn [Segment.x]; lra)
    | rewrite scanTerrain_single ].

(** The height the car is snapped to when a wheel touches. *)
Lemma resolveContact_y (s : Game) :
  Car.y (car (resolveContact s))
  = match checkWheelCollision (Car.front (car s)) s,
          checkWheelCollision (Car.back (car s)) s with
    | touching frontY _, touching backY _ => (frontY + backY) / 2 - 28 / 2 - 9
    | touching frontY _, clear => frontY - 28 / 2 - 9
    | clear, touching backY _ => backY - 28 / 2 - 9
    | clear, clear => Car.y (car s)
    end.
Proof.
  unfold resolveContact. simpl_fields.
  destruct (checkWheelCollision (Car.front (car s)) s),
    (checkWheelCollision (Car.back (car s)) s); reflexivity.
Qed.

Lemma integrate_y (s : Game) :
  Car.y (car (integrate s))
  = Car.y (car (resolveContact (carAtContact s)))
    + Car.velocityY (car (resolveContact (carAtContact s))).
Proof.
  rewrite integrate_eq.
  destruct (scrollTerrain_pose (moveCar (resolveContact (carAtContact s))))
    as (-> & _).
  reflexivity.
Qed.

(** ** Out of fuel *)

Lemma outOfFuel_true (s : Game) :
  outOfFuel s = true
  <-> Run.fuel (run s) <= 0 /\ -0.1 < Car.velocityX (car s) < 0.1.
Proof.
  unfold outOfFuel. rewrite !andb_true_iff, leb_true, ltb_true, gtb_true. lra.
Qed.

(** Without fuel the controls cannot add speed. *)
Lemma controlledSpeed_no_fuel (s : Game) :
  Run.fuel (run s) = 0 ->
  controlledSpeed s
  = (if Keys.brake (keys s) then (1 - BRAKE_FORCE) else 1)
    * (Car.velocityX (car s)
       - (if Keys.backward (keys s) then ACCELERATION * 0.8 else 0)).
Proof.
  intros Hf. unfold controlledSpeed. rewrite Hf.
  rewrite (proj2 (gtb_false 0 0)) by lra. rewrite andb_false_r.
  destruct (Keys.backward (keys s)), (Keys.brake (keys s)); lra.
Qed.

Lemma controlledFuel_no_fuel (s : Game) :
  Run.fuel (run s) = 0 -> controlledFuel s = 0.
Proof.
  intros Hf. unfold controlledFuel. rewrite Hf.
  rewrite (proj2 (gtb_false 0 0)) by lra. now rewrite andb_false_r.
Qed.

(** C1, as the code has it.  A step ends the run with the out-of-fuel
    reason exactly when, after the step, the fuel is used up, the speed is
    strictly within 0.1 of zero, and neither the abyss nor the flip check,
    which come first, has fired.  From no fuel and no speed the step ends
    the run with that reason when backward is not held, the car neither
    falls nor flips, and it is in the air or on a slope whose pull
    [sin(angle) * 0.25] stays below 0.1.  From no fuel and speed 5 the step
    never ends the run with that reason, and the run goes on unless the
    car falls or flips. *)
Theorem out_of_fuel_requires_standstill (s : Game) :
  Run.gameState (run s) = playing ->
  (result (updatePhysics s) = ended reason_fuel
   <-> fellIntoAbyss (integrate s) = false
       /\ flipped (integrate s) = false
       /\ Run.fuel (run (integrate s)) <= 0
       /\ -0.1 < Car.velocityX (car (integrate s)) < 0.1)
  /\ (Run.fuel (run s) = 0 ->
      Car.velocityX (car s) = 0 ->
      Keys.backward (keys s) = false ->
      grounded s = false \/ Rabs (sin (slopeUnderCar s)) < 0.4 ->
      fellIntoAbyss (integrate s) = false ->
      flipped (integrate s) = false ->
      result (updatePhysics s) = ended reason_fuel)
  /\ (Run.fuel (run s) = 0 ->
      Car.velocityX (car s) = 5 ->
      result (updatePhysics s) <> ended reason_fuel
      /\ (fellIntoAbyss (integrate s) = false ->
          flipped (integrate s) = false ->
          result (updatePhysics s) = continuing)).
Proof.
  intros Hp. pose proof (updatePhysics_result s Hp) as Hr.
  destruct reasons_distinct as (D1 & D2 & D3 & D4).
  assert (Hiff : result (updatePhysics s) = ended reason_fuel
                 <-> fellIntoAbyss (integrate s) = false
                     /\ flipped (integrate s) = false
                     /\ outOfFuel (integrate s) = true).
  { rewrite Hr.
    destruct (fellIntoAbyss (integrate s)), (flipped (integrate s)),
      (outOfFuel (integrate s)); split; intros H;
      try (destruct H as (? & ? & ?)); try discriminate; try congruence;
      auto. }
  split; [|split].
  - rewrite Hiff, outOfFuel_true. tauto.
  - intros Hf Hv Hb Hslope Ha Hfl.
    apply Hiff. repeat split; auto. apply outOfFuel_true.
    rewrite integrate_fuel, controlledFuel_no_fuel by assumption.
    split; [lra|].
    assert (Hc : -0.1 < contactSpeed s < 0.1).
    { unfold contactSpeed.
      rewrite controlledSpeed_no_fuel, Hv, Hb by assumption.
      assert (Hl : limitedSpeed (currentMaxSpeed s)
                     ((if Keys.brake (keys s) then 1 - BRAKE_FORCE else 1)
                      * (0 - 0)) = 0).
      { pose proof (currentMaxSpeed_bounds s).
        rewrite limitedSpeed_id; unfold REVERSE_SPEED; nra. }
      rewrite Hl. unfold GROUND_FRICTION, AIR_RESISTANCE.
      destruct (grounded s); [|lra].
      destruct Hslope as [Hg|Hg]; [discriminate|].
      apply Rabs_def2 in Hg. lra. }
    destruct (integrate_velocityX s) as [-> | ->]; [exact Hc|].
    unfold Rmax. destruct (Rle_dec 0 (contactSpeed s)); lra.
  - intros Hf Hv.
    assert (Hno : outOfFuel (integrate s) = false).
    { destruct (outOfFuel (integrate s)) eqn:Ho; [|reflexivity].
      apply outOfFuel_true in Ho. destruct Ho as [_ Ho]. exfalso.
      assert (Hc : 2 < contactSpeed s).
      { unfold contactSpeed.
        rewrite controlledSpeed_no_fuel, Hv by assumption.
        pose proof (currentMaxSpeed_bounds s).
        pose proof (SIN_bound (slopeUnderCar s)).
        unfold BRAKE_FORCE, ACCELERATION, GROUND_FRICTION, AIR_RESISTANCE.
        destruct (Keys.brake (keys s)), (Keys.backward (keys s));
          rewrite limitedSpeed_id by (unfold REVERSE_SPEED; lra);
          destruct (grounded s); lra. }
      destruct (integrate_velocityX s) as [E|E]; rewrite E in Ho; [lra|].
      unfold Rmax in Ho. destruct (Rle_dec 0 (contactSpeed s)); lra. }
    split.
    + intros H. apply Hiff in H. destruct H as (_ & _ & H). congruence.
    + intros Ha Hfl. rewrite Hr, Ha, Hfl, Hno. reflexivity.
Qed.

(** ** Evaluating the step on the example states *)

Ltac unfold_scene :=
  unfold scene, carAt, runWith, noKeys, forwardKey, levelGround, steepGround,
    deepGround;
  simpl_fields; cbn [ramp].

Ltac eval_contact :=
  unfold checkWheelCollision, getTerrainHeightAt, getTerrainAngleAt;
  simpl_fields;
  unfold Car.width, Car.height, Wheel.radius, HILL_SEGMENT_WIDTH,
    canvas_height;
  eval_scan; unfold interpolate; cbn [Segment.x Segment.y].

Lemma sin_PI4_bounds : 0.7 < sin (PI / 4) < 0.71.
Proof.
  rewrite sin_PI4.
  assert (H2 : sqrt 2 * sqrt 2 = 2) by (apply sqrt_sqrt; lra).
  assert (Hp : 0 < sqrt 2) by (apply sqrt_lt_R0; lra).
  assert (Hb : 1.41 < sqrt 2 < 1.42) by nra.
  split.
  - apply Rmult_lt_reg_r with (sqrt 2); [exact Hp|].
    unfold Rdiv. rewrite Rmult_assoc, Rinv_l by lra. lra.
  - apply Rmult_lt_reg_r with (sqrt 2); [exact Hp|].
    unfold Rdiv. rewrite Rmult_assoc, Rinv_l by lra. lra.
Qed.

(** A rotation already in [[0, 2 PI)] is its own normal form. *)
Lemma normalizedRotation_small (s : Game) :
  0 <= Car.rotation (car s) < PI * 2 ->
  normalizedRotation s = Car.rotation (car s).
Proof. intros H. unfold normalizedRotation. now apply wrap_small. Qed.


Lemma flipped_false (s : Game) :
  flipped s = false
  <-> normalizedRotation s <= PI * 0.7 \/ PI * 1.3 <= normalizedRotation s.
Proof. unfold flipped. rewrite andb_false_iff, gtb_false, ltb_false. tauto. Qed.

(** The wheel tests of a step see the world of its start. *)
Lemma contact_tests (s : Game) :
  checkWheelCollision (Car.front (car (carAtContact s))) (carAtContact s)
  = checkWheelCollision (Car.front (car (carAtContact s))) s
  /\ checkWheelCollision (Car.back (car (carAtContact s))) (carAtContact s)
     = checkWheelCollision (Car.back (car (carAtContact s))) s.
Proof.
  split; apply checkWheelCollision_world, carAtContact_world.
Qed.

(** On the slope: the front wheel is clear, the back wheel touches. *)
Lemma strandedOnSlope_wheels :
  checkWheelCollision (Car.front (car (carAtContact strandedOnSlope)))
    strandedOnSlope = clear
  /\ exists p,
      checkWheelCollision (Car.back (car (carAtContact strandedOnSlope)))
        strandedOnSlope = touching 330.75 p.
Proof.
  rewrite carAtContact_car. unfold strandedOnSlope. unfold_scene.
  rewrite cos_0, sin_0. split.
  - eval_contact. rewrite (proj2 (geb_false _ _)) by lra. reflexivity.
  - eval_contact. rewrite (proj2 (geb_true _ _)) by lra.
    eexists. f_equal. lra.
Qed.

Lemma strandedOnSlope_slope : slopeUnderCar strandedOnSlope = PI / 4.
Proof.
  unfold slopeUnderCar, strandedOnSlope. unfold_scene. eval_contact.
  unfold JS.atan2. rewrite (proj2 (ltb_true _ _)) by lra.
  replace ((300 + 30 + 30 - (300 + 30)) / (150 + 30 + 30 - (150 + 30)))
    with 1 by lra.
  apply atan_1.
Qed.

Lemma strandedOnSlope_grounded : grounded strandedOnSlope = true.
Proof.
  unfold grounded. destruct strandedOnSlope_wheels as (-> & p & ->).
  reflexivity.
Qed.

(** C1, counterexample.  Out of fuel and at rest with no key held, the
    back wheel on a slope of 45 degrees: the slope pulls the car to a
    speed of [sin(PI/4) * 0.25], above 0.1, and the run goes on. *)
Lemma stranded_on_slope_rolls :
  Run.gameState (run strandedOnSlope) = playing
  /\ Run.fuel (run strandedOnSlope) = 0
  /\ Car.velocityX (car strandedOnSlope) = 0
  /\ keys strandedOnSlope = noKeys
  /\ result (updatePhysics strandedOnSlope) = continuing.
Proof.
  repeat split.
  rewrite updatePhysics_result by reflexivity.
  pose proof PI_bounds as HPI. pose proof sin_PI4_bounds as Hsin.
  assert (Ha : fellIntoAbyss (integrate strandedOnSlope) = false).
  { unfold fellIntoAbyss. apply gtb_false.
    rewrite integrate_y, resolveContact_grounded
      by (rewrite contact_onGround; apply strandedOnSlope_grounded).
    rewrite resolveContact_y.
    destruct (contact_tests strandedOnSlope) as [-> ->].
    destruct strandedOnSlope_wheels as (-> & p & ->).
    unfold canvas_height. lra. }
  assert (Hf : flipped (integrate strandedOnSlope) = false).
  { assert (Hrot : Car.rotation (car (integrate strandedOnSlope))
                   = PI / 4 * 0.15).
    { rewrite integrate_rotation, strandedOnSlope_grounded,
        strandedOnSlope_slope. cbn. lra. }
    apply flipped_false. left.
    rewrite normalizedRotation_small; rewrite Hrot; lra. }
  assert (Ho : outOfFuel (integrate strandedOnSlope) = false).
  { destruct (outOfFuel (integrate strandedOnSlope)) eqn:Ho; [|reflexivity].
    apply outOfFuel_true in Ho. destruct Ho as [_ Ho]. exfalso.
    assert (Hc : contactSpeed strandedOnSlope = sin (PI / 4) * 0.25).
    { unfold contactSpeed.
      rewrite strandedOnSlope_grounded, strandedOnSlope_slope.
      rewrite controlledSpeed_no_fuel by reflexivity. cbn.
      rewrite limitedSpeed_id;
        unfold REVERSE_SPEED, MAX_SPEED, GROUND_FRICTION; lra. }
    destruct (integrate_velocityX strandedOnSlope) as [E|E];
      rewrite E, Hc in Ho; [lra|].
    unfold Rmax in Ho. destruct (Rle_dec 0 (sin (PI / 4) * 0.25)); lra. }
  rewrite Ha, Hf, Ho. reflexivity.
Qed.

(** Over flat ground at height [h], a car whose wheels cannot reach the
    ground whatever its rotation is in the air. *)
Lemma flat_airborne (k : Keys.t) (r : Run.t) (y vy rotation spin h : R) :
  y + 55 * 0.35 + 28 / 2 + 9 < h ->
  grounded (scene (carAt y vy rotation spin) k r (ramp 4 150 h 0) []) = false.
Proof.
  intros Hy. unfold grounded. rewrite carAtContact_car. unfold_scene.
  pose proof (COS_bound rotation) as Hc.
  pose proof (SIN_bound rotation) as Hs.
  unfold checkWheelCollision, getTerrainHeightAt. simpl_fields.
  unfold Car.width, Car.height, Wheel.radius, HILL_SEGMENT_WIDTH,
    canvas_height.
  assert (Hh : forall worldX,
             150 <= worldX <= 240 ->
             scanTerrain worldX (interpolate worldX) (600 * 0.6)
               [{| Segment.x := 150; Segment.y := h;
                   Segment.isOnBridge := false |};
                {| Segment.x := 150 + 30; Segment.y := h + 0;
                   Segment.isOnBridge := false |};
                {| Segment.x := 150 + 30 + 30; Segment.y := h + 0 + 0;
                   Segment.isOnBridge := false |};
                {| Segment.x := 150 + 30 + 30 + 30;
                   Segment.y := h + 0 + 0 + 0;
                   Segment.isOnBridge := false |}] = h).
  { intros worldX Hx. cbn [scanTerrain Segment.x Segment.y].
    unfold interpolate. cbn [Segment.x Segment.y].
    split_tests; try lra.
    apply andb_false_iff in Heqb, Heqb0, Heqb1.
    rewrite geb_false, leb_false in *. lra. }
  rewrite !Hh by lra.
  rewrite !(proj2 (geb_false _ _)) by lra. reflexivity.
Qed.

Lemma levelGround_airborne (k : Keys.t) (r : Run.t) (rotation spin : R) :
  grounded (scene (carAt 300 0 rotation spin) k r levelGround []) = false.
Proof. apply flat_airborne. lra. Qed.

(** The step of a car in the air over level ground that starts level or
    upside down, without spin: it does not fall below the abyss line. *)
Lemma levelGround_no_fall (k : Keys.t) (r : Run.t) (rotation spin : R) :
  fellIntoAbyss
    (integrate (scene (carAt 300 0 rotation spin) k r levelGround []))
  = false.
Proof.
  unfold fellIntoAbyss. apply gtb_false.
  rewrite integrate_y_airborne by apply levelGround_airborne.
  cbn. unfold GRAVITY, canvas_height. lra.
Qed.

Lemma out_of_fuel_requires_standstill_witness :
  result (updatePhysics strandedInAir) = ended reason_fuel.
Proof.
  apply (out_of_fuel_requires_standstill strandedInAir); try reflexivity.
  - left. apply levelGround_airborne.
  - apply levelGround_no_fall.
  - apply flipped_false. left. pose proof PI_bounds.
    assert (Hrot : Car.rotation (car (integrate strandedInAir)) = 0).
    { rewrite integrate_rotation.
      unfold strandedInAir. rewrite levelGround_airborne. cbn. lra. }
    rewrite normalizedRotation_small; rewrite Hrot; lra.
Defined.

(** ** The flip *)




(** Upside down in the air with an angular velocity of 2 radians a frame:
    the step turns the car to [PI + 2], past the band, before the check,
    and the run goes on. *)
Lemma spinning_inverted_not_flipped :
  Run.gameState (run spinningInverted) = playing
  /\ Car.rotation (car spinningInverted) = PI
  /\ result (updatePhysics spinningInverted) = continuing.
Proof.
  repeat split.
  rewrite updatePhysics_result by reflexivity.
  pose proof PI_bounds as HPI.
  unfold spinningInverted. rewrite levelGround_no_fall.
  assert (Hrot : Car.rotation
                   (car (integrate
                           (scene (carAt 300 0 PI 2) noKeys (runWith 100 1)
                              levelGround []))) = PI + 2).
  { rewrite integrate_rotation, levelGround_airborne. reflexivity. }
  assert (Hf : flipped
                 (integrate
                    (scene (carAt 300 0 PI 2) noKeys (runWith 100 1)
                       levelGround [])) = false).
  { apply flipped_false. right.
    rewrite normalizedRotation_small; rewrite Hrot; lra. }
  rewrite Hf.
  assert (Ho : outOfFuel
                 (integrate
                    (scene (carAt 300 0 PI 2) noKeys (runWith 100 1)
                       levelGround [])) = false).
  { unfold outOfFuel. rewrite integrate_fuel.
    unfold controlledFuel. cbn.
    rewrite (proj2 (leb_false _ _)) by lra. reflexivity. }
  rewrite Ho. reflexivity.
Qed.

Lemma fallingInverted_result :
  result (updatePhysics fallingInverted) = ended reason_abyss.
Proof.
  rewrite updatePhysics_result by reflexivity.
  assert (Ha : fellIntoAbyss (integrate fallingInverted) = true).
  { unfold fellIntoAbyss. apply gtb_true.
    unfold fallingInverted, deepGround.
    rewrite integrate_y_airborne by (apply flat_airborne; lra).
    cbn. unfold GRAVITY, canvas_height. lra. }
  rewrite Ha. reflexivity.
Qed.



(** ** Controls *)

(** C7, as the code has it.  The controls act on the speed before the
    wheels are tested and read neither the ground flag nor the terrain:
    backward subtracts [ACCELERATION * 0.8] whenever it is held, and
    forward adds the current acceleration whenever it is held and fuel is
    left, on the ground and in the air alike; fuel is consumed, and the
    forward acceleration applied, only when the fuel is above zero. *)
Theorem controls_ignore_ground (s : Game) :
  Car.velocityX (car (applyControls s))
  = (if Keys.brake (keys s) then 1 - BRAKE_FORCE else 1)
    * (Car.velocityX (car s)
       + (if Keys.forward (keys s) && (Run.fuel (run s) >? 0)
          then currentAcceleration s else 0)
       - (if Keys.backward (keys s) then ACCELERATION * 0.8 else 0))
  /\ Run.fuel (run (applyControls s))
     = (if Keys.forward (keys s) && (Run.fuel (run s) >? 0)
        then Rmax 0 (Run.fuel (run s) - FUEL_CONSUMPTION)
        else Run.fuel (run s))
  /\ (forall (onGround : bool) (w : World.t),
         let s' := with_car (Car.set_onGround onGround) (with_world (fun _ => w) s) in
         Car.velocityX (car (applyControls s'))
         = Car.velocityX (car (applyControls s))
         /\ Run.fuel (run (applyControls s')) = Run.fuel (run (applyControls s))).
Proof.
  split; [|split].
  - rewrite applyControls_car. simpl_fields. unfold controlledSpeed.
    destruct (Keys.forward (keys s) && (Run.fuel (run s) >? 0)),
      (Keys.backward (keys s)), (Keys.brake (keys s)); lra.
  - rewrite applyControls_fuel. unfold controlledFuel.
    destruct (Keys.forward (keys s) && (Run.fuel (run s) >? 0));
      [|reflexivity].
    unfold Rmax, FUEL_CONSUMPTION.
    destruct (Rle_dec 0 (Run.fuel (run s) - 0.015)); compare_reals; lra.
  - intros onGround w s'. subst s'.
    rewrite !applyControls_car, !applyControls_fuel. split; reflexivity.
Qed.

(** C7, counterexample.  In the air over level ground with the throttle
    held and fuel left: the car is off the ground before and after the
    step, and the step takes its speed from 0 to the forward acceleration
    damped by the air, [0.35 * 0.99]. *)
Lemma throttle_accelerates_in_air :
  Keys.forward (keys throttleInAir) = true
  /\ Car.onGround (car throttleInAir) = false
  /\ Car.onGround (car (updatePhysics throttleInAir)) = false
  /\ Car.velocityX (car throttleInAir) = 0
  /\ Car.velocityX (car (updatePhysics throttleInAir)) = 0.35 * 0.99.
Proof.
  destruct (checkGameOver_frame (integrate throttleInAir)) as (Hcar & _).
  unfold updatePhysics. rewrite Hcar.
  assert (Hg : grounded throttleInAir = false)
    by apply levelGround_airborne.
  assert (Hc : contactSpeed throttleInAir = 0.35 * 0.99).
  { unfold contactSpeed. rewrite Hg.
    unfold controlledSpeed, currentAcceleration, currentMaxSpeed. cbn.
    rewrite (proj2 (gtb_true _ _)) by lra. cbn.
    rewrite limitedSpeed_id;
      unfold REVERSE_SPEED, MAX_SPEED, ACCELERATION, AIR_RESISTANCE; lra. }
  repeat split.
  - rewrite integrate_onGround. exact Hg.
  - destruct (integrate_velocityX throttleInAir) as [-> | ->];
      rewrite Hc; [reflexivity|].
    unfold Rmax. destruct (Rle_dec 0 (0.35 * 0.99)); lra.
Qed.

(** ** The terrain height *)

Lemma ascending_nth (l : list Segment.t) (a p : Segment.t) (i : nat) :
  ascending (a :: l) -> nth_error (a :: l) i = Some p ->
  Segment.x a <= Segment.x p.
Proof.
  intros Hs Hn. destruct i as [|i]; cbn in Hn.
  - injection Hn as <-. lra.
  - apply StronglySorted_inv in Hs as [_ Hall].
    rewrite Forall_forall in Hall. left. apply Hall.
    eapply nth_error_In; eauto.
Qed.

Lemma interpolate_left (p1 p2 : Segment.t) :
  interpolate (Segment.x p1) p1 p2 = Segment.y p1.
Proof. unfold interpolate. unfold Rminus at 2. rewrite Rplus_opp_r. lra. Qed.

Lemma interpolate_right (p1 p2 : Segment.t) :
  Segment.x p1 < Segment.x p2 ->
  interpolate (Segment.x p2) p1 p2 = Segment.y p2.
Proof. intros H. unfold interpolate. field. lra. Qed.

(** On an ascending buffer the scan interpolates between the pair of
    neighbours that brackets [worldX], whichever of two bracketing pairs
    it meets first. *)
Lemma scan_bracket (l : list Segment.t) (i : nat) (p1 p2 : Segment.t)
  (worldX miss : R) :
  ascending l ->
  nth_error l i = Some p1 -> nth_error l (S i) = Some p2 ->
  Segment.x p1 <= worldX <= Segment.x p2 ->
  scanTerrain worldX (interpolate worldX) miss l = interpolate worldX p1 p2.
Proof.
  revert i. induction l as [|a l IH]; intros i Hs H1 H2 Hx.
  - destruct i; discriminate.
  - destruct l as [|b l]; [destruct i; discriminate|].
    destruct i as [|i].
    + cbn in H1, H2. injection H1 as <-. injection H2 as <-.
      now apply scanTerrain_hit.
    + cbn [nth_error] in H1, H2.
      pose proof (StronglySorted_inv Hs) as [Hs' Hall].
      assert (Hab : Segment.x a < Segment.x b)
        by (inversion Hall; assumption).
      pose proof (ascending_nth _ _ _ _ Hs' H1) as Hb1.
      destruct (Rlt_dec (Segment.x b) worldX) as [Hgt|Hle].
      * rewrite scanTerrain_skip by now right. eapply IH; eauto.
      * assert (Hb : Segment.x b = worldX) by lra.
        assert (Hp : Segment.x p1 = worldX) by lra.
        rewrite scanTerrain_hit by lra.
        rewrite <- Hb at 1. rewrite interpolate_right by assumption.
        rewrite <- Hp at 1. rewrite interpolate_left.
        destruct i as [|i]; [cbn in H1; congruence|].
        exfalso. cbn [nth_error] in H1.
        apply StronglySorted_inv in Hs' as [_ Hall'].
        rewrite Forall_forall in Hall'.
        pose proof (Hall' p1 (nth_error_In _ _ H1)). lra.
Qed.

Lemma scan_before (l : list Segment.t) (worldX miss : R)
  (hit : Segment.t -> Segment.t -> R) :
  Forall (fun p => worldX < Segment.x p) l ->
  scanTerrain worldX hit miss l = miss.
Proof.
  induction 1 as [|a l Ha Hl IH]; [reflexivity|].
  destruct l as [|b l]; [reflexivity|].
  rewrite scanTerrain_skip by now left. exact IH.
Qed.

Lemma scan_after (l : list Segment.t) (worldX miss : R)
  (hit : Segment.t -> Segment.t -> R) :
  Forall (fun p => Segment.x p < worldX) l ->
  scanTerrain worldX hit miss l = miss.
Proof.
  induction 1 as [|a l Ha Hl IH]; [reflexivity|].
  destruct l as [|b l]; [reflexivity|].
  rewrite scanTerrain_skip by (right; now inversion Hl). exact IH.
Qed.

Lemma ascending_last (l : list Segment.t) (a last p : Segment.t) (i : nat) :
  ascending (a :: l) ->
  nth_error (a :: l) (List.length (a :: l) - 1) = Some last ->
  nth_error (a :: l) i = Some p ->
  Segment.x p <= Segment.x last.
Proof.
  revert a i p. induction l as [|b l IH]; intros a i p Hs Hl Hi.
  - cbn in Hl. destruct i as [|[|i]]; cbn in Hi; try discriminate.
    injection Hl as <-. injection Hi as <-. lra.
  - assert (Hl' : nth_error (b :: l) (List.length (b :: l) - 1) = Some last).
    { cbn [List.length] in *.
      replace (S (S (List.length l)) - 1)%nat with (S (List.length l)) in Hl
        by lia.
      cbn [nth_error] in Hl.
      now replace (S (List.length l) - 1)%nat with (List.length l) by lia. }
    pose proof (StronglySorted_inv Hs) as [Hs' Hall].
    destruct i as [|i].
    + cbn in Hi. injection Hi as <-.
      assert (Segment.x b <= Segment.x last)
        by (apply (IH b 0%nat b Hs' Hl'); reflexivity).
      inversion Hall; subst. lra.
    + cbn [nth_error] in Hi. eapply IH; eauto.
Qed.

Lemma ascending_bounds (l : list Segment.t) (first last : Segment.t) :
  ascending l ->
  hd_error l = Some first ->
  nth_error l (List.length l - 1) = Some last ->
  Forall (fun p => Segment.x first <= Segment.x p <= Segment.x last) l.
Proof.
  intros Hs Hf Hl. apply Forall_forall. intros p Hp.
  destruct l as [|a l]; [discriminate|]. cbn in Hf. injection Hf as ->.
  apply In_nth_error in Hp as [i Hi]. split.
  - eapply ascending_nth; eauto.
  - eapply ascending_last; eauto.
Qed.

Lemma ascending_neighbours (l : list Segment.t) (i : nat)
  (p1 p2 : Segment.t) :
  ascending l ->
  nth_error l i = Some p1 -> nth_error l (S i) = Some p2 ->
  Segment.x p1 < Segment.x p2.
Proof.
  revert i. induction l as [|a l IH]; intros i Hs H1 H2.
  - destruct i; discriminate.
  - pose proof (StronglySorted_inv Hs) as [Hs' Hall].
    destruct i as [|i].
    + cbn in H1. injection H1 as <-. change (nth_error l 0 = Some p2) in H2.
      rewrite Forall_forall in Hall. apply Hall.
      apply (nth_error_In _ _ H2).
    + cbn [nth_error] in H1, H2. eapply IH; eauto.
Qed.

(** The scan in binary64 stops at the first pair of neighbours that
    brackets [worldX], or runs to the end when no pair does. *)
Lemma scan64_cases {A : Type} (worldX : float)
  (hit : Binary64.Segment.t -> Binary64.Segment.t -> A) (miss : A)
  (l : list Binary64.Segment.t) :
  (exists i p1 p2,
      firstBracket worldX l i p1 p2
      /\ Binary64.scanTerrain worldX hit miss l = hit p1 p2)
  \/ ((forall j q1 q2,
          nth_error l j = Some q1 -> nth_error l (S j) = Some q2 ->
          Binary64.brackets worldX q1 q2 = false)
      /\ Binary64.scanTerrain worldX hit miss l = miss).
Proof.
  induction l as [|a l IH].
  - right. split; [intros [|j]; discriminate | reflexivity].
  - destruct l as [|b l].
    + right. split; [intros [|[|j]]; discriminate | reflexivity].
    + cbn [Binary64.scanTerrain].
      destruct (Binary64.brackets worldX a b) eqn:Hab.
      * left. exists 0%nat, a, b. split; [|reflexivity].
        split; [reflexivity|]. split; [reflexivity|].
        split; [exact Hab|]. intros j q1 q2 Hj. lia.
      * destruct IH as [(i & p1 & p2 & (H1 & H2 & H3 & H4) & Hs) | [Hn Hs]].
        -- left. exists (S i), p1, p2. split; [|exact Hs].
           split; [exact H1|]. split; [exact H2|]. split; [exact H3|].
           intros [|j] q1 q2 Hj Hq1 Hq2.
           ++ cbn in Hq1, Hq2. injection Hq1 as <-. injection Hq2 as <-.
              exact Hab.
           ++ apply (H4 j); [lia | exact Hq1 | exact Hq2].
        -- right. split; [|exact Hs].
           intros [|j] q1 q2 Hq1 Hq2.
           ++ cbn in Hq1, Hq2. injection Hq1 as <-. injection Hq2 as <-.
              exact Hab.
           ++ apply (Hn j); [exact Hq1 | exact Hq2].
Qed.

(** C4, counterexample.  In binary64, three samples 30 apart with the
    heights 100.1, 360.3 and 360.3.  The height at the second sample,
    x = 30, is computed from the first pair that brackets 30, which is
    the pair to its left, as [100.1 + (360.3 - 100.1) * ((30 - 0) / (30 -
    0))]: that is 360.30000000000007 and not the height 360.3 of the
    sample, and not the interpolation between the sample and its right
    neighbour, which is 360.3. *)
Lemma sample_height_is_rounded :
  Binary64.getTerrainHeightAt 30 roundedGround = 360.30000000000007%float
  /\ nth_error roundedGround 1
     = Some (Binary64.Segment.mk 30 360.3 false)
  /\ nth_error roundedGround 2
     = Some (Binary64.Segment.mk 60 360.3 false)
  /\ Binary64.getTerrainHeightAt 30 roundedGround <> 360.3%float
  /\ Binary64.interpolate 30 (Binary64.Segment.mk 30 360.3 false)
       (Binary64.Segment.mk 60 360.3 false) = 360.3%float.
Proof.
  assert (H : Binary64.getTerrainHeightAt 30 roundedGround
              = 360.30000000000007%float) by reflexivity.
  split; [exact H|]. split; [reflexivity|]. split; [reflexivity|].
  split; [|reflexivity].
  rewrite H. intros E.
  apply (f_equal (fun a => PrimFloat.eqb a 360.3%float)) in E.
  discriminate E.
Qed.

(** C4, as the code has it.  On a buffer ordered by ascending x, for
    [worldX] between two neighbouring samples [p1] and [p2], the left end
    excluded unless [p1] is the first sample of the buffer, the height is
    the expression of the script, [p1.y + (p2.y - p1.y) * ((worldX -
    p1.x) / (p2.x - p1.x))].  At the first sample the height is the
    height of that sample.  At a sample [p1] with a left neighbour [p0]
    it is the expression of the pair to its left, [p0.y + (p1.y - p0.y)
    * ((p1.x - p0.x) / (p1.x - p0.x))], which is [p1.y] up to rounding
    only.  Outside the range of the buffer the height is the baseline
    [canvas.height * 0.6].  In binary64, on any buffer, the query returns
    the expression of the script at the first pair of neighbours that
    brackets [worldX], and the baseline when no pair does. *)
Theorem terrain_height_interpolates (s : Game) :
  ascending (World.terrain (world s)) ->
  (forall i p1 p2 worldX,
      nth_error (World.terrain (world s)) i = Some p1 ->
      nth_error (World.terrain (world s)) (S i) = Some p2 ->
      Segment.x p1 <= worldX <= Segment.x p2 ->
      i = 0%nat \/ Segment.x p1 < worldX ->
      getTerrainHeightAt worldX s
      = Segment.y p1
        + (Segment.y p2 - Segment.y p1)
          * ((worldX - Segment.x p1) / (Segment.x p2 - Segment.x p1)))
  /\ (forall first second,
         nth_error (World.terrain (world s)) 0 = Some first ->
         nth_error (World.terrain (world s)) 1 = Some second ->
         getTerrainHeightAt (Segment.x first) s = Segment.y first)
  /\ (forall i p0 p1,
         nth_error (World.terrain (world s)) i = Some p0 ->
         nth_error (World.terrain (world s)) (S i) = Some p1 ->
         getTerrainHeightAt (Segment.x p1) s
         = Segment.y p0
           + (Segment.y p1 - Segment.y p0)
             * ((Segment.x p1 - Segment.x p0)
                / (Segment.x p1 - Segment.x p0)))
  /\ (forall first last worldX,
         hd_error (World.terrain (world s)) = Some first ->
         lastSegment s = Some last ->
         worldX < Segment.x first \/ Segment.x last < worldX ->
         getTerrainHeightAt worldX s = canvas_height * 0.6)
  /\ (forall worldX terrain,
         (exists i p1 p2,
             firstBracket worldX terrain i p1 p2
             /\ Binary64.getTerrainHeightAt worldX terrain
                = (Binary64.Segment.y p1
                   + (Binary64.Segment.y p2 - Binary64.Segment.y p1)
                     * ((worldX - Binary64.Segment.x p1)
                        / (Binary64.Segment.x p2 - Binary64.Segment.x p1)))%float)
         \/ ((forall j q1 q2,
                 nth_error terrain j = Some q1 ->
                 nth_error terrain (S j) = Some q2 ->
                 Binary64.brackets worldX q1 q2 = false)
             /\ Binary64.getTerrainHeightAt worldX terrain
                = (Binary64.canvas_height * 0.6)%float)).
Proof.
  intros Hs. split; [|split; [|split; [|split]]].
  - intros i p1 p2 worldX H1 H2 Hx _. unfold getTerrainHeightAt.
    rewrite (scan_bracket _ i p1 p2 worldX _ Hs H1 H2 Hx). reflexivity.
  - intros first second H1 H2. unfold getTerrainHeightAt.
    pose proof (ascending_neighbours _ _ _ _ Hs H1 H2) as Hlt.
    rewrite (scan_bracket _ 0%nat first second (Segment.x first) _ Hs H1 H2)
      by lra.
    apply interpolate_left.
  - intros i p0 p1 H1 H2. unfold getTerrainHeightAt.
    pose proof (ascending_neighbours _ _ _ _ Hs H1 H2) as Hlt.
    rewrite (scan_bracket _ i p0 p1 (Segment.x p1) _ Hs H1 H2) by lra.
    reflexivity.
  - intros first last worldX Hf Hl Hout. unfold getTerrainHeightAt.
    pose proof (ascending_bounds _ _ _ Hs Hf Hl) as Hb.
    destruct Hout as [Hout|Hout].
    + apply scan_before. eapply Forall_impl; [|exact Hb].
      cbn. intros p Hp. lra.
    + apply scan_after. eapply Forall_impl; [|exact Hb].
      cbn. intros p Hp. lra.
  - intros worldX terrain. unfold Binary64.getTerrainHeightAt.
    destruct (scan64_cases worldX (Binary64.interpolate worldX)
                (Binary64.canvas_height * 0.6)%float terrain)
      as [(i & p1 & p2 & Hf & Hv) | [Hn Hv]].
    + left. exists i, p1, p2. split; [exact Hf|]. rewrite Hv. reflexivity.
    + right. split; [exact Hn|]. rewrite Hv. reflexivity.
Qed.

Lemma steepGround_ascending : ascending steepGround.
Proof.
  unfold ascending, steepGround. cbn [ramp]. unfold HILL_SEGMENT_WIDTH.
  repeat constructor; cbn [Segment.x]; lra.
Qed.

Lemma terrain_height_interpolates_witness :
  getTerrainHeightAt 195 strandedOnSlope = 345
  /\ getTerrainHeightAt 150 strandedOnSlope = 300
  /\ getTerrainHeightAt 100 strandedOnSlope = 360.
Proof.
  destruct (terrain_height_interpolates strandedOnSlope steepGround_ascending)
    as (Hmid & Hleft & _ & Hout & _).
  split; [|split].
  - rewrite (Hmid 1%nat (Segment.mk (150 + 30) (300 + 30) false)
               (Segment.mk (150 + 30 + 30) (300 + 30 + 30) false));
      try reflexivity; cbn [Segment.x Segment.y]; lra.
  - replace 150 with (Segment.x (Segment.mk 150 300 false)) at 1
      by reflexivity.
    rewrite (Hleft (Segment.mk 150 300 false)
               (Segment.mk (150 + 30) (300 + 30) false));
      reflexivity.
  - rewrite (Hout (Segment.mk 150 300 false)
               (Segment.mk (150 + 30 + 30 + 30) (300 + 30 + 30 + 30) false));
      try reflexivity; unfold canvas_height; cbn [Segment.x]; lra.
Defined.

(** ** What terrain generation leaves alone *)

Lemma generated_refl (s : Game) : generated s s.
Proof.
  unfold generated. repeat split; try (exists []; now rewrite app_nil_r).
  exists 0%nat. intros n. now rewrite Nat.add_0_r.
Qed.

Lemma generated_trans (s1 s2 s3 : Game) :
  generated s1 s2 -> generated s2 s3 -> generated s1 s3.
Proof.
  intros (A1 & B1 & C1 & D1 & E1 & F1 & G1 & (t1 & T1) & (b1 & H1) & (f1 & I1)
          & (c1 & J1) & (o1 & K1) & (k1 & L1))
         (A2 & B2 & C2 & D2 & E2 & F2 & G2 & (t2 & T2) & (b2 & H2) & (f2 & I2)
          & (c2 & J2) & (o2 & K2) & (k2 & L2)).
  unfold generated. repeat split; try congruence.
  - exists (t1 ++ t2). rewrite T2, T1. now rewrite app_assoc.
  - exists (b1 ++ b2). rewrite H2, H1. now rewrite app_assoc.
  - exists (f1 ++ f2). rewrite I2, I1. now rewrite app_assoc.
  - exists (c1 ++ c2). rewrite J2, J1. now rewrite app_assoc.
  - exists (o1 ++ o2). rewrite K2, K1. now rewrite app_assoc.
  - exists (k2 + k1)%nat. intros n. rewrite L2, L1. f_equal. lia.
Qed.

(** Close a goal [generated s s'] for an [s'] built from [s] by field
    updates and at most two draws. *)
Ltac solve_generated :=
  unfold generated; simpl_fields;
  repeat split;
  try reflexivity;
  try (exists []; now rewrite app_nil_r);
  try (eexists; reflexivity);
  try (exists 0%nat; intros; now rewrite Nat.add_0_r);
  try (exists 1%nat; intros; now rewrite Nat.add_1_r);
  try (exists 2%nat; intros ?n; f_equal; lia).

Lemma segmentHeight_generated (x index : R) (s : Game) :
  generated s (snd (segmentHeight x index s)).
Proof.
  unfold segmentHeight, Math_random. split_tests; solve_generated.
Qed.

Lemma pushSegment_generated (p : Segment.t) (s : Game) :
  generated s (pushSegment p s).
Proof. unfold pushSegment. solve_generated. Qed.

Lemma spawnBridge_generated (x y : R) (b : bool) (s : Game) :
  generated s (spawnBridge x y b s).
Proof.
  unfold spawnBridge, drawThreshold, Math_random. split_tests; solve_generated.
Qed.

Lemma spawnFuel_generated (x y : R) (s : Game) :
  generated s (spawnFuel x y s).
Proof.
  unfold spawnFuel, drawThreshold, Math_random. split_tests; solve_generated.
Qed.

Lemma spawnBoost_generated (x y : R) (s : Game) :
  generated s (spawnBoost x y s).
Proof.
  unfold spawnBoost, drawThreshold, Math_random. split_tests; solve_generated.
Qed.

Lemma spawnCoin_generated (x y : R) (s : Game) :
  generated s (spawnCoin x y s).
Proof.
  unfold spawnCoin, Math_random. split_tests; solve_generated.
Qed.

(** [addTerrainSegment] as the sequence of its stages. *)
Lemma addTerrainSegment_eq (x index : R) (s : Game) :
  addTerrainSegment x index s
  = let isOnBridge := existsb (spans x) (World.bridges (world s)) in
    let y := fst (segmentHeight x index s) in
    let s1 := snd (segmentHeight x index s) in
    spawnCoin x y
      (spawnBoost x y
         (spawnFuel x y
            (spawnBridge x y isOnBridge
               (pushSegment (Segment.mk x y isOnBridge) s1)))).
Proof.
  unfold addTerrainSegment. destruct (segmentHeight x index s). reflexivity.
Qed.

Lemma addTerrainSegment_generated (x index : R) (s : Game) :
  generated s (addTerrainSegment x index s).
Proof.
  rewrite addTerrainSegment_eq. cbv zeta.
  eapply generated_trans; [apply segmentHeight_generated|].
  eapply generated_trans; [apply pushSegment_generated|].
  eapply generated_trans; [apply spawnBridge_generated|].
  eapply generated_trans; [apply spawnFuel_generated|].
  eapply generated_trans; [apply spawnBoost_generated|].
  apply spawnCoin_generated.
Qed.

(** The segment pushed by [addTerrainSegment] is at [x]. *)
Lemma addTerrainSegment_terrain (x index : R) (s : Game) :
  exists y b,
    World.terrain (world (addTerrainSegment x index s))
    = World.terrain (world s) ++ [Segment.mk x y b].
Proof.
  rewrite addTerrainSegment_eq. cbv zeta.
  set (y := fst (segmentHeight x index s)).
  set (b := existsb (spans x) (World.bridges (world s))).
  exists y, b.
  assert (Hcoin : forall x y s, World.terrain (world (spawnCoin x y s))
                                = World.terrain (world s)).
  { intros; unfold spawnCoin, Math_random; split_tests; reflexivity. }
  assert (Hboost : forall x y s, World.terrain (world (spawnBoost x y s))
                                 = World.terrain (world s)).
  { intros; unfold spawnBoost, drawThreshold, Math_random; split_tests;
      reflexivity. }
  assert (Hfuel : forall x y s, World.terrain (world (spawnFuel x y s))
                                = World.terrain (world s)).
  { intros; unfold spawnFuel, drawThreshold, Math_random; split_tests;
      reflexivity. }
  assert (Hbridge : forall x y b s,
             World.terrain (world (spawnBridge x y b s))
             = World.terrain (world s)).
  { intros; unfold spawnBridge, drawThreshold, Math_random; split_tests;
      reflexivity. }
  assert (Hheight : World.terrain (world (snd (segmentHeight x index s)))
                    = World.terrain (world s)).
  { unfold segmentHeight, Math_random; split_tests; reflexivity. }
  rewrite Hcoin, Hboost, Hfuel, Hbridge. unfold pushSegment. simpl_fields.
  now rewrite Hheight.
Qed.

(** ** The loop that extends the window *)

(** A property kept by every [addTerrainSegment] of the loop is kept by
    the loop. *)
Lemma extendTerrain_invariant (P : Game -> Prop) :
  (forall s last,
      lastSegment s = Some last ->
      Segment.x last < leadingEdge s ->
      P s ->
      P (addTerrainSegment (Segment.x last + HILL_SEGMENT_WIDTH)
           (INR (List.length (World.terrain (world s)))) s)) ->
  forall s, P s -> P (extendTerrain s).
Proof.
  intros Hstep s. funelim (extendTerrain s); intros HP; auto.
  match goal with IH : forall P : Game -> Prop, _ |- _ => apply IH end;
    auto.
  apply Hstep; auto. now apply ltb_true.
Qed.

(** The loop stops with the last segment at or past the leading edge. *)
Lemma extendTerrain_reaches (s : Game) :
  lastSegment s <> None ->
  exists last,
    lastSegment (extendTerrain s) = Some last
    /\ leadingEdge (extendTerrain s) <= Segment.x last.
Proof.
  funelim (extendTerrain s); intros Hne; try congruence.
  - match goal with IH : _ -> exists _, _ |- _ => apply IH end.
    destruct (addTerrainSegment_terrain
                (Segment.x last + HILL_SEGMENT_WIDTH)
                (INR (List.length (World.terrain (world s)))) s)
      as (y & b & Ht).
    unfold lastSegment. rewrite Ht, length_app, Nat.add_sub.
    rewrite nth_error_app2 by lia. rewrite Nat.sub_diag. discriminate.
  - exists last. split; [assumption|]. now apply ltb_false.
Qed.

Lemma extendTerrain_generated (s : Game) : generated s (extendTerrain s).
Proof.
  apply (extendTerrain_invariant (generated s)); [|apply generated_refl].
  intros s' last _ _ H. eapply generated_trans; [exact H|].
  apply addTerrainSegment_generated.
Qed.

(** ** What the pickup loops leave alone *)

Lemma collecting_refl (s : Game) : collecting s s.
Proof.
  unfold collecting. repeat split.
  exists 0%nat. intros n. now rewrite Nat.add_0_r.
Qed.

Lemma collecting_trans (s1 s2 s3 : Game) :
  collecting s1 s2 -> collecting s2 s3 -> collecting s1 s3.
Proof.
  intros (A1 & B1 & C1 & D1 & E1 & F1 & G1 & H1 & I1 & (k1 & L1))
         (A2 & B2 & C2 & D2 & E2 & F2 & G2 & H2 & I2 & (k2 & L2)).
  unfold collecting. repeat split; try congruence.
  exists (k2 + k1)%nat. intros n. rewrite L2, L1. f_equal. lia.
Qed.

Lemma createParticles_collecting (x y : R) (color : string) (count : nat)
  (s : Game) :
  collecting s (createParticles x y color count s).
Proof.
  revert s. induction count as [|count IH]; intros s; cbn [createParticles].
  - apply collecting_refl.
  - unfold Math_random. simpl_fields.
    eapply collecting_trans; [|apply IH].
    unfold collecting. simpl_fields. repeat split.
    exists 3%nat. intros n. f_equal. lia.
Qed.

Lemma createParticles_run (x y : R) (color : string) (count : nat)
  (s : Game) :
  run (createParticles x y color count s) = run s.
Proof.
  revert s. induction count as [|count IH]; intros s; cbn [createParticles].
  - reflexivity.
  - unfold Math_random. simpl_fields. now rewrite IH.
Qed.

Lemma activateBoost_collecting (s : Game) : collecting s (activateBoost s).
Proof.
  unfold activateBoost, Date_now, collecting. simpl_fields. repeat split.
  exists 0%nat. intros n. now rewrite Nat.add_0_r.
Qed.

Lemma collectFuel_spec (cx cy cr : R) (l : list Pickup.t) (s : Game) :
  fst (collectFuel cx cy cr l s) = map (markPickup (cr + 10) cx cy) l
  /\ collecting s (snd (collectFuel cx cy cr l s)).
Proof.
  revert s. induction l as [|p l IH]; intros s; cbn [collectFuel map].
  - split; [reflexivity | apply collecting_refl].
  - unfold markPickup at 1.
    destruct (Pickup.collected p).
    + destruct (IH s) as [H1 H2].
      destruct (collectFuel cx cy cr l s); cbn [fst snd] in *.
      now rewrite H1.
    + destruct (within (cr + 10) (Pickup.x p) (Pickup.y p) cx cy).
      * match goal with
        | |- context [collectFuel cx cy cr l ?s1] =>
            destruct (IH s1) as [H1 H2];
            destruct (collectFuel cx cy cr l s1); cbn [fst snd] in *
        end.
        split; [now rewrite H1|].
        eapply collecting_trans; [|exact H2].
        eapply collecting_trans; [|apply createParticles_collecting].
        unfold collecting. simpl_fields. repeat split.
        exists 0%nat. intros n. now rewrite Nat.add_0_r.
      * destruct (IH s) as [H1 H2].
        destruct (collectFuel cx cy cr l s); cbn [fst snd] in *.
        now rewrite H1.
Qed.

Lemma collectCoins_spec (cx cy cr : R) (l : list Pickup.t) (s : Game) :
  fst (collectCoins cx cy cr l s) = map (markPickup (cr + 10) cx cy) l
  /\ collecting s (snd (collectCoins cx cy cr l s))
  /\ Run.fuel (run (snd (collectCoins cx cy cr l s))) = Run.fuel (run s).
Proof.
  revert s. induction l as [|p l IH]; intros s; cbn [collectCoins map].
  - repeat split; apply collecting_refl.
  - unfold markPickup at 1.
    destruct (Pickup.collected p).
    + destruct (IH s) as (H1 & H2 & H3).
      destruct (collectCoins cx cy cr l s); cbn [fst snd] in *.
      now rewrite H1.
    + destruct (within (cr + 10) (Pickup.x p) (Pickup.y p) cx cy).
      * match goal with
        | |- context [collectCoins cx cy cr l ?s1] =>
            destruct (IH s1) as (H1 & H2 & H3);
            destruct (collectCoins cx cy cr l s1); cbn [fst snd] in *
        end.
        split; [now rewrite H1|]. split.
        -- eapply collecting_trans; [|exact H2].
           eapply collecting_trans; [|apply createParticles_collecting].
           unfold collecting. simpl_fields. repeat split.
           exists 0%nat. intros n. now rewrite Nat.add_0_r.
        -- rewrite H3, createParticles_run. reflexivity.
      * destruct (IH s) as (H1 & H2 & H3).
        destruct (collectCoins cx cy cr l s); cbn [fst snd] in *.
        now rewrite H1.
Qed.

Lemma collectBoosts_spec (cx cy cr : R) (l : list Boost.t) (s : Game) :
  fst (collectBoosts cx cy cr l s) = map (markBoost (cr + 15) cx cy) l
  /\ collecting s (snd (collectBoosts cx cy cr l s))
  /\ Run.fuel (run (snd (collectBoosts cx cy cr l s))) = Run.fuel (run s).
Proof.
  revert s. induction l as [|p l IH]; intros s; cbn [collectBoosts map].
  - repeat split; apply collecting_refl.
  - unfold markBoost at 1.
    destruct (Boost.collected p).
    + destruct (IH s) as (H1 & H2 & H3).
      destruct (collectBoosts cx cy cr l s); cbn [fst snd] in *.
      now rewrite H1.
    + destruct (within (cr + 15) (Boost.x p) (Boost.y p) cx cy).
      * match goal with
        | |- context [collectBoosts cx cy cr l ?s1] =>
            destruct (IH s1) as (H1 & H2 & H3);
            destruct (collectBoosts cx cy cr l s1); cbn [fst snd] in *
        end.
        split; [now rewrite H1|]. split.
        -- eapply collecting_trans; [|exact H2].
           eapply collecting_trans; [|apply createParticles_collecting].
           apply activateBoost_collecting.
        -- rewrite H3, createParticles_run. reflexivity.
      * destruct (IH s) as (H1 & H2 & H3).
        destruct (collectBoosts cx cy cr l s); cbn [fst snd] in *.
        now rewrite H1.
Qed.

(** ** The rest of a frame *)

Lemma checkPickups_eq (s : Game) :
  let cx := carWorldX s in
  let cy := Car.y (car s) in
  let cr := carRadius s in
  let behind := World.terrainOffset (world s) - PICKUP_CLEAR_BEHIND in
  (canvas_width (checkPickups s) = canvas_width s
   /\ car (checkPickups s) = car s
   /\ keys (checkPickups s) = keys s
   /\ spawn (checkPickups s) = spawn s
   /\ Run.gameState (run (checkPickups s)) = Run.gameState (run s)
   /\ Run.gameOverReason (run (checkPickups s)) = Run.gameOverReason (run s)
   /\ Run.score (run (checkPickups s)) = Run.score (run s)
   /\ Run.currentLevel (run (checkPickups s)) = Run.currentLevel (run s)
   /\ (exists k, forall n, random (checkPickups s) n = random s (n + k)%nat))
  /\ Run.fuel (run (checkPickups s))
     = Run.fuel
         (run (snd (collectFuel cx cy cr (World.fuelPickups (world s)) s)))
  /\ world (checkPickups s)
     = {| World.terrain := World.terrain (world s);
          World.terrainOffset := World.terrainOffset (world s);
          World.bridges := World.bridges (world s);
          World.fuelPickups :=
            filter (keptPickup behind)
              (map (markPickup (cr + 10) cx cy) (World.fuelPickups (world s)));
          World.coins :=
            filter (keptPickup behind)
              (map (markPickup (cr + 10) cx cy) (World.coins (world s)));
          World.boosts :=
            filter (keptBoost behind)
              (map (markBoost (cr + 15) cx cy) (World.boosts (world s))) |}.
Proof.
  intros cx cy cr behind. unfold checkPickups.
  fold (carWorldX s) (carRadius s). fold cx cy cr.
  destruct (collectFuel_spec cx cy cr (World.fuelPickups (world s)) s)
    as [F1 F2].
  destruct (collectFuel cx cy cr (World.fuelPickups (world s)) s)
    as [fuelPickups s1]. cbn [fst snd] in *.
  set (s2 := with_world (World.set_fuelPickups fuelPickups) s1).
  destruct (collectCoins_spec cx cy cr (World.coins (world s2)) s2)
    as (C1 & C2 & C3).
  destruct (collectCoins cx cy cr (World.coins (world s2)) s2)
    as [coins s3]. cbn [fst snd] in *.
  set (s4 := with_world (World.set_coins coins) s3).
  destruct (collectBoosts_spec cx cy cr (World.boosts (world s4)) s4)
    as (B1 & B2 & B3).
  destruct (collectBoosts cx cy cr (World.boosts (world s4)) s4)
    as [boosts s5]. cbn [fst snd] in *.
  destruct F2 as (Fa & Fb & Fc & Fd & Fe & Ff & Fg & Fh & Fi & (kf & Fk)).
  destruct C2 as (Ca & Cb & Cc & Cd & Ce & Cf & Cg & Ch & Ci & (kc & Ck)).
  destruct B2 as (Ba & Bb & Bc & Bd & Be & Bf & Bg & Bh & Bi & (kb & Bk)).
  subst s2 s4. simpl_fields_in Ca. simpl_fields_in Cb. simpl_fields_in Cc.
  simpl_fields_in Cd. simpl_fields_in Ce. simpl_fields_in Cf.
  simpl_fields_in Cg. simpl_fields_in Ch. simpl_fields_in Ci.
  simpl_fields_in Ck. simpl_fields_in C1. simpl_fields_in C3.
  simpl_fields_in Ba. simpl_fields_in Bb. simpl_fields_in Bc.
  simpl_fields_in Bd. simpl_fields_in Be. simpl_fields_in Bf.
  simpl_fields_in Bg. simpl_fields_in Bh. simpl_fields_in Bi.
  simpl_fields_in Bk. simpl_fields_in B1. simpl_fields_in B3.
  split; [|split].
  - simpl_fields. repeat split; try congruence.
    exists (kb + (kc + kf))%nat. intros n. rewrite Bk, Ck, Fk. f_equal. lia.
  - simpl_fields. congruence.
  - simpl_fields. rewrite Be, Ce, Fe. simpl_fields.
    rewrite B1, C1, F1, Ce, Fe. simpl_fields. reflexivity.
Qed.

Lemma finishFrame_frame (s : Game) :
  canvas_width (finishFrame s) = canvas_width s
  /\ car (finishFrame s) = car s
  /\ keys (finishFrame s) = keys s
  /\ spawn (finishFrame s) = spawn s
  /\ world (finishFrame s) = world s
  /\ random (finishFrame s) = random s
  /\ Run.gameState (run (finishFrame s)) = Run.gameState (run s)
  /\ Run.gameOverReason (run (finishFrame s)) = Run.gameOverReason (run s)
  /\ Run.score (run (finishFrame s)) = Run.score (run s)
  /\ Run.fuel (run (finishFrame s)) = Run.fuel (run s)
  /\ Run.currentLevel (run s) <= Run.currentLevel (run (finishFrame s)).
Proof.
  unfold finishFrame, updateBackground, updateLevel, updateParticles,
    updateBoost, Date_now.
  split_tests; repeat split; try lra;
    match goal with H : (_ >? _) = true |- _ => apply gtb_true in H; lra end.
Qed.

Lemma gameLoop_playing (s : Game) :
  Run.gameState (run s) = playing ->
  gameLoop s
  = match updateTerrain (updatePhysics s) with
    | None => None
    | Some m => Some (finishFrame (checkPickups m))
    end.
Proof. intros H. unfold gameLoop. rewrite H. reflexivity. Qed.

Lemma gameLoop_not_playing (s : Game) :
  Run.gameState (run s) <> playing -> gameLoop s = Some s.
Proof.
  intros H. unfold gameLoop. destruct (Run.gameState (run s)); cbn; congruence.
Qed.

(** ** After the end of a run *)

(** C8.  Once a frame has ended the run, the frames that follow, whatever
    the input, change nothing of the simulation: the car, the counters of
    the run, the terrain buffer, the entity collections, the generator,
    the particles are as they were; a frame with the same input returns
    the state itself. *)
Theorem ended_run_is_frozen (s : Game) (ks : list Keys.t) :
  result s <> continuing ->
  gameLoop s = Some s
  /\ exists s', ticks ks s = Some s' /\ simulationState s' = simulationState s.
Proof.
  intros Hr.
  assert (Hn : Run.gameState (run s) <> playing).
  { intros Hp. apply Hr. unfold result. now rewrite Hp. }
  split; [now apply gameLoop_not_playing|].
  revert s Hr Hn. induction ks as [|k ks IH]; intros s Hr Hn.
  - exists s. split; reflexivity.
  - cbn [ticks]. unfold tick.
    rewrite gameLoop_not_playing by exact Hn.
    destruct (IH (with_keys k s)) as (s' & Ht & Hs).
    + unfold result. simpl_fields.
      destruct (Run.gameState (run s)); cbn; congruence.
    + exact Hn.
    + exists s'. split; [exact Ht|]. rewrite Hs. reflexivity.
Qed.

Lemma ended_run_is_frozen_witness :
  gameLoop (updatePhysics fallingInverted) = Some (updatePhysics fallingInverted)
  /\ exists s',
      ticks [forwardKey; noKeys] (updatePhysics fallingInverted) = Some s'
      /\ simulationState s' = simulationState (updatePhysics fallingInverted).
Proof.
  apply (ended_run_is_frozen (updatePhysics fallingInverted)
           [forwardKey; noKeys]).
  rewrite fallingInverted_result. discriminate.
Defined.

(** ** The terrain window *)

Lemma lastOf_snoc (l : list Segment.t) (q : Segment.t) :
  lastOf (l ++ [q]) = Some q.
Proof.
  unfold lastOf. rewrite length_app, Nat.add_sub.
  rewrite nth_error_app2 by lia. now rewrite Nat.sub_diag.
Qed.

Lemma lastOf_cons (a b : Segment.t) (l : list Segment.t) :
  lastOf (a :: b :: l) = lastOf (b :: l).
Proof.
  unfold lastOf. cbn [List.length].
  replace (S (S (List.length l)) - 1)%nat with (S (List.length l)) by lia.
  replace (S (List.length l) - 1)%nat with (List.length l) by lia.
  reflexivity.
Qed.

Lemma lastOf_In (l : list Segment.t) (last : Segment.t) :
  lastOf l = Some last -> In last l.
Proof. apply nth_error_In. Qed.

Lemma ascending_below_last (l : list Segment.t) (last : Segment.t) :
  ascending l -> lastOf l = Some last ->
  Forall (fun p => Segment.x p <= Segment.x last) l.
Proof.
  intros Hs Hl. apply Forall_forall. intros p Hp.
  destruct l as [|a l]; [destruct Hp|].
  apply In_nth_error in Hp as [i Hi].
  eapply ascending_last; eauto.
Qed.

Lemma ascending_snoc (l : list Segment.t) (q : Segment.t) :
  ascending l ->
  Forall (fun p => Segment.x p < Segment.x q) l ->
  ascending (l ++ [q]).
Proof.
  unfold ascending. induction l as [|a l IH]; intros Hs Hq; cbn.
  - repeat constructor.
  - apply StronglySorted_inv in Hs as [Hs Ha].
    inversion Hq; subst. constructor; [now apply IH|].
    apply Forall_app. split; [exact Ha|]. now repeat constructor.
Qed.

(** Dropping the segments behind the trailing edge keeps the order and
    the last segment, when that one is not behind the edge itself. *)
Lemma shiftBehind_covers (limit : R) (l : list Segment.t) (last : Segment.t) :
  ascending l ->
  lastOf l = Some last ->
  limit <= Segment.x last ->
  covers limit (shiftBehind limit l)
  /\ lastOf (shiftBehind limit l) = Some last.
Proof.
  intros Hs Hl Hlast. induction l as [|a l IH]; [discriminate|].
  cbn [shiftBehind]. destruct (Segment.x a <? limit) eqn:Ha.
  - apply ltb_true in Ha.
    destruct l as [|b l].
    + cbn in Hl. injection Hl as ->. lra.
    + apply IH.
      * now apply StronglySorted_inv in Hs.
      * now rewrite lastOf_cons in Hl.
  - apply ltb_false in Ha. split; [|exact Hl]. split; [exact Hs|].
    pose proof (StronglySorted_inv Hs) as [_ Hall].
    constructor; [exact Ha|].
    eapply Forall_impl; [|exact Hall]. cbn. intros p Hp. lra.
Qed.

Lemma extendTerrain_covers (limit : R) (s : Game) :
  covers limit (World.terrain (world s)) ->
  covers limit (World.terrain (world (extendTerrain s))).
Proof.
  apply (extendTerrain_invariant
           (fun s => covers limit (World.terrain (world s)))).
  clear s. intros s last Hl _ [Hs Hall].
  destruct (addTerrainSegment_terrain (Segment.x last + HILL_SEGMENT_WIDTH)
              (INR (List.length (World.terrain (world s)))) s)
    as (y & b & ->).
  change (lastOf (World.terrain (world s)) = Some last) in Hl.
  pose proof (ascending_below_last _ _ Hs Hl) as Hbelow.
  split.
  - apply ascending_snoc; [exact Hs|].
    eapply Forall_impl; [|exact Hbelow].
    cbn. unfold HILL_SEGMENT_WIDTH. intros p Hp. lra.
  - apply Forall_app. split; [exact Hall|].
    constructor; [|constructor]. cbn.
    rewrite Forall_forall in Hall.
    pose proof (Hall last (lastOf_In _ _ Hl)).
    unfold HILL_SEGMENT_WIDTH. lra.
Qed.

(** [updateTerrain] on a window whose last segment is not behind the
    trailing edge: it returns, the generator has run on the shifted
    buffer, the buffer is in order, starts at or after the trailing edge
    and reaches the leading edge. *)
Lemma updateTerrain_window (s : Game) (last : Segment.t) :
  ascending (World.terrain (world s)) ->
  lastSegment s = Some last ->
  World.terrainOffset (world s) - 100 <= Segment.x last ->
  exists s' last',
    updateTerrain s = Some s'
    /\ covers (World.terrainOffset (world s') - 100)
         (World.terrain (world s'))
    /\ lastSegment s' = Some last'
    /\ leadingEdge s' <= Segment.x last'
    /\ canvas_width s' = canvas_width s
    /\ car s' = car s
    /\ World.terrainOffset (world s') = World.terrainOffset (world s).
Proof.
  intros Hs Hl Hlast. unfold updateTerrain.
  set (limit := World.terrainOffset (world s) - 100).
  set (s1 := with_world
               (fun w => World.set_terrain
                           (shiftBehind limit (World.terrain w)) w) s).
  destruct (shiftBehind_covers limit _ _ Hs Hl Hlast) as [Hc Hl1].
  assert (Hl1' : lastSegment s1 = Some last) by exact Hl1.
  rewrite Hl1'.
  destruct (extendTerrain_reaches s1) as (last' & Hl' & Hreach);
    [congruence|].
  pose proof (extendTerrain_generated s1)
    as (Ga & Gb & _ & _ & _ & _ & Go & _).
  pose proof (extendTerrain_covers limit s1 Hc) as Hc'.
  eexists. exists last'. split; [reflexivity|].
  unfold lastSegment, leadingEdge in *. simpl_fields.
  rewrite Go, Ga, Gb in *. subst s1. simpl_fields.
  repeat split; try assumption; apply Hc'.
Qed.

(** The speed that leaves the contact branch never exceeds the boosted
    top speed. *)
Lemma contactSpeed_bound (s : Game) : contactSpeed s <= 21.6.
Proof.
  unfold contactSpeed.
  pose proof (currentMaxSpeed_bounds s) as Hm.
  pose proof (limitedSpeed_bounds (currentMaxSpeed s) (controlledSpeed s)
                ltac:(lra)) as Hl.
  pose proof (SIN_bound (slopeUnderCar s)) as Hs.
  unfold REVERSE_SPEED, GROUND_FRICTION, AIR_RESISTANCE in *.
  destruct (grounded s); lra.
Qed.

(** What the physics step does to the scroll: the offset never moves
    back, it advances by at most the excess of the car over its anchor
    plus the top speed, and the car ends at or before the larger of the
    anchor and 50. *)
Lemma updatePhysics_scroll (s : Game) :
  let anchor := canvas_width s * 0.4 in
  canvas_width (updatePhysics s) = canvas_width s
  /\ World.terrain (world (updatePhysics s)) = World.terrain (world s)
  /\ World.terrainOffset (world s)
     <= World.terrainOffset (world (updatePhysics s))
     <= World.terrainOffset (world s)
        + Rmax 0 (Car.x (car s) - anchor) + 21.6
  /\ Car.x (car (updatePhysics s)) <= Rmax anchor 50.
Proof.
  intros anchor. unfold updatePhysics.
  destruct (checkGameOver_frame (integrate s)) as (-> & -> & Hsur & _).
  assert (Hw : canvas_width (checkGameOver (integrate s))
               = canvas_width (integrate s))
    by (unfold surroundings in Hsur; congruence).
  rewrite Hw. clear Hw Hsur.
  destruct (integrate_frame s) as (Hsur & _ & Hcon).
  assert (Hw : canvas_width (integrate s) = canvas_width s)
    by (unfold surroundings in Hsur; congruence).
  assert (Ht : World.terrain (world (integrate s)) = World.terrain (world s))
    by (unfold contents in Hcon; congruence).
  split; [exact Hw|]. split; [exact Ht|].
  rewrite integrate_eq.
  set (m := moveCar (resolveContact (carAtContact s))).
  assert (Hmw : canvas_width m = canvas_width s).
  { unfold m, moveCar. simpl_fields.
    now rewrite resolveContact_width, carAtContact_width. }
  assert (Hmx : Car.x (car m) = Car.x (car s) + contactSpeed s).
  { unfold m. rewrite moveCar_car. simpl_fields.
    rewrite resolveContact_x, contact_velocityX, carAtContact_car.
    reflexivity. }
  assert (Hmo : World.terrainOffset (world m) = World.terrainOffset (world s)).
  { unfold m, moveCar. simpl_fields.
    now rewrite resolveContact_world, carAtContact_world. }
  rewrite scrollTerrain_offset, Hmo, Hmw, Hmx.
  pose proof (scrollTerrain_x m) as Hx. rewrite Hmw in Hx.
  pose proof (contactSpeed_bound s) as Hv.
  fold anchor. split; [|exact Hx].
  unfold Rmax. repeat destruct (Rle_dec _ _); lra.
Qed.

(** A frame of a run in progress, from a state that keeps the window
    invariant: the frame returns, through [updateTerrain], and the window
    is within its bounds afterwards. *)
Lemma gameLoop_window (s : Game) :
  Run.gameState (run s) = playing ->
  windowInv s ->
  exists m,
    updateTerrain (updatePhysics s) = Some m
    /\ gameLoop s = Some (finishFrame (checkPickups m))
    /\ windowInv (finishFrame (checkPickups m))
    /\ windowBounds (finishFrame (checkPickups m)).
Proof.
  intros Hp (Hw & Hs & last & Hl & Hlast).
  destruct (updatePhysics_scroll s) as (Pw & Pt & [Po1 Po2] & Px).
  destruct (updateTerrain_window (updatePhysics s) last)
    as (m & last' & Hu & [Hasc Hall] & Hl' & Hreach & Mw & Mc & Mo).
  { now rewrite Pt. }
  { unfold lastSegment in *. now rewrite Pt. }
  { lra. }
  exists m. split; [exact Hu|].
  split; [rewrite gameLoop_playing by exact Hp; now rewrite Hu|].
  destruct (checkPickups_eq m) as ((Cw & Cc & _) & _ & Cworld).
  destruct (finishFrame_frame (checkPickups m))
    as (Fw & Fc & _ & _ & Fworld & _).
  assert (Ht : World.terrain (world (finishFrame (checkPickups m)))
               = World.terrain (world m))
    by (rewrite Fworld, Cworld; reflexivity).
  assert (Ho : World.terrainOffset (world (finishFrame (checkPickups m)))
               = World.terrainOffset (world m))
    by (rewrite Fworld, Cworld; reflexivity).
  unfold windowInv, windowBounds, lastSegment, leadingEdge in *.
  rewrite Ht, Ho, Fw, Cw, Fc, Cc, Mw, Mc, Pw in *.
  unfold HILL_SEGMENT_WIDTH.
  assert (Hx' : Rmax 0 (Car.x (car (updatePhysics s)) - canvas_width s * 0.4)
                <= 50).
  { unfold Rmax in *. repeat destruct (Rle_dec _ _); lra. }
  repeat split; try assumption.
  - exists last'. split; [assumption | lra].
  - exists last'. split; [assumption | lra].
Qed.

Lemma generateSegments_generated (n : nat) (i : R) (s : Game) :
  generated s (generateSegments n i s).
Proof.
  revert i s. induction n as [|n IH]; intros i s; cbn [generateSegments].
  - apply generated_refl.
  - eapply generated_trans; [apply addTerrainSegment_generated | apply IH].
Qed.

(** The initial window: segments at [i * 30], [(i + 1) * 30], ... in
    order after what the buffer holds. *)
Lemma generateSegments_terrain (limit : R) (n : nat) (i : R) (s : Game) :
  limit <= i * HILL_SEGMENT_WIDTH ->
  covers limit (World.terrain (world s)) ->
  Forall (fun p => Segment.x p < i * HILL_SEGMENT_WIDTH)
    (World.terrain (world s)) ->
  covers limit (World.terrain (world (generateSegments n i s)))
  /\ (n <> O ->
      exists last,
        lastSegment (generateSegments n i s) = Some last
        /\ Segment.x last = (i + INR n - 1) * HILL_SEGMENT_WIDTH).
Proof.
  revert i s. induction n as [|n IH]; intros i s Hlim [Hs Hall] Hlt.
  - cbn [generateSegments]. split; [now split | congruence].
  - cbn [generateSegments].
    destruct (addTerrainSegment_terrain (i * HILL_SEGMENT_WIDTH) i s)
      as (y & b & Ht).
    set (s1 := addTerrainSegment (i * HILL_SEGMENT_WIDTH) i s) in *.
    assert (Hc1 : covers limit (World.terrain (world s1))).
    { rewrite Ht. split.
      - now apply ascending_snoc.
      - apply Forall_app. split; [exact Hall|].
        constructor; [exact Hlim | constructor]. }
    assert (Hlt1 : Forall (fun p => Segment.x p < (i + 1) * HILL_SEGMENT_WIDTH)
                     (World.terrain (world s1))).
    { rewrite Ht. apply Forall_app. split.
      - eapply Forall_impl; [|exact Hlt]. cbn. unfold HILL_SEGMENT_WIDTH.
        intros p Hp. lra.
      - constructor; [|constructor]. cbn. unfold HILL_SEGMENT_WIDTH. lra. }
    destruct (IH (i + 1) s1) as [Hc Hlast]; auto.
    { unfold HILL_SEGMENT_WIDTH in *. lra. }
    split; [exact Hc|]. intros _.
    destruct n as [|n].
    + cbn [generateSegments]. exists (Segment.mk (i * HILL_SEGMENT_WIDTH) y b).
      split.
      * unfold lastSegment. rewrite Ht. apply lastOf_snoc.
      * cbn. lra.
    + destruct Hlast as (last & Hl & Hx); [congruence|].
      exists last. split; [exact Hl|]. rewrite Hx.
      rewrite (S_INR (S n)). lra.
Qed.

(** The state [generateTerrain] hands to its loop. *)
Lemma prepareTerrain_eq (s : Game) :
  canvas_width (prepareTerrain s) = canvas_width s
  /\ car (prepareTerrain s) = car s
  /\ run (prepareTerrain s) = run s
  /\ World.terrain (world (prepareTerrain s)) = []
  /\ World.bridges (world (prepareTerrain s)) = []
  /\ World.terrainOffset (world (prepareTerrain s))
     = World.terrainOffset (world s)
  /\ Spawn.lastBridgeX (spawn (prepareTerrain s))
     = World.terrainOffset (world s) - 500
  /\ Spawn.nextBridgeX (spawn (prepareTerrain s))
     = (BRIDGE_MIN_DISTANCE
        + random s 2 * (BRIDGE_MAX_DISTANCE - BRIDGE_MIN_DISTANCE)) * 10
  /\ (forall n, random (prepareTerrain s) n = random s (n + 3)%nat).
Proof.
  unfold prepareTerrain, drawThreshold, Math_random. simpl_fields.
  repeat split. intros n. f_equal. lia.
Qed.

Lemma resetGame_window (s : Game) :
  0 <= canvas_width s ->
  windowInv (resetGame s) /\ windowBounds (resetGame s).
Proof.
  intros Hw. unfold resetGame.
  match goal with |- context [generateTerrain ?g] => set (g0 := g) end.
  unfold generateTerrain. set (s0 := prepareTerrain g0).
  destruct (prepareTerrain_eq g0) as (Sw & Sc & _ & St & _ & So & _).
  fold s0 in Sw, Sc, St, So.
  assert (Gw : canvas_width g0 = canvas_width s) by reflexivity.
  assert (Gx : Car.x (car g0) = 200) by reflexivity.
  assert (Go : World.terrainOffset (world g0) = 0) by reflexivity.
  rewrite Gw in *.
  set (n := Z.to_nat (Zceil (canvas_width s / HILL_SEGMENT_WIDTH) + 10)).
  assert (Hceil : canvas_width s / HILL_SEGMENT_WIDTH
                  <= IZR (Zceil (canvas_width s / HILL_SEGMENT_WIDTH)))
    by apply Zfloor_ceil_bound.
  assert (Hpos : (0 <= Zceil (canvas_width s / HILL_SEGMENT_WIDTH))%Z).
  { apply le_IZR. eapply Rle_trans; [|exact Hceil].
    unfold HILL_SEGMENT_WIDTH. lra. }
  assert (Hn : INR n = IZR (Zceil (canvas_width s / HILL_SEGMENT_WIDTH)) + 10).
  { unfold n. rewrite INR_IZR_INZ, Z2Nat.id by lia. now rewrite plus_IZR. }
  assert (Hn0 : n <> O) by (unfold n; lia).
  destruct (generateSegments_terrain (-100) n 0 s0) as [[Hasc Hall] Hlast].
  { unfold HILL_SEGMENT_WIDTH. lra. }
  { rewrite St. split; constructor. }
  { rewrite St. constructor. }
  destruct (Hlast Hn0) as (last & Hl & Hx).
  pose proof (generateSegments_generated n 0 s0)
    as (Fw & Fc & _ & _ & _ & _ & Fo & _).
  unfold windowInv, windowBounds.
  rewrite Fw, Fc, Fo, Sw, Sc, So, Gx, Go.
  assert (Hlastx : canvas_width s + 270 <= Segment.x last).
  { rewrite Hx, Hn. unfold HILL_SEGMENT_WIDTH in *. lra. }
  repeat split; try assumption.
  - exists last. split; [exact Hl|].
    unfold Rmax. destruct (Rle_dec _ _); lra.
  - exists last. split; [exact Hl|]. unfold HILL_SEGMENT_WIDTH. lra.
  - eapply Forall_impl; [|exact Hall]. cbn. intros p Hp. lra.
Qed.

Lemma with_keys_window (k : Keys.t) (s : Game) :
  (windowInv s -> windowInv (with_keys k s))
  /\ (windowBounds s -> windowBounds (with_keys k s)).
Proof. split; intros H; exact H. Qed.

Lemma ticks_window (ks : list Keys.t) (s : Game) :
  windowInv s -> windowBounds s ->
  exists s', ticks ks s = Some s' /\ windowInv s' /\ windowBounds s'.
Proof.
  revert s. induction ks as [|k ks IH]; intros s Hinv Hbounds.
  - exists s. split; [reflexivity | split; assumption].
  - cbn [ticks]. unfold tick.
    destruct (with_keys_window k s) as [Kinv Kbounds].
    destruct (Run.gameState (run (with_keys k s))) eqn:Hstate.
    + rewrite gameLoop_not_playing by congruence. apply IH; auto.
    + destruct (gameLoop_window (with_keys k s) Hstate (Kinv Hinv))
        as (m & _ & -> & Hinv' & Hbounds').
      apply IH; auto.
    + rewrite gameLoop_not_playing by congruence. apply IH; auto.
Qed.

(** C3.  From the start of a run on a canvas of width at least 0 and
    through any sequence of frames, whatever the input, every frame
    returns, and afterwards the last sample of the terrain buffer is at
    [terrainOffset + canvas.width + 100 - 30] or beyond and no sample lies
    before [terrainOffset - 100]. *)
Theorem window_bounds_hold (s : Game) (ks : list Keys.t) :
  0 <= canvas_width s ->
  exists s',
    ticks ks (resetGame s) = Some s'
    /\ (exists last,
           lastSegment s' = Some last
           /\ World.terrainOffset (world s') + canvas_width s' + 100
              - HILL_SEGMENT_WIDTH <= Segment.x last)
    /\ Forall (fun p => World.terrainOffset (world s') - 100 <= Segment.x p)
         (World.terrain (world s')).
Proof.
  intros Hw. destruct (resetGame_window s Hw) as [Hinv Hbounds].
  destruct (ticks_window ks _ Hinv Hbounds) as (s' & Ht & _ & Hb).
  exists s'. split; [exact Ht | exact Hb].
Qed.

Lemma window_bounds_hold_witness :
  exists s',
    ticks [noKeys; forwardKey; forwardKey] (resetGame strandedInAir) = Some s'
    /\ (exists last,
           lastSegment s' = Some last
           /\ World.terrainOffset (world s') + canvas_width s' + 100
              - HILL_SEGMENT_WIDTH <= Segment.x last)
    /\ Forall (fun p => World.terrainOffset (world s') - 100 <= Segment.x p)
         (World.terrain (world s')).
Proof.
  apply (window_bounds_hold strandedInAir [noKeys; forwardKey; forwardKey]).
  cbn. lra.
Defined.

(** ** Coins *)

Lemma generated_draws (s s' : Game) :
  generated s s' -> nonnegDraws s -> nonnegDraws s'.
Proof.
  intros (_ & _ & _ & _ & _ & _ & _ & _ & _ & _ & _ & _ & (k & Hk)) H n.
  rewrite Hk. apply H.
Qed.

Lemma coinChance_nonpos (s : Game) :
  20 <= Run.currentLevel (run s) -> coinChance s <= 0.
Proof. intros H. unfold coinChance, COIN_PICKUP_CHANCE. lra. Qed.

Lemma spawnCoin_none (x y : R) (s : Game) :
  20 <= Run.currentLevel (run s) -> 0 <= random s 0 ->
  World.coins (world (spawnCoin x y s)) = World.coins (world s).
Proof.
  intros Hl Hr. pose proof (coinChance_nonpos s Hl) as Hc.
  unfold spawnCoin, Math_random.
  rewrite (proj2 (ltb_false _ _)) by lra. reflexivity.
Qed.

(** The stages of [addTerrainSegment] before the coin leave the coins
    alone. *)
Lemma before_coin_coins (x index y : R) (b : bool) (s : Game) :
  World.coins
    (world
       (spawnBoost x y
          (spawnFuel x y
             (spawnBridge x y b
                (pushSegment (Segment.mk x y b)
                   (snd (segmentHeight x index s)))))))
  = World.coins (world s).
Proof.
  assert (Hboost : forall x y s, World.coins (world (spawnBoost x y s))
                                 = World.coins (world s)).
  { intros; unfold spawnBoost, drawThreshold, Math_random; split_tests;
      reflexivity. }
  assert (Hfuel : forall x y s, World.coins (world (spawnFuel x y s))
                                = World.coins (world s)).
  { intros; unfold spawnFuel, drawThreshold, Math_random; split_tests;
      reflexivity. }
  assert (Hbridge : forall x y b s,
             World.coins (world (spawnBridge x y b s))
             = World.coins (world s)).
  { intros; unfold spawnBridge, drawThreshold, Math_random; split_tests;
      reflexivity. }
  assert (Hheight : World.coins (world (snd (segmentHeight x index s)))
                    = World.coins (world s)).
  { unfold segmentHeight, Math_random; split_tests; reflexivity. }
  rewrite Hboost, Hfuel, Hbridge. unfold pushSegment. simpl_fields.
  exact Hheight.
Qed.

Lemma addTerrainSegment_no_coin (x index : R) (s : Game) :
  20 <= Run.currentLevel (run s) -> nonnegDraws s ->
  World.coins (world (addTerrainSegment x index s)) = World.coins (world s).
Proof.
  intros Hl Hd. rewrite addTerrainSegment_eq. cbv zeta.
  set (y := fst (segmentHeight x index s)).
  set (b := existsb (spans x) (World.bridges (world s))).
  set (s4 := spawnBoost x y _).
  assert (Hg : generated s s4).
  { unfold s4.
    eapply generated_trans; [apply segmentHeight_generated|].
    eapply generated_trans; [apply pushSegment_generated|].
    eapply generated_trans; [apply spawnBridge_generated|].
    eapply generated_trans; [apply spawnFuel_generated|].
    apply spawnBoost_generated. }
  rewrite spawnCoin_none.
  - apply before_coin_coins.
  - destruct Hg as (_ & _ & _ & -> & _). exact Hl.
  - apply (generated_draws _ _ Hg Hd).
Qed.

(** [updateTerrain], when it returns, as its three steps. *)
Lemma updateTerrain_eq (s s' : Game) :
  updateTerrain s = Some s' ->
  let shifted :=
    with_world
      (fun w =>
         World.set_terrain
           (shiftBehind (World.terrainOffset (world s) - 100)
              (World.terrain w)) w) s in
  s'
  = with_world
      (fun w =>
         World.set_bridges
           (filter
              (fun b =>
                 Bridge.endX b
                 >? World.terrainOffset (world (extendTerrain shifted)) - 200)
              (World.bridges w)) w)
      (extendTerrain shifted).
Proof.
  intros H. cbv zeta. unfold updateTerrain in H. cbv zeta in H.
  destruct (lastSegment _); [|discriminate].
  now injection H as <-.
Qed.

Lemma updateTerrain_no_coin (s s' : Game) :
  updateTerrain s = Some s' ->
  20 <= Run.currentLevel (run s) -> nonnegDraws s ->
  World.coins (world s') = World.coins (world s)
  /\ run s' = run s
  /\ nonnegDraws s'.
Proof.
  intros Hu Hl Hd. rewrite (updateTerrain_eq _ _ Hu). simpl_fields.
  set (shifted := with_world _ s).
  assert (H : World.coins (world (extendTerrain shifted))
              = World.coins (world s)
              /\ run (extendTerrain shifted) = run s
              /\ nonnegDraws (extendTerrain shifted)).
  { apply (extendTerrain_invariant
             (fun m => World.coins (world m) = World.coins (world s)
                       /\ run m = run s /\ nonnegDraws m)).
    - intros m last _ _ (Hc & Hr & Hn).
      pose proof (addTerrainSegment_generated
                    (Segment.x last + HILL_SEGMENT_WIDTH)
                    (INR (List.length (World.terrain (world m)))) m) as Hg.
      split; [|split].
      + rewrite addTerrainSegment_no_coin; [exact Hc | | exact Hn].
        now rewrite Hr.
      + destruct Hg as (_ & _ & _ & -> & _). exact Hr.
      + apply (generated_draws _ _ Hg Hn).
    - repeat split. exact Hd. }
  destruct H as (Hc & Hr & Hn). repeat split; assumption.
Qed.

(** Marking and then filtering drops pickups and adds none. *)
Lemma filter_marked (behind reach cx cy : R) (l : list Pickup.t) :
  filter (keptPickup behind) (map (markPickup reach cx cy) l)
  = filter
      (fun p =>
         keptPickup behind p
         && negb (within reach (Pickup.x p) (Pickup.y p) cx cy)) l.
Proof.
  induction l as [|p l IH]; [reflexivity|]. cbn [map filter].
  rewrite IH. unfold markPickup, keptPickup.
  destruct (Pickup.collected p) eqn:Hc; cbn [negb andb].
  - rewrite Hc. reflexivity.
  - destruct (within reach (Pickup.x p) (Pickup.y p) cx cy); cbn.
    + now rewrite andb_false_r.
    + rewrite Hc, andb_true_r. reflexivity.
Qed.

Lemma filter_all {A : Type} (l : list A) : filter (fun _ => true) l = l.
Proof. induction l as [|a l IH]; [reflexivity | cbn; now rewrite IH]. Qed.

Lemma filter_filter {A : Type} (f g : A -> bool) (l : list A) :
  filter f (filter g l) = filter (fun a => g a && f a) l.
Proof.
  induction l as [|a l IH]; [reflexivity|]. cbn.
  destruct (g a); cbn; [destruct (f a)|]; now rewrite IH.
Qed.

(** One frame from level 20 on: the level stays, the draws stay
    non-negative, and the coins are a filtering of the coins before. *)
Lemma tick_coins (k : Keys.t) (s s' : Game) :
  20 <= Run.currentLevel (run s) -> nonnegDraws s ->
  tick k s = Some s' ->
  20 <= Run.currentLevel (run s')
  /\ nonnegDraws s'
  /\ exists keep, World.coins (world s') = filter keep (World.coins (world s)).
Proof.
  intros Hl Hd Ht. unfold tick in Ht.
  set (s0 := with_keys k s) in *.
  assert (Hidle : Run.gameState (run s0) <> playing ->
                  20 <= Run.currentLevel (run s')
                  /\ nonnegDraws s'
                  /\ exists keep,
                      World.coins (world s')
                      = filter keep (World.coins (world s))).
  { intros Hn. rewrite gameLoop_not_playing in Ht by exact Hn.
    injection Ht as <-. repeat split; try assumption.
    exists (fun _ => true). now rewrite filter_all. }
  destruct (Run.gameState (run s0)) eqn:Hstate;
    [apply Hidle; discriminate | | apply Hidle; discriminate].
  clear Hidle.
  rewrite gameLoop_playing in Ht by exact Hstate.
  destruct (updateTerrain (updatePhysics s0)) as [m|] eqn:Hu; [|discriminate].
  injection Ht as <-.
  destruct (checkGameOver_frame (integrate s0))
    as (_ & Pworld & Psur & _ & _ & Plevel & _).
  destruct (integrate_frame s0) as (Isur & Istand & Icon).
  assert (Hl1 : 20 <= Run.currentLevel (run (updatePhysics s0))).
  { unfold updatePhysics. rewrite Plevel.
    unfold standing in Istand.
    replace (Run.currentLevel (run (integrate s0)))
      with (Run.currentLevel (run s0)) by congruence.
    exact Hl. }
  assert (Hd1 : nonnegDraws (updatePhysics s0)).
  { unfold updatePhysics, nonnegDraws.
    replace (random (checkGameOver (integrate s0))) with (random s)
      by (unfold surroundings in *; subst s0; simpl_fields_in Isur;
          congruence).
    exact Hd. }
  assert (Hc1 : World.coins (world (updatePhysics s0)) = World.coins (world s)).
  { unfold updatePhysics. rewrite Pworld. unfold contents in Icon.
    subst s0. simpl_fields_in Icon. congruence. }
  destruct (updateTerrain_no_coin _ _ Hu Hl1 Hd1) as (Mc & Mr & Md).
  destruct (checkPickups_eq m)
    as ((_ & _ & _ & _ & _ & _ & _ & Clevel & (kc & Cdraws)) & _ & Cworld).
  destruct (finishFrame_frame (checkPickups m))
    as (_ & _ & _ & _ & Fworld & Frandom & _ & _ & _ & _ & Flevel).
  split; [|split].
  - rewrite Clevel, Mr in Flevel. lra.
  - intros n. rewrite Frandom, Cdraws. apply Md.
  - rewrite Fworld, Cworld. simpl_fields.
    rewrite filter_marked, Mc, Hc1. eexists. reflexivity.
Qed.

(** C10.  From level 20 on, the chance of a coin on a new segment,
    [COIN_PICKUP_CHANCE * (1 - currentLevel * 0.05)], is at most 0, no
    draw of [Math.random()] is below it, and no coin is spawned again:
    through any sequence of frames the level stays at 20 or above and the
    coins are coins that were there before. *)
Theorem no_coins_from_level_20 (s s' : Game) (ks : list Keys.t) :
  20 <= Run.currentLevel (run s) ->
  (forall n, 0 <= random s n) ->
  ticks ks s = Some s' ->
  coinChance s <= 0
  /\ (forall x index,
         World.coins (world (addTerrainSegment x index s))
         = World.coins (world s))
  /\ 20 <= Run.currentLevel (run s')
  /\ exists keep, World.coins (world s') = filter keep (World.coins (world s)).
Proof.
  intros Hl Hd Ht.
  split; [now apply coinChance_nonpos|].
  split; [intros x index; now apply addTerrainSegment_no_coin|].
  revert s Hl Hd Ht. induction ks as [|k ks IH]; intros s Hl Hd Ht.
  - injection Ht as <-. split; [exact Hl|].
    exists (fun _ => true). now rewrite filter_all.
  - cbn [ticks] in Ht.
    destruct (tick k s) as [s1|] eqn:Hk; [|discriminate].
    destruct (tick_coins _ _ _ Hl Hd Hk) as (Hl1 & Hd1 & keep1 & Hc1).
    destruct (IH s1 Hl1 Hd1 Ht) as (Hl' & keep & Hc).
    split; [exact Hl'|].
    rewrite Hc, Hc1, filter_filter. eexists. reflexivity.
Qed.

Lemma ramp_ascending (n : nat) (x y dy : R) :
  ascending (ramp n x y dy)
  /\ Forall (fun p => x <= Segment.x p) (ramp n x y dy).
Proof.
  revert x y. induction n as [|n IH]; intros x y; cbn [ramp].
  - split; constructor.
  - destruct (IH (x + HILL_SEGMENT_WIDTH) (y + dy)) as [Hs Hall].
    unfold HILL_SEGMENT_WIDTH in *. split.
    + constructor; [exact Hs|].
      eapply Forall_impl; [|exact Hall]. cbn. intros p Hp. lra.
    + constructor; [cbn; lra|].
      eapply Forall_impl; [|exact Hall]. cbn. intros p Hp. lra.
Qed.

(** A scene over the wide ground keeps the window invariant and is
    within the window bounds. *)
Lemma wideGround_window (c : Car.t) (k : Keys.t) (r : Run.t)
  (pickups : list Pickup.t) :
  Car.x c = 200 ->
  windowInv (scene c k r wideGround pickups)
  /\ windowBounds (scene c k r wideGround pickups).
Proof.
  intros Hx. destruct (ramp_ascending 26 0 360 0) as [Hs Hall].
  unfold windowInv, windowBounds, lastSegment, scene, wideGround.
  simpl_fields. rewrite Hx. unfold HILL_SEGMENT_WIDTH.
  repeat split.
  - lra.
  - exact Hs.
  - eexists. split; [reflexivity|]. cbn [Segment.x].
    unfold HILL_SEGMENT_WIDTH, Rmax. destruct (Rle_dec _ _); lra.
  - eexists. split; [reflexivity|]. cbn [Segment.x].
    unfold HILL_SEGMENT_WIDTH. lra.
  - eapply Forall_impl; [|exact Hall]. cbn. intros p Hp. lra.
Qed.

Lemma no_coins_from_level_20_witness :
  exists s',
    ticks [forwardKey; noKeys] lateRun = Some s'
    /\ coinChance lateRun <= 0
    /\ (forall x index,
           World.coins (world (addTerrainSegment x index lateRun))
           = World.coins (world lateRun))
    /\ 20 <= Run.currentLevel (run s')
    /\ exists keep,
        World.coins (world s') = filter keep (World.coins (world lateRun)).
Proof.
  destruct (wideGround_window (carAt 300 0 0 0) forwardKey (runWith 100 20) []
              eq_refl) as [Hinv Hbounds].
  destruct (ticks_window [forwardKey; noKeys] lateRun Hinv Hbounds)
    as (s' & Ht & _).
  exists s'. split; [exact Ht|].
  apply (no_coins_from_level_20 lateRun s' [forwardKey; noKeys]).
  - cbn. lra.
  - intros n. cbn. lra.
  - exact Ht.
Defined.

(** ** Fuel *)

(** The fuel after the loop over the fuel pickups: untouched when none is
    in reach, and otherwise refilled by at least one pickup and capped at
    [MAX_FUEL]. *)
Lemma collectFuel_fuel (cx cy cr : R) (l : list Pickup.t) (s : Game) :
  let fuel' := Run.fuel (run (snd (collectFuel cx cy cr l s))) in
  (existsb (reachable cx cy cr) l = false -> fuel' = Run.fuel (run s))
  /\ (existsb (reachable cx cy cr) l = true ->
      Rmin MAX_FUEL (Run.fuel (run s) + FUEL_PICKUP_AMOUNT) <= fuel'
      <= MAX_FUEL).
Proof.
  cbv zeta. revert s.
  induction l as [|p l IH]; intros s; cbn [collectFuel existsb].
  - split; [reflexivity | discriminate].
  - unfold reachable at 1 3.
    destruct (Pickup.collected p); cbn [negb andb orb].
    + specialize (IH s).
      destruct (collectFuel cx cy cr l s); cbn [snd] in *. exact IH.
    + destruct (within (cr + 10) (Pickup.x p) (Pickup.y p) cx cy);
        cbn [orb].
      * match goal with
        | |- context [collectFuel cx cy cr l ?s1] =>
            specialize (IH s1);
            assert (Hf : Run.fuel (run s1)
                         = Rmin MAX_FUEL (Run.fuel (run s) + FUEL_PICKUP_AMOUNT))
              by (rewrite createParticles_run; reflexivity);
            destruct (collectFuel cx cy cr l s1); cbn [snd] in *
        end.
        split; [discriminate|]. intros _.
        destruct IH as [IH1 IH2].
        destruct (existsb (reachable cx cy cr) l).
        -- specialize (IH2 eq_refl). rewrite Hf in IH2.
           unfold MAX_FUEL, INITIAL_FUEL, FUEL_PICKUP_AMOUNT, Rmin in *.
           repeat destruct (Rle_dec _ _); lra.
        -- rewrite (IH1 eq_refl), Hf.
           unfold MAX_FUEL, INITIAL_FUEL, FUEL_PICKUP_AMOUNT, Rmin in *.
           repeat destruct (Rle_dec _ _); lra.
      * specialize (IH s).
        destruct (collectFuel cx cy cr l s); cbn [snd] in *. exact IH.
Qed.

Lemma updateTerrain_generated (s s' : Game) :
  updateTerrain s = Some s' ->
  canvas_width s' = canvas_width s
  /\ car s' = car s
  /\ run s' = run s
  /\ World.terrainOffset (world s') = World.terrainOffset (world s)
  /\ (exists l,
         World.fuelPickups (world s') = World.fuelPickups (world s) ++ l).
Proof.
  intros Hu. rewrite (updateTerrain_eq _ _ Hu). simpl_fields.
  set (shifted := with_world _ s).
  destruct (extendTerrain_generated shifted)
    as (Gw & Gc & _ & Gr & _ & _ & Go & _ & _ & Gf & _).
  rewrite Gw, Gc, Gr, Go. repeat split. exact Gf.
Qed.

Lemma controlledFuel_bounds (s : Game) :
  (0 <= Run.fuel (run s) -> 0 <= controlledFuel s)
  /\ controlledFuel s <= Run.fuel (run s)
  /\ (Keys.forward (keys s) = true -> 0 < Run.fuel (run s) ->
      controlledFuel s < Run.fuel (run s)).
Proof.
  unfold controlledFuel, FUEL_CONSUMPTION.
  destruct (Keys.forward (keys s)); cbn [andb].
  - destruct (Run.fuel (run s) >? 0) eqn:Hf.
    + apply gtb_true in Hf. compare_reals; repeat split; intros; lra.
    + apply gtb_false in Hf. repeat split; intros; lra.
  - repeat split; intros; try lra; discriminate.
Qed.

Lemma updatePhysics_fuel (s : Game) :
  Run.fuel (run (updatePhysics s)) = controlledFuel s.
Proof.
  unfold updatePhysics.
  destruct (checkGameOver_frame (integrate s)) as (_ & _ & _ & -> & _).
  apply integrate_fuel.
Qed.

(** ** A frame that collects fuel *)

Lemma baseline_height (l : list Segment.t) (worldX : R) :
  Forall (fun p => Segment.y p = 360) l ->
  scanTerrain worldX (interpolate worldX) (canvas_height * 0.6) l = 360.
Proof.
  unfold canvas_height. induction 1 as [|a l Ha Hl IH]; cbn; [lra|].
  destruct l as [|b l]; [lra|].
  destruct (_ && _); [|exact IH].
  unfold interpolate. inversion Hl; subst. rewrite Ha, H1. lra.
Qed.

Lemma baseline_airborne (s : Game) :
  Forall (fun p => Segment.y p = 360) (World.terrain (world s)) ->
  Car.y (car s) + 55 * 0.35 + 28 / 2 + 9 < 360 ->
  grounded s = false.
Proof.
  intros Hflat Hy. unfold grounded. rewrite carAtContact_car.
  unfold checkWheelCollision, getTerrainHeightAt. simpl_fields.
  rewrite !baseline_height by assumption.
  pose proof (SIN_bound (Car.rotation (car s))) as Hs.
  unfold Car.width, Car.height, Wheel.radius.
  rewrite !(proj2 (geb_false _ _)) by lra. reflexivity.
Qed.

Lemma ramp_flat (n : nat) (x y : R) :
  Forall (fun p => Segment.y p = y) (ramp n x y 0).
Proof.
  revert x. induction n as [|n IH]; intros x; cbn [ramp]; constructor.
  - reflexivity.
  - rewrite Rplus_0_r. apply IH.
Qed.

Lemma contactSpeed_lower (s : Game) : -6.25 <= contactSpeed s.
Proof.
  unfold contactSpeed.
  pose proof (currentMaxSpeed_bounds s) as Hm.
  pose proof (limitedSpeed_bounds (currentMaxSpeed s) (controlledSpeed s)
                ltac:(lra)) as Hl.
  pose proof (SIN_bound (slopeUnderCar s)) as Hs.
  unfold REVERSE_SPEED, GROUND_FRICTION, AIR_RESISTANCE in *.
  destruct (grounded s); lra.
Qed.

(** Scrolling moves the world position of the car only when it pushes
    the car off the left edge. *)
Lemma scrollTerrain_worldX (s : Game) :
  50 <= Car.x (car s) -> 50 <= canvas_width s * 0.4 ->
  carWorldX (scrollTerrain s) = carWorldX s.
Proof.
  intros Hx Ha. unfold carWorldX, scrollTerrain.
  split_tests; compare_reals; try lra; try discriminate.
Qed.

Lemma within_close (reach x y cx cy : R) :
  0 < reach ->
  (x - cx) * (x - cx) + (y - cy) * (y - cy) < reach * reach ->
  within reach x y cx cy = true.
Proof.
  intros Hr Hd. unfold within. cbv zeta. apply ltb_true.
  apply Rlt_le_trans with (sqrt (reach * reach)).
  - apply sqrt_lt_1_alt. split; [|exact Hd].
    apply Rplus_le_le_0_compat; apply Rle_0_sqr.
  - rewrite sqrt_square; lra.
Qed.

(** The fuel at the end of a frame, from the fuel that enters
    [checkPickups]. *)
Lemma frame_fuel (m : Game) :
  (fuelInReach m = false ->
   Run.fuel (run (finishFrame (checkPickups m))) = Run.fuel (run m))
  /\ (fuelInReach m = true ->
      Rmin MAX_FUEL (Run.fuel (run m) + FUEL_PICKUP_AMOUNT)
      <= Run.fuel (run (finishFrame (checkPickups m))) <= MAX_FUEL).
Proof.
  destruct (checkPickups_eq m) as (_ & Cf & _).
  destruct (finishFrame_frame (checkPickups m))
    as (_ & _ & _ & _ & _ & _ & _ & _ & _ & Ff & _).
  rewrite Ff, Cf. apply collectFuel_fuel.
Qed.

(** C5, counterexample.  In the air with the throttle held and fuel 50,
    a fuel pickup at the position of the car: the frame burns 0.015 and
    then collects the pickup, and the fuel at its end is above the fuel
    at its start. *)
Lemma refuelling_gains_fuel :
  exists s',
    tick forwardKey refuelling = Some s'
    /\ Run.gameState (run refuelling) = playing
    /\ Keys.forward forwardKey = true
    /\ 0 < Run.fuel (run refuelling)
    /\ Run.fuel (run refuelling) < Run.fuel (run s').
Proof.
  set (p0 := {| Pickup.x := 200; Pickup.y := 300; Pickup.collected := false |}).
  destruct (wideGround_window (carAt 300 0 0 0) forwardKey (runWith 50 1) [p0]
              eq_refl) as [Hinv _].
  set (s0 := with_keys forwardKey refuelling).
  destruct (gameLoop_window s0 eq_refl Hinv) as (m & Hu & Hloop & _).
  exists (finishFrame (checkPickups m)).
  split; [exact Hloop|]. split; [reflexivity|]. split; [reflexivity|].
  split; [cbn; lra|].
  destruct (updateTerrain_generated _ _ Hu)
    as (_ & Mc & Mr & Mo & (l & Mf)).
  assert (Hfuel : Run.fuel (run m) = 50 - 0.015).
  { rewrite Mr, updatePhysics_fuel. unfold controlledFuel. cbn.
    rewrite (proj2 (gtb_true _ _)) by lra. cbn.
    unfold FUEL_CONSUMPTION.
    rewrite (proj2 (ltb_false _ _)) by lra. reflexivity. }
  assert (Hg : grounded s0 = false).
  { apply baseline_airborne; [apply ramp_flat | cbn; lra]. }
  destruct (checkGameOver_frame (integrate s0)) as (Pcar & Pworld & _).
  destruct (integrate_frame s0) as (_ & _ & Icon).
  assert (Hy : Car.y (car m) = 300 + (0 + GRAVITY)).
  { rewrite Mc. unfold updatePhysics. rewrite Pcar.
    now rewrite integrate_y_airborne by exact Hg. }
  assert (Hx : carWorldX m = 200 + contactSpeed s0).
  { unfold carWorldX. rewrite Mc, Mo. unfold updatePhysics.
    rewrite Pcar, Pworld. fold (carWorldX (integrate s0)).
    rewrite integrate_eq.
    set (mv := moveCar (resolveContact (carAtContact s0))).
    assert (Hmx : Car.x (car mv) = 200 + contactSpeed s0).
    { unfold mv. rewrite moveCar_car. simpl_fields.
      rewrite resolveContact_x, contact_velocityX, carAtContact_car.
      reflexivity. }
    assert (Hmw : canvas_width mv = 600).
    { unfold mv, moveCar. simpl_fields.
      now rewrite resolveContact_width, carAtContact_width. }
    assert (Hmo : World.terrainOffset (world mv) = 0).
    { unfold mv, moveCar. simpl_fields.
      now rewrite resolveContact_world, carAtContact_world. }
    pose proof (contactSpeed_lower s0).
    rewrite scrollTerrain_worldX by (rewrite ?Hmx, ?Hmw; lra).
    unfold carWorldX. rewrite Hmx, Hmo. lra. }
  assert (Hin : fuelInReach m = true).
  { unfold fuelInReach.
    replace (World.fuelPickups (world m)) with ([p0] ++ l).
    2:{ rewrite Mf. f_equal. unfold updatePhysics. rewrite Pworld.
        unfold contents in Icon. symmetry.
        change [p0] with (World.fuelPickups (world s0)). congruence. }
    cbn [app existsb]. apply orb_true_iff. left.
    unfold reachable. cbn [negb andb Pickup.collected p0 Pickup.x Pickup.y].
    pose proof (contactSpeed_lower s0). pose proof (contactSpeed_bound s0).
    apply within_close; rewrite ?Hx, ?Hy;
      unfold carRadius, Car.width, Car.height, Rmax, GRAVITY;
      destruct (Rle_dec _ _); try lra; nra. }
  destruct (frame_fuel m) as [_ Hsome]. specialize (Hsome Hin).
  rewrite Hfuel in Hsome.
  unfold MAX_FUEL, INITIAL_FUEL, FUEL_PICKUP_AMOUNT, Rmin in Hsome.
  destruct (Rle_dec _ _); cbn; lra.
Qed.

(** ** Bridges *)

Lemma bridgeInv_view (s s' : Game) :
  bridgeView s' = bridgeView s -> bridgeInv s -> bridgeInv s'.
Proof.
  unfold bridgeView, bridgeInv. intros H.
  injection H as -> -> ->. auto.
Qed.

Lemma StronglySorted_snoc {A : Type} (R : A -> A -> Prop) (l : list A)
  (a : A) :
  StronglySorted R l -> Forall (fun b => R b a) l ->
  StronglySorted R (l ++ [a]).
Proof.
  induction l as [|b l IH]; intros Hs Ha; cbn.
  - repeat constructor.
  - apply StronglySorted_inv in Hs as [Hs Hb]. inversion Ha; subst.
    constructor; [now apply IH|].
    apply Forall_app. split; [exact Hb|]. now repeat constructor.
Qed.

Lemma StronglySorted_filter {A : Type} (R : A -> A -> Prop) (f : A -> bool)
  (l : list A) :
  StronglySorted R l -> StronglySorted R (filter f l).
Proof.
  induction 1 as [|a l Hs IH Ha]; cbn; [constructor|].
  destruct (f a); [|exact IH]. constructor; [exact IH|].
  rewrite Forall_forall in *. intros b Hb. apply Ha.
  now apply filter_In in Hb.
Qed.

Lemma Forall_filter {A : Type} (P : A -> Prop) (f : A -> bool) (l : list A) :
  Forall P l -> Forall P (filter f l).
Proof.
  rewrite !Forall_forall. intros H a Ha. apply H. now apply filter_In in Ha.
Qed.

Lemma spawnBridge_inv (x y : R) (b : bool) (s : Game) :
  bridgeInv s -> nonnegDraws s -> bridgeInv (spawnBridge x y b s).
Proof.
  intros (Hs & Hall & Hnext) Hd. unfold spawnBridge.
  destruct ((x >=? Spawn.lastBridgeX (spawn s) + Spawn.nextBridgeX (spawn s))
            && negb b) eqn:Hc; [|repeat split; assumption].
  apply andb_true_iff in Hc as [Hc _]. apply geb_true in Hc.
  unfold drawThreshold, Math_random, bridgeInv. simpl_fields.
  pose proof (Hd 1%nat) as Hr.
  unfold BRIDGE_MIN_DISTANCE, BRIDGE_MAX_DISTANCE, BRIDGE_LENGTH in *.
  split; [|split].
  - apply StronglySorted_snoc; [exact Hs|].
    eapply Forall_impl; [|exact Hall].
    unfold spaced, BRIDGE_MIN_DISTANCE. cbn. intros a [Ha _]. lra.
  - apply Forall_app. split.
    + eapply Forall_impl; [|exact Hall]. cbn. intros a [Ha He].
      split; [lra | exact He].
    + constructor; [|constructor]. cbn. split; lra.
  - lra.
Qed.

(** The other stages of [addTerrainSegment] leave the bridges and their
    cursor alone. *)
Lemma stages_bridgeView (x index y : R) (p : Segment.t) (s : Game) :
  bridgeView (snd (segmentHeight x index s)) = bridgeView s
  /\ bridgeView (pushSegment p s) = bridgeView s
  /\ bridgeView (spawnFuel x y s) = bridgeView s
  /\ bridgeView (spawnBoost x y s) = bridgeView s
  /\ bridgeView (spawnCoin x y s) = bridgeView s.
Proof.
  unfold segmentHeight, pushSegment, spawnFuel, spawnBoost, spawnCoin,
    drawThreshold, Math_random, bridgeView.
  repeat split; split_tests; reflexivity.
Qed.

Lemma addTerrainSegment_bridgeInv (x index : R) (s : Game) :
  bridgeInv s -> nonnegDraws s -> bridgeInv (addTerrainSegment x index s).
Proof.
  intros Hi Hd. rewrite addTerrainSegment_eq. cbv zeta.
  set (y := fst (segmentHeight x index s)).
  set (b := existsb (spans x) (World.bridges (world s))).
  set (p := Segment.mk x y b).
  set (s1 := snd (segmentHeight x index s)).
  destruct (stages_bridgeView x index y p s) as (V1 & _).
  destruct (stages_bridgeView x index y p s1) as (_ & V2 & _).
  fold s1 in V1.
  assert (H2 : bridgeInv (pushSegment p s1)).
  { apply (bridgeInv_view s); [congruence | exact Hi]. }
  assert (D2 : nonnegDraws (pushSegment p s1)).
  { eapply generated_draws; [|exact Hd].
    eapply generated_trans;
      [apply segmentHeight_generated | apply pushSegment_generated]. }
  pose proof (spawnBridge_inv x y b _ H2 D2) as H3.
  set (s3 := spawnBridge x y b (pushSegment p s1)) in *.
  destruct (stages_bridgeView x index y p s3) as (_ & _ & V4 & _).
  destruct (stages_bridgeView x index y p (spawnFuel x y s3))
    as (_ & _ & _ & V5 & _).
  destruct (stages_bridgeView x index y p (spawnBoost x y (spawnFuel x y s3)))
    as (_ & _ & _ & _ & V6).
  apply (bridgeInv_view s3); [congruence | exact H3].
Qed.

Lemma generateSegments_bridgeInv (n : nat) (i : R) (s : Game) :
  bridgeInv s -> nonnegDraws s -> bridgeInv (generateSegments n i s).
Proof.
  revert i s. induction n as [|n IH]; intros i s Hi Hd;
    cbn [generateSegments]; [exact Hi|].
  apply IH.
  - now apply addTerrainSegment_bridgeInv.
  - eapply generated_draws; [apply addTerrainSegment_generated | exact Hd].
Qed.

Lemma prepareTerrain_bridgeInv (s : Game) :
  nonnegDraws s ->
  bridgeInv (prepareTerrain s) /\ nonnegDraws (prepareTerrain s).
Proof.
  intros Hd.
  destruct (prepareTerrain_eq s) as (_ & _ & _ & _ & Hb & _ & _ & Hn & Hr).
  split.
  - unfold bridgeInv. rewrite Hb, Hn. pose proof (Hd 2%nat).
    unfold BRIDGE_MAX_DISTANCE, BRIDGE_MIN_DISTANCE.
    split; [constructor | split; [constructor | lra]].
  - intros n. rewrite Hr. apply Hd.
Qed.

(** The spacing of two bridges that the invariant gives. *)
Lemma bridgeInv_spacing (s : Game) (i j : nat) (b1 b2 : Bridge.t) :
  bridgeInv s -> (i < j)%nat ->
  nth_error (World.bridges (world s)) i = Some b1 ->
  nth_error (World.bridges (world s)) j = Some b2 ->
  BRIDGE_MIN_DISTANCE * 10 <= Bridge.startX b2 - Bridge.startX b1
  /\ BRIDGE_MIN_DISTANCE * 10 - BRIDGE_LENGTH
     <= Bridge.startX b2 - Bridge.endX b1.
Proof.
  intros (Hs & Hall & _) Hij H1 H2.
  assert (Hsp : spaced b1 b2).
  { clear Hall. revert i j Hij H1 H2.
    induction Hs as [|a l Hs IH Ha]; intros i j Hij H1 H2.
    - destruct i; discriminate.
    - destruct j as [|j]; [lia|]. cbn [nth_error] in H2.
      destruct i as [|i].
      + cbn in H1. injection H1 as <-.
        rewrite Forall_forall in Ha. apply Ha.
        eapply nth_error_In; eauto.
      + cbn [nth_error] in H1. apply (IH i j); auto. lia. }
  rewrite Forall_forall in Hall.
  destruct (Hall b1 (nth_error_In _ _ H1)) as [_ He].
  unfold spaced in Hsp. rewrite He. lra.
Qed.

Lemma extendTerrain_bridgeInv (s : Game) :
  bridgeInv s -> nonnegDraws s ->
  bridgeInv (extendTerrain s) /\ nonnegDraws (extendTerrain s).
Proof.
  intros Hi Hd.
  apply (extendTerrain_invariant (fun m => bridgeInv m /\ nonnegDraws m));
    [|now split].
  intros m last _ _ [Hmi Hmd]. split.
  - now apply addTerrainSegment_bridgeInv.
  - eapply generated_draws; [apply addTerrainSegment_generated | exact Hmd].
Qed.

Lemma updateTerrain_bridgeInv (s s' : Game) :
  updateTerrain s = Some s' ->
  bridgeInv s -> nonnegDraws s -> bridgeInv s' /\ nonnegDraws s'.
Proof.
  intros Hu Hi Hd. rewrite (updateTerrain_eq _ _ Hu).
  set (shifted := with_world _ s).
  destruct (extendTerrain_bridgeInv shifted) as [(Hs & Hall & Hn) Hd'];
    [exact Hi | exact Hd |].
  split; [|exact Hd'].
  unfold bridgeInv. simpl_fields. split; [|split].
  - now apply StronglySorted_filter.
  - now apply Forall_filter.
  - exact Hn.
Qed.

(** One frame keeps the invariant of the bridges. *)
Lemma tick_bridgeInv (k : Keys.t) (s s' : Game) :
  bridgeInv s -> nonnegDraws s -> tick k s = Some s' ->
  bridgeInv s' /\ nonnegDraws s'.
Proof.
  intros Hi Hd Ht. unfold tick in Ht.
  set (s0 := with_keys k s) in *.
  assert (Hidle : Run.gameState (run s0) <> playing ->
                  bridgeInv s' /\ nonnegDraws s').
  { intros Hn. rewrite gameLoop_not_playing in Ht by exact Hn.
    injection Ht as <-. split; assumption. }
  destruct (Run.gameState (run s0)) eqn:Hstate;
    [apply Hidle; discriminate | | apply Hidle; discriminate].
  clear Hidle. rewrite gameLoop_playing in Ht by exact Hstate.
  destruct (updateTerrain (updatePhysics s0)) as [m|] eqn:Hu; [|discriminate].
  injection Ht as <-.
  destruct (checkGameOver_frame (integrate s0)) as (_ & Pworld & Psur & _).
  destruct (integrate_frame s0) as (Isur & _ & Icon).
  assert (Hv1 : bridgeView (updatePhysics s0) = bridgeView s).
  { unfold bridgeView, updatePhysics. rewrite Pworld.
    unfold surroundings, contents in *. subst s0.
    simpl_fields_in Isur. simpl_fields_in Icon.
    replace (spawn (checkGameOver (integrate (with_keys k s))))
      with (spawn s) by congruence.
    replace (World.bridges (world (integrate (with_keys k s))))
      with (World.bridges (world s)) by congruence.
    reflexivity. }
  assert (Hd1 : nonnegDraws (updatePhysics s0)).
  { unfold updatePhysics, nonnegDraws.
    replace (random (checkGameOver (integrate s0))) with (random s)
      by (unfold surroundings in *; subst s0; simpl_fields_in Isur;
          congruence).
    exact Hd. }
  destruct (updateTerrain_bridgeInv _ _ Hu
              (bridgeInv_view _ _ Hv1 Hi) Hd1) as [Mi Md].
  destruct (checkPickups_eq m)
    as ((_ & _ & _ & Cspawn & _ & _ & _ & _ & (kc & Cdraws)) & _ & Cworld).
  destruct (finishFrame_frame (checkPickups m))
    as (_ & _ & _ & Fspawn & Fworld & Frandom & _).
  split.
  - apply (bridgeInv_view m); [|exact Mi].
    unfold bridgeView. rewrite Fworld, Fspawn, Cworld, Cspawn. reflexivity.
  - intros n. rewrite Frandom, Cdraws. apply Md.
Qed.

Lemma resetGame_bridgeInv (s : Game) :
  nonnegDraws s -> bridgeInv (resetGame s) /\ nonnegDraws (resetGame s).
Proof.
  intros Hd. unfold resetGame, generateTerrain.
  match goal with |- context [prepareTerrain ?g] => set (g0 := g) end.
  destruct (prepareTerrain_bridgeInv g0 Hd) as [Hi Hd'].
  split.
  - now apply generateSegments_bridgeInv.
  - eapply generated_draws; [apply generateSegments_generated | exact Hd'].
Qed.

(** *** Two bridges closer than the minimum distance *)

Lemma generated_zero (s s' : Game) :
  generated s s' -> zeroDraws s -> zeroDraws s'.
Proof.
  intros (_ & _ & _ & _ & _ & _ & _ & _ & _ & _ & _ & _ & (k & Hk)) H n.
  rewrite Hk. apply H.
Qed.

Lemma spawnBridge_zero (x y : R) (b : bool) (s : Game) :
  zeroDraws s ->
  bridgeView (spawnBridge x y b s)
  = if (x >=? Spawn.lastBridgeX (spawn s) + Spawn.nextBridgeX (spawn s))
       && negb b
    then (World.bridges (world s) ++ [metalBridge x y], x, 2500)
    else bridgeView s.
Proof.
  intros Hz. unfold spawnBridge.
  destruct ((x >=? Spawn.lastBridgeX (spawn s) + Spawn.nextBridgeX (spawn s))
            && negb b); [|reflexivity].
  unfold drawThreshold, Math_random, bridgeView, metalBridge. simpl_fields.
  rewrite (Hz 0%nat), (Hz 1%nat).
  rewrite (proj2 (gtb_false 0 0.5)) by lra.
  unfold BRIDGE_MIN_DISTANCE. repeat f_equal. lra.
Qed.

Lemma addTerrainSegment_zero (x index : R) (s : Game) :
  zeroDraws s ->
  exists y,
    bridgeView (addTerrainSegment x index s)
    = if (x >=? Spawn.lastBridgeX (spawn s) + Spawn.nextBridgeX (spawn s))
         && negb (existsb (spans x) (World.bridges (world s)))
      then (World.bridges (world s) ++ [metalBridge x y], x, 2500)
      else bridgeView s.
Proof.
  intros Hz. rewrite addTerrainSegment_eq. cbv zeta.
  set (y := fst (segmentHeight x index s)).
  set (b := existsb (spans x) (World.bridges (world s))).
  set (p := Segment.mk x y b).
  set (s1 := snd (segmentHeight x index s)).
  exists y.
  destruct (stages_bridgeView x index y p s) as (V1 & _).
  destruct (stages_bridgeView x index y p s1) as (_ & V2 & _).
  fold s1 in V1.
  assert (Z2 : zeroDraws (pushSegment p s1)).
  { eapply generated_zero; [|exact Hz].
    eapply generated_trans;
      [apply segmentHeight_generated | apply pushSegment_generated]. }
  pose proof (spawnBridge_zero x y b _ Z2) as V3.
  set (s3 := spawnBridge x y b (pushSegment p s1)) in *.
  destruct (stages_bridgeView x index y p s3) as (_ & _ & V4 & _).
  destruct (stages_bridgeView x index y p (spawnFuel x y s3))
    as (_ & _ & _ & V5 & _).
  destruct (stages_bridgeView x index y p (spawnBoost x y (spawnFuel x y s3)))
    as (_ & _ & _ & _ & V6).
  rewrite V6, V5, V4, V3.
  assert (V : bridgeView (pushSegment p s1) = bridgeView s) by congruence.
  assert (E1 : World.bridges (world (pushSegment p s1))
               = World.bridges (world s))
    by (change (fst (fst (bridgeView (pushSegment p s1)))
                = fst (fst (bridgeView s))); now rewrite V).
  assert (E2 : Spawn.lastBridgeX (spawn (pushSegment p s1))
               = Spawn.lastBridgeX (spawn s))
    by (change (snd (fst (bridgeView (pushSegment p s1)))
                = snd (fst (bridgeView s))); now rewrite V).
  assert (E3 : Spawn.nextBridgeX (spawn (pushSegment p s1))
               = Spawn.nextBridgeX (spawn s))
    by (change (snd (bridgeView (pushSegment p s1)) = snd (bridgeView s));
        now rewrite V).
  rewrite E1, E2, E3, V. reflexivity.
Qed.

Lemma generateSegments_one (i : R) (s : Game) :
  generateSegments 1 i s = addTerrainSegment (i * HILL_SEGMENT_WIDTH) i s.
Proof. reflexivity. Qed.

Lemma bridgeView_eq (s : Game) (bs : list Bridge.t) (l n : R) :
  bridgeView s = (bs, l, n) ->
  World.bridges (world s) = bs
  /\ Spawn.lastBridgeX (spawn s) = l
  /\ Spawn.nextBridgeX (spawn s) = n.
Proof. unfold bridgeView. intros H. inversion H. auto. Qed.

Lemma generateSegments_add (n m : nat) (i : R) (s : Game) :
  generateSegments (n + m) i s
  = generateSegments m (i + INR n) (generateSegments n i s).
Proof.
  revert i s. induction n as [|n IH]; intros i s.
  - cbn. now rewrite Rplus_0_r.
  - rewrite S_INR. cbn [Nat.add generateSegments]. rewrite IH.
    f_equal. lra.
Qed.

(** While the segments stay before the threshold no bridge is spawned. *)
Lemma generateSegments_quiet (n : nat) (i : R) (s : Game) :
  zeroDraws s ->
  (i + INR n - 1) * HILL_SEGMENT_WIDTH
  < Spawn.lastBridgeX (spawn s) + Spawn.nextBridgeX (spawn s) ->
  bridgeView (generateSegments n i s) = bridgeView s
  /\ zeroDraws (generateSegments n i s).
Proof.
  revert i s. induction n as [|n IH]; intros i s Hz Hq.
  - split; [reflexivity | exact Hz].
  - cbn [generateSegments]. rewrite S_INR in Hq.
    pose proof (pos_INR n) as Hn.
    unfold HILL_SEGMENT_WIDTH in *.
    destruct (addTerrainSegment_zero (i * 30) i s Hz) as (y & Hv).
    rewrite (proj2 (geb_false _ _)) in Hv by lra. cbn [andb] in Hv.
    assert (Hz1 : zeroDraws (addTerrainSegment (i * 30) i s)).
    { eapply generated_zero; [apply addTerrainSegment_generated | exact Hz]. }
    destruct (IH (i + 1) (addTerrainSegment (i * 30) i s) Hz1) as [Hv' Hz'].
    { apply bridgeView_eq in Hv as (_ & -> & ->). lra. }
    split; [congruence | exact Hz'].
Qed.

(** With every draw 0 the threshold is [BRIDGE_MIN_DISTANCE * 10 = 2500]
    each time.  The 152 segments generated on a fresh terrain at offset 0
    carry two bridges: the first from 2010 to 2160, the second starting
    at the first segment at or past 2010 + 2500, which is at 4530; from
    the end of the first to the start of the second there are 2370. *)
Lemma generateSegments_two_bridges :
  (forall n, 0 <= random strandedInAir n < 1)
  /\ exists b1 b2,
      World.bridges
        (world (generateSegments 152 0 (prepareTerrain strandedInAir)))
      = [b1; b2]
      /\ Bridge.startX b2 - Bridge.endX b1 = 2370
      /\ 2370 < BRIDGE_MIN_DISTANCE * 10.
Proof.
  split; [intros n; cbn; lra|].
  set (g0 := prepareTerrain strandedInAir).
  assert (Z0 : zeroDraws g0).
  { intros n. destruct (prepareTerrain_eq strandedInAir)
      as (_ & _ & _ & _ & _ & _ & _ & _ & ->). reflexivity. }
  assert (V0 : bridgeView g0 = ([], -500, 2500)).
  { destruct (prepareTerrain_eq strandedInAir)
      as (_ & _ & _ & _ & Hb & _ & Hl & Hn & _).
    unfold bridgeView, g0. rewrite Hb, Hl, Hn. cbn.
    unfold BRIDGE_MIN_DISTANCE. repeat f_equal; lra. }
  change 152%nat with (67 + (1 + (83 + 1)))%nat.
  rewrite !generateSegments_add, !generateSegments_one.
  replace (0 + INR 67) with 67 by (rewrite INR_IZR_INZ; cbn; lra).
  replace (67 + INR 1) with 68 by (cbn; lra).
  replace (68 + INR 83) with 151 by (rewrite INR_IZR_INZ; cbn; lra).
  (* segments 0 .. 66 *)
  destruct (generateSegments_quiet 67 0 g0 Z0) as [V1 Z1].
  { apply bridgeView_eq in V0 as (_ & -> & ->).
    rewrite INR_IZR_INZ. cbn. unfold HILL_SEGMENT_WIDTH. lra. }
  set (g1 := generateSegments 67 0 g0) in *. rewrite V0 in V1.
  (* segment 67, at 2010 *)
  destruct (addTerrainSegment_zero (67 * HILL_SEGMENT_WIDTH) 67 g1 Z1)
    as (y1 & V2).
  assert (Z2 : zeroDraws (addTerrainSegment (67 * HILL_SEGMENT_WIDTH) 67 g1)).
  { eapply generated_zero; [apply addTerrainSegment_generated | exact Z1]. }
  set (g2 := addTerrainSegment (67 * HILL_SEGMENT_WIDTH) 67 g1) in *.
  apply bridgeView_eq in V1 as (B1 & L1 & N1).
  rewrite B1, L1, N1 in V2. unfold HILL_SEGMENT_WIDTH in V2.
  rewrite (proj2 (geb_true _ _)) in V2 by lra.
  cbn [existsb negb andb app] in V2.
  (* segments 68 .. 150 *)
  destruct (generateSegments_quiet 83 68 g2 Z2) as [V3 Z3].
  { apply bridgeView_eq in V2 as (_ & -> & ->).
    rewrite INR_IZR_INZ. cbn. unfold HILL_SEGMENT_WIDTH. lra. }
  set (g3 := generateSegments 83 68 g2) in *. rewrite V2 in V3.
  (* segment 151, at 4530 *)
  destruct (addTerrainSegment_zero (151 * HILL_SEGMENT_WIDTH) 151 g3 Z3)
    as (y2 & V4).
  apply bridgeView_eq in V3 as (B3 & L3 & N3).
  rewrite B3, L3, N3 in V4. unfold HILL_SEGMENT_WIDTH in V4.
  rewrite (proj2 (geb_true _ _)) in V4 by lra.
  assert (Hoff : existsb (spans (151 * 30)) [metalBridge (67 * 30) y1] = false).
  { cbn. unfold spans, metalBridge, BRIDGE_LENGTH. cbn.
    rewrite (proj2 (leb_false _ _)) by lra. now rewrite andb_false_r. }
  rewrite Hoff in V4. cbn [negb andb app] in V4.
  apply bridgeView_eq in V4 as (B4 & _ & _).
  exists (metalBridge (67 * 30) y1), (metalBridge (151 * 30) y2).
  split; [exact B4|]. unfold metalBridge, BRIDGE_LENGTH, BRIDGE_MIN_DISTANCE.
  cbn [Bridge.startX Bridge.endX]. split; lra.
Qed.

(** ** The slope of the terrain *)

(** A scan returns the value of a pair of neighbours that brackets
    [worldX], or the fallback. *)
Lemma scanTerrain_neighbours {A : Type} (P : A -> Prop) (worldX : R)
  (hit : Segment.t -> Segment.t -> A) (miss : A) (l : list Segment.t) :
  P miss ->
  (forall i p1 p2,
      nth_error l i = Some p1 -> nth_error l (S i) = Some p2 ->
      Segment.x p1 <= worldX <= Segment.x p2 -> P (hit p1 p2)) ->
  P (scanTerrain worldX hit miss l).
Proof.
  intros Hm. induction l as [|p1 l IH]; intros Hh; [exact Hm|].
  destruct l as [|p2 l]; [exact Hm|].
  cbn [scanTerrain].
  destruct (worldX >=? Segment.x p1) eqn:H1;
    [destruct (worldX <=? Segment.x p2) eqn:H2|]; cbn [andb].
  - apply (Hh 0%nat); try reflexivity.
    apply geb_true in H1. apply leb_true in H2. lra.
  - apply IH. intros i q1 q2 Hq1 Hq2. apply (Hh (S i)); assumption.
  - apply IH. intros i q1 q2 Hq1 Hq2. apply (Hh (S i)); assumption.
Qed.

Lemma atan2_right (y x : R) : 0 < x -> JS.atan2 y x = atan (y / x).
Proof.
  intros H. unfold JS.atan2. now rewrite (proj2 (ltb_true 0 x)).
Qed.

(** The scan for the slope on an ascending buffer, at any [worldX] past
    the left end of a pair of neighbours and not past its right end. *)
Lemma scan_slope (l : list Segment.t) (i : nat) (p1 p2 : Segment.t)
  (worldX : R) (hit : Segment.t -> Segment.t -> R) (miss : R) :
  ascending l ->
  nth_error l i = Some p1 -> nth_error l (S i) = Some p2 ->
  Segment.x p1 < worldX <= Segment.x p2 ->
  scanTerrain worldX hit miss l = hit p1 p2.
Proof.
  revert i. induction l as [|a l IH]; intros i Hs H1 H2 Hx.
  - destruct i; discriminate.
  - destruct l as [|b l]; [destruct i; discriminate|].
    destruct i as [|i].
    + cbn in H1, H2. injection H1 as <-. injection H2 as <-.
      apply scanTerrain_hit. lra.
    + cbn [nth_error] in H1, H2.
      pose proof (StronglySorted_inv Hs) as [Hs' Hall].
      pose proof (ascending_nth _ _ _ _ Hs' H1) as Hb1.
      rewrite scanTerrain_skip by (right; lra). eapply IH; eauto.
Qed.

(** X2.  On a terrain buffer whose x coordinates strictly increase,
    getTerrainAngleAt returns the arctangent of the slope dy/dx of the
    pair of neighbours with p1.x < worldX <= p2.x; for every worldX the
    result lies strictly between -PI/2 and PI/2; before the first sample
    and past the last one it is 0. *)
Theorem slope_angle_of_the_bracket (s : Game) :
  ascending (World.terrain (world s)) ->
  (forall i p1 p2 worldX,
      nth_error (World.terrain (world s)) i = Some p1 ->
      nth_error (World.terrain (world s)) (S i) = Some p2 ->
      Segment.x p1 < worldX <= Segment.x p2 ->
      getTerrainAngleAt worldX s
      = atan ((Segment.y p2 - Segment.y p1) / (Segment.x p2 - Segment.x p1)))
  /\ (forall worldX, - PI / 2 < getTerrainAngleAt worldX s < PI / 2)
  /\ (forall first last worldX,
         hd_error (World.terrain (world s)) = Some first ->
         lastSegment s = Some last ->
         worldX < Segment.x first \/ Segment.x last < worldX ->
         getTerrainAngleAt worldX s = 0).
Proof.
  intros Hs. unfold getTerrainAngleAt. split; [|split].
  - intros i p1 p2 worldX H1 H2 Hx.
    rewrite (scan_slope _ i p1 p2 worldX _ _ Hs H1 H2 Hx). cbv zeta.
    apply atan2_right.
    pose proof (ascending_neighbours _ _ _ _ Hs H1 H2). lra.
  - intros worldX. apply scanTerrain_neighbours.
    + pose proof PI_bounds. lra.
    + intros i p1 p2 H1 H2 _. cbv zeta.
      rewrite atan2_right
        by (pose proof (ascending_neighbours _ _ _ _ Hs H1 H2); lra).
      pose proof (atan_bound ((Segment.y p2 - Segment.y p1)
                              / (Segment.x p2 - Segment.x p1))). lra.
  - intros first last worldX Hf Hl Hout.
    pose proof (ascending_bounds _ _ _ Hs Hf Hl) as Hb.
    destruct Hout as [Hout|Hout].
    + apply scan_before. eapply Forall_impl; [|exact Hb].
      cbn. intros p Hp. lra.
    + apply scan_after. eapply Forall_impl; [|exact Hb].
      cbn. intros p Hp. lra.
Qed.

Lemma slope_angle_of_the_bracket_witness :
  getTerrainAngleAt 200 strandedOnSlope = atan ((360 - 330) / (210 - 180)).
Proof.
  destruct (slope_angle_of_the_bracket strandedOnSlope steepGround_ascending)
    as (H & _).
  apply (H 1%nat (Segment.mk 180 330 false) (Segment.mk 210 360 false) 200).
  - cbn. unfold HILL_SEGMENT_WIDTH. do 3 f_equal; lra.
  - cbn. unfold HILL_SEGMENT_WIDTH. do 3 f_equal; lra.
  - cbn. lra.
Defined.

(** ** A buffer that is behind the window *)

Lemma shiftBehind_nil (limit : R) (l : list Segment.t) :
  shiftBehind limit l = [] <-> Forall (fun p => Segment.x p < limit) l.
Proof.
  induction l as [|a l IH]; cbn [shiftBehind].
  - split; [constructor | reflexivity].
  - destruct (Segment.x a <? limit) eqn:Ha.
    + apply ltb_true in Ha. rewrite IH. split.
      * intros H. now constructor.
      * intros H. now inversion H.
    + apply ltb_false in Ha. split; [discriminate|].
      intros H. inversion H; subst. lra.
Qed.

Lemma lastOf_none (l : list Segment.t) : lastOf l = None <-> l = [].
Proof.
  unfold lastOf. split.
  - intros H. apply nth_error_None in H. destruct l; [reflexivity|].
    cbn [List.length] in H. lia.
  - intros ->. reflexivity.
Qed.

(** X3.  updateTerrain raises (it reads .x of undefined) exactly when
    every sample of the buffer lies before terrainOffset - 100, which
    includes the empty buffer; in every other case it returns. *)
Theorem updateTerrain_raises_behind (s : Game) :
  updateTerrain s = None
  <-> Forall (fun p => Segment.x p < World.terrainOffset (world s) - 100)
        (World.terrain (world s)).
Proof.
  rewrite <- shiftBehind_nil. unfold updateTerrain. cbv zeta.
  unfold lastSegment. simpl_fields.
  fold (lastOf (shiftBehind (World.terrainOffset (world s) - 100)
                  (World.terrain (world s)))).
  rewrite <- lastOf_none.
  destruct (lastOf _); split; intros H; congruence.
Qed.

(** ** The initial window *)

Lemma generateSegments_xs (n : nat) (i : R) (s : Game) :
  map Segment.x (World.terrain (world (generateSegments n i s)))
  = map Segment.x (World.terrain (world s))
    ++ map (fun k => (i + INR k) * HILL_SEGMENT_WIDTH) (seq 0 n).
Proof.
  revert i s. induction n as [|n IH]; intros i s.
  - cbn. now rewrite app_nil_r.
  - cbn [generateSegments]. rewrite IH.
    destruct (addTerrainSegment_terrain (i * HILL_SEGMENT_WIDTH) i s)
      as (y & b & ->).
    rewrite map_app, <- app_assoc. f_equal.
    cbn [map seq app Segment.x]. f_equal.
    + cbn [INR]. lra.
    + rewrite <- seq_shift, map_map. apply map_ext. intros k.
      rewrite S_INR. lra.
Qed.

Lemma generateTerrain_xs (s : Game) :
  map Segment.x (World.terrain (world (generateTerrain s)))
  = map (fun k => INR k * HILL_SEGMENT_WIDTH)
      (seq 0 (Z.to_nat (Zceil (canvas_width s / HILL_SEGMENT_WIDTH) + 10))).
Proof.
  unfold generateTerrain. rewrite generateSegments_xs.
  destruct (prepareTerrain_eq s) as (_ & _ & _ & -> & _). cbn [map app].
  apply map_ext. intros k. lra.
Qed.

(** X4.  generateTerrain builds a buffer of ceil(canvas.width / 30) + 10
    samples (none when that number is not positive) whose k-th sample,
    counted from 0, is at x = 30 * k, whatever the buffer held before. *)
Theorem initial_window_layout (s : Game) :
  let n := Z.to_nat (Zceil (canvas_width s / HILL_SEGMENT_WIDTH) + 10) in
  map Segment.x (World.terrain (world (generateTerrain s)))
  = map (fun k => INR k * HILL_SEGMENT_WIDTH) (seq 0 n)
  /\ List.length (World.terrain (world (generateTerrain s))) = n.
Proof.
  cbv zeta. pose proof (generateTerrain_xs s) as H.
  split; [exact H|].
  apply (f_equal (@List.length R)) in H.
  now rewrite !length_map, length_seq in H.
Qed.

(** ** Frames, one at a time *)

Lemma tick_cases (k : Keys.t) (s s' : Game) :
  tick k s = Some s' ->
  (Run.gameState (run s) <> playing /\ s' = with_keys k s)
  \/ (Run.gameState (run s) = playing
      /\ exists m,
          updateTerrain (updatePhysics (with_keys k s)) = Some m
          /\ s' = finishFrame (checkPickups m)).
Proof.
  unfold tick. intros H.
  destruct (Run.gameState (run s)) eqn:Hs.
  - left. rewrite gameLoop_not_playing in H by (simpl_fields; congruence).
    split; congruence.
  - right. split; [reflexivity|].
    rewrite gameLoop_playing in H by exact Hs.
    destruct (updateTerrain _) as [m|]; [|discriminate].
    exists m. split; congruence.
  - left. rewrite gameLoop_not_playing in H by (simpl_fields; congruence).
    split; congruence.
Qed.

Lemma ticks_invariant (P : Game -> Prop) :
  (forall k s s', P s -> tick k s = Some s' -> P s') ->
  forall ks s s', P s -> ticks ks s = Some s' -> P s'.
Proof.
  intros Hstep ks. induction ks as [|k ks IH]; intros s s' HP Ht.
  - injection Ht as <-. exact HP.
  - cbn [ticks] in Ht. destruct (tick k s) as [s1|] eqn:Hk; [|discriminate].
    eapply IH; [|exact Ht]. eapply Hstep; eauto.
Qed.

(** ** The speed and the place of the car after a step *)

Lemma contactSpeed_range (s : Game) :
  -6.07 <= contactSpeed s <= 21.384
  /\ (Run.boostActive (run s) = false -> contactSpeed s <= 11.89).
Proof.
  unfold contactSpeed.
  pose proof (currentMaxSpeed_bounds s) as Hm.
  pose proof (limitedSpeed_bounds (currentMaxSpeed s) (controlledSpeed s)
                ltac:(lra)) as Hl.
  pose proof (SIN_bound (slopeUnderCar s)) as Hs.
  unfold REVERSE_SPEED, GROUND_FRICTION, AIR_RESISTANCE in *.
  split.
  - destruct (grounded s); lra.
  - intros Hb. unfold currentMaxSpeed, MAX_SPEED in *. rewrite Hb in *.
    destruct (grounded s); lra.
Qed.

(** X5.  After updatePhysics the horizontal speed of the car lies
    between -6.07 and 21.384, whatever it was before, and is at most
    11.89 when the step started without boost (the limits -6, 12 and
    21.6 of the step, after friction or air resistance and the push of
    the slope). *)
Theorem speed_stays_under_the_cap (s : Game) :
  let v := Car.velocityX (car (updatePhysics s)) in
  -6.07 <= v <= 21.384
  /\ (Run.boostActive (run s) = false -> v <= 11.89).
Proof.
  cbv zeta. unfold updatePhysics.
  destruct (checkGameOver_frame (integrate s)) as (-> & _).
  destruct (contactSpeed_range s) as [Hr Hb].
  destruct (integrate_velocityX s) as [-> | ->]; unfold Rmax;
    try destruct (Rle_dec _ _); split; try lra; intros H; specialize (Hb H); lra.
Qed.

Lemma scrollTerrain_band (s : Game) :
  50 <= Car.x (car (scrollTerrain s)) <= Rmax 50 (canvas_width s * 0.4).
Proof.
  unfold scrollTerrain. split_tests; unfold Rmax;
    destruct (Rle_dec _ _); compare_reals; try lra; try discriminate.
Qed.

Lemma contact_frame (s : Game) :
  let m := moveCar (resolveContact (carAtContact s)) in
  canvas_width m = canvas_width s
  /\ World.terrainOffset (world m) = World.terrainOffset (world s)
  /\ Car.x (car m) = Car.x (car s) + contactSpeed s
  /\ Run.score (run m) = Run.score (run s).
Proof.
  cbv zeta. unfold moveCar. simpl_fields.
  rewrite resolveContact_width, carAtContact_width, resolveContact_world,
    carAtContact_world, resolveContact_x, contact_velocityX, carAtContact_car,
    resolveContact_run.
  repeat split.
  unfold carAtContact, updateWheelPositions, applyGravity.
  rewrite limitSpeeds_eq. cbn. apply applyControls_score.
Qed.

Lemma updatePhysics_band (s : Game) :
  50 <= Car.x (car (updatePhysics s)) <= Rmax 50 (canvas_width s * 0.4).
Proof.
  unfold updatePhysics.
  destruct (checkGameOver_frame (integrate s)) as (-> & _).
  rewrite integrate_eq.
  destruct (contact_frame s) as (Mw & _).
  rewrite <- Mw. apply scrollTerrain_band.
Qed.

(** X6.  After updatePhysics the screen position car.x lies between 50
    and the larger of 50 and 0.4 * canvas.width. When the move would
    take the car behind 50 it is put at exactly 50 and its horizontal
    speed is not negative afterwards. *)
Theorem car_stays_in_its_band (s : Game) :
  50 <= Car.x (car (updatePhysics s)) <= Rmax 50 (canvas_width s * 0.4)
  /\ (Car.x (car s) + contactSpeed s < 50 ->
      Car.x (car (updatePhysics s)) = 50
      /\ 0 <= Car.velocityX (car (updatePhysics s))).
Proof.
  split; [apply updatePhysics_band|].
  unfold updatePhysics.
  destruct (checkGameOver_frame (integrate s)) as (-> & _).
  rewrite integrate_eq.
  destruct (contact_frame s) as (_ & _ & Mx & _).
  set (m := moveCar (resolveContact (carAtContact s))) in *.
  rewrite <- Mx. clearbody m. intros Hx. unfold scrollTerrain.
  split_tests; compare_reals; try lra; try discriminate;
    (split; [reflexivity | apply Rmax_l]).
Qed.

(** ** The score and the scroll *)

Lemma scrollTerrain_score (s : Game) :
  Run.score (run (scrollTerrain s))
  = Run.score (run s) + Rmax 0 (Car.x (car s) - canvas_width s * 0.4) / 10.
Proof.
  unfold scrollTerrain. split_tests; unfold Rmax;
    destruct (Rle_dec _ _); compare_reals; try lra; try discriminate.
Qed.

(** The physics step adds a tenth of the scroll to the score. *)
Lemma updatePhysics_score (s : Game) :
  World.terrainOffset (world s) <= World.terrainOffset (world (updatePhysics s))
  /\ Run.score (run (updatePhysics s)) - Run.score (run s)
     = (World.terrainOffset (world (updatePhysics s))
        - World.terrainOffset (world s)) / 10.
Proof.
  unfold updatePhysics.
  destruct (checkGameOver_frame (integrate s)) as (_ & -> & _ & _ & -> & _).
  rewrite integrate_eq.
  destruct (contact_frame s) as (Mw & Mo & _ & Ms).
  set (m := moveCar (resolveContact (carAtContact s))) in *.
  rewrite scrollTerrain_score, scrollTerrain_offset, Mo, Ms.
  unfold Rmax. destruct (Rle_dec _ _); lra.
Qed.

(** What a frame of a run in progress keeps from the physics step: the
    car, the score, the scroll and the width of the canvas. *)
Lemma frame_keeps (p m : Game) :
  updateTerrain p = Some m ->
  let s' := finishFrame (checkPickups m) in
  canvas_width s' = canvas_width p
  /\ car s' = car p
  /\ Run.score (run s') = Run.score (run p)
  /\ World.terrainOffset (world s') = World.terrainOffset (world p)
  /\ Run.gameState (run s') = Run.gameState (run p).
Proof.
  intros Hu. cbv zeta.
  destruct (updateTerrain_generated _ _ Hu) as (Mw & Mc & Mr & Mo & _).
  destruct (checkPickups_eq m)
    as ((Cw & Cc & _ & _ & Cg & _ & Cs & _) & _ & Cworld).
  destruct (finishFrame_frame (checkPickups m))
    as (Fw & Fc & _ & _ & Fworld & _ & Fg & _ & Fs & _).
  rewrite Fw, Fc, Fs, Fworld, Fg, Cw, Cc, Cs, Cworld, Cg, Mw, Mc, Mr.
  simpl_fields. repeat split. exact Mo.
Qed.

Lemma tick_score (k : Keys.t) (s s' : Game) :
  tick k s = Some s' ->
  World.terrainOffset (world s) <= World.terrainOffset (world s')
  /\ Run.score (run s') - Run.score (run s)
     = (World.terrainOffset (world s') - World.terrainOffset (world s)) / 10.
Proof.
  intros Ht. destruct (tick_cases _ _ _ Ht) as [[_ ->] | (_ & m & Hu & ->)].
  - simpl_fields. lra.
  - destruct (frame_keeps _ _ Hu) as (_ & _ & -> & -> & _).
    apply (updatePhysics_score (with_keys k s)).
Qed.

Lemma resetGame_run (s : Game) :
  run (resetGame s)
  = {| Run.gameState := playing; Run.score := 0; Run.fuel := INITIAL_FUEL;
       Run.coinCount := 0; Run.currentLevel := 1;
       Run.boostActive := false;
       Run.boostEndTime := Run.boostEndTime (run s);
       Run.currentBackgroundIndex := 0; Run.nextBackgroundIndex := 0;
       Run.backgroundTransition := 0;
       Run.gameOverReason := Run.gameOverReason (run s) |}
  /\ World.terrainOffset (world (resetGame s)) = 0
  /\ car (resetGame s)
     = {| Car.x := 200; Car.y := 300; Car.velocityX := 0; Car.velocityY := 0;
          Car.rotation := 0; Car.angularVelocity := 0; Car.onGround := false;
          Car.front := Car.front (car s); Car.back := Car.back (car s) |}
  /\ keys (resetGame s) = noKeys
  /\ particles (resetGame s) = []
  /\ canvas_width (resetGame s) = canvas_width s.
Proof.
  unfold resetGame.
  match goal with |- context [generateTerrain ?g] => set (g0 := g) end.
  unfold generateTerrain.
  pose proof (generateSegments_generated
                (Z.to_nat (Zceil (canvas_width g0 / HILL_SEGMENT_WIDTH) + 10))
                0 (prepareTerrain g0))
    as (Gw & Gc & Gk & Gr & Gp & _ & Go & _).
  destruct (prepareTerrain_eq g0) as (Pw & Pc & Pr & _ & _ & Po & _).
  rewrite Gr, Go, Gc, Gk, Gp, Gw, Pr, Po, Pc, Pw.
  assert (Hk : forall s0, keys (prepareTerrain s0) = keys s0
                          /\ particles (prepareTerrain s0) = particles s0)
    by (intros s0; unfold prepareTerrain, drawThreshold, Math_random;
        simpl_fields; split; reflexivity).
  destruct (Hk g0) as [-> ->]. subst g0. simpl_fields. repeat split.
Qed.

(** X7.  Over any sequence of frames that return, neither
    terrainOffset nor the score decreases; from the start of a run both
    are at least 0; and each frame adds to terrainOffset a scroll of at
    least 0 and to the score a tenth of that scroll. *)
Theorem score_and_scroll_never_go_back (s s' : Game) (ks : list Keys.t) :
  ticks ks s = Some s' ->
  World.terrainOffset (world s) <= World.terrainOffset (world s')
  /\ Run.score (run s) <= Run.score (run s')
  /\ (forall g, s = resetGame g ->
        0 <= World.terrainOffset (world s') /\ 0 <= Run.score (run s'))
  /\ (forall k s'',
         tick k s' = Some s'' ->
         exists scroll,
           0 <= scroll
           /\ World.terrainOffset (world s'')
              = World.terrainOffset (world s') + scroll
           /\ Run.score (run s'') = Run.score (run s') + scroll / 10).
Proof.
  intros Ht.
  assert (H : World.terrainOffset (world s) <= World.terrainOffset (world s')
              /\ Run.score (run s) <= Run.score (run s')).
  { revert s Ht. induction ks as [|k ks IH]; intros s Ht.
    - injection Ht as <-. lra.
    - cbn [ticks] in Ht. destruct (tick k s) as [s1|] eqn:Hk; [|discriminate].
      destruct (tick_score _ _ _ Hk) as [H1 H2].
      destruct (IH _ Ht) as [H3 H4]. lra. }
  destruct H as [Ho Hs]. split; [exact Ho|]. split; [exact Hs|]. split.
  - intros g ->. destruct (resetGame_run g) as (Hr & Hw & _).
    rewrite Hr in Hs. rewrite Hw in Ho. cbn [Run.score] in Hs. lra.
  - intros k s'' Hk. destruct (tick_score _ _ _ Hk) as [H1 H2].
    exists (World.terrainOffset (world s'') - World.terrainOffset (world s')).
    repeat split; lra.
Qed.

Lemma score_and_scroll_never_go_back_witness :
  exists s',
    ticks [noKeys; forwardKey; forwardKey] (resetGame strandedInAir) = Some s'
    /\ World.terrainOffset (world (resetGame strandedInAir))
       <= World.terrainOffset (world s')
    /\ Run.score (run (resetGame strandedInAir)) <= Run.score (run s')
    /\ (forall g, resetGame strandedInAir = resetGame g ->
          0 <= World.terrainOffset (world s') /\ 0 <= Run.score (run s'))
    /\ (forall k s'',
           tick k s' = Some s'' ->
           exists scroll,
             0 <= scroll
             /\ World.terrainOffset (world s'')
                = World.terrainOffset (world s') + scroll
             /\ Run.score (run s'') = Run.score (run s') + scroll / 10).
Proof.
  assert (Hw : 0 <= canvas_width strandedInAir) by (cbn; lra).
  destruct (resetGame_window strandedInAir Hw) as [Hinv Hbounds].
  destruct (ticks_window [noKeys; forwardKey; forwardKey] _ Hinv Hbounds)
    as (s' & Ht & _).
  exists s'. split; [exact Ht|].
  exact (score_and_scroll_never_go_back (resetGame strandedInAir) s'
           [noKeys; forwardKey; forwardKey] Ht).
Defined.

(** ** The level *)

Lemma levelOf_mono (a b : R) : a <= b -> levelOf a <= levelOf b.
Proof.
  intros H. unfold levelOf, JS.floor, LEVEL_DISTANCE.
  apply Rplus_le_compat_r. apply IZR_le. apply Zfloor_le. lra.
Qed.

Lemma finishFrame_level (s : Game) :
  Run.currentLevel (run (finishFrame s))
  = Rmax (Run.currentLevel (run s)) (levelOf (Run.score (run s))).
Proof.
  unfold finishFrame, updateBackground, updateLevel, updateParticles,
    updateBoost, Date_now, levelOf.
  split_tests; unfold Rmax; destruct (Rle_dec _ _); compare_reals;
    try lra; try discriminate.
Qed.

Lemma updatePhysics_standing (s : Game) :
  standing (run (updatePhysics s)) = standing (run s)
  \/ Run.gameState (run (updatePhysics s)) = gameOver
     /\ Run.coinCount (run (updatePhysics s)) = Run.coinCount (run s)
     /\ Run.currentLevel (run (updatePhysics s)) = Run.currentLevel (run s)
     /\ Run.boostActive (run (updatePhysics s)) = Run.boostActive (run s)
     /\ Run.boostEndTime (run (updatePhysics s)) = Run.boostEndTime (run s)
     /\ Run.currentBackgroundIndex (run (updatePhysics s))
        = Run.currentBackgroundIndex (run s)
     /\ Run.nextBackgroundIndex (run (updatePhysics s))
        = Run.nextBackgroundIndex (run s)
     /\ Run.backgroundTransition (run (updatePhysics s))
        = Run.backgroundTransition (run s).
Proof.
  unfold updatePhysics.
  destruct (integrate_frame s) as (_ & Hst & _).
  revert Hst. generalize (integrate s). intros i Hst.
  unfold standing in *.
  injection Hst as H1 H2 H3 H4 H5 H6 H7 H8 H9.
  unfold checkGameOver, endGame. split_tests;
    first [ left; congruence
          | right; repeat split; congruence ].
Qed.

Lemma tick_level (k : Keys.t) (s s' : Game) :
  tick k s = Some s' ->
  Run.currentLevel (run s) <= Run.currentLevel (run s')
  /\ (Run.currentLevel (run s) = levelOf (Run.score (run s)) ->
      Run.currentLevel (run s') = levelOf (Run.score (run s'))).
Proof.
  intros Ht.
  destruct (tick_score _ _ _ Ht) as [Ho Hs].
  destruct (tick_cases _ _ _ Ht) as [[_ ->] | (_ & m & Hu & ->)].
  - simpl_fields. split; [lra | auto].
  - destruct (frame_keeps _ _ Hu) as (_ & _ & Ks & _).
    cbv zeta in Ks.
    destruct (updateTerrain_generated _ _ Hu) as (_ & _ & Mr & _).
    destruct (checkPickups_eq m) as ((_ & _ & _ & _ & _ & _ & Cs & Cl & _) & _).
    assert (Hl : Run.currentLevel (run (checkPickups m))
                 = Run.currentLevel (run s)).
    { rewrite Cl, Mr.
      destruct (updatePhysics_standing (with_keys k s))
        as [H | (_ & _ & H & _)].
      - unfold standing in H. simpl_fields_in H. congruence.
      - exact H. }
    assert (Hsc : Run.score (run (checkPickups m))
                  = Run.score (run (finishFrame (checkPickups m)))).
    { destruct (finishFrame_frame (checkPickups m))
        as (_ & _ & _ & _ & _ & _ & _ & _ & Fs & _). now rewrite Fs. }
    rewrite finishFrame_level, Hl, Hsc.
    set (s' := finishFrame (checkPickups m)) in *.
    assert (Hmono : Run.score (run s) <= Run.score (run s')) by lra.
    apply levelOf_mono in Hmono.
    unfold Rmax. destruct (Rle_dec _ _); split; intros; lra.
Qed.

(** X8.  In every state reached from the start of a run, currentLevel
    equals floor(score / 500) + 1 and is at least 1, and a further frame
    never lowers it. *)
Theorem level_is_read_off_the_score (g s' : Game) (ks : list Keys.t) :
  ticks ks (resetGame g) = Some s' ->
  Run.currentLevel (run s') = JS.floor (Run.score (run s') / LEVEL_DISTANCE) + 1
  /\ 1 <= Run.currentLevel (run s')
  /\ (forall k s'', tick k s' = Some s'' ->
        Run.currentLevel (run s') <= Run.currentLevel (run s'')).
Proof.
  intros Ht.
  assert (H : Run.currentLevel (run s') = levelOf (Run.score (run s'))
              /\ 1 <= Run.currentLevel (run s')).
  { revert Ht.
    apply (ticks_invariant
             (fun s => Run.currentLevel (run s) = levelOf (Run.score (run s))
                       /\ 1 <= Run.currentLevel (run s))).
    - intros k s s1 [H1 H2] Hk. destruct (tick_level _ _ _ Hk) as [Hm Hf].
      split; [auto | lra].
    - destruct (resetGame_run g) as (-> & _). cbn.
      unfold levelOf, JS.floor, LEVEL_DISTANCE.
      rewrite (Zfloor_eq 0); [split; lra | cbn; lra]. }
  destruct H as [H1 H2]. split; [exact H1|]. split; [exact H2|].
  intros k s'' Hk. apply (tick_level _ _ _ Hk).
Qed.

Lemma level_is_read_off_the_score_witness :
  exists s',
    ticks [noKeys; forwardKey; forwardKey] (resetGame strandedInAir) = Some s'
    /\ Run.currentLevel (run s')
       = JS.floor (Run.score (run s') / LEVEL_DISTANCE) + 1
    /\ 1 <= Run.currentLevel (run s')
    /\ (forall k s'', tick k s' = Some s'' ->
          Run.currentLevel (run s') <= Run.currentLevel (run s'')).
Proof.
  assert (Hw : 0 <= canvas_width strandedInAir) by (cbn; lra).
  destruct (resetGame_window strandedInAir Hw) as [Hinv Hbounds].
  destruct (ticks_window [noKeys; forwardKey; forwardKey] _ Hinv Hbounds)
    as (s' & Ht & _).
  exists s'. split; [exact Ht|].
  exact (level_is_read_off_the_score strandedInAir s'
           [noKeys; forwardKey; forwardKey] Ht).
Defined.

(** ** The background *)

Lemma collectFuel_scenery (cx cy cr : R) (l : list Pickup.t) (s : Game) :
  scenery (run (snd (collectFuel cx cy cr l s))) = scenery (run s).
Proof.
  revert s. induction l as [|p l IH]; intros s; cbn [collectFuel];
    [reflexivity|].
  destruct (Pickup.collected p);
    [|destruct (within (cr + 10) (Pickup.x p) (Pickup.y p) cx cy)];
    match goal with
    | |- context [collectFuel cx cy cr l ?s1] =>
        specialize (IH s1); destruct (collectFuel cx cy cr l s1)
    end; cbn [snd] in *; rewrite IH; reflexivity.
Qed.

Lemma collectCoins_scenery (cx cy cr : R) (l : list Pickup.t) (s : Game) :
  scenery (run (snd (collectCoins cx cy cr l s))) = scenery (run s).
Proof.
  revert s. induction l as [|p l IH]; intros s; cbn [collectCoins];
    [reflexivity|].
  destruct (Pickup.collected p);
    [|destruct (within (cr + 10) (Pickup.x p) (Pickup.y p) cx cy)];
    match goal with
    | |- context [collectCoins cx cy cr l ?s1] =>
        specialize (IH s1); destruct (collectCoins cx cy cr l s1)
    end; cbn [snd] in *; rewrite IH; reflexivity.
Qed.

Lemma collectBoosts_scenery (cx cy cr : R) (l : list Boost.t) (s : Game) :
  scenery (run (snd (collectBoosts cx cy cr l s))) = scenery (run s).
Proof.
  revert s. induction l as [|p l IH]; intros s; cbn [collectBoosts];
    [reflexivity|].
  destruct (Boost.collected p);
    [|destruct (within (cr + 15) (Boost.x p) (Boost.y p) cx cy)];
    match goal with
    | |- context [collectBoosts cx cy cr l ?s1] =>
        specialize (IH s1); destruct (collectBoosts cx cy cr l s1)
    end; cbn [snd] in *; rewrite IH; reflexivity.
Qed.

Lemma checkPickups_scenery (s : Game) :
  scenery (run (checkPickups s)) = scenery (run s).
Proof.
  unfold checkPickups.
  match goal with
  | |- context [collectFuel ?cx ?cy ?cr ?l s] =>
      pose proof (collectFuel_scenery cx cy cr l s) as HF;
      destruct (collectFuel cx cy cr l s) as [fuelPickups s1]
  end.
  match goal with
  | |- context [collectCoins ?cx ?cy ?cr ?l ?s2] =>
      pose proof (collectCoins_scenery cx cy cr l s2) as HC;
      destruct (collectCoins cx cy cr l s2) as [coins s3]
  end.
  match goal with
  | |- context [collectBoosts ?cx ?cy ?cr ?l ?s4] =>
      pose proof (collectBoosts_scenery cx cy cr l s4) as HB;
      destruct (collectBoosts cx cy cr l s4) as [boosts s5]
  end.
  cbn [snd] in *. simpl_fields. simpl_fields_in HB. simpl_fields_in HC.
  congruence.
Qed.

(** The remainder of a whole number that is not negative by 5 is one of
    0, 1, 2, 3, 4. *)
Lemma rem_index (a : R) :
  0 <= a -> backgroundIndex (JS.rem (JS.floor a) BACKGROUNDS_length).
Proof.
  intros Ha. unfold backgroundIndex, BACKGROUNDS_length.
  assert (H0 : 0 <= JS.floor a).
  { unfold JS.floor. apply IZR_le. apply Zfloor_lub. cbn. exact Ha. }
  destruct (rem_bounds (JS.floor a) 5 ltac:(lra)) as [Hb _].
  specialize (Hb H0).
  assert (Hz : exists k : Z, JS.rem (JS.floor a) 5 = IZR k).
  { unfold JS.rem, JS.trunc, JS.floor, JS.ceil.
    destruct (_ <? 0); eexists; rewrite <- mult_IZR, <- minus_IZR;
      reflexivity. }
  destruct Hz as [k Hk]. exists k. split; [|exact Hk].
  rewrite Hk in Hb. destruct Hb as [Hb1 Hb2].
  apply le_IZR in Hb1. apply lt_IZR in Hb2. lia.
Qed.

Lemma finishFrame_scenery (s : Game) :
  0 <= Run.score (run s) -> sceneryInv s -> sceneryInv (finishFrame s).
Proof.
  intros Hs (Hc & Hn & Ht).
  pose proof (rem_index (Run.score (run s) / BACKGROUND_CHANGE_DISTANCE)) as Hr.
  assert (H0 : 0 <= Run.score (run s) / BACKGROUND_CHANGE_DISTANCE)
    by (unfold BACKGROUND_CHANGE_DISTANCE; lra).
  specialize (Hr H0). clear H0.
  unfold sceneryInv, finishFrame, updateBackground, updateLevel,
    updateParticles, updateBoost, Date_now.
  unfold Rmin. split_tests; repeat split; try assumption;
    compare_reals; try lra; try discriminate.
Qed.

Lemma tick_scenery (k : Keys.t) (s s' : Game) :
  tick k s = Some s' ->
  0 <= Run.score (run s) -> sceneryInv s -> sceneryInv s'.
Proof.
  intros Ht Hs Hi.
  destruct (tick_score _ _ _ Ht) as [Ho Hsc].
  destruct (tick_cases _ _ _ Ht) as [[_ ->] | (_ & m & Hu & ->)];
    [exact Hi|].
  destruct (updateTerrain_generated _ _ Hu) as (_ & _ & Mr & _).
  apply finishFrame_scenery.
  - destruct (finishFrame_frame (checkPickups m))
      as (_ & _ & _ & _ & _ & _ & _ & _ & Fs & _).
    rewrite <- Fs. lra.
  - unfold sceneryInv in *.
    pose proof (checkPickups_scenery m) as Hc. unfold scenery in Hc.
    injection Hc as -> -> ->. rewrite Mr.
    destruct (updatePhysics_standing (with_keys k s))
      as [H | (_ & _ & _ & _ & _ & -> & -> & ->)].
    + unfold standing in H. simpl_fields_in H.
      injection H as _ _ _ _ _ -> -> -> _. exact Hi.
    + exact Hi.
Qed.

(** X9.  In every state reached from the start of a run,
    currentBackgroundIndex and nextBackgroundIndex are whole numbers
    from 0 to 4, valid indices into BACKGROUNDS, and
    backgroundTransition is at least 0 and less than 1. *)
Theorem background_index_stays_valid (g s' : Game) (ks : list Keys.t) :
  ticks ks (resetGame g) = Some s' ->
  (exists k : Z,
      (0 <= k < 5)%Z /\ Run.currentBackgroundIndex (run s') = IZR k)
  /\ (exists k : Z,
         (0 <= k < 5)%Z /\ Run.nextBackgroundIndex (run s') = IZR k)
  /\ 0 <= Run.backgroundTransition (run s') < 1.
Proof.
  intros Ht.
  assert (H : 0 <= Run.score (run s') /\ sceneryInv s').
  { revert Ht.
    apply (ticks_invariant
             (fun s => 0 <= Run.score (run s) /\ sceneryInv s)).
    - intros k s s1 [H1 H2] Hk. split.
      + destruct (tick_score _ _ _ Hk). lra.
      + eapply tick_scenery; eauto.
    - unfold sceneryInv, backgroundIndex.
      destruct (resetGame_run g) as (-> & _). cbn.
      split; [lra|].
      split; [|split]; [exists 0%Z | exists 0%Z | lra];
        (split; [lia | reflexivity]). }
  exact (proj2 H).
Qed.

Lemma background_index_stays_valid_witness :
  exists s',
    ticks [noKeys; forwardKey; forwardKey] (resetGame strandedInAir) = Some s'
    /\ (exists k : Z,
           (0 <= k < 5)%Z /\ Run.currentBackgroundIndex (run s') = IZR k)
    /\ (exists k : Z,
           (0 <= k < 5)%Z /\ Run.nextBackgroundIndex (run s') = IZR k)
    /\ 0 <= Run.backgroundTransition (run s') < 1.
Proof.
  assert (Hw : 0 <= canvas_width strandedInAir) by (cbn; lra).
  destruct (resetGame_window strandedInAir Hw) as [Hinv Hbounds].
  destruct (ticks_window [noKeys; forwardKey; forwardKey] _ Hinv Hbounds)
    as (s' & Ht & _).
  exists s'. split; [exact Ht|].
  exact (background_index_stays_valid strandedInAir s'
           [noKeys; forwardKey; forwardKey] Ht).
Defined.

(** ** The fall speed *)

Lemma updatePhysics_velocityY (s : Game) :
  Car.velocityY (car (updatePhysics s))
  = if grounded s then 0 else Car.velocityY (car s) + GRAVITY.
Proof.
  unfold updatePhysics.
  destruct (checkGameOver_frame (integrate s)) as (-> & _).
  rewrite integrate_eq.
  destruct (scrollTerrain_pose (moveCar (resolveContact (carAtContact s))))
    as (_ & _ & _ & _ & ->).
  rewrite moveCar_car. simpl_fields.
  rewrite <- contact_onGround.
  destruct (Car.onGround (car (resolveContact (carAtContact s)))) eqn:Hg.
  - now apply resolveContact_grounded.
  - destruct (resolveContact_airborne _ Hg) as [_ ->].
    rewrite carAtContact_car. reflexivity.
Qed.

(** X10.  In every state reached from the start of a run the vertical
    speed of the car is not negative (the car is never thrown upwards):
    a frame of a run in progress sets it to 0 when a wheel touches the
    ground and adds the gravity 0.4 to it otherwise. *)
Theorem fall_speed_is_never_negative (g s' : Game) (ks : list Keys.t) :
  ticks ks (resetGame g) = Some s' ->
  0 <= Car.velocityY (car s')
  /\ (forall k s'',
         tick k s' = Some s'' -> Run.gameState (run s') = playing ->
         Car.velocityY (car s'')
         = if grounded (with_keys k s') then 0
           else Car.velocityY (car s') + GRAVITY).
Proof.
  intros Ht.
  assert (Hstep : forall k s s'',
             tick k s = Some s'' -> Run.gameState (run s) = playing ->
             Car.velocityY (car s'')
             = if grounded (with_keys k s) then 0
               else Car.velocityY (car s) + GRAVITY).
  { intros k s s'' Hk Hp.
    destruct (tick_cases _ _ _ Hk) as [[Hn _] | (_ & m & Hu & ->)];
      [congruence|].
    destruct (frame_keeps _ _ Hu) as (_ & -> & _).
    apply (updatePhysics_velocityY (with_keys k s)). }
  split; [|intros k s'' Hk Hp; now apply Hstep].
  revert Ht.
  apply (ticks_invariant (fun s => 0 <= Car.velocityY (car s))).
  - intros k s s1 H Hk.
    destruct (tick_cases _ _ _ Hk) as [[_ ->] | (Hp & _)]; [exact H|].
    rewrite (Hstep _ _ _ Hk Hp). unfold GRAVITY.
    destruct (grounded _); lra.
  - destruct (resetGame_run g) as (_ & _ & -> & _). cbn. lra.
Qed.

Lemma fall_speed_is_never_negative_witness :
  exists s',
    ticks [noKeys; forwardKey; forwardKey] (resetGame strandedInAir) = Some s'
    /\ 0 <= Car.velocityY (car s')
    /\ (forall k s'',
           tick k s' = Some s'' -> Run.gameState (run s') = playing ->
           Car.velocityY (car s'')
           = if grounded (with_keys k s') then 0
             else Car.velocityY (car s') + GRAVITY).
Proof.
  assert (Hw : 0 <= canvas_width strandedInAir) by (cbn; lra).
  destruct (resetGame_window strandedInAir Hw) as [Hinv Hbounds].
  destruct (ticks_window [noKeys; forwardKey; forwardKey] _ Hinv Hbounds)
    as (s' & Ht & _).
  exists s'. split; [exact Ht|].
  exact (fall_speed_is_never_negative strandedInAir s'
           [noKeys; forwardKey; forwardKey] Ht).
Defined.

(** ** The spacing of the samples *)

Lemma stepped_nth (l : list Segment.t) :
  stepped l <->
  (forall i p q,
      nth_error l i = Some p -> nth_error l (S i) = Some q ->
      Segment.x q = Segment.x p + HILL_SEGMENT_WIDTH).
Proof.
  induction l as [|a l IH]; [split; [intros _ [|i]; discriminate | constructor]|].
  destruct l as [|b l].
  - split; [|constructor]. intros _ [|[|i]] p q; discriminate.
  - cbn [stepped]. rewrite IH. split.
    + intros [Hab H] [|i] p q Hp Hq.
      * cbn in Hp, Hq. congruence.
      * apply (H i); assumption.
    + intros H. split.
      * apply (H 0%nat); reflexivity.
      * intros i p q Hp Hq. apply (H (S i)); assumption.
Qed.

Lemma stepped_tail (a : Segment.t) (l : list Segment.t) :
  stepped (a :: l) -> stepped l.
Proof. destruct l; cbn; tauto. Qed.

Lemma stepped_lower (a : Segment.t) (l : list Segment.t) :
  stepped (a :: l) -> Forall (fun p => Segment.x a < Segment.x p) l.
Proof.
  revert a. induction l as [|b l IH]; intros a H; constructor.
  - cbn in H. unfold HILL_SEGMENT_WIDTH in H. lra.
  - destruct H as [Hab H]. eapply Forall_impl; [|apply (IH b H)].
    cbn. unfold HILL_SEGMENT_WIDTH in Hab. intros p Hp. lra.
Qed.

Lemma stepped_ascending (l : list Segment.t) : stepped l -> ascending l.
Proof.
  unfold ascending. induction l as [|a l IH]; intros H; constructor.
  - apply IH. eapply stepped_tail; eauto.
  - now apply stepped_lower.
Qed.

Lemma stepped_shiftBehind (limit : R) (l : list Segment.t) :
  stepped l -> stepped (shiftBehind limit l).
Proof.
  induction l as [|a l IH]; intros H; cbn [shiftBehind]; [exact H|].
  destruct (Segment.x a <? limit); [|exact H].
  apply IH. eapply stepped_tail; eauto.
Qed.

Lemma stepped_snoc (l : list Segment.t) (last q : Segment.t) :
  stepped l -> lastOf l = Some last ->
  Segment.x q = Segment.x last + HILL_SEGMENT_WIDTH ->
  stepped (l ++ [q]).
Proof.
  intros Hs Hl Hq. induction l as [|a l IH]; [discriminate|].
  destruct l as [|b l].
  - cbn in Hl. injection Hl as ->. cbn. auto.
  - rewrite lastOf_cons in Hl. destruct Hs as [Hab Hs].
    change (stepped (a :: b :: (l ++ [q]))). split; [exact Hab|].
    apply (IH Hs Hl).
Qed.


Lemma shiftBehind_last (limit : R) (l : list Segment.t) (q : Segment.t) :
  lastOf (shiftBehind limit l) = Some q -> lastOf l = Some q.
Proof.
  induction l as [|a l IH]; cbn [shiftBehind]; [auto|].
  destruct (Segment.x a <? limit); [|auto].
  intros H. specialize (IH H).
  destruct l as [|b l]; [discriminate|]. now rewrite lastOf_cons.
Qed.

Lemma shiftBehind_front (limit : R) (l : list Segment.t) :
  ascending l -> Forall (fun p => limit <= Segment.x p) (shiftBehind limit l).
Proof.
  induction l as [|a l IH]; intros Hs; cbn [shiftBehind]; [constructor|].
  pose proof (StronglySorted_inv Hs) as [Hs' Hall].
  destruct (Segment.x a <? limit) eqn:Ha; [now apply IH|].
  apply ltb_false in Ha. constructor; [exact Ha|].
  eapply Forall_impl; [|exact Hall]. cbn. intros p Hp. lra.
Qed.

Lemma updateTerrain_tidy (p m : Game) :
  updateTerrain p = Some m ->
  tidy p ->
  tidy m
  /\ Forall (fun q => World.terrainOffset (world m) - 100 <= Segment.x q)
       (World.terrain (world m)).
Proof.
  intros Hu [Hs He]. rewrite (updateTerrain_eq _ _ Hu).
  set (limit := World.terrainOffset (world p) - 100).
  set (shifted := with_world _ p).
  assert (Hs1 : stepped (World.terrain (world shifted)))
    by (apply stepped_shiftBehind; exact Hs).
  assert (He1 : endsWithin 200 shifted).
  { intros last Hl. apply He. unfold lastSegment in *.
    apply (shiftBehind_last limit). exact Hl. }
  assert (Hc1 : covers limit (World.terrain (world shifted))).
  { split.
    - apply stepped_ascending. exact Hs1.
    - apply shiftBehind_front. apply stepped_ascending. exact Hs. }
  pose proof (extendTerrain_covers limit shifted Hc1) as [_ Hfront].
  pose proof (extendTerrain_generated shifted)
    as (_ & _ & _ & _ & _ & _ & Go & _).
  assert (Ht : tidy (extendTerrain shifted)).
  { apply (extendTerrain_invariant tidy); [|split; assumption].
    intros s last Hl Hlt [Ts Te].
    pose proof (addTerrainSegment_generated
                  (Segment.x last + HILL_SEGMENT_WIDTH)
                  (INR (List.length (World.terrain (world s)))) s)
      as (Gw & _ & _ & _ & _ & _ & Go' & _).
    destruct (addTerrainSegment_terrain
                (Segment.x last + HILL_SEGMENT_WIDTH)
                (INR (List.length (World.terrain (world s)))) s)
      as (y & b & Ht).
    split.
    - rewrite Ht. eapply stepped_snoc; eauto.
    - intros last' Hl'. unfold lastSegment in Hl'. rewrite Ht in Hl'.
      fold (lastOf (World.terrain (world s) ++ [Segment.mk
              (Segment.x last + HILL_SEGMENT_WIDTH) y b])) in Hl'.
      rewrite lastOf_snoc in Hl'. injection Hl' as <-.
      unfold leadingEdge in *. rewrite Gw, Go'. cbn [Segment.x].
      unfold HILL_SEGMENT_WIDTH. lra. }
  destruct Ht as [Ts Te]. split; [split|].
  - simpl_fields. exact Ts.
  - intros last Hl. apply Te. exact Hl.
  - simpl_fields. rewrite Go. subst shifted. simpl_fields. exact Hfront.
Qed.

Lemma generateSegments_stepped (n : nat) (i : R) (s : Game) :
  stepped (World.terrain (world s)) ->
  (forall last,
      lastOf (World.terrain (world s)) = Some last ->
      i * HILL_SEGMENT_WIDTH = Segment.x last + HILL_SEGMENT_WIDTH) ->
  stepped (World.terrain (world (generateSegments n i s))).
Proof.
  revert i s. induction n as [|n IH]; intros i s Hs Hl; [exact Hs|].
  cbn [generateSegments].
  destruct (addTerrainSegment_terrain (i * HILL_SEGMENT_WIDTH) i s)
    as (y & b & Ht).
  apply IH.
  - rewrite Ht. destruct (lastOf (World.terrain (world s))) as [last|] eqn:El.
    + eapply stepped_snoc; eauto.
    + apply lastOf_none in El. rewrite El. exact I.
  - intros last. rewrite Ht, lastOf_snoc. intros [= <-]. cbn. lra.
Qed.

Lemma Zceil_upper (x : R) : IZR (Zceil x) < x + 1.
Proof.
  unfold Zceil. rewrite opp_IZR. pose proof (Zfloor_bound (- x)). lra.
Qed.

(** The initial window ends less than 300 past the canvas. *)
Lemma generateTerrain_end (s : Game) (last : Segment.t) :
  lastSegment (generateTerrain s) = Some last ->
  Segment.x last < canvas_width s + 300.
Proof.
  unfold lastSegment, generateTerrain.
  remember (Z.to_nat (Zceil (canvas_width s / HILL_SEGMENT_WIDTH) + 10))
    as n eqn:En.
  pose proof (generateSegments_xs n 0 (prepareTerrain s)) as Hx.
  destruct (prepareTerrain_eq s) as (_ & _ & _ & Ht & _).
  rewrite Ht in Hx. cbn [map app] in Hx.
  set (l := World.terrain (world (generateSegments n 0 (prepareTerrain s))))
    in *.
  assert (Hlen : List.length l = n).
  { apply (f_equal (@List.length R)) in Hx.
    now rewrite !length_map, length_seq in Hx. }
  rewrite Hlen. intros Hl.
  apply (map_nth_error Segment.x) in Hl. rewrite Hx in Hl.
  destruct n as [|n]; [destruct l; discriminate|].
  replace (S n - 1)%nat with n in Hl by lia.
  assert (Hseq : nth_error (seq 0 (S n)) n = Some n).
  { rewrite nth_error_nth' with (d := 0%nat) by (rewrite length_seq; lia).
    rewrite seq_nth by lia. reflexivity. }
  rewrite (map_nth_error _ _ _ Hseq) in Hl.
  injection Hl as <-.
  assert (Hn : INR (S n)
               = IZR (Zceil (canvas_width s / HILL_SEGMENT_WIDTH)) + 10).
  { rewrite INR_IZR_INZ, En, Z2Nat.id by lia. now rewrite plus_IZR. }
  rewrite S_INR in Hn.
  pose proof (Zceil_upper (canvas_width s / HILL_SEGMENT_WIDTH)) as Hc.
  unfold HILL_SEGMENT_WIDTH in *. lra.
Qed.

Lemma resetGame_tidy (g : Game) :
  tidy (resetGame g)
  /\ Forall
       (fun q => World.terrainOffset (world (resetGame g)) - 100 <= Segment.x q)
       (World.terrain (world (resetGame g))).
Proof.
  destruct (resetGame_run g) as (_ & Ho & _ & _ & _ & Hw).
  unfold tidy, endsWithin, leadingEdge. rewrite Ho, Hw.
  unfold resetGame.
  match goal with |- context [generateTerrain ?g] => set (g0 := g) end.
  assert (Gw : canvas_width g0 = canvas_width g) by reflexivity.
  destruct (prepareTerrain_eq g0) as (_ & _ & _ & Ht & _).
  assert (Hs : stepped (World.terrain (world (generateTerrain g0)))).
  { unfold generateTerrain. apply generateSegments_stepped.
    - rewrite Ht. exact I.
    - rewrite Ht. discriminate. }
  split; [split|].
  - exact Hs.
  - intros last Hl. apply generateTerrain_end in Hl. rewrite Gw in Hl. lra.
  - unfold generateTerrain.
    match goal with |- context [generateSegments ?n 0 ?s] =>
      destruct (generateSegments_terrain (-100) n 0 s) as [[_ Hall] _]
    end.
    + unfold HILL_SEGMENT_WIDTH. lra.
    + rewrite Ht. split; constructor.
    + rewrite Ht. constructor.
    + eapply Forall_impl; [|exact Hall]. cbn. intros p Hp. lra.
Qed.

Lemma tick_tidy (k : Keys.t) (s s' : Game) :
  tick k s = Some s' ->
  tidy s
  /\ Forall (fun q => World.terrainOffset (world s) - 100 <= Segment.x q)
       (World.terrain (world s)) ->
  tidy s'
  /\ Forall (fun q => World.terrainOffset (world s') - 100 <= Segment.x q)
       (World.terrain (world s')).
Proof.
  intros Ht H.
  destruct (tick_cases _ _ _ Ht) as [[_ ->] | (_ & m & Hu & ->)]; [exact H|].
  destruct H as [[Hs He] _].
  destruct (updatePhysics_scroll (with_keys k s)) as (Pw & Pt & [Po _] & _).
  simpl_fields_in Pw. simpl_fields_in Pt. simpl_fields_in Po.
  destruct (updateTerrain_tidy _ _ Hu) as [[Ms Me] Mf].
  { split.
    - rewrite Pt. exact Hs.
    - intros last Hl. unfold lastSegment, leadingEdge in *.
      rewrite Pt in Hl. rewrite Pw. specialize (He last Hl).
      unfold leadingEdge in He. lra. }
  destruct (checkPickups_eq m) as ((Cw & _) & _ & Cworld).
  destruct (finishFrame_frame (checkPickups m))
    as (Fw & _ & _ & _ & Fworld & _).
  unfold tidy, endsWithin, lastSegment, leadingEdge in *.
  rewrite Fworld, Cworld, Fw, Cw. simpl_fields.
  repeat split; assumption.
Qed.



(** ** What is left of the pickups *)

Lemma filter_marked_boosts (behind reach cx cy : R) (l : list Boost.t) :
  filter (keptBoost behind) (map (markBoost reach cx cy) l)
  = filter
      (fun b =>
         keptBoost behind b
         && negb (within reach (Boost.x b) (Boost.y b) cx cy)) l.
Proof.
  induction l as [|p l IH]; [reflexivity|]. cbn [map filter].
  rewrite IH. unfold markBoost, keptBoost.
  destruct (Boost.collected p) eqn:Hc; cbn [negb andb].
  - rewrite Hc. reflexivity.
  - destruct (within reach (Boost.x p) (Boost.y p) cx cy); cbn.
    + now rewrite andb_false_r.
    + rewrite Hc, andb_true_r. reflexivity.
Qed.

(** X12.  checkPickups keeps of each of the three lists exactly the
    entries that were not collected before, lie past terrainOffset - 200
    and are out of reach of the car (farther than the collision radius
    plus 10 for fuel and coins, plus 15 for boosts), in their order; it
    leaves the terrain, the bridges and terrainOffset as they were. *)
Theorem pickups_left_are_out_of_reach (s : Game) :
  let cx := Car.x (car s) + World.terrainOffset (world s) in
  let cy := Car.y (car s) in
  let reach := Rmax (Car.width (car s)) (Car.height (car s)) * 0.6 in
  let behind := World.terrainOffset (world s) - PICKUP_CLEAR_BEHIND in
  World.fuelPickups (world (checkPickups s))
  = filter
      (fun p =>
         negb (Pickup.collected p) && (Pickup.x p >? behind)
         && negb (within (reach + 10) (Pickup.x p) (Pickup.y p) cx cy))
      (World.fuelPickups (world s))
  /\ World.coins (world (checkPickups s))
     = filter
         (fun p =>
            negb (Pickup.collected p) && (Pickup.x p >? behind)
            && negb (within (reach + 10) (Pickup.x p) (Pickup.y p) cx cy))
         (World.coins (world s))
  /\ World.boosts (world (checkPickups s))
     = filter
         (fun b =>
            negb (Boost.collected b) && (Boost.x b >? behind)
            && negb (within (reach + 15) (Boost.x b) (Boost.y b) cx cy))
         (World.boosts (world s))
  /\ World.terrain (world (checkPickups s)) = World.terrain (world s)
  /\ World.bridges (world (checkPickups s)) = World.bridges (world s)
  /\ World.terrainOffset (world (checkPickups s))
     = World.terrainOffset (world s).
Proof.
  cbv zeta. destruct (checkPickups_eq s) as (_ & _ & ->). simpl_fields.
  rewrite !filter_marked, filter_marked_boosts.
  repeat split.
Qed.

(** ** Counting what is collected *)

Lemma createParticles_particles (x y : R) (color : string) (count : nat)
  (s : Game) :
  List.length (particles (createParticles x y color count s))
  = (List.length (particles s) + count)%nat
  /\ clock (createParticles x y color count s) = clock s.
Proof.
  revert s. induction count as [|count IH]; intros s; cbn [createParticles].
  - split; [lia | reflexivity].
  - unfold Math_random. simpl_fields.
    match goal with
    | |- context [createParticles x y color count ?s1] =>
        destruct (IH s1) as [-> ->]
    end.
    simpl_fields. rewrite length_app. cbn [List.length]. split; [lia|reflexivity].
Qed.

Lemma collectFuel_tally (cx cy cr : R) (l : list Pickup.t) (s : Game) :
  let s' := snd (collectFuel cx cy cr l s) in
  let n := List.length (filter (reachable cx cy cr) l) in
  Run.coinCount (run s') = Run.coinCount (run s)
  /\ List.length (particles s') = (List.length (particles s) + 8 * n)%nat
  /\ clock s' = clock s
  /\ Run.boostActive (run s') = Run.boostActive (run s)
  /\ Run.boostEndTime (run s') = Run.boostEndTime (run s).
Proof.
  cbv zeta. revert s.
  induction l as [|p l IH]; intros s; cbn [collectFuel filter].
  - repeat split. cbn. lia.
  - assert (Hr : reachable cx cy cr p
                 = negb (Pickup.collected p)
                   && within (cr + 10) (Pickup.x p) (Pickup.y p) cx cy)
      by reflexivity.
    rewrite Hr. clear Hr.
    destruct (Pickup.collected p); cbn [negb andb];
      [|destruct (within (cr + 10) (Pickup.x p) (Pickup.y p) cx cy)];
      cbn [negb andb];
      match goal with
      | |- context [collectFuel cx cy cr l ?s1] =>
          specialize (IH s1); destruct (collectFuel cx cy cr l s1)
      end; cbn [snd] in *; try exact IH.
    destruct IH as (-> & -> & -> & -> & ->).
    rewrite createParticles_run.
    match goal with
    | |- context [createParticles ?x ?y ?c 8 ?s1] =>
        destruct (createParticles_particles x y c 8 s1) as [-> ->]
    end.
    simpl_fields. cbn [List.length]. repeat split. lia.
Qed.

Lemma collectCoins_tally (cx cy cr : R) (l : list Pickup.t) (s : Game) :
  let s' := snd (collectCoins cx cy cr l s) in
  let n := List.length (filter (reachable cx cy cr) l) in
  Run.coinCount (run s') = Run.coinCount (run s) + INR n
  /\ List.length (particles s') = (List.length (particles s) + 10 * n)%nat
  /\ clock s' = clock s
  /\ Run.boostActive (run s') = Run.boostActive (run s)
  /\ Run.boostEndTime (run s') = Run.boostEndTime (run s).
Proof.
  cbv zeta. revert s.
  induction l as [|p l IH]; intros s; cbn [collectCoins filter].
  - repeat split; cbn; try lra; lia.
  - assert (Hr : reachable cx cy cr p
                 = negb (Pickup.collected p)
                   && within (cr + 10) (Pickup.x p) (Pickup.y p) cx cy)
      by reflexivity.
    rewrite Hr. clear Hr.
    destruct (Pickup.collected p); cbn [negb andb];
      [|destruct (within (cr + 10) (Pickup.x p) (Pickup.y p) cx cy)];
      cbn [negb andb];
      match goal with
      | |- context [collectCoins cx cy cr l ?s1] =>
          specialize (IH s1); destruct (collectCoins cx cy cr l s1)
      end; cbn [snd] in *; try exact IH.
    destruct IH as (-> & -> & -> & -> & ->).
    rewrite createParticles_run.
    match goal with
    | |- context [createParticles ?x ?y ?c 10 ?s1] =>
        destruct (createParticles_particles x y c 10 s1) as [-> ->]
    end.
    simpl_fields. cbn [List.length]. rewrite S_INR. repeat split; try lra. lia.
Qed.

Lemma collectBoosts_tally (cx cy cr : R) (l : list Boost.t) (s : Game) :
  let s' := snd (collectBoosts cx cy cr l s) in
  let n := List.length (filter (boostReachable cx cy cr) l) in
  Run.coinCount (run s') = Run.coinCount (run s)
  /\ List.length (particles s') = (List.length (particles s) + 15 * n)%nat
  /\ (forall i, clock s' i = clock s (i + n)%nat)
  /\ (n = O ->
      Run.boostActive (run s') = Run.boostActive (run s)
      /\ Run.boostEndTime (run s') = Run.boostEndTime (run s))
  /\ (n <> O ->
      Run.boostActive (run s') = true
      /\ Run.boostEndTime (run s') = clock s (n - 1)%nat + BOOST_DURATION).
Proof.
  cbv zeta. revert s.
  induction l as [|p l IH]; intros s; cbn [collectBoosts filter].
  - cbn [filter List.length snd]. split; [reflexivity|]. split; [lia|].
    split; [intros i; now rewrite Nat.add_0_r|].
    split; [intros _; split; reflexivity | congruence].
  - assert (Hr : boostReachable cx cy cr p
                 = negb (Boost.collected p)
                   && within (cr + 15) (Boost.x p) (Boost.y p) cx cy)
      by reflexivity.
    rewrite Hr. clear Hr.
    destruct (Boost.collected p); cbn [negb andb];
      [|destruct (within (cr + 15) (Boost.x p) (Boost.y p) cx cy)];
      cbn [negb andb];
      match goal with
      | |- context [collectBoosts cx cy cr l ?s1] =>
          specialize (IH s1); destruct (collectBoosts cx cy cr l s1)
      end; cbn [snd] in *; try exact IH.
    destruct IH as (-> & -> & Hc & H0 & H1).
    rewrite createParticles_run in *.
    match goal with
    | |- context [createParticles ?x ?y ?c 15 ?s1] =>
        destruct (createParticles_particles x y c 15 s1) as [Hp Hcl]
    end.
    rewrite Hp in *. rewrite Hcl in *. clear Hp Hcl.
    unfold activateBoost, Date_now in *. simpl_fields.
    simpl_fields_in Hc. simpl_fields_in H0. simpl_fields_in H1.
    cbn [List.length].
    set (n := List.length (filter (boostReachable cx cy cr) l)) in *.
    split; [reflexivity|]. split; [lia|]. split; [|split].
    + intros i. rewrite Hc. f_equal. lia.
    + discriminate.
    + intros _. destruct n as [|n'] eqn:En.
      * destruct (H0 eq_refl) as [-> ->]. split; [reflexivity|].
        cbn. reflexivity.
      * destruct H1 as [-> ->]; [discriminate|]. split; [reflexivity|].
        do 2 f_equal. lia.
Qed.

Lemma checkPickups_tally (s : Game) :
  let s' := checkPickups s in
  let nf := List.length (fuelCollected s) in
  let nc := List.length (coinsCollected s) in
  let nb := List.length (boostsCollected s) in
  Run.coinCount (run s') = Run.coinCount (run s) + INR nc
  /\ List.length (particles s')
     = (List.length (particles s) + 8 * nf + 10 * nc + 15 * nb)%nat
  /\ (forall i, clock s' i = clock s (i + nb)%nat)
  /\ (nb = O ->
      Run.boostActive (run s') = Run.boostActive (run s)
      /\ Run.boostEndTime (run s') = Run.boostEndTime (run s))
  /\ (nb <> O ->
      Run.boostActive (run s') = true
      /\ Run.boostEndTime (run s') = clock s (nb - 1)%nat + BOOST_DURATION).
Proof.
  cbv zeta. unfold fuelCollected, coinsCollected, boostsCollected, checkPickups.
  fold (carWorldX s) (carRadius s).
  set (cx := carWorldX s). set (cy := Car.y (car s)). set (cr := carRadius s).
  destruct (collectFuel_spec cx cy cr (World.fuelPickups (world s)) s)
    as [_ (_ & _ & _ & _ & Fworld & _)].
  pose proof (collectFuel_tally cx cy cr (World.fuelPickups (world s)) s)
    as (F1 & F2 & F3 & F4 & F5).
  destruct (collectFuel cx cy cr (World.fuelPickups (world s)) s)
    as [fuelPickups s1]. cbn [fst snd] in *.
  set (s2 := with_world (World.set_fuelPickups fuelPickups) s1).
  assert (Hcoins : World.coins (world s2) = World.coins (world s))
    by (subst s2; simpl_fields; now rewrite Fworld).
  rewrite Hcoins.
  destruct (collectCoins_spec cx cy cr (World.coins (world s)) s2)
    as (_ & (_ & _ & _ & _ & Cworld & _) & _).
  pose proof (collectCoins_tally cx cy cr (World.coins (world s)) s2)
    as (C1 & C2 & C3 & C4 & C5).
  destruct (collectCoins cx cy cr (World.coins (world s)) s2)
    as [coins s3]. cbn [fst snd] in *.
  set (s4 := with_world (World.set_coins coins) s3).
  assert (Hboosts : World.boosts (world s4) = World.boosts (world s)).
  { subst s4. simpl_fields. rewrite Cworld. subst s2. simpl_fields.
    now rewrite Fworld. }
  rewrite Hboosts.
  pose proof (collectBoosts_tally cx cy cr (World.boosts (world s)) s4)
    as (B1 & B2 & B3 & B4 & B5).
  destruct (collectBoosts cx cy cr (World.boosts (world s)) s4)
    as [boosts s5]. cbn [fst snd] in *.
  subst s2 s4. simpl_fields.
  simpl_fields_in C1. simpl_fields_in C2. simpl_fields_in C3.
  simpl_fields_in C4. simpl_fields_in C5.
  simpl_fields_in B1. simpl_fields_in B2. simpl_fields_in B3.
  simpl_fields_in B4. simpl_fields_in B5.
  split; [congruence|]. split; [lia|]. split; [|split].
  - intros i. rewrite B3, C3, F3. reflexivity.
  - intros H. destruct (B4 H) as [-> ->]. split; congruence.
  - intros H. destruct (B5 H) as [-> ->]. split; [reflexivity|].
    now rewrite C3, F3.
Qed.

(** X13.  checkPickups adds 1 to coinCount for each uncollected coin
    within reach and adds 8 particles for each fuel pickup, 10 for each
    coin and 15 for each boost it collects; it changes neither the score
    nor the car. *)
Theorem collecting_counts_each_pickup_once (s : Game) :
  let cx := Car.x (car s) + World.terrainOffset (world s) in
  let cy := Car.y (car s) in
  let reach := Rmax (Car.width (car s)) (Car.height (car s)) * 0.6 in
  let hit (p : Pickup.t) :=
    negb (Pickup.collected p)
    && within (reach + 10) (Pickup.x p) (Pickup.y p) cx cy in
  let hitBoost (b : Boost.t) :=
    negb (Boost.collected b)
    && within (reach + 15) (Boost.x b) (Boost.y b) cx cy in
  let nf := List.length (filter hit (World.fuelPickups (world s))) in
  let nc := List.length (filter hit (World.coins (world s))) in
  let nb := List.length (filter hitBoost (World.boosts (world s))) in
  Run.coinCount (run (checkPickups s)) = Run.coinCount (run s) + INR nc
  /\ List.length (particles (checkPickups s))
     = (List.length (particles s) + 8 * nf + 10 * nc + 15 * nb)%nat
  /\ Run.score (run (checkPickups s)) = Run.score (run s)
  /\ car (checkPickups s) = car s.
Proof.
  cbv zeta.
  destruct (checkPickups_tally s) as (H1 & H2 & _).
  destruct (checkPickups_eq s) as ((_ & Hc & _ & _ & _ & _ & Hs & _) & _).
  repeat split; assumption.
Qed.

(** ** The duration of a boost *)

Lemma updateBoost_eq (s : Game) :
  Run.boostActive (run (updateBoost s))
  = Run.boostActive (run s) && (clock s 0 <? Run.boostEndTime (run s))
  /\ Run.boostEndTime (run (updateBoost s)) = Run.boostEndTime (run s).
Proof.
  unfold updateBoost, Date_now.
  destruct (Run.boostActive (run s)) eqn:Ha; simpl_fields;
    [|split; [exact Ha | reflexivity]].
  destruct (Run.boostEndTime (run s) - clock s 0 <=? 0) eqn:Hr; simpl_fields.
  - apply leb_true in Hr. split; [|reflexivity].
    symmetry. apply ltb_false. lra.
  - apply leb_false in Hr. split; [|reflexivity].
    rewrite Ha. symmetry. apply ltb_true. lra.
Qed.

(** X14.  If checkPickups collects no boost it leaves boostActive and
    boostEndTime alone; if it collects some, boost is active and ends
    3000 ms after the clock reading taken for the last of them.
    updateBoost keeps boost active only while the clock is before
    boostEndTime and never changes boostEndTime. *)
Theorem boost_lasts_for_its_duration (s : Game) :
  let cx := Car.x (car s) + World.terrainOffset (world s) in
  let cy := Car.y (car s) in
  let reach := Rmax (Car.width (car s)) (Car.height (car s)) * 0.6 in
  let hitBoost (b : Boost.t) :=
    negb (Boost.collected b)
    && within (reach + 15) (Boost.x b) (Boost.y b) cx cy in
  let nb := List.length (filter hitBoost (World.boosts (world s))) in
  (nb = O ->
   Run.boostActive (run (checkPickups s)) = Run.boostActive (run s)
   /\ Run.boostEndTime (run (checkPickups s)) = Run.boostEndTime (run s))
  /\ (nb <> O ->
      Run.boostActive (run (checkPickups s)) = true
      /\ Run.boostEndTime (run (checkPickups s))
         = clock s (nb - 1)%nat + BOOST_DURATION
      /\ Run.boostActive (run (updateBoost (checkPickups s)))
         = (clock s nb <? clock s (nb - 1)%nat + BOOST_DURATION))
  /\ (forall m,
         Run.boostActive (run (updateBoost m))
         = Run.boostActive (run m) && (clock m 0 <? Run.boostEndTime (run m))
         /\ Run.boostEndTime (run (updateBoost m)) = Run.boostEndTime (run m)).
Proof.
  cbv zeta.
  destruct (checkPickups_tally s) as (_ & _ & Hc & H0 & H1).
  split; [exact H0|]. split; [|exact updateBoost_eq].
  intros H. destruct (H1 H) as [Ha He]. split; [exact Ha|].
  split; [exact He|].
  destruct (updateBoost_eq (checkPickups s)) as [-> _].
  rewrite Ha, He, Hc. reflexivity.
Qed.

(** ** Particles *)

Lemma stepParticles_app (l1 l2 : list Particle.t) :
  stepParticles (l1 ++ l2) = stepParticles l1 ++ stepParticles l2.
Proof.
  induction l1 as [|p l1 IH]; [reflexivity|]. cbn [app stepParticles].
  rewrite IH. destruct (_ <=? 0); reflexivity.
Qed.

Lemma stepParticles_flat_map (l : list Particle.t) :
  stepParticles l = flat_map (remains 1) l.
Proof.
  induction l as [|p l IH]; [reflexivity|]. cbn [stepParticles flat_map].
  rewrite IH. unfold remains, aged. cbn [INR].
  cbn [Particle.life].
  destruct (Particle.life p - 0.02 <=? 0) eqn:H.
  - apply leb_true in H. rewrite (proj2 (gtb_false _ _)) by lra. reflexivity.
  - apply leb_false in H. rewrite (proj2 (gtb_true _ _)) by lra.
    cbn [app]. f_equal. destruct p; cbn. f_equal; lra.
Qed.

Lemma remains_step (n : nat) (p : Particle.t) :
  stepParticles (remains n p) = remains (S n) p.
Proof.
  unfold remains. rewrite S_INR.
  destruct (Particle.life p - 0.02 * INR n >? 0) eqn:H.
  - apply gtb_true in H. cbn [stepParticles]. cbn [aged Particle.life].
    destruct (Particle.life p - 0.02 * INR n - 0.02 <=? 0) eqn:H1.
    + apply leb_true in H1. rewrite (proj2 (gtb_false _ _)) by lra.
      reflexivity.
    + apply leb_false in H1. rewrite (proj2 (gtb_true _ _)) by lra.
      f_equal. unfold aged. rewrite S_INR. cbn. f_equal; lra.
  - apply gtb_false in H. pose proof (pos_INR n).
    rewrite (proj2 (gtb_false _ _)) by lra. reflexivity.
Qed.

Lemma stepParticles_iter (n : nat) (l : list Particle.t) :
  Nat.iter (S n) stepParticles l = flat_map (remains (S n)) l.
Proof.
  induction n as [|n IH].
  - apply stepParticles_flat_map.
  - rewrite Nat.iter_succ, IH. clear IH.
    induction l as [|p l IHl]; [reflexivity|].
    cbn [flat_map]. rewrite stepParticles_app, IHl, remains_step.
    reflexivity.
Qed.

Lemma updateParticles_iter (n : nat) (s : Game) :
  particles (Nat.iter n updateParticles s)
  = Nat.iter n stepParticles (particles s).
Proof.
  induction n as [|n IH]; [reflexivity|].
  rewrite !Nat.iter_succ. unfold updateParticles at 1. simpl_fields.
  now rewrite IH.
Qed.

Lemma createParticles_life (x y : R) (color : string) (count : nat)
  (s : Game) :
  exists new,
    particles (createParticles x y color count s) = particles s ++ new
    /\ List.length new = count
    /\ Forall
         (fun p =>
            Particle.life p = 1 /\ Particle.x p = x /\ Particle.y p = y
            /\ Particle.color p = color)
         new.
Proof.
  revert s. induction count as [|count IH]; intros s; cbn [createParticles].
  - exists []. rewrite app_nil_r. repeat split. constructor.
  - unfold Math_random. simpl_fields.
    match goal with
    | |- context [createParticles x y color count ?s1] =>
        destruct (IH s1) as (new & -> & Hn & Hall)
    end.
    simpl_fields. rewrite <- app_assoc. eexists. split; [reflexivity|].
    split; [cbn; now rewrite Hn|].
    constructor; [cbn; repeat split | exact Hall].
Qed.

Lemma fresh_remains (n : nat) (l : list Particle.t) :
  (S n < 50)%nat ->
  Forall (fun p => Particle.life p = 1) l ->
  map keepsake (flat_map (remains (S n)) l) = map keepsake l.
Proof.
  intros Hn Hl.
  assert (Hb : INR (S n) <= 49).
  { replace 49 with (INR 49) by (rewrite INR_IZR_INZ; reflexivity).
    apply le_INR. lia. }
  induction Hl as [|p l Hp Hl IH]; [reflexivity|].
  cbn [flat_map]. rewrite map_app, IH. unfold remains at 1.
  rewrite (proj2 (gtb_true _ _)) by lra. reflexivity.
Qed.

(** X15.  Particles of life 1, as createParticles makes them, are all
    still there after n < 50 calls of updateParticles, in their order
    and with their horizontal speed, colour and size; particles of life
    at most 1 are all gone after 50 calls.  createParticles appends
    count particles of life 1 at the given place and colour. *)
Theorem particles_last_50_updates (s : Game) :
  (forall n,
      (n < 50)%nat ->
      Forall (fun p => Particle.life p = 1) (particles s) ->
      map keepsake (particles (Nat.iter n updateParticles s))
      = map keepsake (particles s))
  /\ (Forall (fun p => Particle.life p <= 1) (particles s) ->
      particles (Nat.iter 50 updateParticles s) = [])
  /\ (forall x y color count,
         exists new,
           particles (createParticles x y color count s) = particles s ++ new
           /\ List.length new = count
           /\ Forall
                (fun p =>
                   Particle.life p = 1 /\ Particle.x p = x
                   /\ Particle.y p = y /\ Particle.color p = color)
                new).
Proof.
  split; [|split].
  - intros [|n] Hn Hl; [reflexivity|].
    rewrite updateParticles_iter, stepParticles_iter.
    now apply fresh_remains.
  - intros Hl. rewrite updateParticles_iter, (stepParticles_iter 49).
    induction Hl as [|p l Hp Hl IH]; [reflexivity|].
    cbn [flat_map]. rewrite IH, app_nil_r. unfold remains.
    replace (INR 50) with 50 by (cbn; lra).
    rewrite (proj2 (gtb_false _ _)) by lra. reflexivity.
  - intros x y color count. apply createParticles_life.
Qed.

Lemma particles_last_50_updates_witness :
  List.length
    (particles (Nat.iter 49 updateParticles
                  (createParticles 10 20 "#FFD700" 10
                     (with_particles [] strandedInAir)))) = 10%nat
  /\ particles (Nat.iter 50 updateParticles
                  (createParticles 10 20 "#FFD700" 10
                     (with_particles [] strandedInAir))) = [].
Proof.
  set (s := createParticles 10 20 "#FFD700" 10
              (with_particles [] strandedInAir)).
  destruct (createParticles_life 10 20 "#FFD700" 10
              (with_particles [] strandedInAir))
    as (new & Hp & Hn & Hall).
  fold s in Hp. cbn [particles with_particles app] in Hp.
  destruct (particles_last_50_updates s) as (H49 & H50 & _).
  split.
  - rewrite <- (length_map keepsake), (H49 49%nat); [|lia|].
    + now rewrite length_map, Hp.
    + rewrite Hp. eapply Forall_impl; [|exact Hall]. cbn. now intros p [H _].
  - apply H50. rewrite Hp.
    eapply Forall_impl; [|exact Hall]. cbn. intros p (-> & _). lra.
Defined.

(** ** Keys and touches *)

Lemma toLowerCase_idem (s : string) :
  toLowerCase (toLowerCase s) = toLowerCase s.
Proof.
  induction s as [|c s IH]; [reflexivity|]. cbn [toLowerCase].
  rewrite IH. f_equal.
  destruct c as [[] [] [] [] [] [] [] []]; reflexivity.
Qed.

Lemma assignKey_state (v : bool) (key : string) (s : Game) :
  simulationState (assignKey v key s) = simulationState s.
Proof.
  unfold assignKey, set_forward, set_backward, set_brake, simulationState.
  cbv zeta. repeat destruct (_ || _); destruct (_ =? _)%string; reflexivity.
Qed.

Lemma assignKey_twice (v w : bool) (key : string) (s : Game) :
  assignKey w key (assignKey v key s) = assignKey w key s.
Proof.
  unfold assignKey, set_forward, set_backward, set_brake. cbv zeta.
  destruct s as [cw c k r wo sp pa ra cl]. destruct k.
  repeat destruct (_ || _); destruct (_ =? _)%string; reflexivity.
Qed.

(** X16.  Releasing a key after pressing it leaves the key intents as
    releasing alone would, pressing twice is pressing once, the case of
    the key name does not matter, and neither listener touches anything
    but the key intents. Lifting a finger after touching a button leaves
    the state as lifting alone would. *)
Theorem release_undoes_press (key : string) (s : Game) :
  keyup key (keydown key s) = keyup key s
  /\ keydown key (keydown key s) = keydown key s
  /\ keydown (toLowerCase key) s = keydown key s
  /\ keyup (toLowerCase key) s = keyup key s
  /\ simulationState (keydown key s) = simulationState s
  /\ simulationState (keyup key s) = simulationState s
  /\ (forall b, touchend b (touchstart b s) = touchend b s).
Proof.
  unfold keyup, keydown.
  assert (Hk : forall v, assignKey v (toLowerCase key) s = assignKey v key s).
  { intros v. unfold assignKey. now rewrite toLowerCase_idem. }
  assert (Hp : forall v, Run.gameState (run (assignKey v key s))
                         = Run.gameState (run s)).
  { intros v. pose proof (assignKey_state v key s) as H.
    unfold simulationState in H. congruence. }
  assert (Hb : forall b, touchend b (touchstart b s) = touchend b s)
    by (intros b; destruct b; reflexivity).
  destruct (negb (is_playing (Run.gameState (run s)))) eqn:Hplay.
  - rewrite Hplay.
    repeat split; try reflexivity; try apply Hk; try apply assignKey_state;
      apply Hb.
  - rewrite Hp, Hplay. repeat split; try apply assignKey_twice;
      try apply Hk; try apply assignKey_state; apply Hb.
Qed.

(** X17.  While no run is in progress a key press changes nothing and a
    key release can only clear intents, but a touch on a button still
    sets its intent; the frame after such a touch changes nothing, and
    the touch leaves everything but the key intents alone. *)
Theorem presses_wait_for_a_run (key : string) (b : Button) (s : Game) :
  Run.gameState (run s) <> playing ->
  keydown key s = s
  /\ (Keys.forward (keys (keyup key s)) = true ->
      Keys.forward (keys s) = true)
  /\ (Keys.backward (keys (keyup key s)) = true ->
      Keys.backward (keys s) = true)
  /\ (Keys.brake (keys (keyup key s)) = true -> Keys.brake (keys s) = true)
  /\ (Keys.forward (keys (touchstart btnForward s)) = true
      /\ Keys.backward (keys (touchstart btnReverse s)) = true
      /\ Keys.brake (keys (touchstart btnBrake s)) = true)
  /\ gameLoop (touchstart b s) = Some (touchstart b s)
  /\ simulationState (touchstart b s) = simulationState s.
Proof.
  intros Hn. split; [|split; [|split; [|split; [|split; [|split]]]]].
  - unfold keydown. destruct (Run.gameState (run s)); cbn; congruence.
  - unfold keyup, assignKey, set_forward, set_backward, set_brake. cbv zeta.
    repeat destruct (_ || _); destruct (_ =? _)%string; simpl_fields;
      congruence.
  - unfold keyup, assignKey, set_forward, set_backward, set_brake. cbv zeta.
    repeat destruct (_ || _); destruct (_ =? _)%string; simpl_fields;
      congruence.
  - unfold keyup, assignKey, set_forward, set_backward, set_brake. cbv zeta.
    repeat destruct (_ || _); destruct (_ =? _)%string; simpl_fields;
      congruence.
  - repeat split.
  - apply gameLoop_not_playing. destruct b; exact Hn.
  - destruct b; reflexivity.
Qed.

Lemma presses_wait_for_a_run_witness :
  keydown "d" stoppedRun = stoppedRun
  /\ (Keys.forward (keys (keyup "d" stoppedRun)) = true ->
      Keys.forward (keys stoppedRun) = true)
  /\ (Keys.backward (keys (keyup "d" stoppedRun)) = true ->
      Keys.backward (keys stoppedRun) = true)
  /\ (Keys.brake (keys (keyup "d" stoppedRun)) = true ->
      Keys.brake (keys stoppedRun) = true)
  /\ (Keys.forward (keys (touchstart btnForward stoppedRun)) = true
      /\ Keys.backward (keys (touchstart btnReverse stoppedRun)) = true
      /\ Keys.brake (keys (touchstart btnBrake stoppedRun)) = true)
  /\ gameLoop (touchstart btnBrake stoppedRun)
     = Some (touchstart btnBrake stoppedRun)
  /\ simulationState (touchstart btnBrake stoppedRun)
     = simulationState stoppedRun.
Proof.
  apply (presses_wait_for_a_run "d" btnBrake stoppedRun).
  cbn. discriminate.
Defined.

(** ** Colours *)

Lemma hexDigit_range (c : ascii) (d : Z) :
  hexDigit c = Some d -> (0 <= d <= 15)%Z.
Proof.
  unfold hexDigit. cbv zeta.
  set (n := Z.of_nat (nat_of_ascii c)). clearbody n.
  destruct ((48 <=? n)%Z && (n <=? 57)%Z) eqn:H1;
    [|destruct ((97 <=? n)%Z && (n <=? 102)%Z) eqn:H2;
      [|destruct ((65 <=? n)%Z && (n <=? 70)%Z) eqn:H3]];
    intros [= <-];
    match goal with
    | H : (_ && _) = true |- _ =>
        apply andb_true_iff in H as [A B]; apply Z.leb_le in A;
        apply Z.leb_le in B; lia
    end.
Qed.

Lemma parseHexPair_range (c1 c2 : ascii) (v : Z) :
  parseHexPair c1 c2 = Some v -> (0 <= v <= 255)%Z.
Proof.
  unfold parseHexPair.
  destruct (hexDigit c1) as [h|] eqn:H1; [|discriminate].
  destruct (hexDigit c2) as [l|] eqn:H2; [|discriminate].
  apply hexDigit_range in H1. apply hexDigit_range in H2.
  intros H. assert (Hv : v = (16 * h + l)%Z) by congruence. lia.
Qed.

Lemma hexDigit_lowerCase (c : ascii) : hexDigit (lowerCase c) = hexDigit c.
Proof. destruct c as [[] [] [] [] [] [] [] []]; reflexivity. Qed.

Lemma lowerCase_hash (c : ascii) :
  (lowerCase c =? "#")%char = (c =? "#")%char.
Proof. destruct c as [[] [] [] [] [] [] [] []]; reflexivity. Qed.

Lemma parseHexPair_lowerCase (c1 c2 : ascii) :
  parseHexPair (lowerCase c1) (lowerCase c2) = parseHexPair c1 c2.
Proof. unfold parseHexPair. now rewrite !hexDigit_lowerCase. Qed.

Lemma hexToRgb_eq (hex : string) :
  hexToRgb hex
  = sixDigits
      match hex with
      | String c rest => if (c =? "#")%char then rest else hex
      | EmptyString => hex
      end.
Proof. reflexivity. Qed.

Lemma sixDigits_length (digits : string) :
  String.length digits <> 6%nat -> sixDigits digits = black.
Proof.
  destruct digits as [|c1 [|c2 [|c3 [|c4 [|c5 [|c6 [|c7 rest]]]]]]];
    cbn; try reflexivity; congruence.
Qed.

Lemma sixDigits_lowerCase (digits : string) :
  sixDigits (toLowerCase digits) = sixDigits digits.
Proof.
  destruct digits as [|c1 [|c2 [|c3 [|c4 [|c5 [|c6 [|c7 rest]]]]]]];
    try reflexivity.
  cbn [toLowerCase sixDigits]. now rewrite !parseHexPair_lowerCase.
Qed.

Lemma sixDigits_range (digits : string) : channelsIn 0 255 (sixDigits digits).
Proof.
  destruct digits as [|c1 [|c2 [|c3 [|c4 [|c5 [|c6 [|c7 rest]]]]]]];
    try (unfold channelsIn, black; cbn; lia).
  cbn [sixDigits].
  destruct (parseHexPair c1 c2) as [r|] eqn:Hr;
    [|unfold channelsIn, black; cbn; lia].
  destruct (parseHexPair c3 c4) as [g|] eqn:Hg;
    [|unfold channelsIn, black; cbn; lia].
  destruct (parseHexPair c5 c6) as [b|] eqn:Hb;
    [|unfold channelsIn, black; cbn; lia].
  apply parseHexPair_range in Hr. apply parseHexPair_range in Hg.
  apply parseHexPair_range in Hb. unfold channelsIn. cbn. lia.
Qed.

Lemma hexToRgb_range (hex : string) : channelsIn 0 255 (hexToRgb hex).
Proof. rewrite hexToRgb_eq. apply sixDigits_range. Qed.

(** X18.  hexToRgb returns channels between 0 and 255; it returns black
    (0, 0, 0) for every string whose length is neither 6 nor 7; the case
    of the digits does not matter; a leading # may be left out. For
    example #87CEEB gives (135, 206, 235) and the short form #fff gives
    black. *)
Theorem hexToRgb_reads_six_digits_or_black (hex : string) :
  ((0 <= Rgb.r (hexToRgb hex) <= 255)%Z
   /\ (0 <= Rgb.g (hexToRgb hex) <= 255)%Z
   /\ (0 <= Rgb.b (hexToRgb hex) <= 255)%Z)
  /\ (String.length hex <> 6%nat -> String.length hex <> 7%nat ->
      hexToRgb hex = {| Rgb.r := 0; Rgb.g := 0; Rgb.b := 0 |})
  /\ hexToRgb (toLowerCase hex) = hexToRgb hex
  /\ (forall c rest,
         hex = String c rest -> c <> "#"%char ->
         hexToRgb (String "#" hex) = hexToRgb hex)
  /\ hexToRgb "#87CEEB" = {| Rgb.r := 135; Rgb.g := 206; Rgb.b := 235 |}
  /\ hexToRgb "#fff" = {| Rgb.r := 0; Rgb.g := 0; Rgb.b := 0 |}.
Proof.
  split; [|split; [|split; [|split; [|split; reflexivity]]]].
  - rewrite hexToRgb_eq. apply sixDigits_range.
  - intros H6 H7. rewrite hexToRgb_eq. apply sixDigits_length.
    destruct hex as [|c rest]; [exact H6|].
    destruct (c =? "#")%char; [|exact H6].
    cbn [String.length] in H7. congruence.
  - rewrite !hexToRgb_eq. destruct hex as [|c rest]; [reflexivity|].
    cbn [toLowerCase]. rewrite lowerCase_hash.
    destruct (c =? "#")%char; [apply sixDigits_lowerCase|].
    apply (sixDigits_lowerCase (String c rest)).
  - intros c rest -> Hc. rewrite !hexToRgb_eq.
    apply Ascii.eqb_neq in Hc. now rewrite Hc.
Qed.

Lemma Math_round_whole (z : Z) : Math_round (IZR z) = z.
Proof. unfold Math_round. apply Zfloor_eq. lra. Qed.

Lemma Math_round_between (lo hi : Z) (x : R) :
  IZR lo <= x <= IZR hi -> (lo <= Math_round x <= hi)%Z.
Proof.
  intros [Hl Hh]. unfold Math_round. split.
  - apply Zfloor_lub. lra.
  - pose proof (Zfloor_bound (x + 0.5)) as [Hb _].
    assert (H : IZR (Zfloor (x + 0.5)) < IZR (hi + 1))
      by (rewrite plus_IZR; lra).
    apply lt_IZR in H. lia.
Qed.

Lemma lerp_between (a b : Z) (t : R) :
  0 <= t <= 1 ->
  (Z.min a b <= Math_round (IZR a + (IZR b - IZR a) * t) <= Z.max a b)%Z.
Proof.
  intros Ht. apply Math_round_between.
  destruct (Z.le_ge_cases a b) as [H|H].
  - rewrite Z.min_l, Z.max_r by lia. apply IZR_le in H. nra.
  - rewrite Z.min_r, Z.max_l by lia. apply IZR_le in H. nra.
Qed.

Lemma sixDigits_rgbText (r g b : Z) : sixDigits (rgbText r g b) = black.
Proof.
  unfold rgbText. cbn [append].
  match goal with
  | |- sixDigits (String _ (String _ (String _ (String _ ?x)))) = _ =>
      destruct x as [|c5 [|c6 [|c7 rest]]]; reflexivity
  end.
Qed.

(** X19.  lerpColor gives the text of the first colour at t = 0, of the
    second at t = 1, and of the colour itself when both ends are the
    same; for t from 0 to 1 each channel lies between the channels of
    the two ends, so between 0 and 255. Its result is never a colour
    that hexToRgb can read back (that gives black). For example halfway
    between #87CEEB and #FFB347 is rgb(195, 193, 153). *)
Theorem lerpColor_runs_between_its_ends (color1 color2 : string) (t : R) :
  let c1 := hexToRgb color1 in
  let c2 := hexToRgb color2 in
  lerpColor color1 color2 0 = rgbText (Rgb.r c1) (Rgb.g c1) (Rgb.b c1)
  /\ lerpColor color1 color2 1 = rgbText (Rgb.r c2) (Rgb.g c2) (Rgb.b c2)
  /\ lerpColor color1 color1 t = rgbText (Rgb.r c1) (Rgb.g c1) (Rgb.b c1)
  /\ (0 <= t <= 1 ->
      exists r g b,
        lerpColor color1 color2 t = rgbText r g b
        /\ (Z.min (Rgb.r c1) (Rgb.r c2) <= r <= Z.max (Rgb.r c1) (Rgb.r c2))%Z
        /\ (Z.min (Rgb.g c1) (Rgb.g c2) <= g <= Z.max (Rgb.g c1) (Rgb.g c2))%Z
        /\ (Z.min (Rgb.b c1) (Rgb.b c2) <= b <= Z.max (Rgb.b c1) (Rgb.b c2))%Z
        /\ (0 <= r <= 255)%Z /\ (0 <= g <= 255)%Z /\ (0 <= b <= 255)%Z)
  /\ hexToRgb (lerpColor color1 color2 t)
     = {| Rgb.r := 0; Rgb.g := 0; Rgb.b := 0 |}
  /\ lerpColor "#87CEEB" "#FFB347" 0.5 = "rgb(195, 193, 153)"%string.
Proof.
  cbv zeta. unfold lerpColor. cbv zeta.
  set (c1 := hexToRgb color1). set (c2 := hexToRgb color2).
  split; [|split; [|split; [|split; [|split]]]].
  - rewrite !Rmult_0_r, !Rplus_0_r, !Math_round_whole. reflexivity.
  - replace (IZR (Rgb.r c1) + (IZR (Rgb.r c2) - IZR (Rgb.r c1)) * 1)
      with (IZR (Rgb.r c2)) by lra.
    replace (IZR (Rgb.g c1) + (IZR (Rgb.g c2) - IZR (Rgb.g c1)) * 1)
      with (IZR (Rgb.g c2)) by lra.
    replace (IZR (Rgb.b c1) + (IZR (Rgb.b c2) - IZR (Rgb.b c1)) * 1)
      with (IZR (Rgb.b c2)) by lra.
    rewrite !Math_round_whole. reflexivity.
  - replace (IZR (Rgb.r c1) + (IZR (Rgb.r c1) - IZR (Rgb.r c1)) * t)
      with (IZR (Rgb.r c1)) by lra.
    replace (IZR (Rgb.g c1) + (IZR (Rgb.g c1) - IZR (Rgb.g c1)) * t)
      with (IZR (Rgb.g c1)) by lra.
    replace (IZR (Rgb.b c1) + (IZR (Rgb.b c1) - IZR (Rgb.b c1)) * t)
      with (IZR (Rgb.b c1)) by lra.
    rewrite !Math_round_whole. reflexivity.
  - intros Ht. do 3 eexists. split; [reflexivity|].
    pose proof (lerp_between (Rgb.r c1) (Rgb.r c2) t Ht) as Hr.
    pose proof (lerp_between (Rgb.g c1) (Rgb.g c2) t Ht) as Hg.
    pose proof (lerp_between (Rgb.b c1) (Rgb.b c2) t Ht) as Hb.
    destruct (hexToRgb_range color1) as (R1 & G1 & B1).
    destruct (hexToRgb_range color2) as (R2 & G2 & B2).
    fold c1 in R1, G1, B1. fold c2 in R2, G2, B2.
    repeat split; lia.
  - rewrite hexToRgb_eq. unfold rgbText at 1. cbn [append].
    cbn [Ascii.eqb Bool.eqb].
    apply (sixDigits_rgbText _ _ _).
  - replace (hexToRgb "#87CEEB")
      with {| Rgb.r := 135; Rgb.g := 206; Rgb.b := 235 |} by reflexivity.
    replace (hexToRgb "#FFB347")
      with {| Rgb.r := 255; Rgb.g := 179; Rgb.b := 71 |} by reflexivity.
    cbn [Rgb.r Rgb.g Rgb.b]. unfold Math_round.
    rewrite (Zfloor_eq 195), (Zfloor_eq 193), (Zfloor_eq 153) by lra.
    reflexivity.
Qed.

(** ** What a frame leaves behind the scroll *)

Lemma Forall_filter_test {A : Type} (f : A -> bool) (l : list A) :
  Forall (fun a => f a = true) (filter f l).
Proof.
  apply Forall_forall. intros a Ha. now apply filter_In in Ha.
Qed.

(** X20.  After a frame of a run in progress every bridge ends past
    terrainOffset - 200, and every fuel pickup, coin and boost left is
    uncollected and lies past terrainOffset - 200. *)
Theorem a_frame_prunes_what_is_behind (k : Keys.t) (s s' : Game) :
  Run.gameState (run s) = playing ->
  tick k s = Some s' ->
  let edge := World.terrainOffset (world s') - 200 in
  Forall (fun b => edge < Bridge.endX b) (World.bridges (world s'))
  /\ Forall (fun p => Pickup.collected p = false /\ edge < Pickup.x p)
       (World.fuelPickups (world s'))
  /\ Forall (fun p => Pickup.collected p = false /\ edge < Pickup.x p)
       (World.coins (world s'))
  /\ Forall (fun b => Boost.collected b = false /\ edge < Boost.x b)
       (World.boosts (world s')).
Proof.
  intros Hp Ht. cbv zeta.
  destruct (tick_cases _ _ _ Ht) as [[Hn _] | (_ & m & Hu & ->)];
    [congruence|].
  destruct (finishFrame_frame (checkPickups m))
    as (_ & _ & _ & _ & -> & _).
  destruct (checkPickups_eq m) as (_ & _ & ->). simpl_fields.
  unfold PICKUP_CLEAR_BEHIND.
  split; [|split; [|split]].
  - rewrite (updateTerrain_eq _ _ Hu). simpl_fields.
    eapply Forall_impl; [|apply Forall_filter_test].
    cbn. intros b Hb. apply gtb_true in Hb. exact Hb.
  - eapply Forall_impl; [|apply Forall_filter_test].
    cbn. unfold keptPickup. intros p Hk.
    apply andb_true_iff in Hk as [Hc Hx]. apply gtb_true in Hx.
    split; [now destruct (Pickup.collected p) | exact Hx].
  - eapply Forall_impl; [|apply Forall_filter_test].
    cbn. unfold keptPickup. intros p Hk.
    apply andb_true_iff in Hk as [Hc Hx]. apply gtb_true in Hx.
    split; [now destruct (Pickup.collected p) | exact Hx].
  - eapply Forall_impl; [|apply Forall_filter_test].
    cbn. unfold keptBoost. intros p Hk.
    apply andb_true_iff in Hk as [Hc Hx]. apply gtb_true in Hx.
    split; [now destruct (Boost.collected p) | exact Hx].
Qed.

Lemma a_frame_prunes_what_is_behind_witness :
  exists s',
    tick forwardKey lateRun = Some s'
    /\ Forall (fun b => World.terrainOffset (world s') - 200 < Bridge.endX b)
         (World.bridges (world s'))
    /\ Forall
         (fun p => Pickup.collected p = false
                   /\ World.terrainOffset (world s') - 200 < Pickup.x p)
         (World.fuelPickups (world s'))
    /\ Forall
         (fun p => Pickup.collected p = false
                   /\ World.terrainOffset (world s') - 200 < Pickup.x p)
         (World.coins (world s'))
    /\ Forall
         (fun b => Boost.collected b = false
                   /\ World.terrainOffset (world s') - 200 < Boost.x b)
         (World.boosts (world s')).
Proof.
  destruct (wideGround_window (carAt 300 0 0 0) forwardKey (runWith 100 20) []
              eq_refl) as [Hinv _].
  destruct (gameLoop_window (with_keys forwardKey lateRun) eq_refl Hinv)
    as (m & _ & Ht & _).
  eexists. split; [exact Ht|].
  exact (a_frame_prunes_what_is_behind forwardKey lateRun _ eq_refl Ht).
Defined.

(** ** The heights of the terrain *)

Lemma generated_unit (s s' : Game) :
  generated s s' -> unitDraws s -> unitDraws s'.
Proof.
  intros (_ & _ & _ & _ & _ & _ & _ & _ & _ & _ & _ & _ & (k & Hk)) H n.
  rewrite Hk. apply H.
Qed.

Lemma heightInv_view (bound : R) (s s' : Game) :
  heightView s' = heightView s -> heightInv bound s -> heightInv bound s'.
Proof.
  unfold heightView, heightInv. intros H. injection H as -> -> ->. auto.
Qed.

Lemma heightInv_weaken (b1 b2 : R) (s : Game) :
  b1 <= b2 -> heightInv b1 s -> heightInv b2 s.
Proof.
  intros Hb (Hn & Ht & Hbr). unfold heightInv, near in *.
  repeat split; try apply Hn.
  - eapply Forall_impl; [|exact Ht]. cbn. intros p Hp. lra.
  - eapply Forall_impl; [|exact Hbr]. cbn. intros p Hp. lra.
Qed.

Lemma segmentHeight_near (x index bound : R) (s : Game) :
  unitDraws s -> 1 <= Run.currentLevel (run s) ->
  heightBound (Run.currentLevel (run s)) <= bound ->
  heightInv bound s ->
  near bound (fst (segmentHeight x index s))
  /\ heightInv bound (snd (segmentHeight x index s)).
Proof.
  intros Hd Hl Hb (Hn & Ht & Hbr). unfold segmentHeight. cbv zeta.
  destruct (find (spans x) (World.bridges (world s))) as [b|] eqn:Hf.
  - cbn [fst snd]. split; [|exact (conj Hn (conj Ht Hbr))].
    apply find_some in Hf as [Hin _]. rewrite Forall_forall in Hbr.
    now apply Hbr.
  - unfold Math_random. cbn [fst snd]. simpl_fields.
    set (phase := index + World.terrainOffset (world s) / HILL_SEGMENT_WIDTH).
    pose proof (SIN_bound (phase * TERRAIN_FREQUENCY)) as S1.
    pose proof (SIN_bound (phase * TERRAIN_FREQUENCY_2)) as S2.
    pose proof (SIN_bound (phase * TERRAIN_FREQUENCY_3)) as S3.
    pose proof (Hd 0%nat) as Hr.
    unfold heightBound, heightInv, near, NOISE_AMPLITUDE, NOISE_SMOOTH,
      TERRAIN_AMPLITUDE, TERRAIN_AMPLITUDE_2, TERRAIN_AMPLITUDE_3,
      canvas_height in *.
    simpl_fields.
    set (m := 1 + (Run.currentLevel (run s) - 1) * 0.15) in *.
    assert (Hm : 1 <= m) by (unfold m; lra).
    set (w1 := sin (phase * TERRAIN_FREQUENCY)) in *.
    assert (W1 : - (70 * m) <= w1 * 70 * m <= 70 * m) by nra.
    repeat split; try assumption; lra.
Qed.

Lemma stages_heightView (x index y : R) (p : Segment.t) (s : Game) :
  heightView (spawnFuel x y s) = heightView s
  /\ heightView (spawnBoost x y s) = heightView s
  /\ heightView (spawnCoin x y s) = heightView s.
Proof.
  unfold spawnFuel, spawnBoost, spawnCoin, drawThreshold, Math_random,
    heightView.
  repeat split; split_tests; reflexivity.
Qed.

Lemma spawnBridge_heightInv (x y bound : R) (b : bool) (s : Game) :
  near bound y -> heightInv bound s -> heightInv bound (spawnBridge x y b s).
Proof.
  intros Hy (Hn & Ht & Hbr). unfold spawnBridge, drawThreshold, Math_random.
  destruct (_ && _); [|exact (conj Hn (conj Ht Hbr))].
  unfold heightInv. simpl_fields. repeat split; try apply Hn; try exact Ht.
  apply Forall_app. split; [exact Hbr|]. constructor; [exact Hy|constructor].
Qed.

Lemma addTerrainSegment_heightInv (x index bound : R) (s : Game) :
  unitDraws s -> 1 <= Run.currentLevel (run s) ->
  heightBound (Run.currentLevel (run s)) <= bound ->
  heightInv bound s -> heightInv bound (addTerrainSegment x index s).
Proof.
  intros Hd Hl Hb Hi. rewrite addTerrainSegment_eq. cbv zeta.
  destruct (segmentHeight_near x index bound s Hd Hl Hb Hi) as [Hy H1].
  set (y := fst (segmentHeight x index s)) in *.
  set (b := existsb (spans x) (World.bridges (world s))).
  set (s1 := snd (segmentHeight x index s)) in *.
  assert (H2 : heightInv bound (pushSegment (Segment.mk x y b) s1)).
  { destruct H1 as (Hn & Ht & Hbr). unfold heightInv, pushSegment.
    simpl_fields. repeat split; try apply Hn; try exact Hbr.
    apply Forall_app. split; [exact Ht|].
    constructor; [exact Hy | constructor]. }
  pose proof (spawnBridge_heightInv x y bound b _ Hy H2) as H3.
  set (s3 := spawnBridge x y b _) in *.
  destruct (stages_heightView x index y (Segment.mk x y b) s3) as (V4 & _).
  destruct (stages_heightView x index y (Segment.mk x y b) (spawnFuel x y s3))
    as (_ & V5 & _).
  destruct (stages_heightView x index y (Segment.mk x y b)
              (spawnBoost x y (spawnFuel x y s3))) as (_ & _ & V6).
  apply (heightInv_view bound s3); [congruence | exact H3].
Qed.

Lemma generateSegments_heightInv (n : nat) (i bound : R) (s : Game) :
  unitDraws s -> 1 <= Run.currentLevel (run s) ->
  heightBound (Run.currentLevel (run s)) <= bound ->
  heightInv bound s ->
  heightInv bound (generateSegments n i s)
  /\ unitDraws (generateSegments n i s).
Proof.
  revert i s. induction n as [|n IH]; intros i s Hd Hl Hb Hi;
    cbn [generateSegments]; [now split|].
  pose proof (addTerrainSegment_generated (i * HILL_SEGMENT_WIDTH) i s) as Hg.
  assert (Hr : run (addTerrainSegment (i * HILL_SEGMENT_WIDTH) i s) = run s)
    by (destruct Hg as (_ & _ & _ & Hr & _); exact Hr).
  apply IH.
  - eapply generated_unit; eauto.
  - now rewrite Hr.
  - now rewrite Hr.
  - now apply addTerrainSegment_heightInv.
Qed.

Lemma extendTerrain_heightInv (bound : R) (s : Game) :
  unitDraws s -> 1 <= Run.currentLevel (run s) ->
  heightBound (Run.currentLevel (run s)) <= bound ->
  heightInv bound s ->
  heightInv bound (extendTerrain s) /\ unitDraws (extendTerrain s).
Proof.
  intros Hd Hl Hb Hi.
  assert (H : (heightInv bound (extendTerrain s)
               /\ unitDraws (extendTerrain s))
              /\ run (extendTerrain s) = run s).
  { apply (extendTerrain_invariant
             (fun m => (heightInv bound m /\ unitDraws m) /\ run m = run s));
      [|exact (conj (conj Hi Hd) eq_refl)].
    intros m last _ _ [[Hmi Hmd] Hmr].
    pose proof (addTerrainSegment_generated
                  (Segment.x last + HILL_SEGMENT_WIDTH)
                  (INR (List.length (World.terrain (world m)))) m) as Hg.
    assert (Hr : run (addTerrainSegment
                        (Segment.x last + HILL_SEGMENT_WIDTH)
                        (INR (List.length (World.terrain (world m)))) m)
                 = run m)
      by (destruct Hg as (_ & _ & _ & Hr & _); exact Hr).
    split; [split|].
    - apply addTerrainSegment_heightInv; try assumption; now rewrite Hmr.
    - eapply generated_unit; eauto.
    - congruence. }
  exact (proj1 H).
Qed.

Lemma Forall_shiftBehind {P : Segment.t -> Prop} (limit : R)
  (l : list Segment.t) :
  Forall P l -> Forall P (shiftBehind limit l).
Proof.
  induction 1 as [|a l Ha Hl IH]; cbn [shiftBehind]; [constructor|].
  destruct (Segment.x a <? limit); [exact IH | now constructor].
Qed.

Lemma updateTerrain_heightInv (bound : R) (s s' : Game) :
  updateTerrain s = Some s' ->
  unitDraws s -> 1 <= Run.currentLevel (run s) ->
  heightBound (Run.currentLevel (run s)) <= bound ->
  heightInv bound s ->
  heightInv bound s' /\ unitDraws s'.
Proof.
  intros Hu Hd Hl Hb (Hn & Ht & Hbr). rewrite (updateTerrain_eq _ _ Hu).
  set (shifted := with_world _ s).
  destruct (extendTerrain_heightInv bound shifted) as [(En & Et & Ebr) Ed];
    try assumption.
  { unfold heightInv. subst shifted. simpl_fields.
    repeat split; try apply Hn; try exact Hbr. now apply Forall_shiftBehind. }
  split; [|exact Ed].
  unfold heightInv. simpl_fields. repeat split; try apply En; try exact Et.
  now apply Forall_filter.
Qed.

Lemma heightBound_mono (a b : R) : a <= b -> heightBound a <= heightBound b.
Proof. unfold heightBound, TERRAIN_AMPLITUDE. intros H. lra. Qed.

Lemma tick_reliefInv (k : Keys.t) (s s' : Game) :
  tick k s = Some s' -> reliefInv s -> reliefInv s'.
Proof.
  intros Ht (Hl & Hd & Hi).
  destruct (tick_level _ _ _ Ht) as [Hmono _].
  destruct (tick_cases _ _ _ Ht) as [[_ ->] | (_ & m & Hu & ->)];
    [exact (conj Hl (conj Hd Hi))|].
  set (s0 := with_keys k s) in *.
  destruct (checkGameOver_frame (integrate s0))
    as (_ & Pworld & Psur & _ & _ & Plevel & _).
  destruct (integrate_frame s0) as (Isur & _ & Icon).
  unfold surroundings, contents in *. subst s0.
  simpl_fields_in Isur. simpl_fields_in Icon.
  set (s0 := with_keys k s) in *.
  assert (Hv : heightView (updatePhysics s0) = heightView s).
  { unfold heightView, updatePhysics. rewrite Pworld.
    replace (spawn (checkGameOver (integrate s0))) with (spawn s)
      by congruence.
    replace (World.terrain (world (integrate s0)))
      with (World.terrain (world s)) by congruence.
    replace (World.bridges (world (integrate s0)))
      with (World.bridges (world s)) by congruence.
    reflexivity. }
  assert (Hd1 : unitDraws (updatePhysics s0)).
  { unfold updatePhysics, unitDraws.
    replace (random (checkGameOver (integrate s0))) with (random s)
      by congruence.
    exact Hd. }
  assert (Hl1 : Run.currentLevel (run (updatePhysics s0))
                = Run.currentLevel (run s)).
  { destruct (updatePhysics_standing s0) as [H | (_ & _ & H & _)].
    - unfold standing in H. subst s0. simpl_fields_in H. congruence.
    - exact H. }
  destruct (updateTerrain_heightInv
              (heightBound (Run.currentLevel (run s))) _ _ Hu)
    as [Mi Md]; try assumption.
  { now rewrite Hl1. }
  { rewrite Hl1. lra. }
  { now apply (heightInv_view _ s). }
  destruct (checkPickups_eq m)
    as ((_ & _ & _ & Cspawn & _ & _ & _ & _ & (kc & Cdraws)) & _ & Cworld).
  destruct (finishFrame_frame (checkPickups m))
    as (_ & _ & _ & Fspawn & Fworld & Frandom & _).
  split; [lra|]. split.
  - intros n. rewrite Frandom, Cdraws. apply Md.
  - apply (heightInv_weaken (heightBound (Run.currentLevel (run s))));
      [now apply heightBound_mono|].
    apply (heightInv_view _ m); [|exact Mi].
    unfold heightView. rewrite Fworld, Fspawn, Cworld, Cspawn. reflexivity.
Qed.

Lemma resetGame_reliefInv (g : Game) :
  unitDraws g -> reliefInv (resetGame g).
Proof.
  intros Hd. unfold reliefInv.
  destruct (resetGame_run g) as (Hr & _). rewrite Hr. cbn [Run.currentLevel].
  unfold resetGame, generateTerrain.
  match goal with |- context [prepareTerrain ?g] => set (g0 := g) end.
  assert (Hd0 : unitDraws g0) by exact Hd.
  assert (Hp : unitDraws (prepareTerrain g0)
               /\ Run.currentLevel (run (prepareTerrain g0)) = 1
               /\ heightInv (heightBound 1) (prepareTerrain g0)).
  { destruct (prepareTerrain_eq g0) as (_ & _ & Pr & Pt & Pb & _ & _ & _ & Pd).
    split; [|split].
    - intros n. rewrite Pd. apply Hd0.
    - rewrite Pr. reflexivity.
    - unfold heightInv. rewrite Pt, Pb.
      assert (Hn0 : Spawn.terrainNoisePrev (spawn (prepareTerrain g0)) = 0)
        by reflexivity.
      rewrite Hn0. unfold NOISE_AMPLITUDE.
      split; [lra | split; constructor]. }
  destruct Hp as (Pd & Pl & Pi).
  destruct (generateSegments_heightInv
              (Z.to_nat (Zceil (canvas_width g0 / HILL_SEGMENT_WIDTH) + 10))
              0 (heightBound 1) (prepareTerrain g0)) as [Gi Gd];
    try assumption; try (rewrite Pl; lra).
  split; [lra|]. split; assumption.
Qed.

Lemma interpolate_near (bound worldX : R) (p1 p2 : Segment.t) :
  Segment.x p1 < Segment.x p2 ->
  Segment.x p1 <= worldX <= Segment.x p2 ->
  near bound (Segment.y p1) -> near bound (Segment.y p2) ->
  near bound (interpolate worldX p1 p2).
Proof.
  intros Hx Hw H1 H2. unfold interpolate, near in *. cbv zeta.
  set (r := (worldX - Segment.x p1) / (Segment.x p2 - Segment.x p1)).
  assert (Hr : 0 <= r <= 1).
  { unfold r. split.
    - apply Rmult_le_pos; [lra | left; apply Rinv_0_lt_compat; lra].
    - apply Rmult_le_reg_r with (Segment.x p2 - Segment.x p1); [lra|].
      unfold Rdiv. rewrite Rmult_assoc, Rinv_l by lra. lra. }
  clearbody r. nra.
Qed.

(** X21.  With every random draw in [0, 1), in every state reached from
    the start of a run each terrain sample, each bridge deck and the
    height returned by getTerrainHeightAt at any x differ from the base
    height 0.6 * canvas.height by at most 70 * (1 + (currentLevel - 1) *
    0.15) + 35 + 50 + 7.5, and the smoothed noise stays within 7.5 of 0. *)
Theorem terrain_stays_within_its_amplitude (g s' : Game)
  (ks : list Keys.t) :
  (forall n, 0 <= random g n < 1) ->
  ticks ks (resetGame g) = Some s' ->
  let bound :=
    TERRAIN_AMPLITUDE * (1 + (Run.currentLevel (run s') - 1) * 0.15)
    + TERRAIN_AMPLITUDE_2 + TERRAIN_AMPLITUDE_3 + NOISE_AMPLITUDE / 2 in
  Forall (fun p => Rabs (Segment.y p - canvas_height * 0.6) <= bound)
    (World.terrain (world s'))
  /\ Forall (fun b => Rabs (Bridge.y b - canvas_height * 0.6) <= bound)
       (World.bridges (world s'))
  /\ (forall worldX,
         Rabs (getTerrainHeightAt worldX s' - canvas_height * 0.6) <= bound)
  /\ Rabs (Spawn.terrainNoisePrev (spawn s')) <= NOISE_AMPLITUDE / 2.
Proof.
  intros Hd Ht. cbv zeta.
  fold (heightBound (Run.currentLevel (run s'))).
  assert (H : reliefInv s'
              /\ (tidy s'
                  /\ Forall
                       (fun q =>
                          World.terrainOffset (world s') - 100 <= Segment.x q)
                       (World.terrain (world s')))).
  { revert Ht.
    apply (ticks_invariant
             (fun s => reliefInv s
                       /\ (tidy s
                           /\ Forall
                                (fun q =>
                                   World.terrainOffset (world s) - 100
                                   <= Segment.x q)
                                (World.terrain (world s))))).
    - intros k s s1 [Hr Hy] Hk. split.
      + eapply tick_reliefInv; eauto.
      + eapply tick_tidy; eauto.
    - split; [now apply resetGame_reliefInv | apply resetGame_tidy]. }
  destruct H as [(Hl & _ & Hn & Hterrain & Hbridges) [[Hs _] _]].
  set (bound := heightBound (Run.currentLevel (run s'))) in *.
  assert (Hb0 : 0 <= bound).
  { unfold bound, heightBound, TERRAIN_AMPLITUDE, TERRAIN_AMPLITUDE_2,
      TERRAIN_AMPLITUDE_3, NOISE_AMPLITUDE. lra. }
  assert (Habs : forall y, near bound y ->
                           Rabs (y - canvas_height * 0.6) <= bound).
  { intros y Hy. unfold near in Hy. apply Rabs_le. exact Hy. }
  split; [|split; [|split]].
  - eapply Forall_impl; [|exact Hterrain]. cbn. intros p. apply Habs.
  - eapply Forall_impl; [|exact Hbridges]. cbn. intros p. apply Habs.
  - intros worldX. apply Habs. unfold getTerrainHeightAt.
    apply scanTerrain_neighbours.
    + unfold near. lra.
    + intros i p1 p2 H1 H2 Hx.
      rewrite Forall_forall in Hterrain.
      apply interpolate_near.
      * pose proof (proj1 (stepped_nth _) Hs i p1 p2 H1 H2) as Hstep.
        unfold HILL_SEGMENT_WIDTH in Hstep. lra.
      * exact Hx.
      * apply Hterrain. eapply nth_error_In; eauto.
      * apply Hterrain. eapply nth_error_In; eauto.
  - apply Rabs_le. exact Hn.
Qed.

Lemma terrain_stays_within_its_amplitude_witness :
  exists s',
    ticks [noKeys; forwardKey; forwardKey] (resetGame strandedInAir) = Some s'
    /\ Forall
         (fun p =>
            Rabs (Segment.y p - canvas_height * 0.6)
            <= TERRAIN_AMPLITUDE * (1 + (Run.currentLevel (run s') - 1) * 0.15)
               + TERRAIN_AMPLITUDE_2 + TERRAIN_AMPLITUDE_3
               + NOISE_AMPLITUDE / 2)
         (World.terrain (world s')).
Proof.
  assert (Hw : 0 <= canvas_width strandedInAir) by (cbn; lra).
  destruct (resetGame_window strandedInAir Hw) as [Hinv Hbounds].
  destruct (ticks_window [noKeys; forwardKey; forwardKey] _ Hinv Hbounds)
    as (s' & Ht & _).
  exists s'. split; [exact Ht|].
  refine (proj1 (terrain_stays_within_its_amplitude strandedInAir s'
                   [noKeys; forwardKey; forwardKey] _ Ht)).
  intros n. cbn. lra.
Defined.

(** ** The deck of a bridge *)










(** ** The spacing of fuel and boosts *)

Lemma supplyInv_view (s s' : Game) :
  fuelView s' = fuelView s -> boostView s' = boostView s ->
  supplyInv s -> supplyInv s'.
Proof.
  unfold fuelView, boostView, supplyInv, fuelInv, boostInv. intros H1 H2.
  injection H1 as -> -> ->. injection H2 as -> -> ->. auto.
Qed.

Lemma spawnFuel_inv (x y : R) (s : Game) :
  supplyInv s -> nonnegDraws s -> supplyInv (spawnFuel x y s).
Proof.
  intros [(Hs & Hall & Hnext) Hb] Hd. unfold spawnFuel.
  destruct (x >=? Spawn.lastFuelSpawnX (spawn s)
                  + Spawn.nextFuelSpawnPx (spawn s)) eqn:Hc;
    [|split; [repeat split; assumption | exact Hb]].
  apply geb_true in Hc.
  unfold drawThreshold, Math_random. split; [|exact Hb].
  unfold fuelInv. simpl_fields.
  pose proof (Hd 0%nat) as Hr.
  unfold FUEL_SPAWN_MIN_M, FUEL_SPAWN_MAX_M, HILL_SEGMENT_WIDTH in *.
  split; [|split].
  - apply StronglySorted_snoc; [exact Hs|].
    eapply Forall_impl; [|exact Hall]. cbn. intros a Ha. lra.
  - apply Forall_app. split.
    + eapply Forall_impl; [|exact Hall]. cbn. intros a Ha. lra.
    + constructor; [|constructor]. cbn. lra.
  - lra.
Qed.

Lemma spawnBoost_inv (x y : R) (s : Game) :
  supplyInv s -> nonnegDraws s -> supplyInv (spawnBoost x y s).
Proof.
  intros [Hf (Hs & Hall & Hnext)] Hd. unfold spawnBoost.
  destruct (x >=? Spawn.lastBoostSpawnX (spawn s)
                  + Spawn.nextBoostSpawnPx (spawn s)) eqn:Hc;
    [|split; [exact Hf | repeat split; assumption]].
  apply geb_true in Hc.
  unfold drawThreshold, Math_random. split; [exact Hf|].
  unfold boostInv. simpl_fields.
  pose proof (Hd 0%nat) as Hr.
  unfold BOOST_SPAWN_MIN, BOOST_SPAWN_MAX, HILL_SEGMENT_WIDTH in *.
  split; [|split].
  - apply StronglySorted_snoc; [exact Hs|].
    eapply Forall_impl; [|exact Hall]. cbn. intros a Ha. lra.
  - apply Forall_app. split.
    + eapply Forall_impl; [|exact Hall]. cbn. intros a Ha. lra.
    + constructor; [|constructor]. cbn. lra.
  - lra.
Qed.

(** The other stages of [addTerrainSegment] leave the fuel, the boosts
    and their cursors alone. *)
Lemma stages_supplyView (x index y : R) (b : bool) (p : Segment.t)
  (s : Game) :
  (fuelView (snd (segmentHeight x index s)) = fuelView s
   /\ boostView (snd (segmentHeight x index s)) = boostView s)
  /\ (fuelView (pushSegment p s) = fuelView s
      /\ boostView (pushSegment p s) = boostView s)
  /\ (fuelView (spawnBridge x y b s) = fuelView s
      /\ boostView (spawnBridge x y b s) = boostView s)
  /\ (fuelView (spawnCoin x y s) = fuelView s
      /\ boostView (spawnCoin x y s) = boostView s).
Proof.
  unfold segmentHeight, pushSegment, spawnBridge, spawnCoin,
    drawThreshold, Math_random, fuelView, boostView.
  repeat split; split_tests; reflexivity.
Qed.

Lemma addTerrainSegment_supplyInv (x index : R) (s : Game) :
  supplyInv s -> nonnegDraws s -> supplyInv (addTerrainSegment x index s).
Proof.
  intros Hi Hd. rewrite addTerrainSegment_eq. cbv zeta.
  set (y := fst (segmentHeight x index s)).
  set (b := existsb (spans x) (World.bridges (world s))).
  set (p := Segment.mk x y b).
  set (s1 := snd (segmentHeight x index s)).
  destruct (stages_supplyView x index y b p s) as ([V1 V1'] & _).
  destruct (stages_supplyView x index y b p s1) as (_ & [V2 V2'] & _).
  destruct (stages_supplyView x index y b p (pushSegment p s1))
    as (_ & _ & [V3 V3'] & _).
  fold s1 in V1, V1'.
  set (s3 := spawnBridge x y b (pushSegment p s1)) in *.
  assert (H3 : supplyInv s3).
  { apply (supplyInv_view s); [congruence | congruence | exact Hi]. }
  assert (G3 : generated s s3).
  { unfold s3, s1.
    eapply generated_trans; [apply segmentHeight_generated|].
    eapply generated_trans; [apply pushSegment_generated|].
    apply spawnBridge_generated. }
  assert (D3 : nonnegDraws s3) by (eapply generated_draws; eauto).
  pose proof (spawnFuel_inv x y s3 H3 D3) as H4.
  assert (D4 : nonnegDraws (spawnFuel x y s3)).
  { eapply generated_draws; [apply spawnFuel_generated | exact D3]. }
  pose proof (spawnBoost_inv x y _ H4 D4) as H5.
  destruct (stages_supplyView x index y b p (spawnBoost x y (spawnFuel x y s3)))
    as (_ & _ & _ & [V6 V6']).
  apply (supplyInv_view (spawnBoost x y (spawnFuel x y s3)));
    [exact V6 | exact V6' | exact H5].
Qed.

Lemma generateSegments_supplyInv (n : nat) (i : R) (s : Game) :
  supplyInv s -> nonnegDraws s -> supplyInv (generateSegments n i s).
Proof.
  revert i s. induction n as [|n IH]; intros i s Hi Hd;
    cbn [generateSegments]; [exact Hi|].
  apply IH.
  - now apply addTerrainSegment_supplyInv.
  - eapply generated_draws; [apply addTerrainSegment_generated | exact Hd].
Qed.

Lemma updateTerrain_supplyInv (s s' : Game) :
  updateTerrain s = Some s' ->
  supplyInv s -> nonnegDraws s -> supplyInv s' /\ nonnegDraws s'.
Proof.
  intros Hu Hi Hd. rewrite (updateTerrain_eq _ _ Hu).
  set (shifted := with_world _ s).
  assert (H : supplyInv (extendTerrain shifted)
              /\ nonnegDraws (extendTerrain shifted)).
  { apply (extendTerrain_invariant (fun m => supplyInv m /\ nonnegDraws m));
      [|split; [exact Hi | exact Hd]].
    intros m last _ _ [Hmi Hmd]. split.
    - now apply addTerrainSegment_supplyInv.
    - eapply generated_draws; [apply addTerrainSegment_generated | exact Hmd]. }
  exact H.
Qed.

Lemma tick_supplyInv (k : Keys.t) (s s' : Game) :
  supplyInv s -> nonnegDraws s -> tick k s = Some s' ->
  supplyInv s' /\ nonnegDraws s'.
Proof.
  intros Hi Hd Ht.
  destruct (tick_cases _ _ _ Ht) as [[_ ->] | (_ & m & Hu & ->)];
    [split; assumption|].
  set (s0 := with_keys k s) in *.
  destruct (checkGameOver_frame (integrate s0)) as (_ & Pworld & Psur & _).
  destruct (integrate_frame s0) as (Isur & _ & Icon).
  unfold surroundings, contents in *. subst s0.
  simpl_fields_in Isur. simpl_fields_in Icon.
  set (s0 := with_keys k s) in *.
  assert (Hsp : spawn (updatePhysics s0) = spawn s)
    by (unfold updatePhysics; congruence).
  assert (Hv1 : fuelView (updatePhysics s0) = fuelView s).
  { unfold fuelView. rewrite Hsp. unfold updatePhysics. rewrite Pworld.
    replace (World.fuelPickups (world (integrate s0)))
      with (World.fuelPickups (world s)) by congruence.
    reflexivity. }
  assert (Hv2 : boostView (updatePhysics s0) = boostView s).
  { unfold boostView. rewrite Hsp. unfold updatePhysics. rewrite Pworld.
    replace (World.boosts (world (integrate s0)))
      with (World.boosts (world s)) by congruence.
    reflexivity. }
  assert (Hd1 : nonnegDraws (updatePhysics s0)).
  { unfold updatePhysics, nonnegDraws.
    replace (random (checkGameOver (integrate s0))) with (random s)
      by congruence.
    exact Hd. }
  destruct (updateTerrain_supplyInv _ _ Hu
              (supplyInv_view _ _ Hv1 Hv2 Hi) Hd1)
    as [[(Fs & Fall & Fn) (Bs & Ball & Bn)] Md].
  destruct (checkPickups_eq m)
    as ((_ & _ & _ & Cspawn & _ & _ & _ & _ & (kc & Cdraws)) & _ & Cworld).
  destruct (finishFrame_frame (checkPickups m))
    as (_ & _ & _ & Fspawn & Fworld & Frandom & _).
  split; [|intros n; rewrite Frandom, Cdraws; apply Md].
  unfold supplyInv, fuelInv, boostInv.
  rewrite Fworld, Fspawn, Cworld, Cspawn. simpl_fields.
  rewrite filter_marked, filter_marked_boosts.
  repeat split; try assumption;
    first [now apply StronglySorted_filter | now apply Forall_filter].
Qed.

Lemma resetGame_supplyInv (g : Game) :
  nonnegDraws g -> supplyInv (resetGame g) /\ nonnegDraws (resetGame g).
Proof.
  intros Hd. unfold resetGame, generateTerrain.
  match goal with |- context [prepareTerrain ?g] => set (g0 := g) end.
  assert (Hd0 : nonnegDraws g0) by exact Hd.
  destruct (prepareTerrain_bridgeInv g0 Hd0) as [_ Hd'].
  assert (Hi : supplyInv (prepareTerrain g0)).
  { pose proof (Hd0 0%nat) as H0. pose proof (Hd0 1%nat) as H1.
    unfold supplyInv, fuelInv, boostInv, prepareTerrain, drawThreshold,
      Math_random.
    simpl_fields.
    unfold FUEL_SPAWN_MIN_M, FUEL_SPAWN_MAX_M, BOOST_SPAWN_MIN,
      BOOST_SPAWN_MAX.
    split; (split; [constructor | split; [constructor | lra]]). }
  split.
  - now apply generateSegments_supplyInv.
  - eapply generated_draws; [apply generateSegments_generated | exact Hd'].
Qed.

(** ** A restart *)

Ltac transplant_stage :=
  unfold transplant, drawThreshold, Math_random; simpl_fields;
  split_tests; reflexivity.

Lemma segmentHeight_transplant (x index : R) (s t : Game) :
  segmentHeight x index (transplant s t)
  = (fst (segmentHeight x index t),
     transplant s (snd (segmentHeight x index t))).
Proof. unfold segmentHeight. transplant_stage. Qed.

Lemma pushSegment_transplant (p : Segment.t) (s t : Game) :
  pushSegment p (transplant s t) = transplant s (pushSegment p t).
Proof. unfold pushSegment. transplant_stage. Qed.

Lemma spawnBridge_transplant (x y : R) (b : bool) (s t : Game) :
  spawnBridge x y b (transplant s t) = transplant s (spawnBridge x y b t).
Proof. unfold spawnBridge. transplant_stage. Qed.

Lemma spawnFuel_transplant (x y : R) (s t : Game) :
  spawnFuel x y (transplant s t) = transplant s (spawnFuel x y t).
Proof. unfold spawnFuel. transplant_stage. Qed.

Lemma spawnBoost_transplant (x y : R) (s t : Game) :
  spawnBoost x y (transplant s t) = transplant s (spawnBoost x y t).
Proof. unfold spawnBoost. transplant_stage. Qed.

Lemma spawnCoin_transplant (x y : R) (s t : Game) :
  spawnCoin x y (transplant s t) = transplant s (spawnCoin x y t).
Proof. unfold spawnCoin, coinChance. transplant_stage. Qed.

Lemma addTerrainSegment_transplant (x index : R) (s t : Game) :
  addTerrainSegment x index (transplant s t)
  = transplant s (addTerrainSegment x index t).
Proof.
  rewrite !addTerrainSegment_eq. cbv zeta.
  rewrite segmentHeight_transplant. cbn [fst snd].
  change (World.bridges (world (transplant s t)))
    with (World.bridges (world t)).
  now rewrite pushSegment_transplant, spawnBridge_transplant,
    spawnFuel_transplant, spawnBoost_transplant, spawnCoin_transplant.
Qed.

Lemma generateSegments_transplant (n : nat) (i : R) (s t : Game) :
  generateSegments n i (transplant s t)
  = transplant s (generateSegments n i t).
Proof.
  revert i t. induction n as [|n IH]; intros i t; cbn [generateSegments];
    [reflexivity|].
  now rewrite addTerrainSegment_transplant, IH.
Qed.

(** After its assignments [generateTerrain] holds nothing of the buffers
    and cursors it was called with. *)
Lemma prepareTerrain_fresh (s1 s2 : Game) :
  canvas_width s1 = canvas_width s2 ->
  random s1 = random s2 ->
  World.terrainOffset (world s1) = World.terrainOffset (world s2) ->
  Spawn.terrainNoisePrev (spawn s1) = Spawn.terrainNoisePrev (spawn s2) ->
  Run.currentLevel (run s1) = Run.currentLevel (run s2) ->
  prepareTerrain s1 = transplant (prepareTerrain s1) (prepareTerrain s2).
Proof.
  intros Hw Hr Ho Hn Hl.
  unfold prepareTerrain, drawThreshold, Math_random, transplant.
  simpl_fields.
  unfold with_spawn, Spawn.set_bridge, Spawn.set_boost, Spawn.set_fuel,
    World.set_boosts, World.set_coins, World.set_fuelPickups,
    World.set_bridges, World.set_terrain, Run.set_currentLevel.
  simpl_fields. rewrite Hw, Hr, Ho, Hn, <- Hl.
  destruct s1 as [w1 c1 k1 r1 wo1 sp1 pa1 ra1 cl1]. cbn.
  destruct r1. reflexivity.
Qed.

(** X24.  Restarting on the same canvas width with the same random draws
    gives the same terrain, bridges, pickups and spawn cursors, and
    leaves the same draws to come, whatever state the previous run was
    left in; the counters, the car, the key intents, the particles and
    the scroll are reset to fixed values, except boostEndTime, the text
    of the reason and the stored wheel positions, which are kept. *)
Theorem a_restart_starts_afresh (s1 s2 : Game) :
  canvas_width s1 = canvas_width s2 ->
  random s1 = random s2 ->
  (world (resetGame s1) = world (resetGame s2)
   /\ spawn (resetGame s1) = spawn (resetGame s2)
   /\ random (resetGame s1) = random (resetGame s2))
  /\ run (resetGame s1)
     = {| Run.gameState := playing; Run.score := 0;
          Run.fuel := INITIAL_FUEL; Run.coinCount := 0;
          Run.currentLevel := 1; Run.boostActive := false;
          Run.boostEndTime := Run.boostEndTime (run s1);
          Run.currentBackgroundIndex := 0; Run.nextBackgroundIndex := 0;
          Run.backgroundTransition := 0;
          Run.gameOverReason := Run.gameOverReason (run s1) |}
  /\ car (resetGame s1)
     = {| Car.x := 200; Car.y := 300; Car.velocityX := 0;
          Car.velocityY := 0; Car.rotation := 0; Car.angularVelocity := 0;
          Car.onGround := false;
          Car.front := Car.front (car s1); Car.back := Car.back (car s1) |}
  /\ keys (resetGame s1)
     = {| Keys.forward := false; Keys.backward := false;
          Keys.brake := false |}
  /\ particles (resetGame s1) = []
  /\ World.terrainOffset (world (resetGame s1)) = 0.
Proof.
  intros Hw Hr.
  destruct (resetGame_run s1) as (R1 & O1 & C1 & K1 & P1 & _).
  split; [|repeat split; assumption].
  unfold resetGame, generateTerrain.
  match goal with
  | |- context [prepareTerrain ?g] => set (g1 := g)
  end.
  match goal with
  | |- context [prepareTerrain ?g] =>
      lazymatch g with
      | g1 => fail
      | _ => set (g2 := g)
      end
  end.
  assert (Hg : canvas_width g1 = canvas_width g2)
    by (subst g1 g2; simpl_fields; first [exact Hw | symmetry; exact Hw]).
  assert (Hd : random g1 = random g2)
    by (subst g1 g2; simpl_fields; first [exact Hr | symmetry; exact Hr]).
  rewrite Hg.
  rewrite (prepareTerrain_fresh g1 g2 Hg Hd); try reflexivity.
  rewrite generateSegments_transplant. repeat split.
Qed.

Lemma a_restart_starts_afresh_witness :
  world (resetGame lateRun) = world (resetGame strandedOnSlope)
  /\ spawn (resetGame lateRun) = spawn (resetGame strandedOnSlope)
  /\ random (resetGame lateRun) = random (resetGame strandedOnSlope).
Proof.
  exact (proj1 (a_restart_starts_afresh lateRun strandedOnSlope
                  eq_refl eq_refl)).
Defined.

(** ** The buffer under the screen *)

Lemma shiftBehind_head (limit : R) (l : list Segment.t)
  (first first' : Segment.t) :
  stepped l ->
  hd_error l = Some first ->
  hd_error (shiftBehind limit l) = Some first' ->
  Segment.x first' <= Rmax (Segment.x first) (limit + HILL_SEGMENT_WIDTH).
Proof.
  revert first. induction l as [|a l IH]; intros first Hs Hf Hf';
    [discriminate|].
  cbn in Hf. injection Hf as ->. cbn [shiftBehind] in Hf'.
  destruct (Segment.x first <? limit) eqn:Ha.
  - apply ltb_true in Ha. destruct l as [|b l]; [discriminate|].
    destruct Hs as [Hab Hs].
    specialize (IH b Hs eq_refl Hf').
    unfold Rmax in *. repeat destruct (Rle_dec _ _); lra.
  - cbn in Hf'. injection Hf' as <-. apply Rmax_l.
Qed.

Lemma stepped_bracket (l : list Segment.t) (first last : Segment.t)
  (worldX : R) :
  stepped l -> hd_error l = Some first -> lastOf l = Some last ->
  Segment.x first <= worldX <= Segment.x last ->
  Segment.x first < Segment.x last ->
  exists i p1 p2,
    nth_error l i = Some p1 /\ nth_error l (S i) = Some p2
    /\ Segment.x p1 <= worldX <= Segment.x p2.
Proof.
  revert first. induction l as [|a l IH]; intros first Hs Hf Hl Hx Hlt;
    [discriminate|].
  cbn in Hf. injection Hf as ->.
  destruct l as [|b l].
  - cbn in Hl. injection Hl as ->. lra.
  - rewrite lastOf_cons in Hl. destruct Hs as [Hab Hs].
    destruct (Rle_dec worldX (Segment.x b)) as [Hle|Hgt].
    + exists 0%nat, first, b. repeat split; try reflexivity; lra.
    + destruct (IH b Hs eq_refl Hl) as (i & p1 & p2 & H1 & H2 & H3).
      * lra.
      * lra.
      * exists (S i), p1, p2. auto.
Qed.

Lemma extendTerrain_head (s : Game) (first : Segment.t) :
  hd_error (World.terrain (world s)) = Some first ->
  hd_error (World.terrain (world (extendTerrain s))) = Some first.
Proof.
  intros Hf.
  destruct (extendTerrain_generated s)
    as (_ & _ & _ & _ & _ & _ & _ & (l & ->) & _).
  destruct (World.terrain (world s)); [discriminate | exact Hf].
Qed.

Lemma updateTerrain_startsBehind (p m : Game) :
  updateTerrain p = Some m ->
  stepped (World.terrain (world p)) ->
  (forall first,
      hd_error (World.terrain (world p)) = Some first ->
      Segment.x first <= Rmax 0 (World.terrainOffset (world p) - 70)) ->
  startsBehind m.
Proof.
  intros Hu Hs Hb. rewrite (updateTerrain_eq _ _ Hu).
  set (limit := World.terrainOffset (world p) - 100).
  set (shifted := with_world _ p).
  pose proof (extendTerrain_generated shifted)
    as (_ & _ & _ & _ & _ & _ & Go & _).
  unfold startsBehind. simpl_fields. rewrite Go.
  replace (World.terrainOffset (world shifted))
    with (World.terrainOffset (world p)) by reflexivity.
  intros first' Hf'.
  destruct (hd_error (World.terrain (world shifted))) as [f1|] eqn:Hf1.
  - rewrite (extendTerrain_head shifted f1 Hf1) in Hf'. injection Hf' as <-.
    destruct (hd_error (World.terrain (world p))) as [f0|] eqn:Hf0.
    + pose proof (shiftBehind_head limit _ f0 f1 Hs Hf0 Hf1) as H.
      specialize (Hb f0 eq_refl). unfold limit, HILL_SEGMENT_WIDTH in H.
      unfold Rmax in *. repeat destruct (Rle_dec _ _); lra.
    + exfalso. unfold shifted in Hf1. simpl_fields_in Hf1.
      destruct (World.terrain (world p)); discriminate.
  - exfalso. unfold updateTerrain in Hu. cbv zeta in Hu.
    fold limit in Hu. fold shifted in Hu.
    unfold lastSegment in Hu.
    destruct (World.terrain (world shifted)); discriminate.
Qed.

Lemma tick_coverInv (k : Keys.t) (s s' : Game) :
  tick k s = Some s' -> coverInv s -> coverInv s'.
Proof.
  intros Ht ([Hinv Hbounds] & Hy & Hb & [Hx Ho]).
  pose proof (tick_tidy _ _ _ Ht (conj Hy (proj2 Hbounds))) as [Hy' _].
  destruct (tick_score _ _ _ Ht) as [Ho' _].
  destruct (tick_cases _ _ _ Ht) as [[_ ->] | (Hp & m & Hu & ->)].
  - exact (conj (conj Hinv Hbounds) (conj Hy' (conj Hb (conj Hx Ho)))).
  - set (s0 := with_keys k s) in *.
    destruct (gameLoop_window s0 Hp Hinv) as (m' & Hu' & _ & Hinv' & Hbounds').
    assert (m' = m) by congruence. subst m'.
    destruct (frame_keeps _ _ Hu) as (Kw & Kc & _ & Ko & _).
    cbv zeta in Kw, Kc, Ko.
    destruct (updatePhysics_scroll s0) as (Pw & Pt & [Po _] & _).
    pose proof (updatePhysics_band s0) as Px.
    split; [split; assumption|]. split; [exact Hy'|]. split.
    + assert (Hm : startsBehind m).
      { apply (updateTerrain_startsBehind _ _ Hu).
        - rewrite Pt. apply Hy.
        - rewrite Pt. intros first Hf. specialize (Hb first Hf).
          change (World.terrainOffset (world s0))
            with (World.terrainOffset (world s)) in Po.
          unfold Rmax in *. repeat destruct (Rle_dec _ _); lra. }
      destruct (checkPickups_eq m) as (_ & _ & Cworld).
      destruct (finishFrame_frame (checkPickups m))
        as (_ & _ & _ & _ & Fworld & _).
      unfold startsBehind in *. rewrite Fworld, Cworld. simpl_fields.
      exact Hm.
    + unfold carInView. rewrite Kc, Kw, Pw.
      change (canvas_width s0) with (canvas_width s) in *.
      split; [|lra].
      unfold Rmax in *. repeat destruct (Rle_dec _ _); lra.
Qed.

Lemma resetGame_coverInv (g : Game) :
  0 <= canvas_width g -> coverInv (resetGame g).
Proof.
  intros Hw. destruct (resetGame_window g Hw) as [Hinv Hbounds].
  destruct (resetGame_tidy g) as [Hy _].
  destruct (resetGame_run g) as (_ & Ho & Hc & _ & _ & Hcw).
  split; [split; assumption|]. split; [exact Hy|]. split.
  - unfold startsBehind. rewrite Ho. unfold resetGame.
    match goal with |- context [generateTerrain ?g] => set (g0 := g) end.
    change (forall first,
               hd_error (World.terrain (world (generateTerrain g0)))
               = Some first ->
               Segment.x first <= Rmax 0 (0 - 70)).
    pose proof (generateTerrain_xs g0) as Hxs.
    destruct (World.terrain (world (generateTerrain g0))) as [|a l];
      [discriminate|].
    destruct (Z.to_nat _) as [|n] in Hxs; [discriminate|].
    cbn [map seq] in Hxs. injection Hxs as Ha _.
    intros first [= <-]. rewrite Ha. cbn [INR].
    unfold Rmax. destruct (Rle_dec _ _); lra.
  - unfold carInView. rewrite Hc, Ho. cbn [Car.x]. split; [|lra].
    split; [lra | apply Rmax_l].
Qed.

(** X25.  From the start of a run on a canvas of width at least 0 and
    through any frames, every world x from max(0, terrainOffset - 70) to
    terrainOffset + canvas.width + 70 lies between two neighbouring
    samples of the buffer, so getTerrainHeightAt interpolates there and
    never falls back to the base height; on a canvas at least 150 wide
    both wheels are over that stretch. *)
Theorem the_buffer_covers_the_screen (g s' : Game) (ks : list Keys.t) :
  0 <= canvas_width g ->
  ticks ks (resetGame g) = Some s' ->
  (forall worldX,
      Rmax 0 (World.terrainOffset (world s') - 70) <= worldX
      <= World.terrainOffset (world s') + canvas_width s' + 70 ->
      exists i p1 p2,
        nth_error (World.terrain (world s')) i = Some p1
        /\ nth_error (World.terrain (world s')) (S i) = Some p2
        /\ Segment.x p1 <= worldX <= Segment.x p2
        /\ getTerrainHeightAt worldX s'
           = Segment.y p1
             + (Segment.y p2 - Segment.y p1)
               * ((worldX - Segment.x p1) / (Segment.x p2 - Segment.x p1)))
  /\ (150 <= canvas_width g ->
      let c := car (updateWheelPositions s') in
      let left := Rmax 0 (World.terrainOffset (world s') - 70) in
      let right := World.terrainOffset (world s') + canvas_width s' + 70 in
      left <= Wheel.x (Car.front c) + World.terrainOffset (world s') <= right
      /\ left <= Wheel.x (Car.back c) + World.terrainOffset (world s')
         <= right).
Proof.
  intros Hw Ht.
  assert (H : coverInv s' /\ canvas_width s' = canvas_width g).
  { revert Ht.
    apply (ticks_invariant
             (fun s => coverInv s /\ canvas_width s = canvas_width g)).
    - intros k s s1 [Hc Hcw] Hk. split; [eapply tick_coverInv; eauto|].
      destruct (tick_cases _ _ _ Hk) as [[_ ->] | (_ & m & Hu & ->)];
        [exact Hcw|].
      destruct (frame_keeps _ _ Hu) as (-> & _).
      destruct (updatePhysics_scroll (with_keys k s)) as (-> & _).
      exact Hcw.
    - split; [now apply resetGame_coverInv|].
      now destruct (resetGame_run g) as (_ & _ & _ & _ & _ & ->). }
  destruct H as [([_ [(last & Hl & Hlast) _]] & [Hs _] & Hb & [Hx Ho]) Hcw].
  unfold HILL_SEGMENT_WIDTH in Hlast.
  split.
  - intros worldX Hin.
    destruct (hd_error (World.terrain (world s'))) as [first|] eqn:Hf.
    2:{ unfold lastSegment in Hl.
        destruct (World.terrain (world s')); discriminate. }
    specialize (Hb first Hf).
    assert (Hfl : Segment.x first < Segment.x last).
    { rewrite Hcw in *. unfold Rmax in *.
      repeat destruct (Rle_dec _ _); lra. }
    destruct (stepped_bracket _ first last worldX Hs Hf Hl)
      as (i & p1 & p2 & H1 & H2 & H3); [lra | exact Hfl |].
    exists i, p1, p2. split; [exact H1|]. split; [exact H2|].
    split; [exact H3|].
    unfold getTerrainHeightAt.
    rewrite (scan_bracket _ i p1 p2 worldX _ (stepped_ascending _ Hs) H1 H2 H3).
    reflexivity.
  - intros Hw150. cbv zeta. unfold updateWheelPositions. simpl_fields.
    unfold Car.width. rewrite Hcw in *.
    pose proof (COS_bound (Car.rotation (car s'))) as Hcos.
    unfold Rmax in *. repeat destruct (Rle_dec _ _); split; split; nra.
Qed.

Lemma the_buffer_covers_the_screen_witness :
  exists s',
    ticks [noKeys; forwardKey; forwardKey] (resetGame strandedInAir) = Some s'
    /\ (forall worldX,
           Rmax 0 (World.terrainOffset (world s') - 70) <= worldX
           <= World.terrainOffset (world s') + canvas_width s' + 70 ->
           exists i p1 p2,
             nth_error (World.terrain (world s')) i = Some p1
             /\ nth_error (World.terrain (world s')) (S i) = Some p2
             /\ Segment.x p1 <= worldX <= Segment.x p2
             /\ getTerrainHeightAt worldX s'
                = Segment.y p1
                  + (Segment.y p2 - Segment.y p1)
                    * ((worldX - Segment.x p1)
                       / (Segment.x p2 - Segment.x p1))).
Proof.
  assert (Hw : 0 <= canvas_width strandedInAir) by (cbn; lra).
  destruct (resetGame_window strandedInAir Hw) as [Hinv Hbounds].
  destruct (ticks_window [noKeys; forwardKey; forwardKey] _ Hinv Hbounds)
    as (s' & Ht & _).
  exists s'. split; [exact Ht|].
  exact (proj1 (the_buffer_covers_the_screen strandedInAir s'
                  [noKeys; forwardKey; forwardKey] Hw Ht)).
Defined.

(** ** A change of theme *)

(** [updateBackground] reads the score and writes the three background
    variables only. *)
Lemma updateBackground_frame (s : Game) :
  targetIndex (updateBackground s) = targetIndex s
  /\ Run.score (run (updateBackground s)) = Run.score (run s).
Proof.
  unfold targetIndex, updateBackground. cbv zeta.
  split_tests; split; reflexivity.
Qed.

Lemma updateBackground_fading (s : Game) :
  targetIndex s <> Run.currentBackgroundIndex (run s) ->
  Run.backgroundTransition (run s) + 0.01 < 1 ->
  scenery (run (updateBackground s))
  = (Run.currentBackgroundIndex (run s), targetIndex s,
     Run.backgroundTransition (run s) + 0.01).
Proof.
  intros Hne Hlt. unfold scenery, targetIndex, updateBackground in *.
  cbv zeta. unfold Rmin, JS.eqb.
  destruct (Req_dec_T _ _) as [He|_]; [contradiction|]. cbn [negb].
  destruct (Rle_dec _ _) as [Hle|_]; [lra|].
  destruct (_ >=? _) eqn:Hge; [apply geb_true in Hge; lra|].
  reflexivity.
Qed.

Lemma updateBackground_switch (s : Game) :
  targetIndex s <> Run.currentBackgroundIndex (run s) ->
  1 <= Run.backgroundTransition (run s) + 0.01 ->
  scenery (run (updateBackground s)) = (targetIndex s, targetIndex s, 0).
Proof.
  intros Hne Hlt. unfold scenery, targetIndex, updateBackground in *.
  cbv zeta. unfold Rmin, JS.eqb.
  destruct (Req_dec_T _ _) as [He|_]; [contradiction|]. cbn [negb].
  destruct (Rle_dec _ _) as [Hle|Hn].
  - destruct (_ >=? _) eqn:Hge; [reflexivity|].
    apply geb_false in Hge. lra.
  - destruct (_ >=? _) eqn:Hge; [reflexivity|].
    apply geb_false in Hge. lra.
Qed.

Lemma updateBackground_fade_iter (s : Game) (n : nat) :
  targetIndex s <> Run.currentBackgroundIndex (run s) ->
  Run.backgroundTransition (run s) = 0 ->
  (n < 99)%nat ->
  targetIndex (Nat.iter (S n) updateBackground s) = targetIndex s
  /\ scenery (run (Nat.iter (S n) updateBackground s))
     = (Run.currentBackgroundIndex (run s), targetIndex s, INR (S n) * 0.01).
Proof.
  intros Hne H0. induction n as [|n IH]; intros Hn.
  - cbn [Nat.iter nat_rect]. split; [apply (updateBackground_frame s)|].
    rewrite updateBackground_fading by (auto; lra).
    rewrite H0. cbn [INR]. f_equal. lra.
  - destruct IH as [IHt IHs]; [lia|].
    rewrite Nat.iter_succ.
    set (m := Nat.iter (S n) updateBackground s) in *.
    pose proof (f_equal snd IHs) as Hp.
    pose proof (f_equal (fun p => fst (fst p)) IHs) as Hc.
    unfold scenery in Hp, Hc. cbn [fst snd] in Hp, Hc.
    assert (Hb : INR (S n) <= 98).
    { replace 98 with (INR 98) by (cbn; lra). apply le_INR. lia. }
    split.
    + destruct (updateBackground_frame m) as (-> & _). exact IHt.
    + rewrite updateBackground_fading.
      * rewrite Hc, IHt, Hp. rewrite (S_INR (S n)). f_equal. lra.
      * rewrite IHt, Hc. exact Hne.
      * rewrite Hp. lra.
Qed.

(** X26.  When the score asks for another theme than the current one and
    the transition is at 0, n calls of updateBackground (1 <= n < 100)
    leave the current theme, aim at the new one and put the transition
    within 0.005 of n * 0.01; the 100th call switches to the new theme
    and resets the transition to 0, after which updateBackground changes
    nothing. *)
Theorem theme_change_takes_100_calls (s : Game) :
  targetIndex s <> Run.currentBackgroundIndex (run s) ->
  Run.backgroundTransition (run s) = 0 ->
  (forall n,
      (1 <= n < 100)%nat ->
      let r := run (Nat.iter n updateBackground s) in
      Run.currentBackgroundIndex r = Run.currentBackgroundIndex (run s)
      /\ Run.nextBackgroundIndex r = targetIndex s
      /\ INR n * 0.01 - 0.005 < Run.backgroundTransition r
         < INR n * 0.01 + 0.005)
  /\ scenery (run (Nat.iter 100 updateBackground s))
     = (targetIndex s, targetIndex s, 0)
  /\ updateBackground (Nat.iter 100 updateBackground s)
     = Nat.iter 100 updateBackground s.
Proof.
  intros Hne H0.
  assert (H99 : forall n, (1 <= n < 100)%nat ->
            targetIndex (Nat.iter n updateBackground s) = targetIndex s
            /\ scenery (run (Nat.iter n updateBackground s))
               = (Run.currentBackgroundIndex (run s), targetIndex s,
                  INR n * 0.01)).
  { intros [|n] Hn; [lia|]. apply updateBackground_fade_iter; auto. lia. }
  split.
  { intros n Hn. cbv zeta. destruct (H99 n Hn) as [_ Hs].
    pose proof (f_equal snd Hs) as Hp.
    pose proof (f_equal (fun p => fst (fst p)) Hs) as Hc.
    pose proof (f_equal (fun p => snd (fst p)) Hs) as Hx.
    unfold scenery in Hp, Hc, Hx. cbn [fst snd] in Hp, Hc, Hx.
    rewrite Hc, Hx, Hp. repeat split; lra. }
  destruct (H99 99%nat ltac:(lia)) as [Ht Hs].
  change (Nat.iter 100 updateBackground s)
    with (updateBackground (Nat.iter 99 updateBackground s)).
  set (m := Nat.iter 99 updateBackground s) in *.
  pose proof (f_equal snd Hs) as Hp.
  pose proof (f_equal (fun p => fst (fst p)) Hs) as Hc.
  unfold scenery in Hp, Hc. cbn [fst snd] in Hp, Hc.
  assert (Hsw : scenery (run (updateBackground m))
                = (targetIndex s, targetIndex s, 0)).
  { rewrite updateBackground_switch.
    - now rewrite Ht.
    - rewrite Ht, Hc. exact Hne.
    - rewrite Hp. replace (INR 99) with 99; [lra|].
      change 99%nat with (Z.to_nat 99).
      rewrite INR_IZR_INZ, Z2Nat.id; [reflexivity | lia]. }
  split; [exact Hsw|].
  destruct (updateBackground_frame m) as (Ht' & _).
  pose proof (f_equal (fun p => fst (fst p)) Hsw) as Hc'.
  unfold scenery in Hc'. cbn [fst snd] in Hc'.
  set (m' := updateBackground m) in *.
  unfold updateBackground. cbv zeta. fold (targetIndex m').
  rewrite Ht', Ht, Hc'. unfold JS.eqb.
  destruct (Req_dec_T _ _) as [_|Hn]; [reflexivity | contradiction].
Qed.

Lemma secondTheme_target : targetIndex secondTheme = 1.
Proof.
  unfold targetIndex, secondTheme. simpl_fields.
  unfold BACKGROUND_CHANGE_DISTANCE, BACKGROUNDS_length, JS.floor.
  rewrite (Zfloor_eq 1) by (cbn; lra).
  unfold JS.rem, JS.trunc, JS.floor.
  destruct (_ <? _) eqn:Hl; [apply ltb_true in Hl; lra|].
  rewrite (Zfloor_eq 0) by (cbn; lra). lra.
Qed.

Lemma theme_change_takes_100_calls_witness :
  scenery (run (Nat.iter 100 updateBackground secondTheme)) = (1, 1, 0).
Proof.
  destruct (theme_change_takes_100_calls secondTheme) as (_ & H & _).
  - rewrite secondTheme_target. cbn. lra.
  - reflexivity.
  - rewrite secondTheme_target in H. exact H.
Defined.

(** ** What is spawned later *)

Section Later.
Context {A : Type} (items : Game -> list A) (cursor : Game -> R)
  (pos : A -> R) (gap : R).

Lemma later_refl (s : Game) : later items cursor pos gap s s.
Proof.
  split; [lra|]. apply Forall_forall. intros a Ha. now left.
Qed.

Lemma later_trans (s1 s2 s3 : Game) :
  later items cursor pos gap s1 s2 -> later items cursor pos gap s2 s3 ->
  later items cursor pos gap s1 s3.
Proof.
  intros [H1 F1] [H2 F2]. split; [lra|].
  rewrite Forall_forall in *. intros a Ha.
  destruct (F2 a Ha) as [Hin|Hfar]; [now apply F1 | right; lra].
Qed.

Lemma later_view (s s1 s2 : Game) :
  items s2 = items s1 -> cursor s2 = cursor s1 ->
  later items cursor pos gap s s1 -> later items cursor pos gap s s2.
Proof. unfold later. intros -> ->. auto. Qed.

Lemma later_from (s s' s1 : Game) :
  items s' = items s -> cursor s' = cursor s ->
  later items cursor pos gap s s1 -> later items cursor pos gap s' s1.
Proof. unfold later. intros -> ->. auto. Qed.

Lemma later_kept (f : A -> bool) (s s1 s2 : Game) :
  items s2 = filter f (items s1) -> cursor s2 = cursor s1 ->
  later items cursor pos gap s s1 -> later items cursor pos gap s s2.
Proof.
  unfold later. intros -> -> [H F]. split; [exact H|].
  rewrite Forall_forall in *. intros a Ha. apply F.
  now apply filter_In in Ha.
Qed.

Lemma later_spawn (a : A) (s s1 s2 : Game) :
  items s2 = items s1 ++ [a] ->
  cursor s1 <= cursor s2 ->
  cursor s1 + gap <= pos a ->
  later items cursor pos gap s s1 -> later items cursor pos gap s s2.
Proof.
  unfold later. intros -> Hc Ha [H F]. split; [lra|].
  apply Forall_app. split; [exact F|].
  constructor; [right; lra | constructor].
Qed.

End Later.

Lemma spawnedLater_refl (s : Game) : spawnedLater s s.
Proof. split; [|split]; apply later_refl. Qed.

Lemma spawnedLater_trans (s1 s2 s3 : Game) :
  spawnedLater s1 s2 -> spawnedLater s2 s3 -> spawnedLater s1 s3.
Proof.
  intros (B1 & F1 & O1) (B2 & F2 & O2).
  split; [|split]; eapply later_trans; eauto.
Qed.

(** The relation reads the three views only. *)
Lemma spawnedLater_view (s s1 s2 : Game) :
  bridgeView s2 = bridgeView s1 -> fuelView s2 = fuelView s1 ->
  boostView s2 = boostView s1 ->
  spawnedLater s s1 -> spawnedLater s s2.
Proof.
  unfold bridgeView, fuelView, boostView.
  intros Hb Hf Ho (B & F & O).
  injection Hb as Hb1 Hb2 _. injection Hf as Hf1 Hf2 _.
  injection Ho as Ho1 Ho2 _.
  split; [|split].
  - apply (later_view _ _ _ _ s s1 s2); auto.
  - apply (later_view _ _ _ _ s s1 s2); auto.
  - apply (later_view _ _ _ _ s s1 s2); auto.
Qed.

Lemma spawnedLater_from (s s' s1 : Game) :
  bridgeView s' = bridgeView s -> fuelView s' = fuelView s ->
  boostView s' = boostView s ->
  spawnedLater s s1 -> spawnedLater s' s1.
Proof.
  unfold bridgeView, fuelView, boostView.
  intros Hb Hf Ho (B & F & O).
  injection Hb as Hb1 Hb2 _. injection Hf as Hf1 Hf2 _.
  injection Ho as Ho1 Ho2 _.
  split; [|split].
  - apply (later_from _ _ _ _ s s' s1); auto.
  - apply (later_from _ _ _ _ s s' s1); auto.
  - apply (later_from _ _ _ _ s s' s1); auto.
Qed.

Lemma spawnInv_view (s s' : Game) :
  bridgeView s' = bridgeView s -> fuelView s' = fuelView s ->
  boostView s' = boostView s -> (forall n, random s' n = random s n) ->
  spawnInv s -> spawnInv s'.
Proof.
  intros Hb Hf Ho Hr (Bi & Si & Hd). split; [|split].
  - now apply (bridgeInv_view s).
  - now apply (supplyInv_view s).
  - intros n. rewrite Hr. apply Hd.
Qed.

Lemma spawn_crossViews (x y : R) (s : Game) :
  boostView (spawnFuel x y s) = boostView s
  /\ fuelView (spawnBoost x y s) = fuelView s.
Proof.
  unfold spawnFuel, spawnBoost, drawThreshold, Math_random, fuelView,
    boostView.
  split; split_tests; reflexivity.
Qed.

Lemma spawnBridge_later (x y : R) (b : bool) (s : Game) :
  bridgeInv s -> nonnegDraws s -> bridgesLater s (spawnBridge x y b s).
Proof.
  intros (_ & _ & Hnext) Hd. unfold spawnBridge.
  destruct ((x >=? Spawn.lastBridgeX (spawn s) + Spawn.nextBridgeX (spawn s))
            && negb b) eqn:Hc; [|apply later_refl].
  apply andb_true_iff in Hc as [Hc _]. apply geb_true in Hc.
  unfold drawThreshold, Math_random.
  match goal with
  | |- bridgesLater s ?t =>
      apply (later_spawn _ _ _ _
               {| Bridge.startX := x; Bridge.endX := x + BRIDGE_LENGTH;
                  Bridge.y := y;
                  Bridge.type :=
                    if random s 0 >? 0.5 then "wooden"%string
                    else "metal"%string |} s s t)
  end; simpl_fields; cbn [Bridge.startX Pickup.x Boost.x].
  - reflexivity.
  - unfold BRIDGE_MIN_DISTANCE in *. lra.
  - unfold BRIDGE_MIN_DISTANCE in *. lra.
  - apply later_refl.
Qed.

Lemma spawnFuel_later (x y : R) (s : Game) :
  supplyInv s -> nonnegDraws s -> fuelLater s (spawnFuel x y s).
Proof.
  intros [(_ & _ & Hnext) _] Hd. unfold spawnFuel.
  destruct (x >=? Spawn.lastFuelSpawnX (spawn s)
                  + Spawn.nextFuelSpawnPx (spawn s)) eqn:Hc;
    [|apply later_refl].
  apply geb_true in Hc. unfold drawThreshold, Math_random.
  match goal with
  | |- fuelLater s ?t =>
      apply (later_spawn _ _ _ _
               {| Pickup.x := x + HILL_SEGMENT_WIDTH * 0.5;
                  Pickup.y := y - 15; Pickup.collected := false |} s s t)
  end; simpl_fields; cbn [Bridge.startX Pickup.x Boost.x].
  - reflexivity.
  - unfold FUEL_SPAWN_MIN_M in *. lra.
  - unfold FUEL_SPAWN_MIN_M in *. lra.
  - apply later_refl.
Qed.

Lemma spawnBoost_later (x y : R) (s : Game) :
  supplyInv s -> nonnegDraws s -> boostsLater s (spawnBoost x y s).
Proof.
  intros [_ (_ & _ & Hnext)] Hd. unfold spawnBoost.
  destruct (x >=? Spawn.lastBoostSpawnX (spawn s)
                  + Spawn.nextBoostSpawnPx (spawn s)) eqn:Hc;
    [|apply later_refl].
  apply geb_true in Hc. unfold drawThreshold, Math_random.
  match goal with
  | |- boostsLater s ?t =>
      apply (later_spawn _ _ _ _
               {| Boost.x := x + HILL_SEGMENT_WIDTH * 0.5;
                  Boost.y := y - 5; Boost.collected := false;
                  Boost.active := false |} s s t)
  end; simpl_fields; cbn [Bridge.startX Pickup.x Boost.x].
  - reflexivity.
  - unfold BOOST_SPAWN_MIN in *. lra.
  - unfold BOOST_SPAWN_MIN in *. lra.
  - apply later_refl.
Qed.

Lemma views_later (s s' : Game) :
  bridgeView s' = bridgeView s -> fuelView s' = fuelView s ->
  boostView s' = boostView s -> spawnedLater s s'.
Proof.
  intros Hb Hf Ho.
  apply (spawnedLater_view s s s'); auto. apply spawnedLater_refl.
Qed.

Lemma addTerrainSegment_spawnInv (x index : R) (s : Game) :
  spawnInv s -> spawnInv (addTerrainSegment x index s).
Proof.
  intros (Bi & Si & Hd). split; [|split].
  - now apply addTerrainSegment_bridgeInv.
  - now apply addTerrainSegment_supplyInv.
  - eapply generated_draws; [apply addTerrainSegment_generated | exact Hd].
Qed.

Lemma addTerrainSegment_later (x index : R) (s : Game) :
  spawnInv s -> spawnedLater s (addTerrainSegment x index s).
Proof.
  intros (Bi & Si & Hd). rewrite addTerrainSegment_eq. cbv zeta.
  set (y := fst (segmentHeight x index s)).
  set (b := existsb (spans x) (World.bridges (world s))).
  set (p := Segment.mk x y b).
  set (s1 := snd (segmentHeight x index s)).
  set (s2 := pushSegment p s1).
  set (s3 := spawnBridge x y b s2).
  set (s4 := spawnFuel x y s3).
  set (s5 := spawnBoost x y s4).
  (* the views of the stages *)
  destruct (stages_bridgeView x index y p s) as (Vb1 & _).
  destruct (stages_bridgeView x index y p s1) as (_ & Vb2 & _).
  destruct (stages_bridgeView x index y p s3) as (_ & _ & Vb4 & _).
  destruct (stages_bridgeView x index y p s4) as (_ & _ & _ & Vb5 & _).
  destruct (stages_bridgeView x index y p s5) as (_ & _ & _ & _ & Vb6).
  destruct (stages_supplyView x index y b p s) as ([Vf1 Vo1] & _).
  destruct (stages_supplyView x index y b p s1) as (_ & [Vf2 Vo2] & _).
  destruct (stages_supplyView x index y b p s2) as (_ & _ & [Vf3 Vo3] & _).
  destruct (stages_supplyView x index y b p s5) as (_ & _ & _ & [Vf6 Vo6]).
  destruct (spawn_crossViews x y s3) as [Vo4 _].
  destruct (spawn_crossViews x y s4) as [_ Vf5].
  fold s1 in Vb1, Vf1, Vo1. fold s2 in Vb2, Vf2, Vo2.
  fold s3 in Vf3, Vo3, Vb4. fold s4 in Vb4, Vo4, Vb5, Vf5.
  fold s5 in Vb5, Vf5, Vb6, Vf6, Vo6.
  (* the draws of the stages *)
  assert (G2 : generated s s2).
  { eapply generated_trans;
      [apply segmentHeight_generated | apply pushSegment_generated]. }
  assert (G3 : generated s s3).
  { eapply generated_trans; [exact G2 | apply spawnBridge_generated]. }
  assert (G4 : generated s s4).
  { eapply generated_trans; [exact G3 | apply spawnFuel_generated]. }
  assert (D2 : nonnegDraws s2) by (eapply generated_draws; eauto).
  assert (D3 : nonnegDraws s3) by (eapply generated_draws; eauto).
  assert (D4 : nonnegDraws s4) by (eapply generated_draws; eauto).
  (* the invariants of the stages *)
  assert (B2 : bridgeInv s2)
    by (apply (bridgeInv_view s); [congruence | exact Bi]).
  assert (S3 : supplyInv s3)
    by (apply (supplyInv_view s); [congruence | congruence | exact Si]).
  pose proof (spawnFuel_inv x y s3 S3 D3) as S4. fold s4 in S4.
  (* what each spawn adds *)
  pose proof (spawnBridge_later x y b s2 B2 D2) as L3. fold s3 in L3.
  pose proof (spawnFuel_later x y s3 S3 D3) as L4. fold s4 in L4.
  pose proof (spawnBoost_later x y s4 S4 D4) as L5. fold s5 in L5.
  unfold bridgeView, fuelView, boostView in *.
  split; [|split].
  - apply (later_view _ _ _ _ s s3); [congruence | congruence |].
    apply (later_from _ _ _ _ s2 s s3); [congruence | congruence | exact L3].
  - apply (later_view _ _ _ _ s s4); [congruence | congruence |].
    apply (later_from _ _ _ _ s3 s s4); [congruence | congruence | exact L4].
  - apply (later_view _ _ _ _ s s5); [congruence | congruence |].
    apply (later_from _ _ _ _ s4 s s5); [congruence | congruence | exact L5].
Qed.

Lemma extendTerrain_later (s : Game) :
  spawnInv s -> spawnInv (extendTerrain s) /\ spawnedLater s (extendTerrain s).
Proof.
  intros Hi.
  apply (extendTerrain_invariant (fun m => spawnInv m /\ spawnedLater s m));
    [|split; [exact Hi | apply spawnedLater_refl]].
  intros m last _ _ [Hm Hl]. split.
  - now apply addTerrainSegment_spawnInv.
  - eapply spawnedLater_trans; [exact Hl|].
    now apply addTerrainSegment_later.
Qed.

Lemma updateTerrain_later (s s' : Game) :
  updateTerrain s = Some s' ->
  spawnInv s -> spawnInv s' /\ spawnedLater s s'.
Proof.
  intros Hu (Bi & Si & Hd).
  destruct (updateTerrain_bridgeInv _ _ Hu Bi Hd) as [Bi' Hd'].
  destruct (updateTerrain_supplyInv _ _ Hu Si Hd) as [Si' _].
  split; [split; [|split]; assumption|].
  rewrite (updateTerrain_eq _ _ Hu).
  set (shifted := with_world _ s).
  destruct (extendTerrain_later shifted) as [_ (B & F & O)];
    [split; [|split]; assumption|].
  split; [|split].
  - apply (later_from _ _ _ _ shifted s); [reflexivity | reflexivity |].
    eapply later_kept; [| |exact B]; reflexivity.
  - apply (later_from _ _ _ _ shifted s); [reflexivity | reflexivity |].
    eapply later_view; [| |exact F]; reflexivity.
  - apply (later_from _ _ _ _ shifted s); [reflexivity | reflexivity |].
    eapply later_view; [| |exact O]; reflexivity.
Qed.

(** The physics step leaves the views of the spawns and the draws
    alone. *)
Lemma updatePhysics_views (k : Keys.t) (s : Game) :
  let p := updatePhysics (with_keys k s) in
  bridgeView p = bridgeView s /\ fuelView p = fuelView s
  /\ boostView p = boostView s /\ random p = random s.
Proof.
  cbv zeta. set (s0 := with_keys k s).
  destruct (checkGameOver_frame (integrate s0)) as (_ & Pworld & Psur & _).
  destruct (integrate_frame s0) as (Isur & _ & Icon).
  unfold surroundings, contents in *. subst s0.
  simpl_fields_in Isur. simpl_fields_in Icon.
  set (s0 := with_keys k s) in *.
  assert (Hsp : spawn (updatePhysics s0) = spawn s)
    by (unfold updatePhysics; congruence).
  assert (Hw : world (updatePhysics s0) = world (integrate s0))
    by (unfold updatePhysics; exact Pworld).
  unfold bridgeView, fuelView, boostView. rewrite Hsp, Hw.
  replace (World.bridges (world (integrate s0)))
    with (World.bridges (world s)) by congruence.
  replace (World.fuelPickups (world (integrate s0)))
    with (World.fuelPickups (world s)) by congruence.
  replace (World.boosts (world (integrate s0)))
    with (World.boosts (world s)) by congruence.
  repeat split. unfold updatePhysics. congruence.
Qed.

Lemma tick_later (k : Keys.t) (s s' : Game) :
  spawnInv s -> tick k s = Some s' -> spawnInv s' /\ spawnedLater s s'.
Proof.
  intros (Bi & Si & Hd) Ht.
  destruct (tick_bridgeInv _ _ _ Bi Hd Ht) as [Bi' Hd'].
  destruct (tick_supplyInv _ _ _ Si Hd Ht) as [Si' _].
  split; [split; [|split]; assumption|].
  destruct (tick_cases _ _ _ Ht) as [[_ ->] | (_ & m & Hu & ->)];
    [apply views_later; reflexivity|].
  destruct (updatePhysics_views k s) as (Vb & Vf & Vo & Vr).
  cbv zeta in Vb, Vf, Vo, Vr.
  set (p := updatePhysics (with_keys k s)) in *.
  assert (Hp : spawnInv p).
  { apply (spawnInv_view s); auto; [|split; [|split]; assumption].
    intros n. now rewrite Vr. }
  destruct (updateTerrain_later _ _ Hu Hp) as [_ Hl].
  apply (spawnedLater_from p s); auto.
  destruct Hl as (B & F & O).
  destruct (checkPickups_eq m) as ((_ & _ & _ & Cspawn & _) & _ & Cworld).
  destruct (finishFrame_frame (checkPickups m))
    as (_ & _ & _ & Fspawn & Fworld & _).
  cbv zeta in Cworld.
  split; [|split].
  - eapply later_view; [| |exact B].
    + now rewrite Fworld, Cworld.
    + now rewrite Fspawn, Cspawn.
  - eapply later_kept; [| |exact F].
    + rewrite Fworld, Cworld. simpl_fields. apply filter_marked.
    + now rewrite Fspawn, Cspawn.
  - eapply later_kept; [| |exact O].
    + rewrite Fworld, Cworld. simpl_fields. apply filter_marked_boosts.
    + now rewrite Fspawn, Cspawn.
Qed.

Lemma ticks_later (ks : list Keys.t) (s s' : Game) :
  spawnInv s -> ticks ks s = Some s' -> spawnInv s' /\ spawnedLater s s'.
Proof.
  revert s. induction ks as [|k ks IH]; intros s Hi Ht.
  - injection Ht as <-. split; [exact Hi | apply spawnedLater_refl].
  - cbn [ticks] in Ht. destruct (tick k s) as [s1|] eqn:Hk; [|discriminate].
    destruct (tick_later _ _ _ Hi Hk) as [Hi1 Hl1].
    destruct (IH _ Hi1 Ht) as [Hi' Hl'].
    split; [exact Hi'|]. eapply spawnedLater_trans; eauto.
Qed.

Lemma resetGame_spawnInv (g : Game) :
  nonnegDraws g -> spawnInv (resetGame g).
Proof.
  intros Hd.
  destruct (resetGame_bridgeInv g Hd) as [Bi Hd'].
  destruct (resetGame_supplyInv g Hd) as [Si _].
  split; [|split]; assumption.
Qed.

(** Two elements of a list sorted by a relation are equal or related one
    way or the other. *)
Lemma StronglySorted_In {A : Type} (R : A -> A -> Prop) (l : list A)
  (a b : A) :
  StronglySorted R l -> In a l -> In b l -> a = b \/ R a b \/ R b a.
Proof.
  induction 1 as [|c l Hs IH Hc]; intros Ha Hb; [contradiction|].
  rewrite Forall_forall in Hc.
  destruct Ha as [<-|Ha], Hb as [<-|Hb]; auto.
Qed.

(** ** The distance between the bridges of a run *)

(** C6, as the code has it.  Whatever the draws, as long as none is
    negative: take a bridge [b1] of the list at one moment of a run and a
    bridge [b2] of the list at the same or a later moment that starts
    after [b1].  Their starts are at least [BRIDGE_MIN_DISTANCE * 10]
    apart, since the threshold is measured from [lastBridgeX], the start
    of the last bridge; [b1] is [BRIDGE_LENGTH] long; so from the end of
    [b1] to the start of [b2] there are at least [BRIDGE_MIN_DISTANCE *
    10 - BRIDGE_LENGTH].  The same holds of the bridges of any number of
    segments generated on a fresh terrain.

    The script comments [BRIDGE_MIN_DISTANCE] as the minimum distance
    between bridges, in meters.  The comment does not say between which
    points of the bridges.  The spawn test, [x >= lastBridgeX +
    nextBridgeX] followed by [lastBridgeX = x], measures from start to
    start, as the tests for fuel and boosts measure from pickup to
    pickup.  From start to start the 250 m of the comment hold: that is
    the first inequality. *)
Theorem bridge_spacing (g : Game) :
  (forall n, 0 <= random g n) ->
  (forall ks1 ks2 s1 s2 b1 b2,
      ticks ks1 (resetGame g) = Some s1 ->
      ticks ks2 s1 = Some s2 ->
      In b1 (World.bridges (world s1)) ->
      In b2 (World.bridges (world s2)) ->
      Bridge.startX b1 < Bridge.startX b2 ->
      BRIDGE_MIN_DISTANCE * 10 <= Bridge.startX b2 - Bridge.startX b1
      /\ Bridge.endX b1 = Bridge.startX b1 + BRIDGE_LENGTH
      /\ BRIDGE_MIN_DISTANCE * 10 - BRIDGE_LENGTH
         <= Bridge.startX b2 - Bridge.endX b1)
  /\ (forall n i j b1 b2,
         (i < j)%nat ->
         nth_error
           (World.bridges (world (generateSegments n 0 (prepareTerrain g)))) i
         = Some b1 ->
         nth_error
           (World.bridges (world (generateSegments n 0 (prepareTerrain g)))) j
         = Some b2 ->
         BRIDGE_MIN_DISTANCE * 10 <= Bridge.startX b2 - Bridge.startX b1
         /\ BRIDGE_MIN_DISTANCE * 10 - BRIDGE_LENGTH
            <= Bridge.startX b2 - Bridge.endX b1).
Proof.
  intros Hd. split.
  - intros ks1 ks2 s1 s2 b1 b2 H1 H2 Hb1 Hb2 Hlt.
    destruct (ticks_later ks1 _ _ (resetGame_spawnInv g Hd) H1) as [Hi1 _].
    destruct (ticks_later ks2 _ _ Hi1 H2) as [_ ([_ Hl] & _)].
    destruct Hi1 as ((Hs & Hall & _) & _).
    rewrite Forall_forall in Hall, Hl.
    destruct (Hall b1 Hb1) as [Hc1 He1].
    assert (Hsp : spaced b1 b2).
    { destruct (Hl b2 Hb2) as [Hin|Hfar].
      - destruct (StronglySorted_In _ _ b1 b2 Hs Hb1 Hin) as [->|[H|H]];
          [lra | exact H | unfold spaced, BRIDGE_MIN_DISTANCE in H; lra].
      - unfold spaced. cbn in Hfar. lra. }
    unfold spaced in Hsp. rewrite He1. repeat split; lra.
  - intros n i j b1 b2 Hij H1 H2.
    destruct (prepareTerrain_bridgeInv g Hd) as [Hi Hd'].
    apply (bridgeInv_spacing (generateSegments n 0 (prepareTerrain g)) i j);
      auto.
    now apply generateSegments_bridgeInv.
Qed.

Lemma bridge_spacing_witness :
  (exists b1 b2,
      World.bridges
        (world (generateSegments 152 0 (prepareTerrain strandedInAir)))
      = [b1; b2]
      /\ BRIDGE_MIN_DISTANCE * 10 <= Bridge.startX b2 - Bridge.startX b1
      /\ BRIDGE_MIN_DISTANCE * 10 - BRIDGE_LENGTH
         <= Bridge.startX b2 - Bridge.endX b1)
  /\ exists s1 s2,
      ticks [noKeys; forwardKey] (resetGame strandedInAir) = Some s1
      /\ ticks [forwardKey; forwardKey] s1 = Some s2
      /\ forall b1 b2,
          In b1 (World.bridges (world s1)) ->
          In b2 (World.bridges (world s2)) ->
          Bridge.startX b1 < Bridge.startX b2 ->
          BRIDGE_MIN_DISTANCE * 10 <= Bridge.startX b2 - Bridge.startX b1
          /\ Bridge.endX b1 = Bridge.startX b1 + BRIDGE_LENGTH
          /\ BRIDGE_MIN_DISTANCE * 10 - BRIDGE_LENGTH
             <= Bridge.startX b2 - Bridge.endX b1.
Proof.
  assert (Hd : forall n, 0 <= random strandedInAir n) by (intros n; cbn; lra).
  destruct (bridge_spacing strandedInAir Hd) as [Hrun Hgen].
  split.
  - destruct generateSegments_two_bridges as (_ & b1 & b2 & Hb & _).
    exists b1, b2. split; [exact Hb|].
    apply (Hgen 152%nat 0%nat 1%nat b1 b2);
      [lia | rewrite Hb; reflexivity | rewrite Hb; reflexivity].
  - assert (Hw : 0 <= canvas_width strandedInAir) by (cbn; lra).
    destruct (resetGame_window strandedInAir Hw) as [Hinv Hbounds].
    destruct (ticks_window [noKeys; forwardKey] _ Hinv Hbounds)
      as (s1 & H1 & Hinv1 & Hbounds1).
    destruct (ticks_window [forwardKey; forwardKey] _ Hinv1 Hbounds1)
      as (s2 & H2 & _).
    exists s1, s2. split; [exact H1|]. split; [exact H2|].
    intros b1 b2. now apply (Hrun [noKeys; forwardKey] [forwardKey; forwardKey]).
Defined.

(** ** The bridges of a run whose draws are all 0 *)

Lemma zeroInv_view (x : R) (s s' : Game) :
  bridgeView s' = bridgeView s -> zeroDraws s' ->
  zeroInv x s -> zeroInv x s'.
Proof.
  unfold bridgeView, zeroInv. intros H Hz (_ & Hn & Hall & Hc).
  injection H as -> -> ->. auto.
Qed.

Lemma not_spanned (x : R) (last : R) (l : list Bridge.t) :
  Forall (fun b => onZeroGrid b /\ Bridge.startX b <= last) l ->
  last + BRIDGE_LENGTH < x ->
  existsb (spans x) l = false.
Proof.
  intros Hall Hx. induction Hall as [|b l [(k & _ & He) Hb] _ IH];
    [reflexivity|].
  cbn [existsb]. rewrite IH, orb_false_r. unfold spans.
  rewrite (proj2 (leb_false x (Bridge.endX b))) by lra.
  apply andb_false_r.
Qed.

Lemma addTerrainSegment_zeroInv (x index : R) (s : Game) :
  zeroInv x s -> zeroInv (x + 30) (addTerrainSegment x index s).
Proof.
  intros (Hz & Hn & Hall & Hc).
  destruct (addTerrainSegment_zero x index s Hz) as (y & Hv).
  assert (Hz' : zeroDraws (addTerrainSegment x index s)).
  { eapply generated_zero; [apply addTerrainSegment_generated | exact Hz]. }
  rewrite Hn in Hv.
  destruct Hc as [(Hl & Hb & f & Hf & Hx) | (k & j & Hl & Hj & Hx)].
  - (* no bridge yet *)
    rewrite Hl, Hb in Hv. cbn [existsb negb] in Hv. rewrite andb_true_r in Hv.
    destruct (Nat.eq_dec f 67) as [->|Hne].
    + assert (H67 : INR 67 = 67) by (rewrite INR_IZR_INZ; reflexivity).
      rewrite H67 in Hx.
      rewrite (proj2 (geb_true _ _)) in Hv by lra.
      apply bridgeView_eq in Hv as (B' & L' & N'). cbn [app] in B'.
      split; [exact Hz'|]. split; [exact N'|]. split.
      * rewrite B', L'. constructor; [|constructor].
        split; [|cbn; lra]. exists 0%nat. unfold zeroStart, metalBridge.
        cbn [Bridge.startX Bridge.endX INR]. split; lra.
      * right. exists 0%nat, 0%nat. rewrite L'. unfold zeroStart.
        cbn [INR]. split; [lra|]. split; [lia | lra].
    + assert (Hlt : INR f <= 66).
      { replace 66 with (INR 66) by (rewrite INR_IZR_INZ; reflexivity).
        apply le_INR. lia. }
      rewrite (proj2 (geb_false _ _)) in Hv by lra.
      apply bridgeView_eq in Hv as (B' & L' & N').
      split; [exact Hz'|]. split; [now rewrite N'|]. split.
      * rewrite B', L'. exact Hall.
      * left. rewrite B', L'. split; [exact Hl|]. split; [exact Hb|].
        exists (S f). split; [lia|]. rewrite S_INR. lra.
  - (* after the bridge at [zeroStart k] *)
    destruct (Nat.eq_dec j 83) as [->|Hne].
    + assert (H83 : INR 83 = 83) by (rewrite INR_IZR_INZ; reflexivity).
      rewrite H83 in Hx.
      rewrite (proj2 (geb_true _ _)) in Hv by lra.
      rewrite (not_spanned x _ _ Hall) in Hv
        by (unfold BRIDGE_LENGTH; lra).
      cbn [negb andb] in Hv.
      apply bridgeView_eq in Hv as (B' & L' & N').
      split; [exact Hz'|]. split; [exact N'|]. split.
      * rewrite B', L'. apply Forall_app. split.
        -- eapply Forall_impl; [|exact Hall]. cbn. intros b [Hg Hb].
           split; [exact Hg | lra].
        -- constructor; [|constructor]. split; [|cbn; lra].
           exists (S k). unfold metalBridge. cbn [Bridge.startX Bridge.endX].
           unfold zeroStart in *. rewrite S_INR. split; lra.
      * right. exists (S k), 0%nat. rewrite L'. unfold zeroStart in *.
        rewrite S_INR. cbn [INR]. split; [lra|]. split; [lia | lra].
    + assert (Hlt : INR j <= 82).
      { replace 82 with (INR 82) by (rewrite INR_IZR_INZ; reflexivity).
        apply le_INR. lia. }
      rewrite (proj2 (geb_false _ _)) in Hv by lra.
      apply bridgeView_eq in Hv as (B' & L' & N').
      split; [exact Hz'|]. split; [now rewrite N'|]. split.
      * rewrite B', L'. exact Hall.
      * right. exists k, (S j). rewrite L'. split; [exact Hl|].
        split; [lia|]. rewrite S_INR. lra.
Qed.

Lemma generateSegments_zeroInv (n : nat) (i : R) (s : Game) :
  zeroInv (i * 30) s -> zeroInv ((i + INR n) * 30) (generateSegments n i s).
Proof.
  revert i s. induction n as [|n IH]; intros i s H.
  - cbn [generateSegments INR]. now rewrite Rplus_0_r.
  - cbn [generateSegments]. unfold HILL_SEGMENT_WIDTH.
    replace ((i + INR (S n)) * 30) with ((i + 1 + INR n) * 30)
      by (rewrite S_INR; lra).
    apply IH. replace ((i + 1) * 30) with (i * 30 + 30) by lra.
    now apply addTerrainSegment_zeroInv.
Qed.

Lemma zeroInv_bridges (x : R) (s : Game) :
  zeroInv x s -> Forall onZeroGrid (World.bridges (world s)).
Proof.
  intros (_ & _ & Hall & _). eapply Forall_impl; [|exact Hall].
  cbn. now intros b [H _].
Qed.

Lemma extendTerrain_zeroRun (s : Game) (last : Segment.t) :
  lastSegment s = Some last ->
  zeroInv (Segment.x last + HILL_SEGMENT_WIDTH) s ->
  exists last',
    lastSegment (extendTerrain s) = Some last'
    /\ zeroInv (Segment.x last' + HILL_SEGMENT_WIDTH) (extendTerrain s).
Proof.
  intros Hl Hi.
  apply (extendTerrain_invariant
           (fun m => exists last',
                lastSegment m = Some last'
                /\ zeroInv (Segment.x last' + HILL_SEGMENT_WIDTH) m));
    [|eauto].
  clear s last Hl Hi. intros m last Hl _ (last' & Hl' & Hi).
  assert (last' = last) by congruence. subst last'.
  destruct (addTerrainSegment_terrain (Segment.x last + HILL_SEGMENT_WIDTH)
              (INR (List.length (World.terrain (world m)))) m)
    as (y & b & Ht).
  eexists. split.
  - unfold lastSegment. rewrite Ht. apply lastOf_snoc.
  - cbn [Segment.x]. unfold HILL_SEGMENT_WIDTH in *.
    now apply addTerrainSegment_zeroInv.
Qed.

Lemma updateTerrain_zeroRun (s s' : Game) :
  updateTerrain s = Some s' -> zeroRun s -> zeroRun s'.
Proof.
  intros Hu (Hz & _ & Hi).
  pose proof (updateTerrain_eq _ _ Hu) as He. cbv zeta in He.
  unfold updateTerrain in Hu. cbv zeta in Hu.
  set (shifted := with_world _ s) in *.
  destruct (lastSegment shifted) as [last|] eqn:Hl; [|discriminate].
  clear Hu.
  assert (Hl0 : lastSegment s = Some last).
  { apply (shiftBehind_last (World.terrainOffset (world s) - 100)).
    exact Hl. }
  assert (Hs : zeroInv (Segment.x last + HILL_SEGMENT_WIDTH) shifted).
  { apply (zeroInv_view _ s); [reflexivity | exact Hz | now apply Hi]. }
  destruct (extendTerrain_zeroRun shifted last Hl Hs)
    as (last' & Hl' & (Ez & En & Eall & Ec)).
  assert (Hi' : zeroInv (Segment.x last' + HILL_SEGMENT_WIDTH) s').
  { rewrite He. unfold zeroInv. simpl_fields.
    split; [exact Ez|]. split; [exact En|]. split.
    - now apply Forall_filter.
    - destruct Ec as [(El & Eb & Ef) | Ec]; [|now right].
      left. rewrite Eb. cbn [filter]. auto. }
  split; [apply Hi'|]. split; [eapply zeroInv_bridges; exact Hi'|].
  intros l2 Hl2.
  assert (l2 = last').
  { rewrite He in Hl2. unfold lastSegment in *. simpl_fields_in Hl2.
    congruence. }
  subst l2. exact Hi'.
Qed.

Lemma tick_zeroRun (k : Keys.t) (s s' : Game) :
  tick k s = Some s' -> zeroRun s -> zeroRun s'.
Proof.
  intros Ht Hr.
  destruct (tick_cases _ _ _ Ht) as [[_ ->] | (_ & m & Hu & ->)];
    [exact Hr|].
  destruct (updatePhysics_views k s) as (Vb & _ & _ & Vr).
  cbv zeta in Vb, Vr.
  set (p := updatePhysics (with_keys k s)) in *.
  assert (Ht0 : World.terrain (world p) = World.terrain (world s)).
  { destruct (checkGameOver_frame (integrate (with_keys k s)))
      as (_ & Pworld & _).
    destruct (integrate_frame (with_keys k s)) as (_ & _ & Icon).
    unfold contents in Icon. simpl_fields_in Icon.
    unfold p, updatePhysics. rewrite Pworld. congruence. }
  destruct Hr as (Hz & Hg & Hi).
  assert (Hzp : zeroDraws p) by (intros n; rewrite Vr; apply Hz).
  assert (Hp : zeroRun p).
  { split; [exact Hzp|]. split.
    - unfold bridgeView in Vb. injection Vb as -> _ _. exact Hg.
    - intros last Hl. apply (zeroInv_view _ s); [exact Vb | exact Hzp|].
      apply Hi. unfold lastSegment in *. now rewrite <- Ht0. }
  destruct (updateTerrain_zeroRun _ _ Hu Hp) as (Mz & Mg & Mi).
  destruct (checkPickups_eq m)
    as ((_ & _ & _ & Cspawn & _ & _ & _ & _ & (kc & Cdraws)) & _ & Cworld).
  destruct (finishFrame_frame (checkPickups m))
    as (_ & _ & _ & Fspawn & Fworld & Frandom & _).
  cbv zeta in Cworld.
  assert (Hz' : zeroDraws (finishFrame (checkPickups m))).
  { intros n. rewrite Frandom, Cdraws. apply Mz. }
  assert (Hv : bridgeView (finishFrame (checkPickups m)) = bridgeView m).
  { unfold bridgeView. rewrite Fworld, Fspawn, Cworld, Cspawn. reflexivity. }
  split; [exact Hz'|]. split.
  - rewrite Fworld, Cworld. exact Mg.
  - intros last Hl. apply (zeroInv_view _ m); [exact Hv | exact Hz'|].
    apply Mi. unfold lastSegment in *. rewrite Fworld, Cworld in Hl.
    exact Hl.
Qed.

Lemma resetGame_zeroRun (g : Game) : zeroDraws g -> zeroRun (resetGame g).
Proof.
  intros Hz. unfold resetGame, generateTerrain.
  match goal with |- context [prepareTerrain ?g] => set (g0 := g) end.
  match goal with |- context [generateSegments ?n 0 _] => set (n0 := n) end.
  assert (Hz0 : zeroDraws g0) by exact Hz.
  destruct (prepareTerrain_eq g0)
    as (_ & _ & _ & Ht & Hb & _ & Hl & Hn & Hr).
  assert (Hzp : zeroDraws (prepareTerrain g0)).
  { intros n. rewrite Hr. apply Hz0. }
  assert (H0 : zeroInv (0 * 30) (prepareTerrain g0)).
  { split; [exact Hzp|]. split.
    - rewrite Hn, (Hz0 2%nat). unfold BRIDGE_MIN_DISTANCE. lra.
    - split; [rewrite Hb; constructor|]. left.
      split; [rewrite Hl; change (World.terrainOffset (world g0)) with 0; lra|].
      split; [exact Hb|]. exists 0%nat. split; [lia | cbn; lra]. }
  pose proof (generateSegments_zeroInv n0 0 _ H0) as Hi.
  split; [apply Hi|]. split; [eapply zeroInv_bridges; exact Hi|].
  intros last Hlast.
  destruct (generateSegments_terrain 0 n0 0 (prepareTerrain g0))
    as [_ Hlast'].
  - unfold HILL_SEGMENT_WIDTH. lra.
  - rewrite Ht. split; constructor.
  - rewrite Ht. constructor.
  - destruct n0 as [|n0].
    + cbn [generateSegments] in Hlast. unfold lastSegment in Hlast.
      rewrite Ht in Hlast. discriminate.
    + destruct Hlast' as (last' & Hl' & Hx); [discriminate|].
      assert (last' = last) by congruence. subst last'.
      rewrite Hx. unfold HILL_SEGMENT_WIDTH.
      replace ((0 + INR (S n0) - 1) * 30 + 30) with ((0 + INR (S n0)) * 30)
        by lra.
      exact Hi.
Qed.

(** With every draw 0, every bridge of a run starts at [2010 + 2520 * k]
    for some [k] and is [BRIDGE_LENGTH] long. *)
Lemma zero_draws_grid (g s : Game) (ks : list Keys.t) :
  zeroDraws g -> ticks ks (resetGame g) = Some s ->
  Forall onZeroGrid (World.bridges (world s)).
Proof.
  intros Hz Ht.
  assert (H : zeroRun s).
  { revert Ht. apply (ticks_invariant zeroRun).
    - intros k s0 s1 H0 Hk. eapply tick_zeroRun; eauto.
    - now apply resetGame_zeroRun. }
  apply H.
Qed.

(** With every draw 0 two bridges of a run are a whole number of grid
    steps apart. *)
Lemma zero_draws_gap (g s1 s2 : Game) (ks1 ks2 : list Keys.t)
  (b1 b2 : Bridge.t) :
  zeroDraws g ->
  ticks ks1 (resetGame g) = Some s1 ->
  ticks ks2 s1 = Some s2 ->
  In b1 (World.bridges (world s1)) ->
  In b2 (World.bridges (world s2)) ->
  Bridge.startX b1 < Bridge.startX b2 ->
  exists j, Bridge.startX b2 - Bridge.endX b1 = 2370 + 2520 * INR j.
Proof.
  intros Hz H1 H2 Hb1 Hb2 Hlt.
  pose proof (zero_draws_grid g s1 ks1 Hz H1) as G1.
  assert (H12 : ticks (ks1 ++ ks2) (resetGame g) = Some s2).
  { clear - H1 H2. revert H1. generalize (resetGame g).
    induction ks1 as [|k ks1 IH]; intros s H1.
    - injection H1 as <-. exact H2.
    - cbn [app ticks] in *. destruct (tick k s); [now apply IH | discriminate]. }
  pose proof (zero_draws_grid g s2 (ks1 ++ ks2) Hz H12) as G2.
  rewrite Forall_forall in G1, G2.
  destruct (G1 b1 Hb1) as (k1 & S1 & E1).
  destruct (G2 b2 Hb2) as (k2 & S2 & _).
  unfold zeroStart, BRIDGE_LENGTH in *.
  assert (Hk : (k1 < k2)%nat).
  { apply INR_lt. lra. }
  exists (k2 - S k1)%nat. rewrite minus_INR by lia. rewrite S_INR. lra.
Qed.

Lemma zeroKept_view (c c' x : R) (s s' : Game) :
  World.bridges (world s') = World.bridges (world s) -> c <= c' ->
  zeroKept c x s -> zeroKept c' x s'.
Proof.
  intros Hb Hc H k Hk Hc'. rewrite Hb. apply H; [exact Hk | lra].
Qed.

Lemma zeroStart_lt (k k' : nat) :
  zeroStart k < zeroStart k' + 2520 -> (k <= k')%nat.
Proof.
  unfold zeroStart. intros H.
  assert (INR k < INR (S k')) by (rewrite S_INR; lra).
  apply INR_lt in H0. lia.
Qed.

Lemma zeroStart_le (k k' : nat) :
  (k <= k')%nat -> zeroStart k <= zeroStart k'.
Proof. intros H. apply le_INR in H. unfold zeroStart. lra. Qed.

Lemma addTerrainSegment_zeroKept (c x index : R) (s : Game) :
  zeroInv x s -> zeroKept c x s ->
  zeroKept c (x + 30) (addTerrainSegment x index s).
Proof.
  intros (Hz & Hn & Hall & Hc) Hk.
  destruct (addTerrainSegment_zero x index s Hz) as (y & Hv).
  rewrite Hn in Hv.
  destruct Hc as [(Hl & Hb & f & Hf & Hx) | (k0 & j & Hl & Hj & Hx)].
  - rewrite Hl, Hb in Hv. cbn [existsb negb] in Hv. rewrite andb_true_r in Hv.
    destruct (Nat.eq_dec f 67) as [->|Hne].
    + assert (H67 : INR 67 = 67) by (rewrite INR_IZR_INZ; reflexivity).
      rewrite H67 in Hx.
      rewrite (proj2 (geb_true _ _)) in Hv by lra.
      apply bridgeView_eq in Hv as (B' & _ & _). cbn [app] in B'.
      intros k Hlt Hcut. rewrite B'. exists y.
      assert (k <= 0)%nat.
      { apply zeroStart_lt. unfold zeroStart in *. cbn [INR]. lra. }
      assert (k = 0%nat) by lia. subst k.
      replace (zeroStart 0) with x by (unfold zeroStart; cbn [INR]; lra).
      now left.
    + assert (Hlt : INR f <= 66).
      { replace 66 with (INR 66) by (rewrite INR_IZR_INZ; reflexivity).
        apply le_INR. lia. }
      intros k Hk' _. exfalso. pose proof (pos_INR k).
      unfold zeroStart in Hk'. lra.
  - destruct (Nat.eq_dec j 83) as [->|Hne].
    + assert (H83 : INR 83 = 83) by (rewrite INR_IZR_INZ; reflexivity).
      rewrite H83 in Hx.
      rewrite (proj2 (geb_true _ _)) in Hv by lra.
      rewrite (not_spanned x _ _ Hall) in Hv
        by (unfold BRIDGE_LENGTH; lra).
      cbn [negb andb] in Hv.
      apply bridgeView_eq in Hv as (B' & _ & _).
      intros k Hlt Hcut. rewrite B'.
      assert (Hxk : x = zeroStart (S k0)).
      { unfold zeroStart in *. rewrite S_INR. lra. }
      assert (Hle : (k <= S k0)%nat).
      { apply zeroStart_lt. lra. }
      destruct (Nat.eq_dec k (S k0)) as [->|Hd].
      * exists y. apply in_or_app. right. rewrite Hxk. now left.
      * destruct (Hk k) as (y' & Hin); [|exact Hcut|].
        -- assert (zeroStart k <= zeroStart k0) by (apply zeroStart_le; lia).
           lra.
        -- exists y'. apply in_or_app. now left.
    + assert (Hlt : INR j <= 82).
      { replace 82 with (INR 82) by (rewrite INR_IZR_INZ; reflexivity).
        apply le_INR. lia. }
      rewrite (proj2 (geb_false _ _)) in Hv by lra.
      apply bridgeView_eq in Hv as (B' & _ & _).
      intros k Hk' Hcut. rewrite B'. apply Hk; [|exact Hcut].
      assert (Hle : (k <= k0)%nat) by (apply zeroStart_lt; lra).
      assert (zeroStart k <= zeroStart k0) by (apply zeroStart_le; lia).
      pose proof (pos_INR j). lra.
Qed.

Lemma generateSegments_zeroKept (c : R) (n : nat) (i : R) (s : Game) :
  zeroInv (i * 30) s -> zeroKept c (i * 30) s ->
  zeroKept c ((i + INR n) * 30) (generateSegments n i s).
Proof.
  revert i s. induction n as [|n IH]; intros i s H K.
  - cbn [generateSegments INR]. now rewrite Rplus_0_r.
  - cbn [generateSegments]. unfold HILL_SEGMENT_WIDTH.
    replace ((i + INR (S n)) * 30) with ((i + 1 + INR n) * 30)
      by (rewrite S_INR; lra).
    apply IH; replace ((i + 1) * 30) with (i * 30 + 30) by lra.
    + now apply addTerrainSegment_zeroInv.
    + now apply addTerrainSegment_zeroKept.
Qed.

Lemma extendTerrain_zeroLive (c : R) (s : Game) (last : Segment.t) :
  lastSegment s = Some last ->
  zeroInv (Segment.x last + HILL_SEGMENT_WIDTH) s ->
  zeroKept c (Segment.x last + HILL_SEGMENT_WIDTH) s ->
  World.terrainOffset (world (extendTerrain s)) = World.terrainOffset (world s)
  /\ exists last',
      lastSegment (extendTerrain s) = Some last'
      /\ zeroInv (Segment.x last' + HILL_SEGMENT_WIDTH) (extendTerrain s)
      /\ zeroKept c (Segment.x last' + HILL_SEGMENT_WIDTH) (extendTerrain s).
Proof.
  intros Hl Hi Hk.
  apply (extendTerrain_invariant
           (fun m =>
              World.terrainOffset (world m) = World.terrainOffset (world s)
              /\ exists last',
                  lastSegment m = Some last'
                  /\ zeroInv (Segment.x last' + HILL_SEGMENT_WIDTH) m
                  /\ zeroKept c (Segment.x last' + HILL_SEGMENT_WIDTH) m));
    [|eauto].
  clear last Hl Hi Hk. intros m last Hl _ (Ho & last' & Hl' & Hi & Hk).
  assert (last' = last) by congruence. subst last'.
  destruct (addTerrainSegment_terrain (Segment.x last + HILL_SEGMENT_WIDTH)
              (INR (List.length (World.terrain (world m)))) m)
    as (y & b & Ht).
  split.
  - destruct (addTerrainSegment_generated
                (Segment.x last + HILL_SEGMENT_WIDTH)
                (INR (List.length (World.terrain (world m)))) m)
      as (_ & _ & _ & _ & _ & _ & -> & _). exact Ho.
  - eexists. split; [|split].
    + unfold lastSegment. rewrite Ht. apply lastOf_snoc.
    + cbn [Segment.x]. unfold HILL_SEGMENT_WIDTH in *.
      now apply addTerrainSegment_zeroInv.
    + cbn [Segment.x]. unfold HILL_SEGMENT_WIDTH in *.
      now apply addTerrainSegment_zeroKept.
Qed.

Lemma updateTerrain_zeroLive (s s' : Game) (last : Segment.t) :
  updateTerrain s = Some s' ->
  zeroDraws s ->
  lastSegment s = Some last ->
  zeroInv (Segment.x last + HILL_SEGMENT_WIDTH) s ->
  zeroKept (World.terrainOffset (world s) - 200)
    (Segment.x last + HILL_SEGMENT_WIDTH) s ->
  zeroLive s'.
Proof.
  intros Hu Hz Hl0 Hi Hk.
  pose proof (updateTerrain_eq _ _ Hu) as He. cbv zeta in He.
  unfold updateTerrain in Hu. cbv zeta in Hu.
  set (shifted := with_world _ s) in *.
  destruct (lastSegment shifted) as [last1|] eqn:Hl; [|discriminate].
  clear Hu.
  assert (Hl1 : lastSegment s = Some last1).
  { apply (shiftBehind_last (World.terrainOffset (world s) - 100)).
    exact Hl. }
  assert (last1 = last) by congruence. subst last1.
  assert (Hs : zeroInv (Segment.x last + HILL_SEGMENT_WIDTH) shifted).
  { apply (zeroInv_view _ s); [reflexivity | exact Hz | exact Hi]. }
  assert (Ks : zeroKept (World.terrainOffset (world s) - 200)
                 (Segment.x last + HILL_SEGMENT_WIDTH) shifted).
  { apply (zeroKept_view (World.terrainOffset (world s) - 200) _ _ s);
      [reflexivity | lra | exact Hk]. }
  destruct (extendTerrain_zeroLive _ shifted last Hl Hs Ks)
    as (Eo & last' & Hl' & (Ez & En & Eall & Ec) & Ek).
  change (World.terrainOffset (world shifted))
    with (World.terrainOffset (world s)) in Eo.
  assert (Hz' : zeroDraws s') by (rewrite He; exact Ez).
  split; [exact Hz'|]. intros l2 Hl2.
  assert (l2 = last').
  { rewrite He in Hl2. unfold lastSegment in *. simpl_fields_in Hl2.
    congruence. }
  subst l2. split.
  - rewrite He. unfold zeroInv. simpl_fields.
    split; [exact Ez|]. split; [exact En|]. split.
    + now apply Forall_filter.
    + destruct Ec as [(El & Eb & Ef) | Ec]; [|now right].
      left. rewrite Eb. cbn [filter]. auto.
  - intros k Hk1 Hk2. rewrite He in Hk2 |- *. simpl_fields_in Hk2.
    simpl_fields. rewrite Eo in *.
    destruct (Ek k Hk1 Hk2) as (y & Hin). exists y.
    apply filter_In. split; [exact Hin|].
    apply gtb_true. unfold metalBridge. cbn [Bridge.endX]. exact Hk2.
Qed.

Lemma updateTerrain_last (s s' : Game) :
  updateTerrain s = Some s' -> exists last, lastSegment s = Some last.
Proof.
  unfold updateTerrain. cbv zeta. intros Hu.
  destruct (lastSegment _) as [last|] eqn:Hl in Hu; [|discriminate].
  exists last.
  now apply (shiftBehind_last (World.terrainOffset (world s) - 100)).
Qed.

Lemma tick_zeroLive (k : Keys.t) (s s' : Game) :
  tick k s = Some s' -> zeroLive s -> zeroLive s'.
Proof.
  intros Ht Hr.
  destruct (tick_cases _ _ _ Ht) as [[_ ->] | (_ & m & Hu & ->)];
    [exact Hr|].
  destruct (updatePhysics_views k s) as (Vb & _ & _ & Vr).
  cbv zeta in Vb, Vr.
  destruct (updatePhysics_score (with_keys k s)) as [Ho _].
  simpl_fields_in Ho.
  set (p := updatePhysics (with_keys k s)) in *.
  assert (Ht0 : World.terrain (world p) = World.terrain (world s)).
  { destruct (checkGameOver_frame (integrate (with_keys k s)))
      as (_ & Pworld & _).
    destruct (integrate_frame (with_keys k s)) as (_ & _ & Icon).
    unfold contents in Icon. simpl_fields_in Icon.
    unfold p, updatePhysics. rewrite Pworld. congruence. }
  destruct Hr as (Hz & Hi).
  assert (Hzp : zeroDraws p) by (intros n; rewrite Vr; apply Hz).
  assert (Hm : zeroLive m).
  { destruct (updateTerrain_last _ _ Hu) as (last & Hl).
    assert (Hls : lastSegment s = Some last).
    { unfold lastSegment in *. now rewrite <- Ht0. }
    destruct (Hi last Hls) as [Hi1 Hk1].
    apply (updateTerrain_zeroLive p m last); auto.
    - apply (zeroInv_view _ s); [exact Vb | exact Hzp | exact Hi1].
    - apply (zeroKept_view (World.terrainOffset (world s) - 200) _ _ s);
        [|lra | exact Hk1].
      unfold bridgeView in Vb. now injection Vb as -> _ _. }
  destruct Hm as (Mz & Mi).
  destruct (checkPickups_eq m)
    as ((_ & _ & _ & Cspawn & _ & _ & _ & _ & (kc & Cdraws)) & _ & Cworld).
  destruct (finishFrame_frame (checkPickups m))
    as (_ & _ & _ & Fspawn & Fworld & Frandom & _).
  cbv zeta in Cworld.
  assert (Hz' : zeroDraws (finishFrame (checkPickups m))).
  { intros n. rewrite Frandom, Cdraws. apply Mz. }
  assert (Hv : bridgeView (finishFrame (checkPickups m)) = bridgeView m).
  { unfold bridgeView. rewrite Fworld, Fspawn, Cworld, Cspawn. reflexivity. }
  split; [exact Hz'|]. intros last Hl.
  assert (Hlm : lastSegment m = Some last).
  { unfold lastSegment in *. rewrite Fworld, Cworld in Hl. exact Hl. }
  destruct (Mi last Hlm) as [Mi1 Mk1]. split.
  - apply (zeroInv_view _ m); [exact Hv | exact Hz' | exact Mi1].
  - assert (Fo : World.terrainOffset (world (finishFrame (checkPickups m)))
                 = World.terrainOffset (world m))
      by (rewrite Fworld, Cworld; reflexivity).
    assert (Fb : World.bridges (world (finishFrame (checkPickups m)))
                 = World.bridges (world m))
      by (rewrite Fworld, Cworld; reflexivity).
    rewrite Fo.
    apply (zeroKept_view (World.terrainOffset (world m) - 200) _ _ m);
      [exact Fb | lra | exact Mk1].
Qed.

Lemma resetGame_zeroLive (g : Game) : zeroDraws g -> zeroLive (resetGame g).
Proof.
  intros Hz. unfold resetGame, generateTerrain.
  match goal with |- context [prepareTerrain ?g] => set (g0 := g) end.
  match goal with |- context [generateSegments ?n 0 _] => set (n0 := n) end.
  assert (Hz0 : zeroDraws g0) by exact Hz.
  destruct (prepareTerrain_eq g0)
    as (_ & _ & _ & Ht & Hb & _ & Hl & Hn & Hr).
  assert (Hzp : zeroDraws (prepareTerrain g0)).
  { intros n. rewrite Hr. apply Hz0. }
  assert (H0 : zeroInv (0 * 30) (prepareTerrain g0)).
  { split; [exact Hzp|]. split.
    - rewrite Hn, (Hz0 2%nat). unfold BRIDGE_MIN_DISTANCE. lra.
    - split; [rewrite Hb; constructor|]. left.
      split; [rewrite Hl; change (World.terrainOffset (world g0)) with 0; lra|].
      split; [exact Hb|]. exists 0%nat. split; [lia | cbn; lra]. }
  set (c := World.terrainOffset
              (world (generateSegments n0 0 (prepareTerrain g0))) - 200).
  assert (K0 : zeroKept c (0 * 30) (prepareTerrain g0)).
  { intros k Hk _. exfalso. pose proof (pos_INR k).
    unfold zeroStart in Hk. lra. }
  pose proof (generateSegments_zeroInv n0 0 _ H0) as Hi.
  pose proof (generateSegments_zeroKept c n0 0 _ H0 K0) as Hk.
  split; [apply Hi|].
  intros last Hlast.
  destruct (generateSegments_terrain 0 n0 0 (prepareTerrain g0))
    as [_ Hlast'].
  - unfold HILL_SEGMENT_WIDTH. lra.
  - rewrite Ht. split; constructor.
  - rewrite Ht. constructor.
  - destruct n0 as [|n0].
    + cbn [generateSegments] in Hlast. unfold lastSegment in Hlast.
      rewrite Ht in Hlast. discriminate.
    + destruct Hlast' as (last' & Hl' & Hx); [discriminate|].
      assert (last' = last) by congruence. subst last'.
      rewrite Hx. unfold HILL_SEGMENT_WIDTH.
      replace ((0 + INR (S n0) - 1) * 30 + 30) with ((0 + INR (S n0)) * 30)
        by lra.
      split; [exact Hi | exact Hk].
Qed.

(** With every draw 0, a state of a run holds the bridge that starts at
    [2010 + 2520 * k] whenever the window has reached its start and the
    cut of [updateTerrain] has not passed its end. *)
Lemma zero_draws_live (g s : Game) (ks : list Keys.t) (k : nat) :
  zeroDraws g -> 0 <= canvas_width g ->
  ticks ks (resetGame g) = Some s ->
  zeroStart k < World.terrainOffset (world s) + canvas_width s + 100 ->
  World.terrainOffset (world s) - 200 < zeroStart k + BRIDGE_LENGTH ->
  exists y, In (metalBridge (zeroStart k) y) (World.bridges (world s)).
Proof.
  intros Hz Hw Ht H1 H2.
  assert (H : zeroLive s).
  { revert Ht. apply (ticks_invariant zeroLive).
    - intros k' s0 s1 H0 Hk. eapply tick_zeroLive; eauto.
    - now apply resetGame_zeroLive. }
  destruct (resetGame_window g Hw) as [Hinv Hbounds].
  destruct (ticks_window ks _ Hinv Hbounds) as (s' & Ht' & _ & Hb).
  assert (s' = s) by congruence. subst s'.
  destruct Hb as [(last & Hl & Hx) _].
  destruct H as (_ & Hi). destruct (Hi last Hl) as [_ Hk].
  apply Hk; [|exact H2]. unfold HILL_SEGMENT_WIDTH in *. lra.
Qed.

Lemma tick_anchored (k : Keys.t) (s s' : Game) :
  anchored s -> tick k s = Some s' ->
  anchored s'
  /\ World.terrainOffset (world s') <= World.terrainOffset (world s) + 21.6.
Proof.
  intros [Hw Hx] Ht.
  destruct (tick_cases _ _ _ Ht) as [[_ ->] | (_ & m & Hu & ->)].
  - simpl_fields. split; [split; assumption | lra].
  - destruct (frame_keeps _ _ Hu) as (Fw & Fc & _ & Fo & _).
    unfold anchored. rewrite Fw, Fc, Fo. clear Fw Fc Fo.
    destruct (updatePhysics_scroll (with_keys k s)) as (Pw & _ & [_ Po] & Px).
    simpl_fields_in Pw. simpl_fields_in Po. simpl_fields_in Px.
    rewrite Hw in *.
    assert (H0 : Rmax 0 (Car.x (car s) - 600 * 0.4) = 0).
    { unfold Rmax. destruct (Rle_dec _ _); lra. }
    assert (H1 : Rmax (600 * 0.4) 50 = 240).
    { unfold Rmax. destruct (Rle_dec _ _); lra. }
    rewrite H0 in Po. rewrite H1 in Px.
    split; [split; assumption | lra].
Qed.

(** A run that scrolls past [lo] passes through every stretch that is
    wider than the most a frame can scroll. *)
Lemma ticks_crossing (lo hi : R) (ks : list Keys.t) (s s2 : Game) :
  lo + 21.6 < hi ->
  anchored s -> World.terrainOffset (world s) < hi ->
  ticks ks s = Some s2 -> lo < World.terrainOffset (world s2) ->
  exists ks1 ks2 s1,
    ks = ks1 ++ ks2
    /\ ticks ks1 s = Some s1 /\ ticks ks2 s1 = Some s2
    /\ lo < World.terrainOffset (world s1) < hi.
Proof.
  intros Hgap. revert s. induction ks as [|k ks IH]; intros s Ha Hhi Ht Hlo.
  - injection Ht as <-. exists [], [], s. repeat split; auto.
  - destruct (Rlt_dec lo (World.terrainOffset (world s))) as [Hin|Hout].
    + exists [], (k :: ks), s. repeat split; auto.
    + cbn [ticks] in Ht. destruct (tick k s) as [s'|] eqn:Hk; [|discriminate].
      destruct (tick_anchored _ _ _ Ha Hk) as [Ha' Ho].
      destruct (IH s' Ha' ltac:(lra) Ht Hlo) as (ks1 & ks2 & s1 & -> & H1 & H2 & Hr).
      exists (k :: ks1), ks2, s1. repeat split; try tauto.
      cbn [ticks]. now rewrite Hk.
Qed.

Lemma ticks_width (ks : list Keys.t) (s s' : Game) :
  anchored s -> ticks ks s = Some s' -> anchored s'.
Proof.
  intros Ha Ht. revert Ht. apply (ticks_invariant anchored); [|exact Ha].
  intros k s0 s1 H0 Hk. now destruct (tick_anchored _ _ _ H0 Hk).
Qed.

Lemma strandedInAir_zero : zeroDraws strandedInAir.
Proof. intros n. reflexivity. Qed.

Lemma resetGame_anchored : anchored (resetGame strandedInAir).
Proof.
  destruct (resetGame_run strandedInAir) as (_ & _ & Hc & _ & _ & Hw).
  split; [rewrite Hw; reflexivity|]. rewrite Hc. cbn. lra.
Qed.

(** C6, counterexample.  With every draw 0 the threshold is
    [BRIDGE_MIN_DISTANCE * 10 = 2500] each time, and the bridges start
    at 2010, at 4530 and so on, 2520 apart.  The 152 segments generated
    on a fresh terrain carry the first two, from 2010 to 2160 and from
    4530 on: the gap is 2370, less than 2500.  In a run on the canvas of
    600, whatever the keys: a state whose scroll offset is between 3840
    and 4870 holds the bridge that starts at 4530, and an earlier state
    of the same run held the bridge from 2010 to 2160; and whenever a
    bridge of a later state starts up to 2520 after a bridge of an
    earlier state, the gap from the end of the one to the start of the
    other is 2370. *)
Lemma bridges_closer_than_minimum :
  (forall n, 0 <= random strandedInAir n < 1)
  /\ (exists b1 b2,
         World.bridges
           (world (generateSegments 152 0 (prepareTerrain strandedInAir)))
         = [b1; b2]
         /\ Bridge.startX b2 - Bridge.endX b1 = 2370
         /\ 2370 < BRIDGE_MIN_DISTANCE * 10)
  /\ (forall ks s2,
         ticks ks (resetGame strandedInAir) = Some s2 ->
         3840 < World.terrainOffset (world s2) < 4870 ->
         exists ks1 ks2 s1 b1 b2,
           ks = ks1 ++ ks2
           /\ ticks ks1 (resetGame strandedInAir) = Some s1
           /\ ticks ks2 s1 = Some s2
           /\ In b1 (World.bridges (world s1))
           /\ In b2 (World.bridges (world s2))
           /\ Bridge.startX b1 = 2010 /\ Bridge.endX b1 = 2160
           /\ Bridge.startX b2 = 4530
           /\ Bridge.startX b2 - Bridge.endX b1 = 2370)
  /\ (forall ks1 ks2 s1 s2 b1 b2,
         ticks ks1 (resetGame strandedInAir) = Some s1 ->
         ticks ks2 s1 = Some s2 ->
         In b1 (World.bridges (world s1)) ->
         In b2 (World.bridges (world s2)) ->
         Bridge.startX b1 < Bridge.startX b2 <= Bridge.startX b1 + 2520 ->
         Bridge.startX b2 - Bridge.endX b1 = 2370).
Proof.
  split; [intros n; cbn; lra|]. split; [apply generateSegments_two_bridges|].
  split.
  - intros ks s2 Ht Ho.
    pose proof resetGame_anchored as Ha.
    destruct (resetGame_run strandedInAir) as (_ & Hoff & _).
    destruct (ticks_crossing 1320 2350 ks _ s2 ltac:(lra) Ha
                ltac:(rewrite Hoff; lra) Ht ltac:(lra))
      as (ks1 & ks2 & s1 & -> & H1 & H2 & Hr).
    destruct (ticks_width _ _ _ Ha H1) as [Hw1 _].
    destruct (ticks_width _ _ _ Ha Ht) as [Hw2 _].
    destruct (zero_draws_live strandedInAir s1 ks1 0 strandedInAir_zero
                ltac:(cbn; lra) H1) as (y1 & Hb1).
    { rewrite Hw1. unfold zeroStart. cbn [INR]. lra. }
    { unfold zeroStart, BRIDGE_LENGTH. cbn [INR]. lra. }
    destruct (zero_draws_live strandedInAir s2 (ks1 ++ ks2) 1
                strandedInAir_zero ltac:(cbn; lra) Ht) as (y2 & Hb2).
    { rewrite Hw2. unfold zeroStart. cbn [INR]. lra. }
    { unfold zeroStart, BRIDGE_LENGTH. cbn [INR]. lra. }
    exists ks1, ks2, s1, (metalBridge (zeroStart 0) y1),
      (metalBridge (zeroStart 1) y2).
    split; [reflexivity|]. split; [exact H1|]. split; [exact H2|].
    split; [exact Hb1|]. split; [exact Hb2|].
    unfold metalBridge, zeroStart, BRIDGE_LENGTH.
    cbn [Bridge.startX Bridge.endX INR]. repeat split; lra.
  - intros ks1 ks2 s1 s2 b1 b2 H1 H2 Hb1 Hb2 [Hlt Hle].
    destruct (zero_draws_gap strandedInAir s1 s2 ks1 ks2 b1 b2
                strandedInAir_zero H1 H2 Hb1 Hb2 Hlt) as (j & Hj).
    pose proof (zero_draws_grid strandedInAir s1 ks1 strandedInAir_zero H1)
      as G1.
    rewrite Forall_forall in G1. destruct (G1 b1 Hb1) as (k1 & _ & E1).
    unfold BRIDGE_LENGTH in E1.
    destruct j as [|j]; [cbn [INR] in Hj; lra|].
    exfalso. rewrite S_INR in Hj. pose proof (pos_INR j). lra.
Qed.

(** ** The spacing of fuel and boosts over a run *)



(** ** The fuel of a frame and of a run *)

(** The loop over the fuel pickups refills once for each pickup in
    reach. *)
Lemma collectFuel_refill (cx cy cr : R) (l : list Pickup.t) (s : Game) :
  Run.fuel (run (snd (collectFuel cx cy cr l s)))
  = Nat.iter (List.length (filter (reachable cx cy cr) l)) refill
      (Run.fuel (run s)).
Proof.
  revert s. induction l as [|p l IH]; intros s; cbn [collectFuel filter].
  - reflexivity.
  - unfold reachable at 1.
    destruct (Pickup.collected p); cbn [negb andb].
    + specialize (IH s).
      destruct (collectFuel cx cy cr l s); cbn [snd] in *. exact IH.
    + destruct (within (cr + 10) (Pickup.x p) (Pickup.y p) cx cy).
      * match goal with
        | |- context [collectFuel cx cy cr l ?s1] =>
            specialize (IH s1);
            assert (Hf : Run.fuel (run s1) = refill (Run.fuel (run s)))
              by (rewrite createParticles_run; reflexivity);
            destruct (collectFuel cx cy cr l s1); cbn [snd] in *
        end.
        rewrite IH, Hf. cbn [List.length]. now rewrite Nat.iter_succ_r.
      * specialize (IH s).
        destruct (collectFuel cx cy cr l s); cbn [snd] in *. exact IH.
Qed.

Lemma refill_bounds (n : nat) (f : R) :
  (n <> O -> Nat.iter n refill f <= MAX_FUEL)
  /\ (0 <= f -> 0 <= Nat.iter n refill f)
  /\ (f <= MAX_FUEL -> f <= Nat.iter n refill f <= MAX_FUEL).
Proof.
  unfold refill, MAX_FUEL, INITIAL_FUEL, FUEL_PICKUP_AMOUNT.
  induction n as [|n (IH1 & IH2 & IH3)];
    [cbn [Nat.iter nat_rect] | rewrite Nat.iter_succ; cbv beta].
  - split; [congruence | split; [intros; lra | intros; split; lra]].
  - set (v := Nat.iter n _ f) in *. unfold Rmin. split; [|split].
    + intros _. destruct (Rle_dec _ _); lra.
    + intros H. specialize (IH2 H). destruct (Rle_dec _ _); lra.
    + intros H. specialize (IH3 H). destruct (Rle_dec _ _); split; lra.
Qed.

(** The fuel at the end of a frame of a run in progress. *)
Lemma frame_refill (k : Keys.t) (s m : Game) :
  updateTerrain (updatePhysics (with_keys k s)) = Some m ->
  Run.fuel (run (finishFrame (checkPickups m)))
  = Nat.iter (List.length (fuelCollected m)) refill
      (controlledFuel (with_keys k s)).
Proof.
  intros Hu.
  destruct (updateTerrain_generated _ _ Hu) as (_ & _ & Mr & _).
  destruct (checkPickups_eq m) as (_ & Cf & _).
  destruct (finishFrame_frame (checkPickups m))
    as (_ & _ & _ & _ & _ & _ & _ & _ & _ & Ff & _).
  rewrite Ff, Cf. cbv zeta. rewrite collectFuel_refill.
  fold (fuelCollected m). now rewrite Mr, updatePhysics_fuel.
Qed.

Lemma tick_fuel_range (k : Keys.t) (s s' : Game) :
  tick k s = Some s' ->
  0 <= Run.fuel (run s) <= MAX_FUEL -> 0 <= Run.fuel (run s') <= MAX_FUEL.
Proof.
  intros Ht Hr.
  destruct (tick_cases _ _ _ Ht) as [[_ ->] | (_ & m & Hu & ->)];
    [exact Hr|].
  rewrite (frame_refill _ _ _ Hu).
  destruct (controlledFuel_bounds (with_keys k s)) as (B0 & B1 & _).
  simpl_fields_in B0. simpl_fields_in B1.
  destruct (refill_bounds (List.length (fuelCollected m))
              (controlledFuel (with_keys k s))) as (_ & R0 & R1).
  split; [apply R0; lra | apply R1; lra].
Qed.

Lemma run_fuel_range (g s : Game) (ks : list Keys.t) :
  ticks ks (resetGame g) = Some s -> 0 <= Run.fuel (run s) <= MAX_FUEL.
Proof.
  apply (ticks_invariant (fun s => 0 <= Run.fuel (run s) <= MAX_FUEL)).
  - intros k s0 s1 H Hk. eapply tick_fuel_range; eauto.
  - destruct (resetGame_run g) as (-> & _). cbn.
    unfold MAX_FUEL, INITIAL_FUEL. lra.
Qed.

(** C5, as the code has it.  In a frame of a run in progress the physics
    step takes fuel away whenever forward is held and fuel is left, and
    the frame as a whole ends with less fuel than it began with unless a
    fuel pickup is collected in it.  The fuel at the end of the frame is
    the fuel left by the physics step, refilled once for each fuel pickup
    collected, a refill being [Math.min(MAX_FUEL, fuel +
    FUEL_PICKUP_AMOUNT)]; a frame in which a fuel pickup is collected
    ends with at most [MAX_FUEL].  Fuel that is not negative before a
    frame is not negative after it, and after every frame of every run
    the fuel is between 0 and [MAX_FUEL]. *)
Theorem fuel_monotone (k : Keys.t) (s m : Game) :
  Run.gameState (run s) = playing ->
  updateTerrain (updatePhysics (with_keys k s)) = Some m ->
  let s' := finishFrame (checkPickups m) in
  let burnt := Run.fuel (run (updatePhysics (with_keys k s))) in
  let n := List.length (fuelCollected m) in
  tick k s = Some s'
  /\ (Keys.forward k = true -> 0 < Run.fuel (run s) ->
      burnt < Run.fuel (run s)
      /\ (n = O -> Run.fuel (run s') < Run.fuel (run s)))
  /\ Run.fuel (run s') = Nat.iter n refill burnt
  /\ (n <> O -> Run.fuel (run s') <= MAX_FUEL)
  /\ (0 <= Run.fuel (run s) -> 0 <= Run.fuel (run s'))
  /\ (forall g ks,
         ticks ks (resetGame g) = Some s ->
         0 <= Run.fuel (run s') <= MAX_FUEL).
Proof.
  intros Hp Hu s' burnt n.
  assert (Ht : tick k s = Some s').
  { unfold tick. rewrite gameLoop_playing by exact Hp. now rewrite Hu. }
  split; [exact Ht|].
  pose proof (updatePhysics_fuel (with_keys k s)) as Pf. fold burnt in Pf.
  pose proof (frame_refill _ _ _ Hu) as Hf. fold s' n in Hf.
  rewrite <- Pf in Hf.
  destruct (controlledFuel_bounds (with_keys k s)) as (B0 & B1 & B2).
  simpl_fields_in B0. simpl_fields_in B1. simpl_fields_in B2.
  rewrite <- Pf in B0, B1, B2.
  destruct (refill_bounds n burnt) as (R1 & R0 & _).
  split; [|split; [exact Hf|split; [|split]]].
  - intros Hk H0. split; [now apply B2|].
    intros Hn. rewrite Hf, Hn. cbn [Nat.iter nat_rect]. now apply B2.
  - intros Hn. rewrite Hf. now apply R1.
  - intros H0. rewrite Hf. apply R0. now apply B0.
  - intros g ks Hr. apply (tick_fuel_range k s s' Ht).
    exact (run_fuel_range g s ks Hr).
Qed.

Lemma fuel_monotone_witness :
  exists m,
    updateTerrain (updatePhysics (with_keys forwardKey refuelling)) = Some m
    /\ tick forwardKey refuelling = Some (finishFrame (checkPickups m))
    /\ (Keys.forward forwardKey = true -> 0 < Run.fuel (run refuelling) ->
        Run.fuel (run (updatePhysics (with_keys forwardKey refuelling)))
        < Run.fuel (run refuelling)
        /\ (List.length (fuelCollected m) = O ->
            Run.fuel (run (finishFrame (checkPickups m)))
            < Run.fuel (run refuelling)))
    /\ Run.fuel (run (finishFrame (checkPickups m)))
       = Nat.iter (List.length (fuelCollected m)) refill
           (Run.fuel (run (updatePhysics (with_keys forwardKey refuelling))))
    /\ (List.length (fuelCollected m) <> O ->
        Run.fuel (run (finishFrame (checkPickups m))) <= MAX_FUEL)
    /\ (0 <= Run.fuel (run refuelling) ->
        0 <= Run.fuel (run (finishFrame (checkPickups m))))
    /\ (forall g ks,
           ticks ks (resetGame g) = Some refuelling ->
           0 <= Run.fuel (run (finishFrame (checkPickups m))) <= MAX_FUEL).
Proof.
  destruct (wideGround_window (carAt 300 0 0 0) forwardKey (runWith 50 1)
              [{| Pickup.x := 200; Pickup.y := 300;
                  Pickup.collected := false |}] eq_refl) as [Hinv _].
  destruct (gameLoop_window (with_keys forwardKey refuelling) eq_refl Hinv)
    as (m & Hu & _).
  exists m. split; [exact Hu|].
  apply (fuel_monotone forwardKey refuelling m); [reflexivity | exact Hu].
Defined.
